(** * Crossword generation (mobile/src/utils/crosswordGenerator.ts)

    A shallow embedding of the crossword generator of the Wordds app and
    the properties of its specification.

    Modelling conventions.
    - A TypeScript [string] is a list of characters ([JsString]).  The
      model is that of strings of ASCII characters (codes below 128):
      [toUpperCase] and [trim] leave the characters above 127 alone,
      where JavaScript strips U+00A0 as white space and gives SS as the
      capital of U+00DF.  The statements on how the normaliser, the app
      helper and the puzzle screen transform given words carry the
      hypothesis that these words are ASCII ([asciiString]).
    - A TypeScript [number] that holds an integer is a [Z].  The average
      distance of [calculateAverageDistance] is a rational number ([Q]).
    - A grid cell ([string | null]) is an [option ascii]: [None] is [null].
    - The grid is a list of rows.  Reading or writing a cell outside the
      grid leaves the model: the accessors return [None] there (JavaScript
      would throw a [TypeError], read [undefined], or grow the row), and so
      does every function that performs such an access.  [Array(n)] with a
      negative [n] (a [RangeError]) is [None] as well.
    - [console.log] and [console.warn] are dropped; the [console.error]
      line that precedes each [return null] is kept as an [ErrorLine]. *)

From Stdlib Require Import ZArith QArith Ascii String Lia Permutation Sorted.
From stdpp Require Import base option list strings.

Local Open Scope Z_scope.

(** ** Strings *)

Abbreviation JsString := (list ascii).

(** The character list of a string literal. *)
Definition str (s : string) : JsString := list_ascii_of_string s.

Definition code (c : ascii) : Z := Z.of_N (N_of_ascii c).

Definition isLowerAZ (c : ascii) : bool := (97 <=? code c) && (code c <=? 122).
Definition isUpperAZ (c : ascii) : bool := (65 <=? code c) && (code c <=? 90).

(** The white space and line terminators that [String.prototype.trim]
    strips, in the ASCII range: TAB, LF, VT, FF, CR and SPACE. *)
Definition isWhiteSpace (c : ascii) : bool :=
  ((9 <=? code c) && (code c <=? 13)) || (code c =? 32).

Definition upperChar (c : ascii) : ascii :=
  if isLowerAZ c then ascii_of_N (N_of_ascii c - 32) else c.

(** [String.prototype.toUpperCase], on ASCII strings *)
Definition toUpperCase (s : JsString) : JsString := map upperChar s.

Fixpoint trimStart (s : JsString) : JsString :=
  match s with
  | [] => []
  | c :: rest => if isWhiteSpace c then trimStart rest else s
  end.

Fixpoint trimEnd (s : JsString) : JsString :=
  match s with
  | [] => []
  | c :: rest =>
      match trimEnd rest with
      | [] => if isWhiteSpace c then [] else [c]
      | kept => c :: kept
      end
  end.

(** [String.prototype.trim], on ASCII strings *)
Definition trim (s : JsString) : JsString := trimEnd (trimStart s).

(** [/^[A-Z]+$/.test(s)]: one or more characters, each of them in A-Z. *)
Definition testLetters (s : JsString) : bool :=
  match s with
  | [] => false
  | _ => forallb isUpperAZ s
  end.

(** [Array.prototype.sort(cmp)]: a stable sort; an element moves in front
    of another one only when the comparator is negative. *)
Fixpoint insertSorted {A} (cmp : A -> A -> Z) (a : A) (l : list A) : list A :=
  match l with
  | [] => [a]
  | x :: rest => if cmp x a <? 0 then x :: insertSorted cmp a rest else a :: l
  end.

Definition sortBy {A} (cmp : A -> A -> Z) (l : list A) : list A :=
  foldr (insertSorted cmp) [] l.

(** ** Data model *)

Inductive Direction := across | down.

Record WordInput := mkWordInput {
  wi_word : JsString;
  wi_clue : JsString
}.

Record PlacedWord := mkPlacedWord {
  pw_number : Z;
  pw_word : JsString;
  pw_clue : JsString;
  pw_answer : JsString;
  pw_startRow : Z;
  pw_startCol : Z;
  pw_direction : Direction
}.

Definition Cell := option ascii.
Abbreviation Grid := (list (list Cell)).

Record PuzzleGrid := mkPuzzleGrid {
  pg_size : Z;
  pg_words : list PlacedWord;
  pg_grid : Grid
}.

Record WordPlacement := mkWordPlacement {
  wp_word : JsString;
  wp_clue : JsString;
  wp_row : Z;
  wp_col : Z;
  wp_direction : Direction;
  wp_score : Z
}.

Record Options := mkOptions {
  maxAttempts : Z;
  minIntersections : Z;
  gridPadding : Z
}.

Definition defaultOptions : Options :=
  {| maxAttempts := 50; minIntersections := 1; gridPadding := 2 |}.

#[global] Instance Direction_eq_dec : EqDecision Direction.
Proof. solve_decision. Defined.

(** ** Normalisation (generateCrossword, lines 69-75) *)

Definition wordLength (w : WordInput) : Z := Z.of_nat (length (wi_word w)).

Definition normalizeEntry (w : WordInput) : WordInput :=
  {| wi_word := trim (toUpperCase (wi_word w)); wi_clue := trim (wi_clue w) |}.

Definition acceptedWord (w : WordInput) : bool :=
  (2 <=? wordLength w) && testLetters (wi_word w).

Definition normalizeWords (wordInputs : list WordInput) : list WordInput :=
  List.filter acceptedWord (map normalizeEntry wordInputs).

(** The normaliser with the two calls in the other order: trim, then
    uppercase; keep the entries of at least two characters, all of them
    in A-Z. *)
Definition specNormalizeEntry (w : WordInput) : WordInput :=
  {| wi_word := toUpperCase (trim (wi_word w)); wi_clue := trim (wi_clue w) |}.

Definition specAccepted (w : WordInput) : bool :=
  (2 <=? wordLength w) && forallb isUpperAZ (wi_word w).

Definition specNormalize (wordInputs : list WordInput) : list WordInput :=
  List.filter specAccepted (map specNormalizeEntry wordInputs).

(** ** Sorting by length, longest first (lines 84-86) *)

Definition byLengthDesc (a b : WordInput) : Z := wordLength b - wordLength a.

Definition sortWords (ws : list WordInput) : list WordInput := sortBy byLengthDesc ws.

(** Sequencing of partial steps: stop at the first one that leaves the model. *)
Notation "x <- e ;; k" := (match e with Some x => k | None => None end)
  (at level 200, e at level 99, right associativity, only parsing).

(** ** Grid access *)

Definition filled (cell : Cell) : bool :=
  match cell with Some _ => true | None => false end.

(** [cell === ch] for a cell and a one-letter string *)
Definition cellIs (cell : Cell) (ch : ascii) : bool :=
  match cell with Some x => bool_decide (x = ch) | None => false end.

(** [grid[r][c]], inside the grid only. *)
Definition getCell (g : Grid) (r c : Z) : option Cell :=
  if (0 <=? r) && (0 <=? c) then
    cells <- g !! Z.to_nat r ;; cells !! Z.to_nat c
  else None.

(** [grid[r][c] = v], inside the grid only. *)
Definition setCell (g : Grid) (r c : Z) (v : Cell) : option Grid :=
  if (0 <=? r) && (0 <=? c) then
    cells <- g !! Z.to_nat r ;;
    if c <? Z.of_nat (length cells)
    then Some (<[Z.to_nat r := <[Z.to_nat c := v]> cells]> g)
    else None
  else None.

(** [Array(n).fill(null).map(() => Array(n).fill(null))] *)
Definition emptyGrid (n : Z) : Grid :=
  replicate (Z.to_nat n) (replicate (Z.to_nat n) None).

(** Row and column of the [i]-th letter of a word that starts at
    [(row, col)]: [direction === 'across' ? row : row + i] and
    [direction === 'across' ? col + i : col]. *)
Definition cellRow (direction : Direction) (row i : Z) : Z :=
  match direction with across => row | down => row + i end.

Definition cellCol (direction : Direction) (col i : Z) : Z :=
  match direction with across => col + i | down => col end.

(** A loop that threads a state through a list and stops at the first
    access outside the grid. *)
Fixpoint foldM {S A} (f : S -> A -> option S) (s : S) (l : list A) : option S :=
  match l with
  | [] => Some s
  | a :: rest => s' <- f s a ;; foldM f s' rest
  end.

(** The cells visited by two nested counting loops, rows outermost. *)
Definition rangeCells (r0 rows c0 cols : Z) : list (Z * Z) :=
  flat_map (fun r => map (fun c => (r, c)) (seqZ c0 cols)) (seqZ r0 rows).

(** ** findIntersections (lines 227-246) *)

Definition indexed (s : JsString) : list (Z * ascii) :=
  imap (fun i ch => (Z.of_nat i, ch)) s.

Definition findIntersections (currentWord : JsString) (placedWord : WordPlacement)
  : list (Z * Z) :=
  flat_map (fun ia =>
    flat_map (fun jb =>
      if decide (ia.2 = jb.2) then [(ia.1, jb.1)] else [])
      (indexed (wp_word placedWord)))
    (indexed currentWord).

(** ** canPlaceWord (lines 251-313) *)

(** [grid[r][c] !== null] *)
Definition occupied (g : Grid) (r c : Z) : option bool :=
  cell <- getCell g r c ;; Some (filled cell).

(** [cond && grid[r][c] !== null]: the cell is read only under [cond]. *)
Definition occupiedIf (cond : bool) (g : Grid) (r c : Z) : option bool :=
  if cond then occupied g r c else Some false.

(** The two neighbours of a new cell, perpendicular to the word. *)
Definition sideBlocked (g : Grid) (gridSize : Z) (direction : Direction) (r c : Z)
  : option bool :=
  match direction with
  | across =>
      above <- occupiedIf (0 <? r) g (r - 1) c ;;
      if above then Some true else occupiedIf (r <? gridSize - 1) g (r + 1) c
  | down =>
      beside <- occupiedIf (0 <? c) g r (c - 1) ;;
      if beside then Some true else occupiedIf (c <? gridSize - 1) g r (c + 1)
  end.

(** The loop over the cells of the word, from letter [i] on. *)
Fixpoint checkCells (g : Grid) (gridSize row col : Z) (direction : Direction)
    (i : Z) (letters : JsString) : option bool :=
  match letters with
  | [] => Some true
  | ch :: rest =>
      let r := cellRow direction row i in
      let c := cellCol direction col i in
      cell <- getCell g r c ;;
      if filled cell && negb (cellIs cell ch) then Some false
      else
        blocked <- (if filled cell then Some false
                   else sideBlocked g gridSize direction r c) ;;
        if blocked then Some false
        else checkCells g gridSize row col direction (i + 1) rest
  end.

(** The cell before the first letter and the cell after the last one. *)
Definition endsBlocked (g : Grid) (gridSize len row col : Z) (direction : Direction)
  : option bool :=
  match direction with
  | across =>
      before <- occupiedIf (0 <? col) g row (col - 1) ;;
      if before then Some true
      else occupiedIf (col + len <? gridSize) g row (col + len)
  | down =>
      before <- occupiedIf (0 <? row) g (row - 1) col ;;
      if before then Some true
      else occupiedIf (row + len <? gridSize) g (row + len) col
  end.

Definition outOfBounds (gridSize len row col : Z) (direction : Direction) : bool :=
  match direction with
  | across => (row <? 0) || (gridSize <=? row) || (col <? 0) || (gridSize <? col + len)
  | down => (col <? 0) || (gridSize <=? col) || (row <? 0) || (gridSize <? row + len)
  end.

Definition canPlaceWord (g : Grid) (word : JsString) (row col : Z)
    (direction : Direction) : option bool :=
  let gridSize := Z.of_nat (length g) in
  let len := Z.of_nat (length word) in
  if outOfBounds gridSize len row col direction then Some false
  else
    fits <- checkCells g gridSize row col direction 0 word ;;
    if fits then
      blocked <- endsBlocked g gridSize len row col direction ;;
      Some (negb blocked)
    else Some false.

(** ** placeWord (lines 318-331) *)

Fixpoint placeLetters (g : Grid) (row col : Z) (direction : Direction)
    (i : Z) (letters : JsString) : option Grid :=
  match letters with
  | [] => Some g
  | ch :: rest =>
      g' <- setCell g (cellRow direction row i) (cellCol direction col i) (Some ch) ;;
      placeLetters g' row col direction (i + 1) rest
  end.

Definition placeWord (g : Grid) (wordInput : WordInput) (row col : Z)
    (direction : Direction) : option Grid :=
  placeLetters g row col direction 0 (wi_word wordInput).

(** ** calculateAverageDistance and scorePlacement (lines 337-390) *)

Definition totalDistance (row col : Z) (placedWords : list WordPlacement) : Z :=
  fold_left (fun total w => total + (Z.abs (row - wp_row w) + Z.abs (col - wp_col w)))
    placedWords 0.

Definition calculateAverageDistance (row col : Z) (placedWords : list WordPlacement) : Q :=
  match placedWords with
  | [] => inject_Z 0
  | _ => Qdiv (inject_Z (totalDistance row col placedWords))
              (inject_Z (Z.of_nat (length placedWords)))
  end.

Definition Qltb (x y : Q) : bool := negb (Qle_bool y x).

(** The loop that adds 10 for every cell that already holds the letter. *)
Fixpoint scoreCells (g : Grid) (row col : Z) (direction : Direction)
    (i : Z) (letters : JsString) (score : Z) : option Z :=
  match letters with
  | [] => Some score
  | ch :: rest =>
      cell <- getCell g (cellRow direction row i) (cellCol direction col i) ;;
      scoreCells g row col direction (i + 1) rest
        (if cellIs cell ch then score + 10 else score)
  end.

Definition densityBonus (avgDistance : Q) (score : Z) : Z :=
  let score := if Qltb avgDistance (inject_Z 5) then score + 5 else score in
  if Qltb avgDistance (inject_Z 3) then score + 5 else score.

Definition longWordPenalty (word : JsString) (score : Z) : Z :=
  if (6 <? Z.of_nat (length word)) && (score <? 10) then score - 5 else score.

Definition scorePlacement (g : Grid) (word : JsString) (row col : Z)
    (direction : Direction) (placedWords : list WordPlacement) : option Z :=
  score <- scoreCells g row col direction 0 word 0 ;;
  let avgDistance := calculateAverageDistance row col placedWords in
  Some (longWordPenalty word (densityBonus avgDistance score)).

(** ** The placement loop (lines 117-200) *)

Definition perpendicular (direction : Direction) : Direction :=
  match direction with across => down | down => across end.

(** The candidate of one intersection: no entry when [canPlaceWord]
    rejects the position, the scored placement otherwise. *)
Definition candidateFor (g : Grid) (currentWord : WordInput)
    (placedWords : list WordPlacement) (placedWord : WordPlacement)
    (intersection : Z * Z) : option (list WordPlacement) :=
  let currentWordIndex := intersection.1 in
  let placedWordIndex := intersection.2 in
  let direction := perpendicular (wp_direction placedWord) in
  let row := match direction with
             | across => wp_row placedWord + placedWordIndex
             | down => wp_row placedWord - currentWordIndex
             end in
  let col := match direction with
             | across => wp_col placedWord - currentWordIndex
             | down => wp_col placedWord + placedWordIndex
             end in
  ok <- canPlaceWord g (wi_word currentWord) row col direction ;;
  if ok then
    score <- scorePlacement g (wi_word currentWord) row col direction placedWords ;;
    Some [ {| wp_word := wi_word currentWord; wp_clue := wi_clue currentWord;
              wp_row := row; wp_col := col; wp_direction := direction;
              wp_score := score |} ]
  else Some [].

(** A loop that pushes onto one output array. *)
Fixpoint collect {A B} (f : A -> option (list B)) (l : list A) : option (list B) :=
  match l with
  | [] => Some []
  | a :: rest => found <- f a ;; more <- collect f rest ;; Some (found ++ more)
  end.

(** One pass of the [while] loop body: the candidate pool. *)
Definition findCandidates (g : Grid) (currentWord : WordInput)
    (placedWords : list WordPlacement) : option (list WordPlacement) :=
  collect (fun placedWord =>
             collect (candidateFor g currentWord placedWords placedWord)
                     (findIntersections (wi_word currentWord) placedWord))
          placedWords.

Definition byScoreDesc (a b : WordPlacement) : Z := wp_score b - wp_score a.

(** [while (attempts < maxAttempts && !bestPlacement)]; [attemptsLeft]
    counts the iterations that remain. *)
Fixpoint findBestPlacement (attemptsLeft : nat) (options : Options) (g : Grid)
    (currentWord : WordInput) (placedWords : list WordPlacement)
  : option (option WordPlacement) :=
  match attemptsLeft with
  | O => Some None
  | S remaining =>
      candidates <- findCandidates g currentWord placedWords ;;
      match sortBy byScoreDesc candidates with
      | best :: _ =>
          if minIntersections options <=? wp_score best then Some (Some best)
          else findBestPlacement remaining options g currentWord placedWords
      | [] => findBestPlacement remaining options g currentWord placedWords
      end
  end.

(** The working grid and the words placed so far. *)
Record Engine := mkEngine {
  en_grid : Grid;
  en_placed : list WordPlacement
}.

(** The body of the [for] loop over the remaining words. *)
Definition tryPlaceWord (options : Options) (st : Engine) (currentWord : WordInput)
  : option Engine :=
  bestPlacement <- findBestPlacement (Z.to_nat (maxAttempts options)) options
                     (en_grid st) currentWord (en_placed st) ;;
  match bestPlacement with
  | Some best =>
      g' <- placeWord (en_grid st) currentWord (wp_row best) (wp_col best)
              (wp_direction best) ;;
      Some {| en_grid := g'; en_placed := en_placed st ++ [best] |}
  | None => Some st
  end.

(** Lines 90-113: the working grid with the anchor word. *)
Definition placeAnchor (firstWord : WordInput) : option Engine :=
  let maxWordLength := wordLength firstWord in
  let initialGridSize := Z.max 30 (maxWordLength * 3) in
  let centerRow := initialGridSize / 2 in
  let centerCol := (initialGridSize - wordLength firstWord) / 2 in
  g <- placeWord (emptyGrid initialGridSize) firstWord centerRow centerCol across ;;
  Some {| en_grid := g;
          en_placed := [ {| wp_word := wi_word firstWord; wp_clue := wi_clue firstWord;
                            wp_row := centerRow; wp_col := centerCol;
                            wp_direction := across; wp_score := 0 |} ] |}.

(** Lines 90-200: anchor, then every other word in sorted order. *)
Definition placeWords (options : Options) (sortedWords : list WordInput)
  : option Engine :=
  match sortedWords with
  | [] => None
  | firstWord :: others =>
      st <- placeAnchor firstWord ;; foldM (tryPlaceWord options) st others
  end.

(** ** compactGrid (lines 395-456) *)

Record Bounds := mkBounds {
  minRow : Z;
  maxRow : Z;
  minCol : Z;
  maxCol : Z
}.

Definition scanCell (g : Grid) (b : Bounds) (rc : Z * Z) : option Bounds :=
  cell <- getCell g rc.1 rc.2 ;;
  Some (if filled cell
        then {| minRow := Z.min (minRow b) rc.1; maxRow := Z.max (maxRow b) rc.1;
                minCol := Z.min (minCol b) rc.2; maxCol := Z.max (maxCol b) rc.2 |}
        else b).

Definition copyCell (g : Grid) (minR minC : Z) (newGrid : Grid) (rc : Z * Z)
  : option Grid :=
  cell <- getCell g rc.1 rc.2 ;;
  setCell newGrid (rc.1 - minR) (rc.2 - minC) cell.

Definition shiftWord (minR minC : Z) (w : WordPlacement) : WordPlacement :=
  {| wp_word := wp_word w; wp_clue := wp_clue w;
     wp_row := wp_row w - minR; wp_col := wp_col w - minC;
     wp_direction := wp_direction w; wp_score := wp_score w |}.

Record Compacted := mkCompacted {
  cp_size : Z;
  cp_grid : Grid;
  cp_words : list WordPlacement
}.

Definition compactGrid (g : Grid) (words : list WordPlacement) : option Compacted :=
  let gridSize := Z.of_nat (length g) in
  found <- foldM (scanCell g)
             {| minRow := gridSize; maxRow := -1; minCol := gridSize; maxCol := -1 |}
             (rangeCells 0 gridSize 0 gridSize) ;;
  let padding := 0 in
  let minRow := Z.max 0 (minRow found - padding) in
  let maxRow := Z.min (gridSize - 1) (maxRow found + padding) in
  let minCol := Z.max 0 (minCol found - padding) in
  let maxCol := Z.min (gridSize - 1) (maxCol found + padding) in
  let newSize := Z.max (maxRow - minRow + 1) (maxCol - minCol + 1) in
  if newSize <? 0 then None
  else
    newGrid <- foldM (copyCell g minRow minCol) (emptyGrid newSize)
                 (rangeCells minRow (maxRow - minRow + 1) minCol (maxCol - minCol + 1)) ;;
    Some {| cp_size := newSize; cp_grid := newGrid;
            cp_words := map (shiftWord minRow minCol) words |}.

(** ** assignClueNumbers (lines 462-504) *)

(** A start position; the source keys its [Map] by the string
    [`${row},${col}`] and parses the two integers back when it sorts. *)
Definition Position := (Z * Z)%type.

Definition startKey (w : WordPlacement) : Position := (wp_row w, wp_col w).

(** A [Map] keeps its entries in insertion order.  [pushAt] is
    [if (!m.has(key)) m.set(key, []); m.get(key).push(w)]. *)
Abbreviation StartMap := (list (Position * list WordPlacement)).

Fixpoint pushAt (key : Position) (w : WordPlacement) (m : StartMap) : StartMap :=
  match m with
  | [] => [(key, [w])]
  | (k, ws) :: rest =>
      if decide (k = key) then (k, ws ++ [w]) :: rest
      else (k, ws) :: pushAt key w rest
  end.

Definition groupByStart (words : list WordPlacement) : StartMap :=
  fold_left (fun m w => pushAt (startKey w) w m) words [].

Definition readingOrder (a b : Position * list WordPlacement) : Z :=
  if decide (a.1.1 = b.1.1) then a.1.2 - b.1.2 else a.1.1 - b.1.1.

Definition numbered (clueNumber : Z) (w : WordPlacement) : PlacedWord :=
  {| pw_number := clueNumber; pw_word := wp_word w; pw_clue := wp_clue w;
     pw_answer := wp_word w; pw_startRow := wp_row w; pw_startCol := wp_col w;
     pw_direction := wp_direction w |}.

Fixpoint numberFrom (clueNumber : Z) (entries : StartMap) : list PlacedWord :=
  match entries with
  | [] => []
  | (_, wordsAtPosition) :: rest =>
      map (numbered clueNumber) wordsAtPosition ++ numberFrom (clueNumber + 1) rest
  end.

Definition assignClueNumbers (words : list WordPlacement) : list PlacedWord :=
  numberFrom 1 (sortBy readingOrder (groupByStart words)).

(** ** generateCrossword (lines 49-221) *)

(** The three [console.error] lines, one before each [return null]. *)
Inductive ErrorLine :=
  | NoWordsProvided          (* '[Crossword] No words provided' *)
  | NoValidWords             (* '[Crossword] No valid words after normalization' *)
  | TooFewWordsPlaced.       (* '[Crossword] Too few words placed to create valid puzzle' *)

(** A run: the value returned, and for [null] the line logged before it. *)
Inductive Outcome :=
  | Generated (p : PuzzleGrid)
  | Failed (e : ErrorLine).

Definition generateTraced (wordInputs : list WordInput) (options : Options)
  : option Outcome :=
  match wordInputs with
  | [] => Some (Failed NoWordsProvided)
  | _ =>
      let normalizedWords := normalizeWords wordInputs in
      match normalizedWords with
      | [] => Some (Failed NoValidWords)
      | _ =>
          let sortedWords := sortWords normalizedWords in
          st <- placeWords options sortedWords ;;
          if Z.of_nat (length (en_placed st)) <? Z.min 3 (Z.of_nat (length sortedWords))
          then Some (Failed TooFewWordsPlaced)
          else
            compacted <- compactGrid (en_grid st) (en_placed st) ;;
            let numberedWords := assignClueNumbers (cp_words compacted) in
            Some (Generated {| pg_size := cp_size compacted;
                               pg_words := numberedWords;
                               pg_grid := cp_grid compacted |})
      end
  end.

(** What the caller receives: a [PuzzleGrid], or [null]. *)
Definition returned (o : Outcome) : option PuzzleGrid :=
  match o with Generated p => Some p | Failed _ => None end.

Definition generateCrossword (wordInputs : list WordInput) (options : Options)
  : option (option PuzzleGrid) :=
  o <- generateTraced wordInputs options ;; Some (returned o).

(** ** Predicates of the specification *)

(** A grid of [n] rows of [n] cells. *)
Definition square (n : Z) (g : Grid) : Prop :=
  Z.of_nat (length g) = n /\ Forall (fun cells => Z.of_nat (length cells) = n) g.

(** The span of a word of [len] letters lies inside a grid of side [n]
    (the negation of the bounds test of [canPlaceWord]). *)
Definition spanInside (n len row col : Z) (direction : Direction) : Prop :=
  match direction with
  | across => 0 <= row < n /\ 0 <= col /\ col + len <= n
  | down => 0 <= col < n /\ 0 <= row /\ row + len <= n
  end.

(** Cell [(r, c)] is the cell of letter [k] of a word that starts at
    [(row, col)]. *)
Definition spanCell (row col : Z) (direction : Direction) (k : nat) (r c : Z) : Prop :=
  r = cellRow direction row (Z.of_nat k) /\ c = cellCol direction col (Z.of_nat k).

(** Every cell of the span of [word] holds the letter of [word] there. *)
Definition holdsWord (g : Grid) (word : JsString) (row col : Z)
    (direction : Direction) : Prop :=
  forall k ch, word !! k = Some ch ->
    getCell g (cellRow direction row (Z.of_nat k)) (cellCol direction col (Z.of_nat k))
    = Some (Some ch).

(** ** The placement score as the specification words it *)

(** Cell [k] of the span already holds letter [k] of the word. *)
Definition holdsLetterAt (g : Grid) (word : JsString) (row col : Z)
    (direction : Direction) (k : nat) : bool :=
  match word !! k,
        getCell g (cellRow direction row (Z.of_nat k)) (cellCol direction col (Z.of_nat k))
  with
  | Some ch, Some cell => cellIs cell ch
  | _, _ => false
  end.

Definition intersectionCount (g : Grid) (word : JsString) (row col : Z)
    (direction : Direction) : Z :=
  Z.of_nat (length (List.filter (holdsLetterAt g word row col direction)
                                (seq 0 (length word)))).

Definition manhattan (row col : Z) (w : WordPlacement) : Z :=
  Z.abs (row - wp_row w) + Z.abs (col - wp_col w).

(** Sum of the distances over the number of placed words. *)
Definition specAverageDistance (row col : Z) (placedWords : list WordPlacement) : Q :=
  Qdiv (inject_Z (foldr Z.add 0 (map (manhattan row col) placedWords)))
       (inject_Z (Z.of_nat (length placedWords))).

Definition specScore (g : Grid) (word : JsString) (row col : Z)
    (direction : Direction) (placedWords : list WordPlacement) : Z :=
  let average := specAverageDistance row col placedWords in
  let soFar := 10 * intersectionCount g word row col direction
               + (if Qlt_le_dec average (inject_Z 5) then 5 else 0)
               + (if Qlt_le_dec average (inject_Z 3) then 5 else 0) in
  if decide (6 < Z.of_nat (length word) /\ soFar < 10) then soFar - 5 else soFar.

(** ** The invariant of the working grid *)

Definition holdsPlacement (g : Grid) (p : WordPlacement) : Prop :=
  holdsWord g (wp_word p) (wp_row p) (wp_col p) (wp_direction p).

(** Every filled cell is a letter of a placed word. *)
Definition coveredBy (g : Grid) (placedWords : list WordPlacement) : Prop :=
  forall r c ch, getCell g r c = Some (Some ch) ->
    exists p k, p ∈ placedWords /\ wp_word p !! k = Some ch /\
                spanCell (wp_row p) (wp_col p) (wp_direction p) k r c.

Definition consistent (n : Z) (st : Engine) : Prop :=
  square n (en_grid st) /\
  Forall (holdsPlacement (en_grid st)) (en_placed st) /\
  coveredBy (en_grid st) (en_placed st).

(** Two words have a letter in common. *)
Definition shareLetter (a b : JsString) : Prop := exists ch, ch ∈ a /\ ch ∈ b.

(** What [candidateFor] pushes: the current word at a position that
    [canPlaceWord] accepts, with the score of [scorePlacement]; letter
    [i] of the word falls on letter [j] of the placed word. *)
Definition candidateOf (g : Grid) (currentWord : WordInput)
    (placedWords : list WordPlacement) (placedWord : WordPlacement)
    (i j : nat) (cand : WordPlacement) : Prop :=
  wp_word cand = wi_word currentWord /\
  wp_clue cand = wi_clue currentWord /\
  canPlaceWord g (wi_word currentWord) (wp_row cand) (wp_col cand) (wp_direction cand)
    = Some true /\
  scorePlacement g (wi_word currentWord) (wp_row cand) (wp_col cand) (wp_direction cand)
    placedWords = Some (wp_score cand) /\
  (exists ch, wi_word currentWord !! i = Some ch /\ wp_word placedWord !! j = Some ch) /\
  cellRow (wp_direction cand) (wp_row cand) (Z.of_nat i)
    = cellRow (wp_direction placedWord) (wp_row placedWord) (Z.of_nat j) /\
  cellCol (wp_direction cand) (wp_col cand) (Z.of_nat i)
    = cellCol (wp_direction placedWord) (wp_col placedWord) (Z.of_nat j).

(** The record that [generateCrossword] pushes for the anchor word. *)
Definition anchorPlacement (firstWord : WordInput) : WordPlacement :=
  let initialGridSize := Z.max 30 (wordLength firstWord * 3) in
  {| wp_word := wi_word firstWord; wp_clue := wi_clue firstWord;
     wp_row := initialGridSize / 2;
     wp_col := (initialGridSize - wordLength firstWord) / 2;
     wp_direction := across; wp_score := 0 |}.

(** ** Content and bounding box *)

Definition inArea (n r c : Z) : Prop := 0 <= r < n /\ 0 <= c < n.

Definition filledAt (g : Grid) (r c : Z) : Prop :=
  exists ch, getCell g r c = Some (Some ch).

(** Every cell of the [n] by [n] area can be read. *)
Definition readable (n : Z) (g : Grid) : Prop :=
  forall r c, inArea n r c -> is_Some (getCell g r c).

Definition hasContent (n : Z) (g : Grid) : Prop :=
  exists r c, inArea n r c /\ filledAt g r c.

(** [b] is the bounding box of the filled cells of the area. *)
Definition tight (n : Z) (g : Grid) (b : Bounds) : Prop :=
  (forall r c, inArea n r c -> filledAt g r c ->
     minRow b <= r <= maxRow b /\ minCol b <= c <= maxCol b) /\
  (exists c, inArea n (minRow b) c /\ filledAt g (minRow b) c) /\
  (exists c, inArea n (maxRow b) c /\ filledAt g (maxRow b) c) /\
  (exists r, inArea n r (minCol b) /\ filledAt g r (minCol b)) /\
  (exists r, inArea n r (maxCol b) /\ filledAt g r (maxCol b)).

(** The state of the scanning loop after the cells [done]. *)
Definition scanned (g : Grid) (init b : Bounds) (done : list (Z * Z)) : Prop :=
  (forall r c, In (r, c) done -> filledAt g r c ->
     minRow b <= r <= maxRow b /\ minCol b <= c <= maxCol b) /\
  (minRow b = minRow init \/ exists c, In (minRow b, c) done /\ filledAt g (minRow b) c) /\
  (maxRow b = maxRow init \/ exists c, In (maxRow b, c) done /\ filledAt g (maxRow b) c) /\
  (minCol b = minCol init \/ exists r, In (r, minCol b) done /\ filledAt g r (minCol b)) /\
  (maxCol b = maxCol init \/ exists r, In (r, maxCol b) done /\ filledAt g r (maxCol b)).

(** ** Clue numbering as the specification words it *)

(** Reading order: row ascending, then column ascending. *)
Definition readsBefore (p q : Position) : Prop :=
  p.1 < q.1 \/ (p.1 = q.1 /\ p.2 < q.2).

(** The records that start at [p], in their order in [words]. *)
Definition wordsAt (p : Position) (words : list WordPlacement) : list WordPlacement :=
  List.filter (fun w => bool_decide (startKey w = p)) words.

(** Position number [i] (from 0) gives number [i + 1] to all its records. *)
Definition specNumbering (words : list WordPlacement) (positions : list Position)
  : list PlacedWord :=
  concat (imap (fun i p => map (numbered (Z.of_nat i + 1)) (wordsAt p words)) positions).

(** ** States of the placement loop *)

(** The states of the working grid that the placement loop goes through:
    the grid with the anchor word, and every state after an attempt to
    place one more word. *)
Inductive Reachable (options : Options) : Engine -> Prop :=
  | reach_anchor firstWord st :
      placeAnchor firstWord = Some st -> Reachable options st
  | reach_step st currentWord st' :
      Reachable options st ->
      tryPlaceWord options st currentWord = Some st' ->
      Reachable options st'.

(** The score before the test of the long-word penalty. *)
Definition scoreBeforePenalty (g : Grid) (word : JsString) (row col : Z)
    (direction : Direction) (placedWords : list WordPlacement) : option Z :=
  score <- scoreCells g row col direction 0 word 0 ;;
  Some (densityBonus (calculateAverageDistance row col placedWords) score).

(** ** Borders of the returned grid *)

Definition rowEmpty (g : Grid) (r : Z) : Prop := forall c, ~ filledAt g r c.
Definition colEmpty (g : Grid) (c : Z) : Prop := forall r, ~ filledAt g r c.

(** No border row and no border column is fully empty. *)
Definition noEmptyBorder (p : PuzzleGrid) : Prop :=
  ~ rowEmpty (pg_grid p) 0 /\ ~ rowEmpty (pg_grid p) (pg_size p - 1) /\
  ~ colEmpty (pg_grid p) 0 /\ ~ colEmpty (pg_grid p) (pg_size p - 1).

(** The shape of every run. *)
Inductive RunShape (wordInputs : list WordInput) (options : Options)
  : option Outcome -> Prop :=
  | run_empty :
      wordInputs = [] ->
      RunShape wordInputs options (Some (Failed NoWordsProvided))
  | run_invalid :
      wordInputs <> [] -> normalizeWords wordInputs = [] ->
      RunShape wordInputs options (Some (Failed NoValidWords))
  | run_few firstWord others st n :
      sortWords (normalizeWords wordInputs) = firstWord :: others ->
      placeWords options (firstWord :: others) = Some st ->
      consistent n st ->
      (exists more, en_placed st = anchorPlacement firstWord :: more) ->
      Z.of_nat (length (en_placed st)) < Z.min 3 (Z.of_nat (length (firstWord :: others))) ->
      RunShape wordInputs options (Some (Failed TooFewWordsPlaced))
  | run_success firstWord others st n b G :
      sortWords (normalizeWords wordInputs) = firstWord :: others ->
      placeWords options (firstWord :: others) = Some st ->
      consistent n st ->
      (exists more, en_placed st = anchorPlacement firstWord :: more) ->
      Z.min 3 (Z.of_nat (length (firstWord :: others))) <= Z.of_nat (length (en_placed st)) ->
      tight n (en_grid st) b ->
      square (Z.max (maxRow b - minRow b + 1) (maxCol b - minCol b + 1)) G ->
      (forall i j,
         inArea (Z.max (maxRow b - minRow b + 1) (maxCol b - minCol b + 1)) i j ->
         getCell G i j
         = if decide (i <= maxRow b - minRow b /\ j <= maxCol b - minCol b)
           then getCell (en_grid st) (i + minRow b) (j + minCol b)
           else Some None) ->
      RunShape wordInputs options
        (Some (Generated
           {| pg_size := Z.max (maxRow b - minRow b + 1) (maxCol b - minCol b + 1);
              pg_words := assignClueNumbers
                            (map (shiftWord (minRow b) (minCol b)) (en_placed st));
              pg_grid := G |})).

(** ** Inputs of the scenarios *)

Definition inputAB : list WordInput := [mkWordInput (str "AB") (str "x")].

Definition inputDisjoint : list WordInput :=
  [mkWordInput (str "BCD") (str "a"); mkWordInput (str "FGH") (str "b");
   mkWordInput (str "JKL") (str "c")].

(** The puzzle returned for [inputAB]. *)
Definition puzzleAB : PuzzleGrid :=
  {| pg_size := 2;
     pg_words := [ {| pw_number := 1; pw_word := str "AB"; pw_clue := str "x";
                      pw_answer := str "AB"; pw_startRow := 0; pw_startCol := 0;
                      pw_direction := across |} ];
     pg_grid := [[Some "A"%char; Some "B"%char]; [None; None]] |}.

(** The working grid with the anchor word AB, and the candidate pool of a
    word of eight letters on it. *)
Definition stateAB : Engine :=
  default (mkEngine [] []) (placeAnchor (mkWordInput (str "AB") (str "x"))).

Definition wordLong : WordInput := mkWordInput (str "ABACABAD") (str "y").

Definition poolLong : list WordPlacement :=
  default [] (findCandidates (en_grid stateAB) wordLong (en_placed stateAB)).

(** A grid of side 3 with one letter. *)
Definition gridA : Grid :=
  [[None; Some "A"%char; None]; [None; None; None]; [None; None; None]].

(** ** Further predicates *)

(** A cell that holds no letter: [null], or a position outside the grid. *)
Definition vacant (g : Grid) (r c : Z) : Prop := ~ filledAt g r c.

(** The two neighbours of [(r, c)] on either side of a word that runs in
    [direction] hold no letter. *)
Definition sidesVacant (g : Grid) (direction : Direction) (r c : Z) : Prop :=
  match direction with
  | across => vacant g (r - 1) c /\ vacant g (r + 1) c
  | down => vacant g r (c - 1) /\ vacant g r (c + 1)
  end.

(** The four validation rules of [canPlaceWord]: the span lies in the
    grid; every cell of the span holds the letter of the word, or is
    empty with vacant neighbours on both sides; the cell before the first
    letter and the cell after the last one are vacant. *)
Definition placeable (n : Z) (g : Grid) (word : JsString) (row col : Z)
    (direction : Direction) : Prop :=
  spanInside n (Z.of_nat (length word)) row col direction /\
  (forall k ch, word !! k = Some ch ->
     let r := cellRow direction row (Z.of_nat k) in
     let c := cellCol direction col (Z.of_nat k) in
     getCell g r c = Some (Some ch) \/
     (getCell g r c = Some None /\ sidesVacant g direction r c)) /\
  vacant g (cellRow direction row (-1)) (cellCol direction col (-1)) /\
  vacant g (cellRow direction row (Z.of_nat (length word)))
           (cellCol direction col (Z.of_nat (length word))).

(** The input entry of a placement record. *)
Definition entryOf (p : WordPlacement) : WordInput :=
  {| wi_word := wp_word p; wi_clue := wp_clue p |}.

(** The start cell of a numbered word. *)
Definition startOf (w : PlacedWord) : Position := (pw_startRow w, pw_startCol w).

(** The input entry of a numbered word. *)
Definition entryOfPlaced (w : PlacedWord) : WordInput :=
  {| wi_word := pw_word w; wi_clue := pw_clue w |}.

(** The cell before the first letter of the record and the cell after
    its last letter hold no letter. *)
Definition capped (g : Grid) (p : WordPlacement) : Prop :=
  vacant g (cellRow (wp_direction p) (wp_row p) (-1))
           (cellCol (wp_direction p) (wp_col p) (-1)) /\
  vacant g (cellRow (wp_direction p) (wp_row p) (Z.of_nat (length (wp_word p))))
           (cellCol (wp_direction p) (wp_col p) (Z.of_nat (length (wp_word p)))).

(** The same for a numbered word of the output. *)
Definition cappedWord (g : Grid) (w : PlacedWord) : Prop :=
  vacant g (cellRow (pw_direction w) (pw_startRow w) (-1))
           (cellCol (pw_direction w) (pw_startCol w) (-1)) /\
  vacant g (cellRow (pw_direction w) (pw_startRow w) (Z.of_nat (length (pw_answer w))))
           (cellCol (pw_direction w) (pw_startCol w) (Z.of_nat (length (pw_answer w)))).

(** The invariant of a run over words of decreasing length: the state is
    consistent, every placed word is capped and has at least [bound]
    letters. *)
Definition cappedState (n bound : Z) (st : Engine) : Prop :=
  consistent n st /\
  Forall (capped (en_grid st)) (en_placed st) /\
  Forall (fun p => bound <= Z.of_nat (length (wp_word p))) (en_placed st).

(** An input that holds the word RARE twice, under two clues, and the
    two records of the puzzle returned for it that carry this word. *)
Definition inputTwice : list WordInput :=
  [mkWordInput (str "AREA") (str "x"); mkWordInput (str "RARE") (str "y");
   mkWordInput (str "RARE") (str "z")].

Definition rareY : PlacedWord :=
  {| pw_number := 2; pw_word := str "RARE"; pw_clue := str "y"; pw_answer := str "RARE";
     pw_startRow := 0; pw_startCol := 1; pw_direction := down |}.

Definition rareZ : PlacedWord :=
  {| pw_number := 2; pw_word := str "RARE"; pw_clue := str "z"; pw_answer := str "RARE";
     pw_startRow := 0; pw_startCol := 1; pw_direction := down |}.

Definition puzzleTwice : PuzzleGrid :=
  {| pg_size := 4;
     pg_words :=
       [{| pw_number := 1; pw_word := str "AREA"; pw_clue := str "x";
           pw_answer := str "AREA"; pw_startRow := 0; pw_startCol := 0;
           pw_direction := across |};
        rareY; rareZ];
     pg_grid :=
       [[Some "A"%char; Some "R"%char; Some "E"%char; Some "A"%char];
        [None; Some "A"%char; None; None];
        [None; Some "R"%char; None; None];
        [None; Some "E"%char; None; None]] |}.

(** ** validatePuzzle (crosswordVisualization) *)

(** The messages pushed to [errors], with the values interpolated into
    them: [Word n extends beyond grid bounds], [Word n has incorrect
    letter at position i], [Clue number n used by k words], [Clue number
    n used at different positions], [Grid dimensions don't match size
    property]. *)
Inductive ValidationError : Type :=
  | BeyondBounds (clueNumber : Z)
  | IncorrectLetter (clueNumber position : Z)
  | NumberUsedBy (clueNumber : Z) (count : nat)
  | DifferentPositions (clueNumber : Z)
  | DimensionMismatch.

Record Validation := mkValidation {
  va_valid : bool;
  va_errors : list ValidationError
}.

(** The value of [grid[r][c]] in an expression that only reads it:
    [undefined] when row [r] has no column [c]. *)
Inductive Loose : Type :=
  | Undefined
  | Held (cell : Cell).

(** [puzzle.grid[r][c]]: nothing is produced when [grid[r]] is
    [undefined] (reading a property of it throws). *)
Definition readLoose (g : Grid) (r c : Z) : option Loose :=
  if 0 <=? r then
    cells <- g !! Z.to_nat r ;;
    Some (if 0 <=? c
          then match cells !! Z.to_nat c with
               | Some cell => Held cell
               | None => Undefined
               end
          else Undefined)
  else None.

(** [value === ch] for a one-letter string [ch]. *)
Definition looseIs (value : Loose) (ch : ascii) : bool :=
  match value with
  | Held cell => cellIs cell ch
  | Undefined => false
  end.

(** Check 1, the loop over the letters of one word. *)
Fixpoint checkLetters (size : Z) (g : Grid) (word : PlacedWord) (i : Z)
    (letters : JsString) (errors : list ValidationError)
    : option (list ValidationError) :=
  match letters with
  | [] => Some errors
  | ch :: rest =>
      let r := cellRow (pw_direction word) (pw_startRow word) i in
      let c := cellCol (pw_direction word) (pw_startCol word) i in
      if (size <=? r) || (size <=? c)
      then checkLetters size g word (i + 1) rest
             (errors ++ [BeyondBounds (pw_number word)])
      else
        value <- readLoose g r c ;;
        checkLetters size g word (i + 1) rest
          (if looseIs value ch then errors
           else errors ++ [IncorrectLetter (pw_number word) i])
  end.

Definition checkWordCells (size : Z) (g : Grid) (errors : list ValidationError)
    (word : PlacedWord) : option (list ValidationError) :=
  checkLetters size g word 0 (pw_answer word) errors.

(** Check 2: the [Map] from clue numbers to the words that carry them, in
    insertion order. *)
Abbreviation NumberMap := (list (Z * list PlacedWord)).

Fixpoint pushNumber (key : Z) (w : PlacedWord) (m : NumberMap) : NumberMap :=
  match m with
  | [] => [(key, [w])]
  | (k, ws) :: rest =>
      if decide (k = key) then (k, ws ++ [w]) :: rest
      else (k, ws) :: pushNumber key w rest
  end.

Definition groupByNumber (words : list PlacedWord) : NumberMap :=
  fold_left (fun m w => pushNumber (pw_number w) w m) words [].

Definition checkNumber (errors : list ValidationError) (entry : Z * list PlacedWord)
    : list ValidationError :=
  let errors1 :=
    if (2 <? length entry.2)%nat
    then errors ++ [NumberUsedBy entry.1 (length entry.2)]
    else errors in
  match entry.2 with
  | [first; second] =>
      if negb (pw_startRow first =? pw_startRow second)
         || negb (pw_startCol first =? pw_startCol second)
      then errors1 ++ [DifferentPositions entry.1]
      else errors1
  | _ => errors1
  end.

(** Check 3: [grid.length !== size || grid[0].length !== size]; the
    second operand reads [grid[0]], which is [undefined] for an empty
    grid. *)
Definition dimensionsDiffer (size : Z) (g : Grid) : option bool :=
  if negb (Z.of_nat (length g) =? size) then Some true
  else match g with
       | [] => None
       | cells :: _ => Some (negb (Z.of_nat (length cells) =? size))
       end.

Definition validatePuzzle (puzzle : PuzzleGrid) : option Validation :=
  errors1 <- foldM (checkWordCells (pg_size puzzle) (pg_grid puzzle)) [] (pg_words puzzle) ;;
  let errors2 := fold_left checkNumber (groupByNumber (pg_words puzzle)) errors1 in
  differ <- dimensionsDiffer (pg_size puzzle) (pg_grid puzzle) ;;
  let errors3 := if differ then errors2 ++ [DimensionMismatch] else errors2 in
  Some {| va_valid := (length errors3 =? 0)%nat; va_errors := errors3 |}.

(** *** What the three checks establish *)

(** Letter [ch] at index [i] of the word lies in a row and a column below
    [size] and is the letter held by the grid there. *)
Definition letterFits (size : Z) (g : Grid) (w : PlacedWord) (i : Z) (ch : ascii) : Prop :=
  cellRow (pw_direction w) (pw_startRow w) i < size /\
  cellCol (pw_direction w) (pw_startCol w) i < size /\
  getCell g (cellRow (pw_direction w) (pw_startRow w) i)
            (cellCol (pw_direction w) (pw_startCol w) i)
  = Some (Some ch).

Definition wordFits (size : Z) (g : Grid) (w : PlacedWord) : Prop :=
  forall k ch, pw_answer w !! k = Some ch -> letterFits size g w (Z.of_nat k) ch.

(** The error that reports a clue number carried by three or more words. *)
Definition isNumberUsedBy (e : ValidationError) : Prop :=
  match e with
  | NumberUsedBy _ _ => True
  | _ => False
  end.

(** The words that carry clue number [n]. *)
Definition wordsNumbered (n : Z) (words : list PlacedWord) : list PlacedWord :=
  List.filter (fun w => bool_decide (pw_number w = n)) words.

(** What an accepted puzzle satisfies. *)
Definition accepted (puzzle : PuzzleGrid) : Prop :=
  Forall (wordFits (pg_size puzzle) (pg_grid puzzle)) (pg_words puzzle) /\
  (forall n, (length (wordsNumbered n (pg_words puzzle)) <= 2)%nat) /\
  (forall a b, In a (pg_words puzzle) -> In b (pg_words puzzle) ->
     pw_number a = pw_number b -> startOf a = startOf b) /\
  Z.of_nat (length (pg_grid puzzle)) = pg_size puzzle /\
  (forall cells, head (pg_grid puzzle) = Some cells ->
     Z.of_nat (length cells) = pg_size puzzle).

(** ** CrosswordGrid (components/CrosswordGrid.tsx) *)

(** A cell of the solving grid: the letter entered by the user, the
    letter of the answer, the clue number shown in the cell, and whether
    the cell is blocked. *)
Record SolveCell := mkSolveCell {
  sc_letter : option ascii;
  sc_answer : option ascii;
  sc_number : option Z;
  sc_isBlack : bool
}.

Abbreviation Board := (list (list SolveCell)).

(** [grid[r][c]] in an expression that reads a property of the cell:
    nothing is produced when the cell does not exist. *)
Definition boardCell (board : Board) (r c : Z) : option SolveCell :=
  if (0 <=? r) && (0 <=? c) then
    cells <- board !! Z.to_nat r ;; cells !! Z.to_nat c
  else None.

(** [grid[r][c] = f(grid[r][c])] on an existing cell; the handlers are
    modelled on cells of the board only. *)
Definition updateCell (board : Board) (r c : Z) (f : SolveCell -> SolveCell)
    : option Board :=
  if (0 <=? r) && (0 <=? c) then
    cells <- board !! Z.to_nat r ;;
    cell <- cells !! Z.to_nat c ;;
    Some (<[Z.to_nat r := <[Z.to_nat c := f cell]> cells]> board)
  else None.

(** [{ ...cell, letter }] *)
Definition withLetter (letter : option ascii) (cell : SolveCell) : SolveCell :=
  {| sc_letter := letter; sc_answer := sc_answer cell;
     sc_number := sc_number cell; sc_isBlack := sc_isBlack cell |}.

(** *** initializeGrid *)

Definition blankCell : SolveCell :=
  {| sc_letter := None; sc_answer := None; sc_number := None; sc_isBlack := true |}.

Definition blankBoard (size : Z) : Board :=
  replicate (Z.to_nat size) (replicate (Z.to_nat size) blankCell).

(** The three assignments to the cell of letter [i] of a word. *)
Definition writeAnswer (word : PlacedWord) (i : Z) (ch : ascii) (cell : SolveCell)
    : SolveCell :=
  {| sc_letter := sc_letter cell;
     sc_answer := Some ch;
     sc_number := if i =? 0 then Some (pw_number word) else sc_number cell;
     sc_isBlack := false |}.

Fixpoint placeAnswer (size : Z) (word : PlacedWord) (i : Z) (letters : JsString)
    (board : Board) : option Board :=
  match letters with
  | [] => Some board
  | ch :: rest =>
      let row := cellRow (pw_direction word) (pw_startRow word) i in
      let col := cellCol (pw_direction word) (pw_startCol word) i in
      if (row <? size) && (col <? size)
      then board' <- updateCell board row col (writeAnswer word i ch) ;;
           placeAnswer size word (i + 1) rest board'
      else placeAnswer size word (i + 1) rest board
  end.

(** [Array(size)] throws for a negative size. *)
Definition initializeGrid (size : Z) (words : list PlacedWord) : option Board :=
  if size <? 0 then None
  else foldM (fun board word => placeAnswer size word 0 (pw_answer word) board)
             (blankBoard size) words.

(** *** The state of the component and its handlers *)

Record Solver := mkSolver {
  sv_grid : Board;
  sv_selectedCell : option Position;
  sv_direction : Direction
}.

Definition initialSolver (size : Z) (words : list PlacedWord) : option Solver :=
  board <- initializeGrid size words ;;
  Some {| sv_grid := board; sv_selectedCell := None; sv_direction := across |}.

(** The predicate of [words.find] in [getCurrentWord]. *)
Definition coversCell (direction : Direction) (row col : Z) (word : PlacedWord) : bool :=
  if negb (bool_decide (pw_direction word = direction)) then false
  else match direction with
       | across =>
           (pw_startRow word =? row) && (pw_startCol word <=? col)
           && (col <? pw_startCol word + Z.of_nat (length (pw_answer word)))
       | down =>
           (pw_startCol word =? col) && (pw_startRow word <=? row)
           && (row <? pw_startRow word + Z.of_nat (length (pw_answer word)))
       end.

Definition getCurrentWord (words : list PlacedWord) (st : Solver) : option PlacedWord :=
  match sv_selectedCell st with
  | None => None
  | Some (row, col) => List.find (coversCell (sv_direction st) row col) words
  end.

Definition toggle (direction : Direction) : Direction :=
  match direction with across => down | down => across end.

Definition handleCellPress (row col : Z) (st : Solver) : option Solver :=
  cell <- boardCell (sv_grid st) row col ;;
  if sc_isBlack cell then Some st
  else if bool_decide (sv_selectedCell st = Some (row, col))
       then Some {| sv_grid := sv_grid st; sv_selectedCell := sv_selectedCell st;
                    sv_direction := toggle (sv_direction st) |}
       else Some {| sv_grid := sv_grid st; sv_selectedCell := Some (row, col);
                    sv_direction := sv_direction st |}.

Definition moveToNextCell (size : Z) (words : list PlacedWord) (st : Solver)
    : option Solver :=
  match sv_selectedCell st with
  | None => Some st
  | Some (row, col) =>
      match getCurrentWord words st with
      | None => Some st
      | Some currentWord =>
          let nextRow := match sv_direction st with across => row | down => row + 1 end in
          let nextCol := match sv_direction st with across => col + 1 | down => col end in
          let endOfWord :=
            match sv_direction st with
            | across => pw_startCol currentWord
                        + Z.of_nat (length (pw_answer currentWord)) <=? nextCol
            | down => pw_startRow currentWord
                      + Z.of_nat (length (pw_answer currentWord)) <=? nextRow
            end in
          if endOfWord then Some st
          else if (nextRow <? size) && (nextCol <? size)
          then cell <- boardCell (sv_grid st) nextRow nextCol ;;
               if negb (sc_isBlack cell)
               then Some {| sv_grid := sv_grid st;
                            sv_selectedCell := Some (nextRow, nextCol);
                            sv_direction := sv_direction st |}
               else Some st
          else Some st
      end
  end.

Definition moveToPreviousCell (words : list PlacedWord) (st : Solver) : option Solver :=
  match sv_selectedCell st with
  | None => Some st
  | Some (row, col) =>
      match getCurrentWord words st with
      | None => Some st
      | Some currentWord =>
          let prevRow := match sv_direction st with across => row | down => row - 1 end in
          let prevCol := match sv_direction st with across => col - 1 | down => col end in
          let startOfWord :=
            match sv_direction st with
            | across => prevCol <? pw_startCol currentWord
            | down => prevRow <? pw_startRow currentWord
            end in
          if startOfWord then Some st
          else if (0 <=? prevRow) && (0 <=? prevCol)
          then cell <- boardCell (sv_grid st) prevRow prevCol ;;
               if negb (sc_isBlack cell)
               then Some {| sv_grid := sv_grid st;
                            sv_selectedCell := Some (prevRow, prevCol);
                            sv_direction := sv_direction st |}
               else Some st
          else Some st
      end
  end.

(** The letter is accepted when its upper case matches [/^[A-Z]$/].  The
    rows of the new grid are the rows of the old one, so
    [moveToNextCell] reads the updated board. *)
Definition handleLetterInput (size : Z) (words : list PlacedWord) (letter : JsString)
    (st : Solver) : option Solver :=
  match sv_selectedCell st with
  | None => Some st
  | Some (row, col) =>
      match toUpperCase letter with
      | [upperLetter] =>
          if isUpperAZ upperLetter
          then board <- updateCell (sv_grid st) row col (withLetter (Some upperLetter)) ;;
               moveToNextCell size words
                 {| sv_grid := board; sv_selectedCell := sv_selectedCell st;
                    sv_direction := sv_direction st |}
          else Some st
      | _ => Some st
      end
  end.

Definition handleBackspace (words : list PlacedWord) (st : Solver) : option Solver :=
  match sv_selectedCell st with
  | None => Some st
  | Some (row, col) =>
      cell <- boardCell (sv_grid st) row col ;;
      match sc_letter cell with
      | Some _ =>
          board <- updateCell (sv_grid st) row col (withLetter None) ;;
          Some {| sv_grid := board; sv_selectedCell := sv_selectedCell st;
                  sv_direction := sv_direction st |}
      | None => moveToPreviousCell words st
      end
  end.

(** [isCellInCurrentWord] *)
Definition isCellInCurrentWord (words : list PlacedWord) (st : Solver) (row col : Z)
    : bool :=
  match getCurrentWord words st with
  | None => false
  | Some currentWord =>
      match sv_direction st with
      | across =>
          (pw_startRow currentWord =? row) && (pw_startCol currentWord <=? col)
          && (col <? pw_startCol currentWord + Z.of_nat (length (pw_answer currentWord)))
      | down =>
          (pw_startCol currentWord =? col) && (pw_startRow currentWord <=? row)
          && (row <? pw_startRow currentWord + Z.of_nat (length (pw_answer currentWord)))
      end
  end.

(** The test of the completion effect. *)
Definition cellDone (cell : SolveCell) : bool :=
  sc_isBlack cell
  || match sc_letter cell with
     | Some _ => bool_decide (sc_letter cell = sc_answer cell)
     | None => false
     end.

Definition isComplete (board : Board) : bool := forallb (forallb cellDone) board.

(** What [checkWord] shows: nothing without a current word, else one of
    the two alerts. *)
Inductive CheckOutcome : Type :=
  | NoAlert
  | AlertCorrect
  | AlertNotQuite.

(** The loop of [checkWord], left at the first letter that differs. *)
Fixpoint lettersCorrect (board : Board) (direction : Direction) (startRow startCol : Z)
    (i : Z) (letters : JsString) : option bool :=
  match letters with
  | [] => Some true
  | ch :: rest =>
      cell <- boardCell board (cellRow direction startRow i) (cellCol direction startCol i) ;;
      if bool_decide (sc_letter cell = Some ch)
      then lettersCorrect board direction startRow startCol (i + 1) rest
      else Some false
  end.

Definition checkWord (words : list PlacedWord) (st : Solver) : option CheckOutcome :=
  match sv_selectedCell st with
  | None => Some NoAlert
  | Some _ =>
      match getCurrentWord words st with
      | None => Some NoAlert
      | Some currentWord =>
          isCorrect <- lettersCorrect (sv_grid st) (sv_direction st)
                         (pw_startRow currentWord) (pw_startCol currentWord) 0
                         (pw_answer currentWord) ;;
          Some (if isCorrect then AlertCorrect else AlertNotQuite)
      end
  end.

Fixpoint revealLetters (board : Board) (direction : Direction) (startRow startCol : Z)
    (i : Z) (letters : JsString) : option Board :=
  match letters with
  | [] => Some board
  | ch :: rest =>
      board' <- updateCell board (cellRow direction startRow i)
                  (cellCol direction startCol i) (withLetter (Some ch)) ;;
      revealLetters board' direction startRow startCol (i + 1) rest
  end.

Definition revealWord (words : list PlacedWord) (st : Solver) : option Solver :=
  match sv_selectedCell st with
  | None => Some st
  | Some _ =>
      match getCurrentWord words st with
      | None => Some st
      | Some currentWord =>
          board <- revealLetters (sv_grid st) (sv_direction st)
                     (pw_startRow currentWord) (pw_startCol currentWord) 0
                     (pw_answer currentWord) ;;
          Some {| sv_grid := board; sv_selectedCell := sv_selectedCell st;
                  sv_direction := sv_direction st |}
      end
  end.

Definition giveHint (size : Z) (words : list PlacedWord) (st : Solver) : option Solver :=
  match sv_selectedCell st with
  | None => Some st
  | Some (row, col) =>
      cell <- boardCell (sv_grid st) row col ;;
      match sc_answer cell with
      | Some correctLetter =>
          board <- updateCell (sv_grid st) row col (withLetter (Some correctLetter)) ;;
          moveToNextCell size words
            {| sv_grid := board; sv_selectedCell := sv_selectedCell st;
               sv_direction := sv_direction st |}
      | None => Some st
      end
  end.

(** *** The board built from a list of words written in a grid *)

(** Some word of the list has a letter on cell [(r, c)]. *)
Definition covered (words : list PlacedWord) (r c : Z) : Prop :=
  exists w k, In w words /\ (k < length (pw_answer w))%nat /\
              spanCell (pw_startRow w) (pw_startCol w) (pw_direction w) k r c.

(** The cells of [board] are the cells of the [size] by [size] area;
    none holds an entered letter; a cell of a word is open and holds the
    letter of grid [g]; the other cells are blocked and hold no answer;
    the number of a cell is the number of the words that start there. *)
Definition boardFor (size : Z) (g : Grid) (words : list PlacedWord) (board : Board) : Prop :=
  (forall r c, is_Some (boardCell board r c) <-> inArea size r c) /\
  forall r c cell, boardCell board r c = Some cell ->
    sc_letter cell = None /\
    (covered words r c ->
     sc_isBlack cell = false /\
     exists ch, sc_answer cell = Some ch /\ getCell g r c = Some (Some ch)) /\
    (~ covered words r c -> sc_isBlack cell = true /\ sc_answer cell = None) /\
    (forall n, sc_number cell = Some n <->
               exists w, In w words /\ startOf w = (r, c) /\ pw_number w = n).

(** *** Events *)

(** What the rendered component reacts to: a press on a cell, a text
    change of the hidden input, the Backspace key, and the three
    buttons. *)
Inductive Event : Type :=
  | Press (row col : Z)
  | TypeLetter (letter : JsString)
  | Backspace
  | CheckWord
  | Hint
  | Reveal.

Definition handleEvent (size : Z) (words : list PlacedWord) (st : Solver) (e : Event)
    : option Solver :=
  match e with
  | Press row col => handleCellPress row col st
  | TypeLetter letter => handleLetterInput size words letter st
  | Backspace => handleBackspace words st
  | CheckWord => outcome <- checkWord words st ;; Some st
  | Hint => giveHint size words st
  | Reveal => revealWord words st
  end.

(** Only rendered cells can be pressed. *)
Definition onBoard (size : Z) (e : Event) : Prop :=
  match e with
  | Press row col => inArea size row col
  | _ => True
  end.

(** The cells of the board are the cells of the area, and every cell of
    a word is an open cell. *)
Definition openBoard (size : Z) (words : list PlacedWord) (board : Board) : Prop :=
  (forall r c, is_Some (boardCell board r c) <-> inArea size r c) /\
  (forall r c, covered words r c ->
     exists cell, boardCell board r c = Some cell /\ sc_isBlack cell = false).

(** Two boards differ in the entered letters only. *)
Definition sameLayout (b1 b2 : Board) : Prop :=
  forall r c, withLetter None <$> boardCell b1 r c = withLetter None <$> boardCell b2 r c.

(** The selected cell, if any, is an open cell of the board. *)
Definition selectedOpen (st : Solver) : Prop :=
  forall row col, sv_selectedCell st = Some (row, col) ->
    exists cell, boardCell (sv_grid st) row col = Some cell /\ sc_isBlack cell = false.

(** Entering the characters of [typed] one after the other. *)
Definition typeLetters (size : Z) (words : list PlacedWord) (st : Solver)
    (typed : JsString) : option Solver :=
  foldM (fun st ch => handleLetterInput size words [ch] st) st typed.

(** *** The scenario of the puzzle AB *)

Definition wordAB : PlacedWord :=
  {| pw_number := 1; pw_word := str "AB"; pw_clue := str "x"; pw_answer := str "AB";
     pw_startRow := 0; pw_startCol := 0; pw_direction := across |}.

(** The initial state of the component on [puzzleAB], and the state after
    a press on the first cell. *)
Definition solverAB : Solver :=
  default (mkSolver [] None across) (initialSolver (pg_size puzzleAB) (pg_words puzzleAB)).

Definition selectedAB : Solver :=
  {| sv_grid := sv_grid solverAB; sv_selectedCell := Some (0, 0); sv_direction := across |}.

(** ** generatePuzzleForApp (crosswordExamples) *)

Inductive Difficulty : Type := Easy | Medium | Hard.

(** The words kept for a difficulty: 3 to 5 characters for an easy
    puzzle, 4 to 8 for a medium one, every word for a hard one. *)
Definition selectWords (difficulty : Difficulty) (userWords : list WordInput)
    : list WordInput :=
  match difficulty with
  | Easy => List.filter (fun w => (3 <=? wordLength w) && (wordLength w <=? 5)) userWords
  | Medium => List.filter (fun w => (4 <=? wordLength w) && (wordLength w <=? 8)) userWords
  | Hard => userWords
  end.

(** [slice(0, n)]: a negative [n] counts from the end. *)
Definition sliceTo {A} (n : Z) (l : list A) : list A :=
  if 0 <=? n then take (Z.to_nat n) l
  else take (Z.to_nat (Z.of_nat (length l) + n)) l.

Section RandomOrder.

(** [sort(() => Math.random() - 0.5)]: the order that the call leaves is
    not determined by the program; [shuffle] stands for it. *)
Variable shuffle : list WordInput -> list WordInput.

Definition generatePuzzleForApp (userWords : list WordInput) (difficulty : Difficulty)
    (maxWords : Z) : option (option PuzzleGrid) :=
  let selectedWords := selectWords difficulty userWords in
  let numWords := Z.min maxWords (Z.of_nat (length selectedWords)) in
  let words := sliceTo numWords (shuffle selectedWords) in
  generateCrossword words
    {| maxAttempts := 200;
       minIntersections := match difficulty with Hard => 2 | _ => 1 end;
       gridPadding := 2 |}.

End RandomOrder.

(** The length window of a difficulty. *)
Definition inWindow (difficulty : Difficulty) (len : Z) : Prop :=
  match difficulty with
  | Easy => 3 <= len <= 5
  | Medium => 4 <= len <= 8
  | Hard => True
  end.

(** ** The words handed to the generator (PuzzleScreen) *)

(** [word.toUpperCase().replace(/[^A-Z]/g, '')], on ASCII strings *)
Definition sanitizeWord (word : JsString) : JsString :=
  List.filter isUpperAZ (toUpperCase word).

(** The [map] and the [filter] that build [vocabularyWords]; the clue of
    an entry is the definition chosen for it. *)
Definition vocabularyWords (entries : list WordInput) : list WordInput :=
  List.filter (fun w => (3 <=? wordLength w) && (wordLength w <=? 15))
    (map (fun e => {| wi_word := sanitizeWord (wi_word e); wi_clue := wi_clue e |}) entries).


(** The puzzle of the single word CAT. *)
Definition puzzleCat : PuzzleGrid :=
  {| pg_size := 3;
     pg_words := [ {| pw_number := 1; pw_word := str "CAT"; pw_clue := str "x";
                      pw_answer := str "CAT"; pw_startRow := 0; pw_startCol := 0;
                      pw_direction := across |} ];
     pg_grid := [[Some "C"%char; Some "A"%char; Some "T"%char];
                 [None; None; None]; [None; None; None]] |}.

(** ** ASCII strings *)

Definition asciiChar (c : ascii) : bool := code c <? 128.

Definition asciiString (s : JsString) : bool := forallb asciiChar s.

Definition asciiEntry (w : WordInput) : bool :=
  asciiString (wi_word w) && asciiString (wi_clue w).

(** ** The normaliser as the specification words it *)

(** The two alphabets and the white space characters (TAB, LF, VT, FF,
    CR and SPACE), by enumeration. *)
Definition lowerLetters : JsString := str "abcdefghijklmnopqrstuvwxyz".

Definition upperLetters : JsString := str "ABCDEFGHIJKLMNOPQRSTUVWXYZ".

Definition blankCharacters : JsString :=
  [ascii_of_nat 9; ascii_of_nat 10; ascii_of_nat 11; ascii_of_nat 12; ascii_of_nat 13;
   " "%char].

Definition memberOf (c : ascii) (s : JsString) : bool := existsb (Ascii.eqb c) s.

Fixpoint positionIn (c : ascii) (s : JsString) : option nat :=
  match s with
  | [] => None
  | x :: rest => if Ascii.eqb c x then Some 0%nat else S <$> positionIn c rest
  end.

(** The capital of a small letter is the letter at the same position of
    the upper alphabet; every other character is its own capital. *)
Definition capital (c : ascii) : ascii :=
  match positionIn c lowerLetters with
  | Some i => default c (upperLetters !! i)
  | None => c
  end.

Fixpoint dropBlanks (s : JsString) : JsString :=
  match s with
  | [] => []
  | c :: rest => if memberOf c blankCharacters then dropBlanks rest else s
  end.

(** The string without the white space at its two ends. *)
Definition withoutSurroundingBlanks (s : JsString) : JsString :=
  rev (dropBlanks (rev (dropBlanks s))).

(** An entry with its word trimmed and uppercased and its clue trimmed. *)
Definition specNormalForm (w : WordInput) : WordInput :=
  {| wi_word := map capital (withoutSurroundingBlanks (wi_word w));
     wi_clue := withoutSurroundingBlanks (wi_clue w) |}.

(** The word has at least two characters, all of them in A-Z. *)
Definition specKept (w : WordInput) : bool :=
  (2 <=? length (wi_word w))%nat
  && forallb (fun c => memberOf c upperLetters) (wi_word w).

(** The normal forms of the entries, in the order of the input, without
    the rejected ones. *)
Definition specNormalizeWords (wordInputs : list WordInput) : list WordInput :=
  List.filter specKept (map specNormalForm wordInputs).

(** The scenario of the specification. *)
Definition inputCoffee : list WordInput :=
  [mkWordInput (str "co-ffee") (str "a"); mkWordInput (str " coffee ") []].

(** ** Clue numbering as the specification words it, record by record *)

(** The records that start at the position number [i] (from 0) of
    [positions] receive the number [i + 1]; nothing else of a record
    changes, and the answer is the word. *)
Definition specClueNumbers (words : list WordPlacement) (positions : list Position)
    : list PlacedWord :=
  concat
    (imap (fun i p =>
             map (fun w => {| pw_number := Z.of_nat i + 1;
                              pw_word := wp_word w;
                              pw_clue := wp_clue w;
                              pw_answer := wp_word w;
                              pw_startRow := wp_row w;
                              pw_startCol := wp_col w;
                              pw_direction := wp_direction w |})
                 (wordsAt p words))
          positions).

(** Four records on three start cells. *)
Definition recordsFour : list WordPlacement :=
  [mkWordPlacement (str "REAR") [] 2 1 across 0;
   mkWordPlacement (str "AREA") [] 0 0 across 0;
   mkWordPlacement (str "ARE") [] 0 0 down 0;
   mkWordPlacement (str "RARE") [] 0 1 down 0].

(** A user word of five characters with white space at both ends. *)
Definition userWordsCat : list WordInput := [mkWordInput (str " cat ") (str "x")].

(** ** loadPuzzleData (the puzzle screen) *)












(** * Properties *)

(** ** Strings and normalisation *)

Lemma isWhiteSpace_upperChar c : isWhiteSpace (upperChar c) = isWhiteSpace c.
Proof. destruct c as [[] [] [] [] [] [] [] []]; reflexivity. Qed.

Lemma trimStart_toUpperCase s : trimStart (toUpperCase s) = toUpperCase (trimStart s).
Proof.
  unfold toUpperCase.
  induction s as [|c rest IH]; simpl; [reflexivity|].
  rewrite isWhiteSpace_upperChar.
  destruct (isWhiteSpace c); [exact IH | reflexivity].
Qed.

Lemma trimEnd_toUpperCase s : trimEnd (toUpperCase s) = toUpperCase (trimEnd s).
Proof.
  unfold toUpperCase.
  induction s as [|c rest IH]; simpl; [reflexivity|].
  rewrite IH.
  destruct (trimEnd rest) as [|k kept]; simpl; [|reflexivity].
  rewrite isWhiteSpace_upperChar.
  destruct (isWhiteSpace c); reflexivity.
Qed.

Lemma trim_toUpperCase s : trim (toUpperCase s) = toUpperCase (trim s).
Proof. unfold trim. rewrite trimStart_toUpperCase. apply trimEnd_toUpperCase. Qed.

Lemma normalizeEntry_spec w : normalizeEntry w = specNormalizeEntry w.
Proof. unfold normalizeEntry, specNormalizeEntry. now rewrite trim_toUpperCase. Qed.

Lemma acceptedWord_spec w : acceptedWord w = specAccepted w.
Proof.
  unfold acceptedWord, specAccepted, wordLength, testLetters.
  destruct (wi_word w); reflexivity.
Qed.

Lemma acceptedWord_length w : acceptedWord w = true -> 2 <= wordLength w.
Proof. unfold acceptedWord. intros H. apply andb_true_iff in H as [H _]. lia. Qed.

Lemma normalizeWords_accepted inputs w :
  In w (normalizeWords inputs) -> acceptedWord w = true.
Proof. unfold normalizeWords. intros H. now apply filter_In in H. Qed.

(** The scenario of the specification: co-ffee is rejected, coffee is kept. *)
Example normalize_coffee :
  normalizeWords [mkWordInput (str "co-ffee") (str "a"); mkWordInput (str " coffee ") []]
  = [mkWordInput (str "COFFEE") []].
Proof. reflexivity. Qed.

(** ** Sorting *)

Section Sorting.
Context {A : Type} (cmp : A -> A -> Z).

Lemma insertSorted_perm a l : Permutation (insertSorted cmp a l) (a :: l).
Proof.
  induction l as [|x rest IH]; simpl; [reflexivity|].
  destruct (cmp x a <? 0); [|reflexivity].
  rewrite IH. apply perm_swap.
Qed.

Lemma sortBy_perm l : Permutation (sortBy cmp l) l.
Proof.
  induction l as [|a rest IH]; simpl; [reflexivity|].
  rewrite insertSorted_perm. now constructor.
Qed.

Lemma sortBy_length l : length (sortBy cmp l) = length l.
Proof. apply Permutation_length, sortBy_perm. Qed.

Lemma sortBy_In a l : In a (sortBy cmp l) <-> In a l.
Proof.
  split; apply Permutation_in; [|symmetry]; apply sortBy_perm.
Qed.

Lemma sortBy_nil l : sortBy cmp l = [] -> l = [].
Proof.
  intros H. pose proof (sortBy_length l) as Hlen. rewrite H in Hlen.
  now destruct l.
Qed.

(** The output is ordered by any transitive relation that the
    comparator decides. *)
Variable before : A -> A -> Prop.
Hypothesis before_trans : forall x y z, before x y -> before y z -> before x z.
Hypothesis cmp_neg : forall x y, cmp x y < 0 -> before x y.
Hypothesis cmp_nonneg : forall x y, cmp x y >= 0 -> before y x.

Lemma insertSorted_sorted a l :
  StronglySorted before l -> StronglySorted before (insertSorted cmp a l).
Proof.
  induction 1 as [|x rest Hs IH Hx]; simpl.
  - repeat constructor.
  - destruct (Z.ltb_spec (cmp x a) 0) as [Hlt|Hge].
    + constructor; [exact IH|].
      apply Forall_forall. intros y Hy.
      rewrite insertSorted_perm in Hy.
      apply elem_of_cons in Hy as [->|Hy]; [now apply cmp_neg|].
      rewrite Forall_forall in Hx. now apply Hx.
    + assert (Hax : before a x) by (apply cmp_nonneg; lia).
      constructor; [now constructor|].
      constructor; [exact Hax|].
      rewrite Forall_forall in Hx. apply Forall_forall. intros y Hy.
      apply before_trans with x; [exact Hax | now apply Hx].
Qed.

Lemma sortBy_sorted l : StronglySorted before (sortBy cmp l).
Proof.
  induction l as [|a rest IH]; simpl; [constructor|].
  now apply insertSorted_sorted.
Qed.
End Sorting.

(** *** The normaliser of the specification *)

Lemma capital_upperChar c : capital c = upperChar c.
Proof. destruct c as [[] [] [] [] [] [] [] []]; reflexivity. Qed.

Lemma memberOf_upper c : memberOf c upperLetters = isUpperAZ c.
Proof. destruct c as [[] [] [] [] [] [] [] []]; reflexivity. Qed.

Lemma memberOf_blank c : memberOf c blankCharacters = isWhiteSpace c.
Proof. destruct c as [[] [] [] [] [] [] [] []]; reflexivity. Qed.

Lemma dropBlanks_trimStart s : dropBlanks s = trimStart s.
Proof.
  induction s as [|c rest IH]; cbn [dropBlanks trimStart]; [reflexivity|].
  rewrite memberOf_blank, IH. reflexivity.
Qed.

Lemma dropBlanks_snoc s c :
  dropBlanks (s ++ [c])
  = match dropBlanks s with
    | [] => if isWhiteSpace c then [] else [c]
    | kept => kept ++ [c]
    end.
Proof.
  induction s as [|x rest IH]; cbn [app dropBlanks].
  - now rewrite memberOf_blank.
  - destruct (memberOf x blankCharacters); [exact IH | reflexivity].
Qed.

Lemma trimEnd_rev s : trimEnd s = rev (dropBlanks (rev s)).
Proof.
  induction s as [|c rest IH]; [reflexivity|].
  cbn [trimEnd rev]. rewrite dropBlanks_snoc, IH.
  destruct (dropBlanks (rev rest)) as [|k kept].
  - cbn [rev]. now destruct (isWhiteSpace c).
  - rewrite rev_unit. destruct (rev (k :: kept)) eqn:E; [|reflexivity].
    apply (f_equal (@length ascii)) in E. rewrite length_rev in E. discriminate.
Qed.

Lemma withoutSurroundingBlanks_trim s : withoutSurroundingBlanks s = trim s.
Proof.
  unfold withoutSurroundingBlanks, trim.
  rewrite (dropBlanks_trimStart s), trimEnd_rev. reflexivity.
Qed.

Lemma specNormalForm_normalizeEntry w : specNormalForm w = normalizeEntry w.
Proof.
  unfold specNormalForm, normalizeEntry.
  rewrite !withoutSurroundingBlanks_trim, trim_toUpperCase. f_equal.
  unfold toUpperCase. apply map_ext. apply capital_upperChar.
Qed.

Lemma forallb_memberOf s :
  forallb (fun c => memberOf c upperLetters) s = forallb isUpperAZ s.
Proof.
  induction s as [|c rest IH]; cbn [forallb]; [reflexivity|].
  now rewrite memberOf_upper, IH.
Qed.

Lemma specKept_acceptedWord w : specKept w = acceptedWord w.
Proof.
  rewrite acceptedWord_spec. unfold specKept, specAccepted, wordLength. f_equal.
  - destruct (Nat.leb_spec 2 (length (wi_word w))), (Z.leb_spec 2 (Z.of_nat (length (wi_word w))));
      (reflexivity || lia).
  - apply forallb_memberOf.
Qed.

Lemma normalizeWords_specified wordInputs :
  normalizeWords wordInputs = specNormalizeWords wordInputs.
Proof.
  unfold normalizeWords, specNormalizeWords.
  induction wordInputs as [|w rest IH]; simpl; [reflexivity|].
  now rewrite specNormalForm_normalizeEntry, specKept_acceptedWord, IH.
Qed.

(** C6.  On ASCII strings the normaliser returns the list that the
    specification describes: every word trimmed of the white space at
    its ends and uppercased, every clue trimmed; the entries kept, in
    their original order, are exactly those whose normalised word has at
    least two characters, all in A-Z.  The result is always a list (a
    rejected entry is dropped, never an error); an entry with an empty
    clue is treated like any other; co-ffee is dropped and coffee becomes
    COFFEE. *)
Theorem normalizeWords_spec (wordInputs : list WordInput) :
  forallb asciiEntry wordInputs = true ->
  normalizeWords wordInputs = specNormalizeWords wordInputs /\
  (forall word,
     asciiString word = true ->
     normalizeWords [mkWordInput word []]
     = if specKept (specNormalForm (mkWordInput word []))
       then [mkWordInput (map capital (withoutSurroundingBlanks word)) []]
       else []) /\
  normalizeWords inputCoffee = [mkWordInput (str "COFFEE") []].
Proof.
  intros _. split; [apply normalizeWords_specified|]. split; [|reflexivity].
  intros word _. rewrite normalizeWords_specified.
  unfold specNormalizeWords. cbn [map List.filter].
  destruct (specKept (specNormalForm (mkWordInput word []))); reflexivity.
Qed.

Lemma normalizeWords_spec_witness :
  normalizeWords inputCoffee = specNormalizeWords inputCoffee /\
  (forall word,
     asciiString word = true ->
     normalizeWords [mkWordInput word []]
     = if specKept (specNormalForm (mkWordInput word []))
       then [mkWordInput (map capital (withoutSurroundingBlanks word)) []]
       else []) /\
  normalizeWords inputCoffee = [mkWordInput (str "COFFEE") []].
Proof. apply (normalizeWords_spec inputCoffee). reflexivity. Defined.

(** ** Grid access *)

Lemma getCell_Some g r c v :
  getCell g r c = Some v ->
  0 <= r /\ 0 <= c /\
  exists cells, g !! Z.to_nat r = Some cells /\ cells !! Z.to_nat c = Some v.
Proof.
  unfold getCell. intros H.
  destruct (Z.leb_spec 0 r), (Z.leb_spec 0 c); simpl in H; try discriminate.
  destruct (g !! Z.to_nat r) as [cells|] eqn:E; [|discriminate].
  eauto.
Qed.

Lemma square_lookup n g i cells :
  square n g -> g !! i = Some cells -> Z.of_nat (length cells) = n.
Proof.
  intros [_ Hrows] Hi. rewrite Forall_lookup in Hrows. exact (Hrows _ _ Hi).
Qed.

Lemma getCell_bounds n g r c v :
  square n g -> getCell g r c = Some v -> 0 <= r < n /\ 0 <= c < n.
Proof.
  intros Hsq H. apply getCell_Some in H as (Hr & Hc & cells & Hrow & Hcell).
  pose proof (square_lookup _ _ _ _ Hsq Hrow) as Hlen.
  apply lookup_lt_Some in Hrow. apply lookup_lt_Some in Hcell.
  destruct Hsq as [Hn _]. lia.
Qed.

Lemma getCell_inside n g r c :
  square n g -> 0 <= r < n -> 0 <= c < n -> is_Some (getCell g r c).
Proof.
  intros Hsq Hr Hc. unfold getCell.
  destruct (Z.leb_spec 0 r), (Z.leb_spec 0 c); try lia. simpl.
  destruct (g !! Z.to_nat r) as [cells|] eqn:E.
  - apply lookup_lt_is_Some. pose proof (square_lookup _ _ _ _ Hsq E). lia.
  - apply lookup_ge_None in E. destruct Hsq as [Hn _]. lia.
Qed.

Lemma setCell_inside n g r c v :
  square n g -> 0 <= r < n -> 0 <= c < n -> is_Some (setCell g r c v).
Proof.
  intros Hsq Hr Hc. unfold setCell.
  destruct (Z.leb_spec 0 r), (Z.leb_spec 0 c); try lia. simpl.
  destruct (g !! Z.to_nat r) as [cells|] eqn:E.
  - pose proof (square_lookup _ _ _ _ Hsq E).
    destruct (Z.ltb_spec c (Z.of_nat (length cells))); [eauto | lia].
  - apply lookup_ge_None in E. destruct Hsq as [Hn _]. lia.
Qed.

Lemma setCell_Some g r c v g' :
  setCell g r c v = Some g' ->
  0 <= r /\ 0 <= c /\
  exists cells, g !! Z.to_nat r = Some cells /\ (Z.to_nat c < length cells)%nat /\
                g' = <[Z.to_nat r := <[Z.to_nat c := v]> cells]> g.
Proof.
  unfold setCell. intros H.
  destruct (Z.leb_spec 0 r), (Z.leb_spec 0 c); simpl in H; try discriminate.
  destruct (g !! Z.to_nat r) as [cells|] eqn:E; [|discriminate].
  destruct (Z.ltb_spec c (Z.of_nat (length cells))); [|discriminate].
  injection H as <-. repeat split; try lia. exists cells. repeat split; [lia].
Qed.

Lemma setCell_length g r c v g' : setCell g r c v = Some g' -> length g' = length g.
Proof.
  intros H. apply setCell_Some in H as (_ & _ & cells & _ & _ & ->).
  apply length_insert.
Qed.

Lemma setCell_square n g r c v g' :
  square n g -> setCell g r c v = Some g' -> square n g'.
Proof.
  intros Hsq H. pose proof (setCell_length _ _ _ _ _ H) as Hlen.
  apply setCell_Some in H as (_ & _ & cells & Hrow & _ & ->).
  pose proof (square_lookup _ _ _ _ Hsq Hrow) as Hcells.
  destruct Hsq as [Hn Hrows]. split; [lia|].
  apply Forall_insert; [exact Hrows|]. now rewrite length_insert.
Qed.

Lemma getCell_setCell_eq g r c v g' :
  setCell g r c v = Some g' -> getCell g' r c = Some v.
Proof.
  intros H. apply setCell_Some in H as (Hr & Hc & cells & Hrow & Hlt & ->).
  unfold getCell.
  destruct (Z.leb_spec 0 r), (Z.leb_spec 0 c); try lia. cbn [andb].
  rewrite list_lookup_insert_eq by (now apply lookup_lt_Some in Hrow).
  now apply list_lookup_insert_eq.
Qed.

Lemma getCell_setCell_ne g r c v g' r' c' :
  setCell g r c v = Some g' -> (r', c') <> (r, c) ->
  getCell g' r' c' = getCell g r' c'.
Proof.
  intros H Hne. apply setCell_Some in H as (Hr & Hc & cells & Hrow & Hlt & ->).
  unfold getCell.
  destruct (Z.leb_spec 0 r'), (Z.leb_spec 0 c'); cbn [andb]; try reflexivity.
  destruct (decide (Z.to_nat r' = Z.to_nat r)) as [Heq|Hrne].
  - rewrite Heq, Hrow.
    rewrite list_lookup_insert_eq by (now apply lookup_lt_Some in Hrow).
    apply list_lookup_insert_ne. intros Hceq.
    apply Hne. f_equal; lia.
  - now rewrite list_lookup_insert_ne by congruence.
Qed.

Lemma emptyGrid_square n : 0 <= n -> square n (emptyGrid n).
Proof.
  intros Hn. unfold emptyGrid. split.
  - rewrite length_replicate. lia.
  - apply Forall_replicate. rewrite length_replicate. lia.
Qed.

Lemma getCell_emptyGrid n r c v : getCell (emptyGrid n) r c = Some v -> v = None.
Proof.
  intros H. apply getCell_Some in H as (_ & _ & cells & Hrow & Hcell).
  unfold emptyGrid in Hrow.
  apply lookup_replicate in Hrow as [-> _].
  now apply lookup_replicate in Hcell as [-> _].
Qed.

(** Two square grids with the same cells are the same grid. *)
Lemma grid_ext n g1 g2 :
  square n g1 -> square n g2 ->
  (forall r c, 0 <= r < n -> 0 <= c < n -> getCell g1 r c = getCell g2 r c) ->
  g1 = g2.
Proof.
  intros Hs1 Hs2 Hcells.
  apply list_eq_same_length with (Z.to_nat n);
    [destruct Hs2; lia | destruct Hs1; lia |].
  intros i cells1 cells2 Hi H1 H2.
  pose proof (square_lookup _ _ _ _ Hs1 H1) as L1.
  pose proof (square_lookup _ _ _ _ Hs2 H2) as L2.
  apply list_eq_same_length with (Z.to_nat n); [lia | lia |].
  intros j x y Hj Hx Hy.
  specialize (Hcells (Z.of_nat i) (Z.of_nat j) ltac:(lia) ltac:(lia)).
  unfold getCell in Hcells.
  destruct (Z.leb_spec 0 (Z.of_nat i)), (Z.leb_spec 0 (Z.of_nat j)); try lia.
  cbn [andb] in Hcells. rewrite !Nat2Z.id, H1, H2 in Hcells.
  congruence.
Qed.

(** Whether a cell belongs to the span of a word of [len] letters. *)
Lemma spanCell_dec row col direction (len : nat) r c :
  (exists k, (k < len)%nat /\ spanCell row col direction k r c)
  \/ (forall k, (k < len)%nat -> ~ spanCell row col direction k r c).
Proof.
  unfold spanCell.
  destruct direction; simpl.
  - destruct (decide (r = row /\ col <= c < col + Z.of_nat len)) as [[-> Hc]|Hn].
    + left. exists (Z.to_nat (c - col)). split; [lia|]. split; [reflexivity | lia].
    + right. intros k Hk [-> ->]. apply Hn. lia.
  - destruct (decide (c = col /\ row <= r < row + Z.of_nat len)) as [[-> Hr]|Hn].
    + left. exists (Z.to_nat (r - row)). split; [lia|]. split; [lia | reflexivity].
    + right. intros k Hk [-> ->]. apply Hn. lia.
Qed.

(** ** Spans *)

Lemma cell_inj direction row col i j :
  cellRow direction row i = cellRow direction row j ->
  cellCol direction col i = cellCol direction col j -> i = j.
Proof. destruct direction; simpl; lia. Qed.

Lemma spanInside_cell n len row col direction i :
  spanInside n len row col direction -> 0 <= i < len ->
  0 <= cellRow direction row i < n /\ 0 <= cellCol direction col i < n.
Proof. destruct direction; simpl; lia. Qed.

Lemma outOfBounds_false n len row col direction :
  outOfBounds n len row col direction = false <-> spanInside n len row col direction.
Proof.
  unfold outOfBounds, spanInside. destruct direction;
    rewrite !orb_false_iff, !Z.ltb_ge, !Z.leb_gt; lia.
Qed.

(** ** placeWord *)

Lemma placeLetters_spec n letters : forall g row col direction i,
  square n g -> 0 <= i ->
  spanInside n (i + Z.of_nat (length letters)) row col direction ->
  exists g',
    placeLetters g row col direction i letters = Some g' /\
    square n g' /\
    (forall k ch, letters !! k = Some ch ->
       getCell g' (cellRow direction row (i + Z.of_nat k))
                  (cellCol direction col (i + Z.of_nat k)) = Some (Some ch)) /\
    (forall r c,
       (forall k, (k < length letters)%nat ->
          ~ (r = cellRow direction row (i + Z.of_nat k) /\
             c = cellCol direction col (i + Z.of_nat k))) ->
       getCell g' r c = getCell g r c).
Proof.
  induction letters as [|ch rest IH]; intros g row col direction i Hsq Hi Hin.
  - exists g. simpl. split; [reflexivity|]. split; [exact Hsq|]. split.
    + intros k c Hk. discriminate.
    + reflexivity.
  - simpl in *.
    assert (Hcell : 0 <= cellRow direction row i < n /\
                    0 <= cellCol direction col i < n)
      by (eapply spanInside_cell; [exact Hin | lia]).
    destruct (setCell_inside n g _ _ (Some ch) Hsq (proj1 Hcell) (proj2 Hcell))
      as [g1 Hset].
    rewrite Hset.
    destruct (IH g1 row col direction (i + 1)) as (g' & Hplace & Hsq' & Hnew & Hold).
    { eapply setCell_square; eauto. }
    { lia. }
    { replace (i + 1 + Z.of_nat (length rest)) with (i + Z.pos (Pos.of_succ_nat (length rest)))
        by lia. exact Hin. }
    exists g'. split; [exact Hplace|]. split; [exact Hsq'|]. split.
    + intros [|k] c Hk; simpl in Hk.
      * injection Hk as <-. rewrite Z.add_0_r.
        rewrite Hold; [eapply getCell_setCell_eq; eauto|].
        intros k _ [Hr Hc].
        pose proof (cell_inj _ _ _ _ _ Hr Hc). lia.
      * replace (i + Z.of_nat (S k)) with (i + 1 + Z.of_nat k) by lia.
        now apply Hnew.
    + intros r c Hout.
      rewrite Hold.
      * eapply getCell_setCell_ne; [exact Hset|].
        intros Heq. injection Heq as -> ->.
        apply (Hout 0%nat); [lia|]. now rewrite Z.add_0_r.
      * intros k Hk Hrc. apply (Hout (S k)); [lia|].
        replace (i + Z.of_nat (S k)) with (i + 1 + Z.of_nat k) by lia. exact Hrc.
Qed.

Lemma placeWord_spec n g w row col direction :
  square n g -> spanInside n (wordLength w) row col direction ->
  exists g',
    placeWord g w row col direction = Some g' /\
    square n g' /\
    holdsWord g' (wi_word w) row col direction /\
    (forall r c,
       (forall k, (k < length (wi_word w))%nat -> ~ spanCell row col direction k r c) ->
       getCell g' r c = getCell g r c).
Proof.
  intros Hsq Hin. unfold placeWord, holdsWord, spanCell.
  destruct (placeLetters_spec n (wi_word w) g row col direction 0 Hsq)
    as (g' & Hplace & Hsq' & Hnew & Hold); [lia | exact Hin |].
  exists g'. split; [exact Hplace|]. split; [exact Hsq'|]. split; [exact Hnew|].
  intros r c Hout. apply Hold. intros k Hk Hrc. now apply (Hout k).
Qed.

(** ** canPlaceWord *)

Lemma checkCells_true g n row col direction letters : forall i,
  checkCells g n row col direction i letters = Some true ->
  forall k ch, letters !! k = Some ch ->
    getCell g (cellRow direction row (i + Z.of_nat k))
              (cellCol direction col (i + Z.of_nat k)) = Some None \/
    getCell g (cellRow direction row (i + Z.of_nat k))
              (cellCol direction col (i + Z.of_nat k)) = Some (Some ch).
Proof.
  induction letters as [|x rest IH]; intros i H k ch Hk; [discriminate|].
  simpl in H.
  destruct (getCell g (cellRow direction row i) (cellCol direction col i))
    as [cell|] eqn:Hcell; [|discriminate].
  assert (Hrest : checkCells g n row col direction (i + 1) rest = Some true /\
                  (cell = None \/ cell = Some x)).
  { destruct cell as [y|]; simpl in H.
    - case_bool_decide; simpl in H; [subst y; auto | discriminate].
    - destruct (sideBlocked g n direction _ _) as [[]|]; try discriminate. auto. }
  destruct Hrest as [Hrest Hhere].
  destruct k as [|k]; simpl in Hk.
  - injection Hk as <-. rewrite Z.add_0_r, Hcell.
    destruct Hhere as [->| ->]; auto.
  - replace (i + Z.of_nat (S k)) with (i + 1 + Z.of_nat k) by lia.
    now apply IH.
Qed.

Lemma canPlaceWord_true g word row col direction :
  canPlaceWord g word row col direction = Some true ->
  spanInside (Z.of_nat (length g)) (Z.of_nat (length word)) row col direction /\
  forall k ch, word !! k = Some ch ->
    getCell g (cellRow direction row (Z.of_nat k))
              (cellCol direction col (Z.of_nat k)) = Some None \/
    getCell g (cellRow direction row (Z.of_nat k))
              (cellCol direction col (Z.of_nat k)) = Some (Some ch).
Proof.
  unfold canPlaceWord. intros H.
  destruct (outOfBounds _ _ _ _ _) eqn:Hout; [discriminate|].
  apply outOfBounds_false in Hout. split; [exact Hout|].
  destruct (checkCells _ _ _ _ _ _ _) as [[]|] eqn:Hcheck; try discriminate.
  intros k ch Hk.
  exact (checkCells_true _ _ _ _ _ _ 0 Hcheck k ch Hk).
Qed.

Lemma occupiedIf_total n g cond r c :
  square n g -> (cond = true -> 0 <= r < n /\ 0 <= c < n) ->
  is_Some (occupiedIf cond g r c).
Proof.
  intros Hsq Hin. unfold occupiedIf, occupied. destruct cond; [|eauto].
  destruct (Hin eq_refl) as [Hr Hc].
  destruct (getCell_inside n g r c Hsq Hr Hc) as [v ->]. eauto.
Qed.

Lemma sideBlocked_total n g direction r c :
  square n g -> 0 <= r < n -> 0 <= c < n ->
  is_Some (sideBlocked g n direction r c).
Proof.
  intros Hsq Hr Hc. unfold sideBlocked. destruct direction.
  - destruct (occupiedIf_total n g (0 <? r) (r - 1) c Hsq) as [[] ->]; [lia | eauto |].
    apply (occupiedIf_total n); [exact Hsq | lia].
  - destruct (occupiedIf_total n g (0 <? c) r (c - 1) Hsq) as [[] ->]; [lia | eauto |].
    apply (occupiedIf_total n); [exact Hsq | lia].
Qed.

Lemma checkCells_total n g row col direction letters : forall i,
  square n g -> 0 <= i ->
  spanInside n (i + Z.of_nat (length letters)) row col direction ->
  is_Some (checkCells g n row col direction i letters).
Proof.
  induction letters as [|x rest IH]; intros i Hsq Hi Hin; simpl; [eauto|].
  simpl in Hin.
  assert (Hcell : 0 <= cellRow direction row i < n /\
                  0 <= cellCol direction col i < n)
    by (eapply spanInside_cell; [exact Hin | lia]).
  destruct (getCell_inside n g _ _ Hsq (proj1 Hcell) (proj2 Hcell)) as [cell ->].
  assert (Hnext : is_Some (checkCells g n row col direction (i + 1) rest)).
  { apply IH; [exact Hsq | lia |].
    replace (i + 1 + Z.of_nat (length rest)) with (i + Z.pos (Pos.of_succ_nat (length rest)))
      by lia. exact Hin. }
  destruct cell as [y|]; simpl.
  - destruct (negb (bool_decide (y = x))); [eauto | exact Hnext].
  - destruct (sideBlocked_total n g direction _ _ Hsq (proj1 Hcell) (proj2 Hcell))
      as [[] ->]; [eauto | exact Hnext].
Qed.

Lemma endsBlocked_total n g len row col direction :
  square n g -> 0 <= len -> spanInside n len row col direction ->
  is_Some (endsBlocked g n len row col direction).
Proof.
  intros Hsq Hlen Hin. unfold endsBlocked. destruct direction; simpl in Hin.
  - destruct (occupiedIf_total n g (0 <? col) row (col - 1) Hsq) as [[] ->];
      [lia | eauto |].
    apply (occupiedIf_total n); [exact Hsq | lia].
  - destruct (occupiedIf_total n g (0 <? row) (row - 1) col Hsq) as [[] ->];
      [lia | eauto |].
    apply (occupiedIf_total n); [exact Hsq | lia].
Qed.

Lemma canPlaceWord_total n g word row col direction :
  square n g -> is_Some (canPlaceWord g word row col direction).
Proof.
  intros Hsq. unfold canPlaceWord.
  destruct (outOfBounds _ _ _ _ _) eqn:Hout; [eauto|].
  apply outOfBounds_false in Hout.
  pose proof Hsq as [Hn _]. rewrite Hn in *.
  destruct (checkCells_total n g row col direction word 0 Hsq) as [[] ->];
    [lia | exact Hout | | eauto].
  destruct (endsBlocked_total n g (Z.of_nat (length word)) row col direction Hsq)
    as [b ->]; [lia | exact Hout | eauto].
Qed.

(** ** scorePlacement *)

Lemma scoreCells_total n g row col direction letters : forall i score,
  square n g -> 0 <= i ->
  spanInside n (i + Z.of_nat (length letters)) row col direction ->
  is_Some (scoreCells g row col direction i letters score).
Proof.
  induction letters as [|x rest IH]; intros i score Hsq Hi Hin; simpl; [eauto|].
  simpl in Hin.
  assert (Hcell : 0 <= cellRow direction row i < n /\
                  0 <= cellCol direction col i < n)
    by (eapply spanInside_cell; [exact Hin | lia]).
  destruct (getCell_inside n g _ _ Hsq (proj1 Hcell) (proj2 Hcell)) as [cell ->].
  apply IH; [exact Hsq | lia |].
  replace (i + 1 + Z.of_nat (length rest)) with (i + Z.pos (Pos.of_succ_nat (length rest)))
    by lia. exact Hin.
Qed.

(** The loop adds 10 for every letter, from index [j] on, whose cell
    already holds it. *)
Lemma scoreCells_count g word row col direction letters : forall (j : nat) score v,
  (forall k, letters !! k = word !! (j + k)%nat) ->
  scoreCells g row col direction (Z.of_nat j) letters score = Some v ->
  v = score + 10 * Z.of_nat (length (List.filter (holdsLetterAt g word row col direction)
                                                 (seq j (length letters)))).
Proof.
  induction letters as [|x rest IH]; intros j score v Hword H; simpl in H.
  - injection H as <-. simpl. lia.
  - destruct (getCell g _ _) as [cell|] eqn:Hcell; [|discriminate].
    replace (Z.of_nat j + 1) with (Z.of_nat (S j)) in H by lia.
    apply IH in H;
      [|intros k; replace (S j + k)%nat with (j + S k)%nat by lia; exact (Hword (S k))].
    assert (Hj : holdsLetterAt g word row col direction j = cellIs cell x).
    { pose proof (Hword 0%nat) as H0. simpl in H0. rewrite Nat.add_0_r in H0.
      unfold holdsLetterAt. now rewrite <- H0, Hcell. }
    subst v. cbn [length seq List.filter]. rewrite Hj.
    destruct (cellIs cell x); simpl length; lia.
Qed.

Lemma scoreCells_ge g row col direction letters : forall i score v,
  scoreCells g row col direction i letters score = Some v -> score <= v.
Proof.
  induction letters as [|x rest IH]; intros i score v H; simpl in H.
  - injection H as <-. lia.
  - destruct (getCell g _ _) as [cell|]; [|discriminate].
    apply IH in H. destruct (cellIs cell x); lia.
Qed.

(** One cell that holds its letter is worth 10 already. *)
Lemma scoreCells_hit g row col direction letters : forall i score v k ch,
  scoreCells g row col direction i letters score = Some v ->
  letters !! k = Some ch ->
  getCell g (cellRow direction row (i + Z.of_nat k))
            (cellCol direction col (i + Z.of_nat k)) = Some (Some ch) ->
  score + 10 <= v.
Proof.
  induction letters as [|x rest IH]; intros i score v k ch H Hk Hcell; [discriminate|].
  simpl in H.
  destruct (getCell g (cellRow direction row i) (cellCol direction col i))
    as [cell|] eqn:Hhere; [|discriminate].
  destruct k as [|k]; simpl in Hk.
  - injection Hk as <-. rewrite Z.add_0_r, Hhere in Hcell. injection Hcell as ->.
    simpl in H. rewrite bool_decide_eq_true_2 in H by reflexivity.
    now apply scoreCells_ge in H.
  - replace (i + Z.of_nat (S k)) with (i + 1 + Z.of_nat k) in Hcell by lia.
    pose proof (IH _ _ _ _ _ H Hk Hcell). destruct (cellIs cell x); lia.
Qed.

Lemma totalDistance_sum row col placedWords :
  totalDistance row col placedWords = foldr Z.add 0 (map (manhattan row col) placedWords).
Proof.
  unfold totalDistance.
  enough (forall a, fold_left
            (fun total w => total + (Z.abs (row - wp_row w) + Z.abs (col - wp_col w)))
            placedWords a
          = a + foldr Z.add 0 (map (manhattan row col) placedWords)) as H
    by (rewrite H; lia).
  induction placedWords as [|w rest IH]; intros a; simpl; [lia|].
  rewrite IH. unfold manhattan. lia.
Qed.

Lemma calculateAverageDistance_spec row col placedWords :
  calculateAverageDistance row col placedWords = specAverageDistance row col placedWords.
Proof.
  unfold calculateAverageDistance, specAverageDistance.
  destruct placedWords as [|w rest]; [reflexivity|].
  now rewrite totalDistance_sum.
Qed.

Lemma Qltb_spec x y : Qltb x y = true <-> Qlt x y.
Proof.
  unfold Qltb. rewrite negb_true_iff. split.
  - intros H. apply Qnot_le_lt. intros Hle.
    apply Qle_bool_iff in Hle. congruence.
  - intros H. destruct (Qle_bool y x) eqn:E; [|reflexivity].
    apply Qle_bool_iff in E. exfalso. now apply (Qlt_not_le x y).
Qed.

Lemma densityBonus_spec average score :
  densityBonus average score
  = score + (if Qlt_le_dec average (inject_Z 5) then 5 else 0)
          + (if Qlt_le_dec average (inject_Z 3) then 5 else 0).
Proof.
  unfold densityBonus.
  destruct (Qlt_le_dec average (inject_Z 5)) as [H5|H5],
           (Qlt_le_dec average (inject_Z 3)) as [H3|H3].
  - rewrite (proj2 (Qltb_spec _ _) H5), (proj2 (Qltb_spec _ _) H3). lia.
  - rewrite (proj2 (Qltb_spec _ _) H5).
    destruct (Qltb average (inject_Z 3)) eqn:E; [|lia].
    apply Qltb_spec in E. exfalso. now apply (Qlt_not_le _ _ E).
  - exfalso. apply (Qlt_not_le _ _ H3).
    apply Qle_trans with (inject_Z 5); [|exact H5].
    rewrite <- Zle_Qle. lia.
  - destruct (Qltb average (inject_Z 5)) eqn:E5.
    { apply Qltb_spec in E5. exfalso. now apply (Qlt_not_le _ _ E5). }
    destruct (Qltb average (inject_Z 3)) eqn:E3; [|lia].
    apply Qltb_spec in E3. exfalso. now apply (Qlt_not_le _ _ E3).
Qed.

Lemma longWordPenalty_spec word score :
  longWordPenalty word score
  = if decide (6 < Z.of_nat (length word) /\ score < 10) then score - 5 else score.
Proof.
  unfold longWordPenalty.
  destruct (Z.ltb_spec 6 (Z.of_nat (length word))), (Z.ltb_spec score 10);
    simpl; case_decide; lia.
Qed.

Lemma scorePlacement_total n g word row col direction placedWords :
  square n g -> spanInside n (Z.of_nat (length word)) row col direction ->
  is_Some (scorePlacement g word row col direction placedWords).
Proof.
  intros Hsq Hin. unfold scorePlacement.
  destruct (scoreCells_total n g row col direction word 0 0 Hsq) as [v ->];
    [lia | exact Hin | eauto].
Qed.

(** C4.  On every grid, for every word, every position whose span lies in
    the grid, every direction and every list of placed words, the score
    is 10 per cell of the span that already holds the word's letter, plus
    5 when the average Manhattan distance from the start cell to the start
    cells of the placed words is below 5, plus 5 more when it is below 3,
    minus 5 when the word is longer than 6 and the sum so far is below 10.
    (For an empty list of placed words the code takes the average to be
    0, which is also the value of the quotient 0/0 in [Q].) *)
Theorem scorePlacement_spec n g word row col direction placedWords :
  square n g ->
  spanInside n (Z.of_nat (length word)) row col direction ->
  scorePlacement g word row col direction placedWords
  = Some (specScore g word row col direction placedWords).
Proof.
  intros Hsq Hin.
  destruct (scorePlacement_total n g word row col direction placedWords Hsq Hin)
    as [v Hv].
  rewrite Hv. f_equal. unfold scorePlacement in Hv.
  destruct (scoreCells g row col direction 0 word 0) as [s|] eqn:Hs; [|discriminate].
  injection Hv as <-.
  apply (scoreCells_count g word row col direction word 0%nat 0 s) in Hs;
    [|reflexivity].
  unfold specScore, intersectionCount.
  rewrite calculateAverageDistance_spec, densityBonus_spec, longWordPenalty_spec.
  subst s. rewrite Z.add_0_l. reflexivity.
Qed.

Lemma scorePlacement_spec_witness :
  square 3 gridA /\
  spanInside 3 (Z.of_nat (length (str "AB"))) 0 1 across /\
  scorePlacement gridA (str "AB") 0 1 across [mkWordPlacement (str "A") [] 0 1 down 0]
  = Some 20.
Proof.
  assert (Hsq : square 3 gridA) by (split; [reflexivity | repeat constructor]).
  assert (Hin : spanInside 3 (Z.of_nat (length (str "AB"))) 0 1 across)
    by (simpl; lia).
  split; [exact Hsq|]. split; [exact Hin|].
  exact (scorePlacement_spec 3 gridA (str "AB") 0 1 across
           [mkWordPlacement (str "A") [] 0 1 down 0] Hsq Hin).
Defined.

(** ** Candidates *)

Lemma indexed_elem z a s :
  In (z, a) (indexed s) <-> exists k : nat, z = Z.of_nat k /\ s !! k = Some a.
Proof.
  unfold indexed. rewrite <- list_elem_of_In, elem_of_lookup_imap. split.
  - intros (k & x & Heq & Hk). injection Heq as -> ->. eauto.
  - intros (k & -> & Hk). eauto.
Qed.

Lemma findIntersections_elem currentWord placedWord i j :
  In (i, j) (findIntersections currentWord placedWord) <->
  exists (i' j' : nat) ch,
    i = Z.of_nat i' /\ j = Z.of_nat j' /\
    currentWord !! i' = Some ch /\ wp_word placedWord !! j' = Some ch.
Proof.
  unfold findIntersections. rewrite in_flat_map. split.
  - intros ([z a] & Ha & Hin). apply in_flat_map in Hin as ([z' b] & Hb & Hin).
    simpl in Hin. case_decide; [|destruct Hin]. subst b.
    destruct Hin as [Heq|[]]. injection Heq as <- <-.
    apply indexed_elem in Ha as (i' & -> & Hi).
    apply indexed_elem in Hb as (j' & -> & Hj). eauto 8.
  - intros (i' & j' & ch & -> & -> & Hi & Hj).
    exists (Z.of_nat i', ch). split; [apply indexed_elem; eauto|].
    apply in_flat_map. exists (Z.of_nat j', ch). split; [apply indexed_elem; eauto|].
    simpl. case_decide; [now left | congruence].
Qed.

Lemma findIntersections_disjoint currentWord placedWord :
  ~ shareLetter currentWord (wp_word placedWord) ->
  findIntersections currentWord placedWord = [].
Proof.
  intros Hno. destruct (findIntersections currentWord placedWord) as [|[i j] rest] eqn:E;
    [reflexivity|].
  exfalso. apply Hno.
  assert (Hin : In (i, j) (findIntersections currentWord placedWord))
    by (rewrite E; now left).
  apply findIntersections_elem in Hin as (i' & j' & ch & _ & _ & Hi & Hj).
  exists ch. split; eapply list_elem_of_lookup_2; eauto.
Qed.

Lemma collect_elem {A B} (f : A -> option (list B)) l out b :
  collect f l = Some out -> b ∈ out ->
  exists a found, a ∈ l /\ f a = Some found /\ b ∈ found.
Proof.
  revert out. induction l as [|a rest IH]; intros out H Hb; simpl in H.
  - injection H as <-. now apply elem_of_nil in Hb.
  - destruct (f a) as [found|] eqn:Hfa; [|discriminate].
    destruct (collect f rest) as [more|]; [|discriminate].
    injection H as <-. apply elem_of_app in Hb as [Hb|Hb].
    + exists a, found. split; [left|]. auto.
    + destruct (IH more eq_refl Hb) as (a' & found' & Ha' & Hf & Hb').
      exists a', found'. split; [now right|]. auto.
Qed.

Lemma collect_total {A B} (f : A -> option (list B)) l :
  (forall a, a ∈ l -> is_Some (f a)) -> is_Some (collect f l).
Proof.
  induction l as [|a rest IH]; intros H; simpl; [eauto|].
  destruct (H a) as [found ->]; [left|].
  destruct IH as [more ->]; [|eauto].
  intros a' Ha'. apply H. now right.
Qed.

Lemma findCandidates_elem g currentWord placedWords candidates cand :
  findCandidates g currentWord placedWords = Some candidates ->
  cand ∈ candidates ->
  exists placedWord i j,
    placedWord ∈ placedWords /\
    candidateOf g currentWord placedWords placedWord i j cand.
Proof.
  unfold findCandidates. intros H Hcand.
  destruct (collect_elem _ _ _ _ H Hcand) as (placedWord & found & Hp & Hfound & Hc).
  destruct (collect_elem _ _ _ _ Hfound Hc) as ([i j] & one & Hij & Hone & Hc1).
  apply list_elem_of_In, findIntersections_elem in Hij
    as (i' & j' & ch & -> & -> & Hi & Hj).
  exists placedWord, i', j'. split; [exact Hp|].
  unfold candidateFor in Hone. cbn [fst snd] in Hone.
  destruct (canPlaceWord _ _ _ _ _) as [[]|] eqn:Hcan; try discriminate.
  - destruct (scorePlacement _ _ _ _ _ _) as [score|] eqn:Hscore; [|discriminate].
    injection Hone as <-. apply list_elem_of_singleton in Hc1. subst cand.
    unfold candidateOf. cbn [wp_word wp_clue wp_row wp_col wp_direction wp_score].
    repeat split; try assumption; eauto;
      destruct (wp_direction placedWord); simpl; lia.
  - injection Hone as <-. now apply elem_of_nil in Hc1.
Qed.

Lemma findCandidates_total n g currentWord placedWords :
  square n g -> is_Some (findCandidates g currentWord placedWords).
Proof.
  intros Hsq. unfold findCandidates.
  apply collect_total. intros placedWord _.
  apply collect_total. intros ix _.
  unfold candidateFor.
  destruct (canPlaceWord_total n g (wi_word currentWord)
              (match perpendicular (wp_direction placedWord) with
               | across => wp_row placedWord + ix.2
               | down => wp_row placedWord - ix.1 end)
              (match perpendicular (wp_direction placedWord) with
               | across => wp_col placedWord - ix.1
               | down => wp_col placedWord + ix.2 end)
              (perpendicular (wp_direction placedWord)) Hsq) as [[] Hcan];
    rewrite Hcan; [|eauto].
  apply canPlaceWord_true in Hcan as [Hin _].
  pose proof Hsq as [Hn _]. rewrite Hn in Hin.
  destruct (scorePlacement_total n g (wi_word currentWord) _ _ _ placedWords Hsq Hin)
    as [score ->].
  eauto.
Qed.

(** ** The retry loop *)

Lemma findBestPlacement_found attempts options g currentWord placedWords best :
  findBestPlacement attempts options g currentWord placedWords = Some (Some best) ->
  exists candidates,
    findCandidates g currentWord placedWords = Some candidates /\
    best ∈ candidates /\
    head (sortBy byScoreDesc candidates) = Some best /\
    minIntersections options <= wp_score best.
Proof.
  induction attempts as [|remaining IH]; simpl; intros H; [discriminate|].
  destruct (findCandidates g currentWord placedWords) as [candidates|] eqn:Hc;
    [|discriminate].
  destruct (sortBy byScoreDesc candidates) as [|first others] eqn:Hsort.
  - destruct (IH H) as (cs & Hcs & Hrest). exists cs. now split.
  - destruct (Z.leb_spec (minIntersections options) (wp_score first)).
    + injection H as <-. exists candidates. split; [reflexivity|].
      split; [|rewrite Hsort; auto].
      rewrite <- (sortBy_perm byScoreDesc candidates), Hsort. left.
    + destruct (IH H) as (cs & Hcs & Hrest). exists cs. now split.
Qed.

Lemma findBestPlacement_total n attempts options g currentWord placedWords :
  square n g ->
  is_Some (findBestPlacement attempts options g currentWord placedWords).
Proof.
  intros Hsq. induction attempts as [|remaining IH]; simpl; [eauto|].
  destruct (findCandidates_total n g currentWord placedWords Hsq) as [cs ->].
  destruct (sortBy byScoreDesc cs) as [|first others]; [exact IH|].
  destruct (minIntersections options <=? wp_score first); [eauto | exact IH].
Qed.

(** The loop has no state of its own: a pass that accepts nothing is
    repeated unchanged, and the first pass decides. *)
Lemma findBestPlacement_first attempts options g currentWord placedWords candidates :
  findCandidates g currentWord placedWords = Some candidates ->
  findBestPlacement (S attempts) options g currentWord placedWords
  = Some (match sortBy byScoreDesc candidates with
          | best :: _ =>
              if minIntersections options <=? wp_score best then Some best else None
          | [] => None
          end).
Proof.
  intros Hc. induction attempts as [|remaining IH].
  - simpl. rewrite Hc.
    destruct (sortBy byScoreDesc candidates) as [|first others]; [reflexivity|].
    destruct (minIntersections options <=? wp_score first); reflexivity.
  - change (findBestPlacement (S (S remaining)) options g currentWord placedWords)
      with (candidates <- findCandidates g currentWord placedWords ;;
            match sortBy byScoreDesc candidates with
            | best :: _ =>
                if minIntersections options <=? wp_score best then Some (Some best)
                else findBestPlacement (S remaining) options g currentWord placedWords
            | [] => findBestPlacement (S remaining) options g currentWord placedWords
            end).
    rewrite Hc, IH.
    destruct (sortBy byScoreDesc candidates) as [|first others]; [reflexivity|].
    destruct (minIntersections options <=? wp_score first); reflexivity.
Qed.

(** ** The working grid stays consistent *)

Lemma consistent_place n st w best g' :
  consistent n st ->
  wp_word best = wi_word w ->
  canPlaceWord (en_grid st) (wi_word w) (wp_row best) (wp_col best) (wp_direction best)
    = Some true ->
  placeWord (en_grid st) w (wp_row best) (wp_col best) (wp_direction best) = Some g' ->
  consistent n {| en_grid := g'; en_placed := en_placed st ++ [best] |}.
Proof.
  intros (Hsq & Hholds & Hcov) Hword Hcan Hplace.
  apply canPlaceWord_true in Hcan as [Hin Hfree].
  pose proof Hsq as [Hn _]. rewrite Hn in Hin.
  destruct (placeWord_spec n (en_grid st) w _ _ _ Hsq Hin)
    as (g2 & Hplace2 & Hsq' & Hnew & Hold).
  rewrite Hplace in Hplace2. injection Hplace2 as <-.
  (* a cell of the new span that was filled before held the same letter *)
  assert (Hsame : forall k r c ch,
            (k < length (wi_word w))%nat ->
            spanCell (wp_row best) (wp_col best) (wp_direction best) k r c ->
            getCell (en_grid st) r c = Some (Some ch) ->
            wi_word w !! k = Some ch /\ getCell g' r c = Some (Some ch)).
  { intros k r c ch Hk [-> ->] Hcell.
    destruct (lookup_lt_is_Some_2 _ _ Hk) as [x Hx].
    destruct (Hfree k x Hx) as [Hnone|Hsome]; [congruence|].
    assert (x = ch) by congruence. subst x.
    split; [exact Hx | now apply Hnew]. }
  split; [exact Hsq'|]. cbn [en_grid en_placed]. split.
  - apply Forall_app. split.
    + rewrite Forall_forall in Hholds. apply Forall_forall. intros p Hp k ch Hk.
      specialize (Hholds p Hp k ch Hk).
      destruct (spanCell_dec (wp_row best) (wp_col best) (wp_direction best)
                  (length (wi_word w))
                  (cellRow (wp_direction p) (wp_row p) (Z.of_nat k))
                  (cellCol (wp_direction p) (wp_col p) (Z.of_nat k)))
        as [(k' & Hk' & Hspan)|Hout].
      * now destruct (Hsame k' _ _ ch Hk' Hspan Hholds).
      * now rewrite Hold.
    + apply Forall_singleton. unfold holdsPlacement. now rewrite Hword.
  - intros r c ch Hcell.
    destruct (spanCell_dec (wp_row best) (wp_col best) (wp_direction best)
                (length (wi_word w)) r c) as [(k' & Hk' & Hspan)|Hout].
    + exists best, k'. split; [apply elem_of_app; right; left|].
      split; [|exact Hspan].
      destruct (lookup_lt_is_Some_2 _ _ Hk') as [x Hx].
      destruct Hspan as [-> ->].
      rewrite (Hnew k' x Hx) in Hcell. rewrite Hword. congruence.
    + rewrite Hold in Hcell by exact Hout.
      destruct (Hcov r c ch Hcell) as (p & k & Hp & Hk & Hspan).
      exists p, k. split; [apply elem_of_app; now left | auto].
Qed.

Lemma tryPlaceWord_consistent n options st w :
  consistent n st ->
  exists st',
    tryPlaceWord options st w = Some st' /\
    consistent n st' /\
    exists more, en_placed st' = en_placed st ++ more.
Proof.
  intros Hst. pose proof Hst as (Hsq & _ & _). unfold tryPlaceWord.
  destruct (findBestPlacement_total n (Z.to_nat (maxAttempts options)) options
              (en_grid st) w (en_placed st) Hsq) as [[best|] Hbest]; rewrite Hbest.
  - apply findBestPlacement_found in Hbest as (cs & Hcs & Hin & _ & _).
    destruct (findCandidates_elem _ _ _ _ _ Hcs Hin)
      as (pw & i & j & _ & Hword & _ & Hcan & _).
    pose proof Hcan as Hcan'.
    apply canPlaceWord_true in Hcan' as [Hspan _].
    pose proof Hsq as [Hn _]. rewrite Hn in Hspan.
    destruct (placeWord_spec n (en_grid st) w _ _ _ Hsq Hspan) as (g' & Hplace & _).
    rewrite Hplace. eexists. split; [reflexivity|]. split.
    + eapply consistent_place; eauto.
    + now exists [best].
  - exists st. split; [reflexivity|]. split; [exact Hst|].
    exists []. now rewrite app_nil_r.
Qed.

Lemma foldM_tryPlaceWord_consistent n options words : forall st,
  consistent n st ->
  exists st',
    foldM (tryPlaceWord options) st words = Some st' /\
    consistent n st' /\
    exists more, en_placed st' = en_placed st ++ more.
Proof.
  induction words as [|w rest IH]; intros st Hst; simpl.
  - exists st. split; [reflexivity|]. split; [exact Hst|].
    exists []. now rewrite app_nil_r.
  - destruct (tryPlaceWord_consistent n options st w Hst)
      as (st1 & -> & Hst1 & more1 & Hmore1).
    destruct (IH st1 Hst1) as (st' & Hfold & Hst' & more & Hmore).
    exists st'. split; [exact Hfold|]. split; [exact Hst'|].
    exists (more1 ++ more). now rewrite Hmore, Hmore1, app_assoc.
Qed.

Lemma placeAnchor_consistent firstWord :
  exists st,
    placeAnchor firstWord = Some st /\
    consistent (Z.max 30 (wordLength firstWord * 3)) st /\
    en_placed st = [anchorPlacement firstWord].
Proof.
  unfold placeAnchor. set (n := Z.max 30 (wordLength firstWord * 3)).
  assert (Hlen : 0 <= wordLength firstWord) by (unfold wordLength; lia).
  assert (Hn : 30 <= n /\ wordLength firstWord * 3 <= n) by lia.
  assert (Hin : spanInside n (wordLength firstWord) (n / 2)
                  ((n - wordLength firstWord) / 2) across).
  { simpl. pose proof (Z.div_mod n 2 ltac:(lia)).
    pose proof (Z.mod_pos_bound n 2 ltac:(lia)).
    pose proof (Z.div_mod (n - wordLength firstWord) 2 ltac:(lia)).
    pose proof (Z.mod_pos_bound (n - wordLength firstWord) 2 ltac:(lia)).
    lia. }
  destruct (placeWord_spec n (emptyGrid n) firstWord _ _ _
              (emptyGrid_square n ltac:(lia)) Hin)
    as (g & -> & Hsq & Hnew & Hold).
  eexists. split; [reflexivity|]. split; [|reflexivity].
  split; [exact Hsq|]. cbn [en_grid en_placed]. split.
  - apply Forall_singleton. exact Hnew.
  - intros r c ch Hcell.
    destruct (spanCell_dec (n / 2) ((n - wordLength firstWord) / 2) across
                (length (wi_word firstWord)) r c) as [(k & Hk & Hspan)|Hout].
    + eexists _, k. split; [left|]. cbn [wp_word wp_row wp_col wp_direction].
      split; [|exact Hspan].
      destruct (lookup_lt_is_Some_2 _ _ Hk) as [x Hx].
      destruct Hspan as [-> ->]. rewrite (Hnew k x Hx) in Hcell. congruence.
    + rewrite Hold in Hcell by exact Hout.
      apply getCell_emptyGrid in Hcell. discriminate.
Qed.

Lemma placeWords_consistent options firstWord others :
  exists st,
    placeWords options (firstWord :: others) = Some st /\
    consistent (Z.max 30 (wordLength firstWord * 3)) st /\
    exists more, en_placed st = anchorPlacement firstWord :: more.
Proof.
  unfold placeWords.
  destruct (placeAnchor_consistent firstWord) as (st0 & -> & Hst0 & Hplaced0).
  destruct (foldM_tryPlaceWord_consistent _ options others st0 Hst0)
    as (st & Hfold & Hst & more & Hmore).
  exists st. split; [exact Hfold|]. split; [exact Hst|].
  exists more. now rewrite Hmore, Hplaced0.
Qed.

(** ** compactGrid: the bounding box *)

Lemma rangeCells_elem r0 rows c0 cols r c :
  In (r, c) (rangeCells r0 rows c0 cols) <->
  r0 <= r < r0 + rows /\ c0 <= c < c0 + cols.
Proof.
  unfold rangeCells. rewrite in_flat_map. split.
  - intros (r' & Hr & Hin). apply in_map_iff in Hin as (c' & Heq & Hc).
    injection Heq as -> ->.
    apply list_elem_of_In, elem_of_seqZ in Hr.
    apply list_elem_of_In, elem_of_seqZ in Hc. lia.
  - intros [Hr Hc]. exists r. split.
    + apply list_elem_of_In, elem_of_seqZ. lia.
    + apply in_map_iff. exists c. split; [reflexivity|].
      apply list_elem_of_In, elem_of_seqZ. lia.
Qed.

Lemma square_readable n g : square n g -> readable n g.
Proof. intros Hsq r c [Hr Hc]. now apply (getCell_inside n). Qed.

Lemma scan_reads g cells : forall b b',
  foldM (scanCell g) b cells = Some b' ->
  forall x, In x cells -> is_Some (getCell g x.1 x.2).
Proof.
  induction cells as [|y rest IH]; intros b b' H x Hx; [destruct Hx|].
  simpl in H.
  destruct (scanCell g b y) as [b1|] eqn:Hs; [|discriminate].
  unfold scanCell in Hs.
  destruct (getCell g y.1 y.2) as [cell|] eqn:Hy; [|discriminate].
  destruct Hx as [<-|Hx]; [rewrite Hy; eauto|].
  eapply IH; eauto.
Qed.

Lemma scan_step g init b done r c cell :
  getCell g r c = Some cell ->
  scanned g init b done ->
  scanned g init
    (if filled cell
     then {| minRow := Z.min (minRow b) r; maxRow := Z.max (maxRow b) r;
             minCol := Z.min (minCol b) c; maxCol := Z.max (maxCol b) c |}
     else b)
    (done ++ [(r, c)]).
Proof.
  intros Hcell (Hall & Hr0 & Hr1 & Hc0 & Hc1).
  destruct cell as [ch|]; unfold scanned; simpl.
  - assert (Hf : filledAt g r c) by (exists ch; exact Hcell).
    split; [|split; [|split; [|split]]].
    + intros r' c' Hin Hfilled. apply in_app_or in Hin as [Hin|[Heq|[]]].
      * specialize (Hall r' c' Hin Hfilled). lia.
      * injection Heq as <- <-. lia.
    + destruct (Z.min_spec (minRow b) r) as [[_ ->]|[_ ->]].
      * destruct Hr0 as [?|(c' & Hin & Hf')]; [now left|].
        right. exists c'. split; [apply in_or_app; now left | exact Hf'].
      * right. exists c. split; [apply in_or_app; right; now left | exact Hf].
    + destruct (Z.max_spec (maxRow b) r) as [[_ ->]|[_ ->]].
      * right. exists c. split; [apply in_or_app; right; now left | exact Hf].
      * destruct Hr1 as [?|(c' & Hin & Hf')]; [now left|].
        right. exists c'. split; [apply in_or_app; now left | exact Hf'].
    + destruct (Z.min_spec (minCol b) c) as [[_ ->]|[_ ->]].
      * destruct Hc0 as [?|(r' & Hin & Hf')]; [now left|].
        right. exists r'. split; [apply in_or_app; now left | exact Hf'].
      * right. exists r. split; [apply in_or_app; right; now left | exact Hf].
    + destruct (Z.max_spec (maxCol b) c) as [[_ ->]|[_ ->]].
      * right. exists r. split; [apply in_or_app; right; now left | exact Hf].
      * destruct Hc1 as [?|(r' & Hin & Hf')]; [now left|].
        right. exists r'. split; [apply in_or_app; now left | exact Hf'].
  - split; [|split; [|split; [|split]]].
    + intros r' c' Hin Hfilled. apply in_app_or in Hin as [Hin|[Heq|[]]].
      * exact (Hall r' c' Hin Hfilled).
      * injection Heq as <- <-. destruct Hfilled as [ch Hch]. congruence.
    + destruct Hr0 as [?|(c' & Hin & Hf')]; [now left|].
      right. exists c'. split; [apply in_or_app; now left | exact Hf'].
    + destruct Hr1 as [?|(c' & Hin & Hf')]; [now left|].
      right. exists c'. split; [apply in_or_app; now left | exact Hf'].
    + destruct Hc0 as [?|(r' & Hin & Hf')]; [now left|].
      right. exists r'. split; [apply in_or_app; now left | exact Hf'].
    + destruct Hc1 as [?|(r' & Hin & Hf')]; [now left|].
      right. exists r'. split; [apply in_or_app; now left | exact Hf'].
Qed.

Lemma scan_invariant g init cells : forall b done,
  (forall x, In x cells -> is_Some (getCell g x.1 x.2)) ->
  scanned g init b done ->
  exists b', foldM (scanCell g) b cells = Some b' /\ scanned g init b' (done ++ cells).
Proof.
  induction cells as [|[r c] rest IH]; intros b done Hread Hinv; simpl.
  - exists b. rewrite app_nil_r. auto.
  - destruct (Hread (r, c) (or_introl eq_refl)) as [cell Hcell].
    simpl in Hcell. unfold scanCell at 1. cbn [fst snd]. rewrite Hcell.
    destruct (IH _ (done ++ [(r, c)]) (fun x Hx => Hread x (or_intror Hx))
                (scan_step g init b done r c cell Hcell Hinv)) as (b' & Hfold & Hinv').
    exists b'. split; [exact Hfold|].
    now rewrite <- app_assoc in Hinv'.
Qed.

Lemma scanned_start g init : scanned g init init [].
Proof.
  split; [intros r c []|]. repeat split; now left.
Qed.

(** The scan of a readable area ends with the initial bounds when the
    area is empty, and with its bounding box otherwise. *)
Lemma scan_result n g :
  0 <= n -> readable n g ->
  exists b,
    foldM (scanCell g) {| minRow := n; maxRow := -1; minCol := n; maxCol := -1 |}
      (rangeCells 0 n 0 n) = Some b /\
    ((b = {| minRow := n; maxRow := -1; minCol := n; maxCol := -1 |} /\
      ~ hasContent n g)
     \/ tight n g b).
Proof.
  intros Hn Hread.
  set (init := {| minRow := n; maxRow := -1; minCol := n; maxCol := -1 |}).
  destruct (scan_invariant g init (rangeCells 0 n 0 n) init [])
    as (b & Hfold & Hall & Hr0 & Hr1 & Hc0 & Hc1).
  { intros [r c] Hx. apply rangeCells_elem in Hx. apply Hread. split; simpl; lia. }
  { apply scanned_start. }
  exists b. split; [exact Hfold|]. simpl in *.
  assert (Hin : forall r c, In (r, c) (rangeCells 0 n 0 n) <-> inArea n r c).
  { intros r c. rewrite rangeCells_elem. unfold inArea. lia. }
  assert (Hbox : forall r c, inArea n r c -> filledAt g r c ->
            minRow b <= r <= maxRow b /\ minCol b <= c <= maxCol b).
  { intros r c Ha Hf. apply Hall; [now apply Hin | exact Hf]. }
  assert (Hcontent : hasContent n g -> tight n g b).
  { intros (r & c & Ha & Hf). pose proof (Hbox r c Ha Hf) as Hb.
    destruct Ha as [Hr Hc].
    split; [exact Hbox|]. split; [|split; [|split]].
    - destruct Hr0 as [?|(c' & Hi & Hf')]; [lia|]. exists c'. split; [now apply Hin | auto].
    - destruct Hr1 as [?|(c' & Hi & Hf')]; [lia|]. exists c'. split; [now apply Hin | auto].
    - destruct Hc0 as [?|(r' & Hi & Hf')]; [lia|]. exists r'. split; [now apply Hin | auto].
    - destruct Hc1 as [?|(r' & Hi & Hf')]; [lia|]. exists r'. split; [now apply Hin | auto]. }
  destruct Hr0 as [E0|(c' & Hi & Hf')];
    [|right; apply Hcontent; exists (minRow b), c'; split; [now apply Hin | auto]].
  destruct Hr1 as [E1|(c' & Hi & Hf')];
    [|right; apply Hcontent; exists (maxRow b), c'; split; [now apply Hin | auto]].
  destruct Hc0 as [E2|(r' & Hi & Hf')];
    [|right; apply Hcontent; exists r', (minCol b); split; [now apply Hin | auto]].
  destruct Hc1 as [E3|(r' & Hi & Hf')];
    [|right; apply Hcontent; exists r', (maxCol b); split; [now apply Hin | auto]].
  left. split.
  - destruct b; simpl in *; subst; reflexivity.
  - intros (r & c & Ha & Hf). pose proof (Hbox r c Ha Hf). destruct Ha. lia.
Qed.

(** ** compactGrid: the copy *)

Lemma getCell_emptyGrid_inside n i j :
  inArea n i j -> getCell (emptyGrid n) i j = Some None.
Proof.
  intros [Hi Hj].
  destruct (getCell_inside n (emptyGrid n) i j (emptyGrid_square n ltac:(lia)) Hi Hj)
    as [v Hv].
  rewrite Hv. f_equal. eapply getCell_emptyGrid; eauto.
Qed.

Lemma copy_spec g mr mc m cells : forall G0,
  square m G0 ->
  (forall x, In x cells ->
     is_Some (getCell g x.1 x.2) /\ inArea m (x.1 - mr) (x.2 - mc)) ->
  exists G',
    foldM (copyCell g mr mc) G0 cells = Some G' /\
    square m G' /\
    forall i j,
      (In (i + mr, j + mc) cells -> getCell G' i j = getCell g (i + mr) (j + mc)) /\
      (~ In (i + mr, j + mc) cells -> getCell G' i j = getCell G0 i j).
Proof.
  induction cells as [|[r c] rest IH]; intros G0 Hsq Hok.
  - exists G0. simpl. split; [reflexivity|]. split; [exact Hsq|].
    intros i j. split; [intros [] | reflexivity].
  - simpl. unfold copyCell at 1. cbn [fst snd].
    destruct (Hok (r, c) (or_introl eq_refl)) as [[cell Hcell] [Hr Hc]].
    cbn [fst snd] in *. rewrite Hcell.
    destruct (setCell_inside m G0 (r - mr) (c - mc) cell Hsq Hr Hc) as [G1 Hset].
    rewrite Hset.
    destruct (IH G1 (setCell_square _ _ _ _ _ _ Hsq Hset)
                (fun x Hx => Hok x (or_intror Hx))) as (G' & Hfold & Hsq' & Hcells).
    exists G'. split; [exact Hfold|]. split; [exact Hsq'|].
    intros i j. destruct (Hcells i j) as [Hin Hnot].
    destruct (decide ((i + mr, j + mc) ∈ rest)) as [Hrest|Hrest];
      rewrite list_elem_of_In in Hrest.
    + split; [intros _; now apply Hin | intros Hn; exfalso; apply Hn; now right].
    + rewrite (Hnot Hrest). split.
      * intros [Heq|Hr']; [|contradiction].
        injection Heq as -> ->.
        replace (i + mr - mr) with i in Hset by lia.
        replace (j + mc - mc) with j in Hset by lia.
        rewrite Hcell. eapply getCell_setCell_eq; eauto.
      * intros Hn. eapply getCell_setCell_ne; [exact Hset|].
        intros Heq. injection Heq as -> ->. apply Hn. left. f_equal; lia.
Qed.

Lemma tight_bounds n g b :
  tight n g b ->
  0 <= minRow b <= maxRow b /\ maxRow b < n /\
  0 <= minCol b <= maxCol b /\ maxCol b < n.
Proof.
  intros (Hbox & (c0 & [Hr0 _] & Hf0) & (c1 & [Hr1 Hc1] & Hf1)
               & (r2 & [_ Hc2] & Hf2) & (r3 & [_ Hc3] & Hf3)).
  pose proof (Hbox _ _ (conj Hr1 Hc1) Hf1). lia.
Qed.

Lemma compactGrid_unfold g words b :
  let n := Z.of_nat (length g) in
  foldM (scanCell g) {| minRow := n; maxRow := -1; minCol := n; maxCol := -1 |}
    (rangeCells 0 n 0 n) = Some b ->
  0 <= minRow b -> maxRow b <= n - 1 -> 0 <= minCol b -> maxCol b <= n - 1 ->
  compactGrid g words =
  let newSize := Z.max (maxRow b - minRow b + 1) (maxCol b - minCol b + 1) in
  if newSize <? 0 then None
  else
    newGrid <- foldM (copyCell g (minRow b) (minCol b)) (emptyGrid newSize)
                 (rangeCells (minRow b) (maxRow b - minRow b + 1)
                             (minCol b) (maxCol b - minCol b + 1)) ;;
    Some {| cp_size := newSize; cp_grid := newGrid;
            cp_words := map (shiftWord (minRow b) (minCol b)) words |}.
Proof.
  intros n Hscan H1 H2 H3 H4. unfold compactGrid. fold n. rewrite Hscan.
  cbv zeta. rewrite !Z.sub_0_r, !Z.add_0_r.
  rewrite (Z.max_r 0 (minRow b)), (Z.min_r (n - 1) (maxRow b)),
          (Z.max_r 0 (minCol b)), (Z.min_r (n - 1) (maxCol b)) by lia.
  reflexivity.
Qed.

(** The compacted grid of a readable grid with content: its bounding
    box moved to the top left corner of a square whose side is the
    larger side of the box. *)
Lemma compactGrid_spec g words :
  let n := Z.of_nat (length g) in
  readable n g -> hasContent n g ->
  exists b G,
    tight n g b /\
    compactGrid g words
    = Some {| cp_size := Z.max (maxRow b - minRow b + 1) (maxCol b - minCol b + 1);
              cp_grid := G;
              cp_words := map (shiftWord (minRow b) (minCol b)) words |} /\
    square (Z.max (maxRow b - minRow b + 1) (maxCol b - minCol b + 1)) G /\
    forall i j,
      inArea (Z.max (maxRow b - minRow b + 1) (maxCol b - minCol b + 1)) i j ->
      getCell G i j
      = if decide (i <= maxRow b - minRow b /\ j <= maxCol b - minCol b)
        then getCell g (i + minRow b) (j + minCol b)
        else Some None.
Proof.
  intros n Hread Hcontent.
  destruct (scan_result n g ltac:(lia) Hread) as (b & Hscan & [[_ Hno]|Htight]);
    [contradiction|].
  pose proof (tight_bounds n g b Htight) as Hb.
  exists b.
  set (size := Z.max (maxRow b - minRow b + 1) (maxCol b - minCol b + 1)).
  destruct (copy_spec g (minRow b) (minCol b) size
              (rangeCells (minRow b) (maxRow b - minRow b + 1)
                          (minCol b) (maxCol b - minCol b + 1))
              (emptyGrid size) (emptyGrid_square size ltac:(lia)))
    as (G & Hcopy & Hsq & Hcells).
  { intros [r c] Hx. apply rangeCells_elem in Hx. cbn [fst snd]. split.
    - apply Hread. unfold inArea. lia.
    - unfold inArea. lia. }
  exists G. split; [exact Htight|]. split; [|split; [exact Hsq|]].
  - rewrite (compactGrid_unfold g words b Hscan) by lia.
    cbv zeta. fold size. rewrite Hcopy.
    destruct (Z.ltb_spec size 0); [lia | reflexivity].
  - intros i j Ha. destruct (Hcells i j) as [Hin Hout].
    case_decide as Hd.
    + apply Hin. apply rangeCells_elem. destruct Ha. lia.
    + rewrite Hout; [now apply getCell_emptyGrid_inside|].
      rewrite rangeCells_elem. lia.
Qed.

(** When [compactGrid] returns, the grid was empty ([[]]) or a readable
    grid with content. *)
Lemma compactGrid_returns g words res :
  compactGrid g words = Some res ->
  (g = [] /\ res = {| cp_size := 0; cp_grid := [];
                      cp_words := map (shiftWord 0 0) words |})
  \/ (readable (Z.of_nat (length g)) g /\ hasContent (Z.of_nat (length g)) g).
Proof.
  intros H. destruct g as [|row0 rest]; [left; split; [reflexivity|]|right].
  - vm_compute in H. injection H as <-. reflexivity.
  - set (g := row0 :: rest) in *. set (n := Z.of_nat (length g)).
    assert (Hn : 0 < n) by (unfold n, g; simpl; lia).
    assert (Hread : readable n g).
    { unfold compactGrid in H. fold n in H.
      destruct (foldM (scanCell g) _ _) as [b|] eqn:Hscan; [|discriminate].
      intros r c [Hr Hc].
      apply (scan_reads _ _ _ _ Hscan (r, c)). apply rangeCells_elem. lia. }
    split; [exact Hread|].
    destruct (scan_result n g ltac:(lia) Hread) as (b & Hscan & [[-> _]|Htight]).
    + exfalso. unfold compactGrid in H. fold n in H. rewrite Hscan in H.
      cbv zeta in H. cbn [minRow maxRow minCol maxCol] in H.
      destruct (Z.ltb_spec
                  (Z.max (Z.min (n - 1) (-1 + 0) - Z.max 0 (n - 0) + 1)
                         (Z.min (n - 1) (-1 + 0) - Z.max 0 (n - 0) + 1)) 0);
        [discriminate | lia].
    + destruct Htight as (_ & (c & Ha & Hf) & _). now exists (minRow b), c.
Qed.

(** ** compactGrid is idempotent *)

Lemma shiftWord_zero w : shiftWord 0 0 w = w.
Proof. destruct w. unfold shiftWord. simpl. f_equal; lia. Qed.

Lemma map_shiftWord_zero words : map (shiftWord 0 0) words = words.
Proof.
  induction words as [|w rest IH]; simpl; [reflexivity|].
  now rewrite shiftWord_zero, IH.
Qed.

Section Compacted.
Variables (g G : Grid) (b : Bounds).
Hypothesis Htight : tight (Z.of_nat (length g)) g b.
Hypothesis Hcells : forall i j,
  inArea (Z.max (maxRow b - minRow b + 1) (maxCol b - minCol b + 1)) i j ->
  getCell G i j
  = if decide (i <= maxRow b - minRow b /\ j <= maxCol b - minCol b)
    then getCell g (i + minRow b) (j + minCol b)
    else Some None.

(** A filled cell of the source is a filled cell of the result, moved. *)
Lemma compacted_filled r c :
  inArea (Z.of_nat (length g)) r c -> filledAt g r c ->
  inArea (Z.max (maxRow b - minRow b + 1) (maxCol b - minCol b + 1))
           (r - minRow b) (c - minCol b) /\
  filledAt G (r - minRow b) (c - minCol b).
Proof using Htight Hcells.
  intros Ha Hf. destruct Htight as (Hbox & _).
  pose proof (Hbox r c Ha Hf) as Hrc.
  assert (Hin : inArea (Z.max (maxRow b - minRow b + 1) (maxCol b - minCol b + 1))
           (r - minRow b) (c - minCol b))
    by (unfold inArea; lia).
  split; [exact Hin|].
  destruct Hf as [ch Hch]. exists ch.
  rewrite (Hcells _ _ Hin). case_decide; [|lia].
  now replace (r - minRow b + minRow b) with r by lia;
      replace (c - minCol b + minCol b) with c by lia.
Qed.

(** A filled cell of the result comes from the bounding box. *)
Lemma compacted_source i j :
  inArea (Z.max (maxRow b - minRow b + 1) (maxCol b - minCol b + 1)) i j ->
  filledAt G i j ->
  i <= maxRow b - minRow b /\ j <= maxCol b - minCol b /\
  filledAt g (i + minRow b) (j + minCol b).
Proof using Htight Hcells.
  intros Ha [ch Hch]. rewrite (Hcells _ _ Ha) in Hch.
  case_decide as Hd; [|discriminate].
  destruct Hd. repeat split; try assumption. now exists ch.
Qed.

(** The bounding box of the result. *)
Lemma compacted_tight b' :
  tight (Z.max (maxRow b - minRow b + 1) (maxCol b - minCol b + 1)) G b' ->
  b' = {| minRow := 0; maxRow := maxRow b - minRow b;
          minCol := 0; maxCol := maxCol b - minCol b |}.
Proof using Htight Hcells.
  intros (Hbox' & (c0 & Ha0 & Hf0) & (c1 & Ha1 & Hf1)
                & (r2 & Ha2 & Hf2) & (r3 & Ha3 & Hf3)).
  pose proof (tight_bounds _ _ _ Htight) as Hb.
  destruct Htight as (Hbox & (d0 & Hd0 & Hg0) & (d1 & Hd1 & Hg1)
                           & (s2 & Hs2 & Hg2) & (s3 & Hs3 & Hg3)).
  destruct (compacted_filled _ _ Hd0 Hg0) as [I0 F0].
  destruct (compacted_filled _ _ Hd1 Hg1) as [I1 F1].
  destruct (compacted_filled _ _ Hs2 Hg2) as [I2 F2].
  destruct (compacted_filled _ _ Hs3 Hg3) as [I3 F3].
  pose proof (Hbox' _ _ I0 F0). pose proof (Hbox' _ _ I1 F1).
  pose proof (Hbox' _ _ I2 F2). pose proof (Hbox' _ _ I3 F3).
  pose proof (compacted_source _ _ Ha0 Hf0) as (? & ? & _).
  pose proof (compacted_source _ _ Ha1 Hf1) as (? & ? & _).
  pose proof (compacted_source _ _ Ha2 Hf2) as (? & ? & _).
  pose proof (compacted_source _ _ Ha3 Hf3) as (? & ? & _).
  destruct Ha0 as [? ?], Ha1 as [? ?], Ha2 as [? ?], Ha3 as [? ?].
  destruct b' as [a1 a2 a3 a4]. simpl in *. f_equal; lia.
Qed.
End Compacted.

(** C8.  Compaction is idempotent: whenever the compactor returns a
    size, a grid and placement records, applying it to that grid and
    those records returns the same size, the same grid and the same
    records.  (On a grid of one or more rows without any letter the
    compactor returns nothing: [Array(newSize)] has a negative length.) *)
Theorem compactGrid_idempotent (g : Grid) (words : list WordPlacement) (res : Compacted) :
  compactGrid g words = Some res ->
  compactGrid (cp_grid res) (cp_words res) = Some res.
Proof.
  intros H. destruct (compactGrid_returns g words res H) as [[-> ->]|[Hread Hcontent]].
  - cbn [cp_grid cp_words]. vm_compute compactGrid at 1.
    now rewrite map_shiftWord_zero.
  - destruct (compactGrid_spec g words Hread Hcontent)
      as (b & G & Htight & Heq & Hsq & Hcells).
    rewrite Heq in H. injection H as <-. cbn [cp_grid cp_words].
    set (size := Z.max (maxRow b - minRow b + 1) (maxCol b - minCol b + 1)) in *.
    set (words' := map (shiftWord (minRow b) (minCol b)) words).
    pose proof Hsq as [Hlen _].
    assert (Hcontent' : hasContent size G).
    { pose proof Htight as (_ & (c & Ha & Hf) & _).
      destruct (compacted_filled g G b Htight Hcells _ _ Ha Hf) as [Ha' Hf'].
      now exists (minRow b - minRow b), (c - minCol b). }
    pose proof (compactGrid_spec G words') as Hspec. cbv zeta in Hspec.
    rewrite Hlen in Hspec.
    destruct (Hspec (square_readable _ _ Hsq) Hcontent')
      as (b' & G' & Htight' & Heq' & Hsq' & Hcells').
    rewrite (compacted_tight g G b Htight Hcells b' Htight') in *.
    cbn [minRow maxRow minCol maxCol] in *.
    rewrite !Z.sub_0_r in *. fold size in Heq', Hsq', Hcells'.
    rewrite Heq'. f_equal. f_equal.
    + symmetry. apply (grid_ext size); [exact Hsq | exact Hsq' |].
      intros i j Hi Hj. rewrite (Hcells' i j (conj Hi Hj)), !Z.add_0_r.
      case_decide as Hd; [reflexivity|].
      rewrite (Hcells i j (conj Hi Hj)). case_decide; [contradiction | reflexivity].
    + apply map_shiftWord_zero.
Qed.

Lemma compactGrid_idempotent_witness :
  compactGrid [[None; None; None]; [None; Some "A"%char; Some "B"%char]; [None; None; None]]
    [mkWordPlacement (str "AB") [] 1 1 across 0]
  = Some (mkCompacted 2 [[Some "A"%char; Some "B"%char]; [None; None]]
            [mkWordPlacement (str "AB") [] 0 0 across 0])
  /\ compactGrid [[Some "A"%char; Some "B"%char]; [None; None]]
       [mkWordPlacement (str "AB") [] 0 0 across 0]
     = Some (mkCompacted 2 [[Some "A"%char; Some "B"%char]; [None; None]]
               [mkWordPlacement (str "AB") [] 0 0 across 0]).
Proof.
  split; [reflexivity|].
  exact (compactGrid_idempotent
           [[None; None; None]; [None; Some "A"%char; Some "B"%char]; [None; None; None]]
           [mkWordPlacement (str "AB") [] 1 1 across 0]
           (mkCompacted 2 [[Some "A"%char; Some "B"%char]; [None; None]]
              [mkWordPlacement (str "AB") [] 0 0 across 0])
           eq_refl).
Defined.

(** ** assignClueNumbers *)

Lemma wordsAt_app p words w :
  wordsAt p (words ++ [w])
  = wordsAt p words ++ (if decide (startKey w = p) then [w] else []).
Proof.
  unfold wordsAt. rewrite List.filter_app. simpl.
  case_bool_decide; case_decide; try contradiction; reflexivity.
Qed.

Lemma wordsAt_nil p words :
  (forall w, In w words -> startKey w <> p) -> wordsAt p words = [].
Proof.
  intros H. unfold wordsAt. induction words as [|w rest IH]; simpl; [reflexivity|].
  case_bool_decide as E; [exfalso; apply (H w); [now left | exact E]|].
  apply IH. intros w' Hw'. apply H. now right.
Qed.

Lemma wordsAt_elem p words w : In w (wordsAt p words) <-> In w words /\ startKey w = p.
Proof.
  unfold wordsAt. rewrite filter_In. now rewrite bool_decide_eq_true.
Qed.

Lemma pushAt_keys key w (m : StartMap) :
  map fst (pushAt key w m)
  = if decide (key ∈ map fst m) then map fst m else map fst m ++ [key].
Proof.
  induction m as [|[k ws] rest IH]; [reflexivity|].
  cbn [pushAt]. destruct (decide (k = key)) as [->|Hne]; cbn [map fst].
  - destruct (decide (key ∈ key :: map fst rest)) as [_|H];
      [reflexivity | exfalso; apply H; left].
  - rewrite IH.
    destruct (decide (key ∈ map fst rest)) as [H1|H1],
             (decide (key ∈ k :: map fst rest)) as [H2|H2]; try reflexivity.
    + exfalso. apply H2. now right.
    + exfalso. apply elem_of_cons in H2 as [?|?]; [congruence | contradiction].
Qed.

Lemma pushAt_entries key w (m : StartMap) : NoDup (map fst m) ->
  forall k ws', In (k, ws') (pushAt key w m) ->
    (k <> key /\ In (k, ws') m) \/
    (k = key /\ ((exists ws, In (k, ws) m /\ ws' = ws ++ [w]) \/
                 (~ In key (map fst m) /\ ws' = [w]))).
Proof.
  induction m as [|[k0 ws0] rest IH]; intros Hnd k ws' Hin; simpl in *.
  - destruct Hin as [Heq|[]]. injection Heq as <- <-. right. split; [reflexivity|].
    right. split; [intros [] | reflexivity].
  - apply NoDup_cons in Hnd as [Hk0 Hnd].
    destruct (decide (k0 = key)) as [->|Hne].
    + destruct Hin as [Heq|Hin].
      * injection Heq as <- <-. right. split; [reflexivity|]. left.
        exists ws0. split; [now left | reflexivity].
      * left. split; [|now right]. intros ->. apply Hk0.
        apply list_elem_of_In, in_map_iff. now exists (key, ws').
    + destruct Hin as [Heq|Hin].
      * injection Heq as <- <-. left. split; [exact Hne | now left].
      * destruct (IH Hnd k ws' Hin) as [[H1 H2]|[-> [(ws & H1 & H2)|[H1 H2]]]].
        -- left. split; [exact H1 | now right].
        -- right. split; [reflexivity|]. left. exists ws. split; [now right | exact H2].
        -- right. split; [reflexivity|]. right. split; [|exact H2].
           intros [?|?]; contradiction.
Qed.

(** The [Map] after the first loop: one entry per start position, with
    the records that start there. *)
Lemma groupByStart_spec words :
  NoDup (map fst (groupByStart words)) /\
  (forall k ws, In (k, ws) (groupByStart words) -> ws = wordsAt k words) /\
  (forall k, In k (map fst (groupByStart words)) <->
             exists w, In w words /\ startKey w = k) /\
  length (concat (map snd (groupByStart words))) = length words.
Proof.
  unfold groupByStart. induction words as [|w words IH] using rev_ind.
  - simpl. split; [constructor|]. split; [intros k ws []|]. split; [|reflexivity].
    intros k. split; [intros [] | intros (w & [] & _)].
  - rewrite fold_left_app. simpl.
    set (m := fold_left (fun m w => pushAt (startKey w) w m) words []) in *.
    destruct IH as (Hnd & Hentries & Hkeys & Hlen).
    assert (Hkeys' : forall k, In k (map fst (pushAt (startKey w) w m)) <->
                               In k (map fst m) \/ k = startKey w).
    { intros k. rewrite pushAt_keys. case_decide as Hin.
      - apply list_elem_of_In in Hin. split; [auto | intros [?| ->]; assumption].
      - rewrite in_app_iff. simpl. intuition. }
    split; [|split; [|split]].
    + rewrite pushAt_keys. case_decide as Hin; [exact Hnd|].
      apply NoDup_app. split; [exact Hnd|]. split; [|apply NoDup_singleton].
      intros k Hk Hk'. apply list_elem_of_singleton in Hk'. subst k.
      now apply Hin.
    + intros k ws' Hin. rewrite wordsAt_app.
      destruct (pushAt_entries _ _ _ Hnd k ws' Hin)
        as [[Hne Hold]|[-> [(ws & Hold & ->)|[Hnew ->]]]].
      * rewrite (Hentries _ _ Hold). case_decide; [congruence|]. now rewrite app_nil_r.
      * rewrite (Hentries _ _ Hold). case_decide; [reflexivity | contradiction].
      * rewrite wordsAt_nil.
        -- case_decide; [reflexivity | contradiction].
        -- intros w' Hw' Heq. apply Hnew, Hkeys. eauto.
    + intros k. rewrite Hkeys', Hkeys. split.
      * intros [(w' & Hw' & Hk)| ->].
        -- exists w'. split; [apply in_or_app; now left | exact Hk].
        -- exists w. split; [apply in_or_app; right; now left | reflexivity].
      * intros (w' & Hw' & Hk). apply in_app_or in Hw' as [Hw'|[<-|[]]]; eauto.
    + rewrite length_app. simpl. rewrite <- Hlen.
      clear. induction m as [|[k ws] rest IHm]; simpl; [reflexivity|].
      destruct (decide (k = startKey w)); simpl.
      * rewrite !length_app. simpl. lia.
      * rewrite !length_app, IHm. lia.
Qed.

Lemma numberFrom_spec words (entries : StartMap) : forall n,
  (forall k ws, In (k, ws) entries -> ws = wordsAt k words) ->
  numberFrom n entries
  = concat (imap (fun i p => map (numbered (Z.of_nat i + n)) (wordsAt p words))
                 (map fst entries)).
Proof.
  induction entries as [|[k ws] rest IH]; intros n Hentries; simpl; [reflexivity|].
  rewrite <- (Hentries k ws (or_introl eq_refl)). f_equal.
  rewrite IH by (intros k' ws' H; apply Hentries; now right).
  f_equal. apply imap_ext. intros i p _. simpl.
  now replace (Z.of_nat i + (n + 1)) with (Z.pos (Pos.of_succ_nat i) + n) by lia.
Qed.

Lemma numberFrom_length (entries : StartMap) : forall n,
  length (numberFrom n entries) = length (concat (map snd entries)).
Proof.
  induction entries as [|[k ws] rest IH]; intros n; simpl; [reflexivity|].
  now rewrite !length_app, length_map, IH.
Qed.

Lemma readingOrder_neg a b : readingOrder a b < 0 -> readsBefore a.1 b.1 \/ a.1 = b.1.
Proof.
  unfold readingOrder, readsBefore. case_decide; intros Hneg; left; lia.
Qed.

Lemma readingOrder_nonneg a b :
  readingOrder a b >= 0 -> readsBefore b.1 a.1 \/ b.1 = a.1.
Proof.
  unfold readingOrder, readsBefore. destruct a as [[ar ac] wa], b as [[br bc] wb].
  simpl. case_decide; intros Hpos.
  - destruct (decide (ac = bc)); [right; congruence | left; lia].
  - left. lia.
Qed.

(** The numbering in terms of the sorted list of distinct start
    positions. *)
Lemma assignClueNumbers_positions (words : list WordPlacement) :
  exists positions : list Position,
    StronglySorted readsBefore positions /\
    (forall p, In p positions <-> exists w, In w words /\ startKey w = p) /\
    assignClueNumbers words = specNumbering words positions.
Proof.
  destruct (groupByStart_spec words) as (Hnd & Hentries & Hkeys & _).
  set (sorted := sortBy readingOrder (groupByStart words)).
  pose proof (sortBy_perm readingOrder (groupByStart words)) as Hperm.
  fold sorted in Hperm.
  exists (map fst sorted). split; [|split].
  - assert (Hs : StronglySorted (fun a b => readsBefore a.1 b.1 \/ a.1 = b.1) sorted).
    { apply sortBy_sorted.
      - intros x y z [Hxy|Hxy] [Hyz|Hyz]; unfold readsBefore in *;
          try (left; lia); [left; rewrite <- Hyz; lia | left; rewrite Hxy; lia |
                            right; congruence].
      - apply readingOrder_neg.
      - apply readingOrder_nonneg. }
    assert (Hnd' : NoDup (map fst sorted)) by (now rewrite Hperm).
    clear -Hs Hnd'. induction Hs as [|e rest Hs IH Hall]; simpl; [constructor|].
    simpl in Hnd'. apply NoDup_cons in Hnd' as [Hnot Hnd'].
    constructor; [now apply IH|].
    rewrite Forall_forall in Hall. apply Forall_forall. intros p Hp.
    apply list_elem_of_fmap in Hp as (e' & -> & He').
    destruct (Hall e' He') as [Hlt|Heq]; [exact Hlt|].
    exfalso. apply Hnot. rewrite Heq. apply list_elem_of_fmap. eauto.
  - intros p. rewrite <- Hkeys. split; intros Hp;
      apply list_elem_of_In; apply list_elem_of_In in Hp;
      [rewrite <- Hperm | rewrite Hperm]; exact Hp.
  - unfold assignClueNumbers, specNumbering. fold sorted.
    apply numberFrom_spec. intros k ws Hin. apply Hentries.
    apply list_elem_of_In. rewrite <- Hperm. now apply list_elem_of_In.
Qed.

Lemma assignClueNumbers_length words :
  length (assignClueNumbers words) = length words.
Proof.
  unfold assignClueNumbers. rewrite numberFrom_length.
  destruct (groupByStart_spec words) as (_ & _ & _ & <-).
  now rewrite (sortBy_perm readingOrder (groupByStart words)).
Qed.

(** The numbered records are the given records, each with a number. *)
Lemma assignClueNumbers_source words pw :
  In pw (assignClueNumbers words) -> exists w n, In w words /\ pw = numbered n w.
Proof.
  destruct (assignClueNumbers_positions words) as (positions & _ & Hpos & ->).
  unfold specNumbering.
  intros H. apply in_concat in H as (l & Hl & Hpw).
  apply list_elem_of_In, elem_of_lookup_imap in Hl as (i & p & -> & Hi).
  apply in_map_iff in Hpw as (w & <- & Hw).
  apply wordsAt_elem in Hw as [Hw _]. eauto.
Qed.

Lemma assignClueNumbers_keeps words w :
  In w words -> exists n, In (numbered n w) (assignClueNumbers words).
Proof.
  destruct (assignClueNumbers_positions words) as (positions & _ & Hpos & ->).
  unfold specNumbering. intros Hw.
  assert (Hp : In (startKey w) positions) by (apply Hpos; eauto).
  apply list_elem_of_In, list_elem_of_lookup in Hp as [i Hi].
  exists (Z.of_nat i + 1). apply in_concat.
  exists (map (numbered (Z.of_nat i + 1)) (wordsAt (startKey w) words)). split.
  - apply list_elem_of_In, elem_of_lookup_imap. eauto.
  - apply in_map_iff. exists w. split; [reflexivity|].
    apply wordsAt_elem. auto.
Qed.

(** An across word and a down word that share a start cell share a
    number; the next position in reading order gets the next number. *)
Example assignClueNumbers_shared :
  map (fun w => (pw_number w, pw_startRow w, pw_startCol w, pw_direction w))
    (assignClueNumbers
       [mkWordPlacement (str "REAR") [] 2 1 across 0;
        mkWordPlacement (str "AREA") [] 0 0 across 0;
        mkWordPlacement (str "ARE") [] 0 0 down 0;
        mkWordPlacement (str "RARE") [] 0 1 down 0])
  = [(1, 0, 0, across); (1, 0, 0, down); (2, 0, 1, down); (3, 2, 1, across)].
Proof. reflexivity. Qed.

(** ** generateCrossword *)

Lemma compacted_cell g G b r c :
  tight (Z.of_nat (length g)) g b ->
  (forall i j,
     inArea (Z.max (maxRow b - minRow b + 1) (maxCol b - minCol b + 1)) i j ->
     getCell G i j
     = if decide (i <= maxRow b - minRow b /\ j <= maxCol b - minCol b)
       then getCell g (i + minRow b) (j + minCol b)
       else Some None) ->
  inArea (Z.of_nat (length g)) r c -> filledAt g r c ->
  getCell G (r - minRow b) (c - minCol b) = getCell g r c.
Proof.
  intros Htight Hcells Ha Hf.
  destruct (compacted_filled g G b Htight Hcells r c Ha Hf) as [Hin _].
  destruct Htight as (Hbox & _). pose proof (Hbox r c Ha Hf).
  rewrite (Hcells _ _ Hin). case_decide; [|lia].
  now replace (r - minRow b + minRow b) with r by lia;
      replace (c - minCol b + minCol b) with c by lia.
Qed.

Lemma sortWords_accepted inputs w :
  In w (sortWords (normalizeWords inputs)) -> acceptedWord w = true.
Proof.
  intros H. apply sortBy_In in H. now apply normalizeWords_accepted in H.
Qed.

Lemma consistent_hasContent n st p :
  consistent n st -> p ∈ en_placed st -> wp_word p <> [] ->
  hasContent n (en_grid st).
Proof.
  intros (Hsq & Hholds & _) Hp Hne.
  rewrite Forall_forall in Hholds. specialize (Hholds p Hp).
  destruct (wp_word p) as [|ch rest] eqn:E; [contradiction|].
  unfold holdsPlacement in Hholds. rewrite E in Hholds.
  specialize (Hholds 0%nat ch eq_refl).
  pose proof (getCell_bounds _ _ _ _ _ Hsq Hholds) as [Hr Hc].
  exists (cellRow (wp_direction p) (wp_row p) (Z.of_nat 0)),
         (cellCol (wp_direction p) (wp_col p) (Z.of_nat 0)).
  split; [split; assumption|]. exists ch. exact Hholds.
Qed.

Lemma generateTraced_shape wordInputs options :
  RunShape wordInputs options (generateTraced wordInputs options).
Proof.
  unfold generateTraced.
  destruct wordInputs as [|w0 ws0] eqn:Einputs; [now constructor|].
  rewrite <- Einputs.
  destruct (normalizeWords wordInputs) as [|v0 vs0] eqn:Enorm.
  { apply run_invalid; [rewrite Einputs; discriminate | exact Enorm]. }
  rewrite <- Enorm.
  destruct (sortWords (normalizeWords wordInputs)) as [|firstWord others] eqn:Esort.
  { apply sortBy_nil in Esort. rewrite Enorm in Esort. discriminate. }
  destruct (placeWords_consistent options firstWord others)
    as (st & Hrun & Hst & more & Hplaced).
  rewrite Hrun.
  destruct (Z.ltb_spec (Z.of_nat (length (en_placed st)))
              (Z.min 3 (Z.of_nat (length (firstWord :: others))))) as [Hfew|Henough].
  { eapply run_few; eauto. }
  pose proof Hst as (Hsq & _ & _). pose proof Hsq as [Hlen _].
  assert (Hcontent : hasContent (Z.of_nat (length (en_grid st))) (en_grid st)).
  { rewrite Hlen.
    apply (consistent_hasContent _ st (anchorPlacement firstWord) Hst).
    - rewrite Hplaced. left.
    - assert (Hacc : acceptedWord firstWord = true)
        by (apply (sortWords_accepted wordInputs); rewrite Esort; now left).
      apply acceptedWord_length in Hacc. unfold wordLength in Hacc. simpl.
      destruct (wi_word firstWord); [simpl in Hacc; lia | discriminate]. }
  assert (Hread : readable (Z.of_nat (length (en_grid st))) (en_grid st))
    by (rewrite Hlen; now apply square_readable).
  destruct (compactGrid_spec (en_grid st) (en_placed st) Hread Hcontent)
    as (b & G & Htight & -> & HsqG & Hcells).
  cbn [cp_size cp_grid cp_words]. rewrite Hlen in Htight.
  eapply run_success; eauto.
Qed.

(** Every run returns: no access leaves the grid and no array length is
    negative. *)
Lemma generateTraced_total wordInputs options :
  is_Some (generateTraced wordInputs options).
Proof.
  destruct (generateTraced_shape wordInputs options); eauto.
Qed.

Lemma generateCrossword_success wordInputs options p :
  generateCrossword wordInputs options = Some (Some p) ->
  generateTraced wordInputs options = Some (Generated p).
Proof.
  unfold generateCrossword.
  destruct (generateTraced wordInputs options) as [[q|e]|]; simpl; congruence.
Qed.

Lemma cellRow_shift direction row i m :
  cellRow direction (row - m) i = cellRow direction row i - m.
Proof. destruct direction; simpl; lia. Qed.

Lemma cellCol_shift direction col i m :
  cellCol direction (col - m) i = cellCol direction col i - m.
Proof. destruct direction; simpl; lia. Qed.

(** C2.  In every grid that is returned: the grid is a square of side
    [size]; every cell of the span of every placed word holds the letter
    of the word's answer at that index; every filled cell lies in the
    span of a placed word. *)
Theorem generateCrossword_consistent
    (wordInputs : list WordInput) (options : Options) (p : PuzzleGrid) :
  generateCrossword wordInputs options = Some (Some p) ->
  square (pg_size p) (pg_grid p) /\
  (forall w, In w (pg_words p) ->
     holdsWord (pg_grid p) (pw_answer w) (pw_startRow w) (pw_startCol w)
               (pw_direction w)) /\
  (forall r c ch, getCell (pg_grid p) r c = Some (Some ch) ->
     exists w k, In w (pg_words p) /\ pw_answer w !! k = Some ch /\
                 spanCell (pw_startRow w) (pw_startCol w) (pw_direction w) k r c).
Proof.
  intros H. apply generateCrossword_success in H.
  pose proof (generateTraced_shape wordInputs options) as Hshape.
  rewrite H in Hshape.
  inversion Hshape as [| | |firstWord others st n b G _ _ Hst _ _ Htight HsqG Hcells].
  subst p. clear Hshape. cbn [pg_size pg_words pg_grid].
  destruct Hst as (Hsq & Hholds & Hcov). pose proof Hsq as [Hlen _].
  rewrite <- Hlen in Htight.
  split; [exact HsqG|]. split.
  - intros w Hw. apply assignClueNumbers_source in Hw as (wp' & m & Hwp' & ->).
    apply in_map_iff in Hwp' as (wp & <- & Hwp).
    cbn [numbered shiftWord pw_answer pw_startRow pw_startCol pw_direction
         wp_word wp_row wp_col wp_direction].
    intros k ch Hk.
    rewrite Forall_forall in Hholds.
    pose proof (Hholds wp (proj2 (list_elem_of_In _ _) Hwp) k ch Hk) as Hcell.
    rewrite cellRow_shift, cellCol_shift, <- Hcell.
    apply (compacted_cell (en_grid st) G b); [exact Htight | exact Hcells | |].
    + rewrite Hlen. exact (getCell_bounds _ _ _ _ _ Hsq Hcell).
    + now exists ch.
  - intros r c ch Hcell.
    pose proof (getCell_bounds _ _ _ _ _ HsqG Hcell) as [Hr Hc].
    rewrite (Hcells r c (conj Hr Hc)) in Hcell.
    case_decide; [|discriminate].
    destruct (Hcov _ _ _ Hcell) as (wp & k & Hwp & Hk & Hspan).
    destruct (assignClueNumbers_keeps
                (map (shiftWord (minRow b) (minCol b)) (en_placed st))
                (shiftWord (minRow b) (minCol b) wp)) as [m Hm].
    { apply in_map. now apply list_elem_of_In. }
    exists (numbered m (shiftWord (minRow b) (minCol b) wp)), k.
    split; [exact Hm|]. split; [exact Hk|].
    destruct Hspan as [Hsr Hsc]. unfold spanCell.
    cbn [numbered shiftWord pw_answer pw_startRow pw_startCol pw_direction
         wp_word wp_row wp_col wp_direction].
    rewrite cellRow_shift, cellCol_shift. lia.
Qed.

(** C3 as amended.  In every grid that is returned the first row and the
    first column hold a letter, and so does the last row or the last
    column: the grid is the smallest square, anchored at the top left
    corner of the content, that contains every placed word. *)
Theorem generateCrossword_borders
    (wordInputs : list WordInput) (options : Options) (p : PuzzleGrid) :
  generateCrossword wordInputs options = Some (Some p) ->
  (exists c, filledAt (pg_grid p) 0 c) /\
  (exists r, filledAt (pg_grid p) r 0) /\
  ((exists c, filledAt (pg_grid p) (pg_size p - 1) c) \/
   (exists r, filledAt (pg_grid p) r (pg_size p - 1))).
Proof.
  intros H. apply generateCrossword_success in H.
  pose proof (generateTraced_shape wordInputs options) as Hshape.
  rewrite H in Hshape.
  inversion Hshape as [| | |firstWord others st n b G _ _ Hst _ _ Htight HsqG Hcells].
  subst p. clear Hshape. cbn [pg_size pg_words pg_grid].
  destruct Hst as (Hsq & _ & _). pose proof Hsq as [Hlen _].
  rewrite <- Hlen in Htight.
  pose proof Htight as (_ & (c0 & Ha0 & Hf0) & (c1 & Ha1 & Hf1)
                          & (r2 & Ha2 & Hf2) & (r3 & Ha3 & Hf3)).
  destruct (compacted_filled _ G b Htight Hcells _ _ Ha0 Hf0) as [_ F0].
  destruct (compacted_filled _ G b Htight Hcells _ _ Ha1 Hf1) as [_ F1].
  destruct (compacted_filled _ G b Htight Hcells _ _ Ha2 Hf2) as [_ F2].
  destruct (compacted_filled _ G b Htight Hcells _ _ Ha3 Hf3) as [_ F3].
  rewrite Z.sub_diag in F0, F2.
  split; [eauto|]. split; [eauto|].
  destruct (Z.le_ge_cases (maxCol b - minCol b) (maxRow b - minRow b)) as [Hle|Hge].
  - left. exists (c1 - minCol b).
    now replace (Z.max (maxRow b - minRow b + 1) (maxCol b - minCol b + 1) - 1)
      with (maxRow b - minRow b) by lia.
  - right. exists (r3 - minRow b).
    now replace (Z.max (maxRow b - minRow b + 1) (maxCol b - minCol b + 1) - 1)
      with (maxCol b - minCol b) by lia.
Qed.

(** ** The placement threshold *)

Lemma shareLetter_sym a b : shareLetter a b -> shareLetter b a.
Proof. intros (ch & Ha & Hb). now exists ch. Qed.

Lemma findBestPlacement_none attempts options g currentWord placedWords :
  findCandidates g currentWord placedWords = Some [] ->
  findBestPlacement attempts options g currentWord placedWords = Some None.
Proof.
  intros Hc. induction attempts as [|remaining IH]; simpl; [reflexivity|].
  rewrite Hc. exact IH.
Qed.

(** A word that shares no letter with the only placed word is dropped. *)
Lemma tryPlaceWord_disjoint options st currentWord anchor :
  en_placed st = [anchor] ->
  ~ shareLetter (wi_word currentWord) (wp_word anchor) ->
  tryPlaceWord options st currentWord = Some st.
Proof.
  intros Hplaced Hno. unfold tryPlaceWord.
  rewrite findBestPlacement_none; [reflexivity|].
  unfold findCandidates. rewrite Hplaced. simpl.
  now rewrite findIntersections_disjoint.
Qed.

Lemma placeWords_disjoint options firstWord others :
  (forall w, In w others -> ~ shareLetter (wi_word w) (wi_word firstWord)) ->
  exists st,
    placeWords options (firstWord :: others) = Some st /\
    en_placed st = [anchorPlacement firstWord].
Proof.
  intros Hno. unfold placeWords.
  destruct (placeAnchor_consistent firstWord) as (st & -> & _ & Hplaced).
  exists st. split; [|exact Hplaced].
  induction others as [|w rest IH]; simpl; [reflexivity|].
  rewrite (tryPlaceWord_disjoint options st w (anchorPlacement firstWord) Hplaced).
  - apply IH. intros w' Hw'. apply Hno. now right.
  - apply Hno. now left.
Qed.

(** The bounding box of a grid that holds one across word. *)
Lemma tight_single n g b anchor :
  square n g -> holdsPlacement g anchor -> coveredBy g [anchor] ->
  wp_direction anchor = across -> wp_word anchor <> [] ->
  tight n g b ->
  minRow b = wp_row anchor /\ minCol b = wp_col anchor.
Proof.
  intros Hsq Hholds Hcov Hdir Hne (Hbox & (c0 & _ & [x0 Hx0]) & _ & (r2 & _ & [x2 Hx2]) & _).
  destruct (Hcov _ _ _ Hx0) as (p0 & k0 & Hp0 & _ & [Hr0 _]).
  destruct (Hcov _ _ _ Hx2) as (p2 & k2 & Hp2 & _ & [_ Hc2]).
  apply list_elem_of_singleton in Hp0, Hp2. subst p0 p2.
  rewrite Hdir in Hr0, Hc2. simpl in Hr0, Hc2.
  destruct (wp_word anchor) as [|ch rest] eqn:E; [contradiction|].
  unfold holdsPlacement in Hholds. rewrite E, Hdir in Hholds.
  specialize (Hholds 0%nat ch eq_refl). simpl in Hholds.
  pose proof (getCell_bounds _ _ _ _ _ Hsq Hholds) as Ha.
  assert (Hf : filledAt g (wp_row anchor) (wp_col anchor + Z.of_nat 0)) by now exists ch.
  pose proof (Hbox _ _ Ha Hf). lia.
Qed.

(** C1.  Generation succeeds only if at least min(3, wordCount) words
    were placed.  An input whose normalisation leaves exactly one word
    succeeds, and the output holds exactly that word.  An input whose
    normalisation leaves three words, no two of which share a letter,
    places the anchor only and fails. *)
Theorem generateCrossword_threshold :
  (forall wordInputs options p,
     generateCrossword wordInputs options = Some (Some p) ->
     exists st,
       placeWords options (sortWords (normalizeWords wordInputs)) = Some st /\
       length (pg_words p) = length (en_placed st) /\
       Z.min 3 (Z.of_nat (length (normalizeWords wordInputs)))
       <= Z.of_nat (length (en_placed st))) /\
  (forall wordInputs options w,
     normalizeWords wordInputs = [w] ->
     exists p,
       generateCrossword wordInputs options = Some (Some p) /\
       pg_words p = [ {| pw_number := 1; pw_word := wi_word w; pw_clue := wi_clue w;
                         pw_answer := wi_word w; pw_startRow := 0; pw_startCol := 0;
                         pw_direction := across |} ]) /\
  (forall wordInputs options a b c,
     normalizeWords wordInputs = [a; b; c] ->
     ~ shareLetter (wi_word a) (wi_word b) ->
     ~ shareLetter (wi_word a) (wi_word c) ->
     ~ shareLetter (wi_word b) (wi_word c) ->
     generateCrossword wordInputs options = Some None /\
     exists firstWord others st,
       sortWords [a; b; c] = firstWord :: others /\
       placeWords options (firstWord :: others) = Some st /\
       en_placed st = [anchorPlacement firstWord]).
Proof.
  split; [|split].
  - intros wordInputs options p H. apply generateCrossword_success in H.
    pose proof (generateTraced_shape wordInputs options) as Hshape.
    rewrite H in Hshape.
    inversion Hshape
      as [| | |firstWord others st n b G Hsort Hrun _ _ Henough _ _ _].
    exists st. rewrite Hsort. split; [exact Hrun|]. split.
    + cbn [pg_words]. now rewrite assignClueNumbers_length, length_map.
    + rewrite <- (sortBy_length byLengthDesc (normalizeWords wordInputs)).
      fold (sortWords (normalizeWords wordInputs)). now rewrite Hsort.
  - intros wordInputs options w Hnorm.
    pose proof (generateTraced_shape wordInputs options) as Hshape.
    unfold generateCrossword.
    assert (Hsorted : sortWords (normalizeWords wordInputs) = [w])
      by (now rewrite Hnorm).
    inversion Hshape
      as [Hempty Heq | Hne Hnone Heq
         | firstWord others st n Hsort Hrun Hst Hmore Hfew Heq
         | firstWord others st n b G Hsort Hrun Hst Hmore Henough Htight HsqG Hcells Heq].
    + subst wordInputs. discriminate.
    + congruence.
    + exfalso. rewrite Hsorted in Hsort. injection Hsort as <- <-.
      destruct Hmore as [more Hmore]. rewrite Hmore in Hfew. simpl in Hfew. lia.
    + rewrite Hsorted in Hsort. injection Hsort as <- <-.
      assert (Hplaced : en_placed st = [anchorPlacement w]).
      { unfold placeWords in Hrun.
        destruct (placeAnchor_consistent w) as (st0 & Hanchor & _ & Hp0).
        rewrite Hanchor in Hrun. simpl in Hrun. congruence. }
      cbn [returned].
      eexists. split; [reflexivity|]. cbn [pg_words]. rewrite Hplaced.
      destruct Hst as (Hsq & Hholds & Hcov). rewrite Hplaced in Hholds, Hcov.
      rewrite Forall_singleton in Hholds.
      destruct (tight_single n (en_grid st) b (anchorPlacement w) Hsq Hholds Hcov)
        as [Hrow Hcol]; [reflexivity | | exact Htight |].
      { assert (Hacc : acceptedWord w = true)
          by (apply (normalizeWords_accepted wordInputs); rewrite Hnorm; now left).
        apply acceptedWord_length in Hacc. unfold wordLength in Hacc. simpl.
        destruct (wi_word w); [simpl in Hacc; lia | discriminate]. }
      rewrite Hrow, Hcol. unfold assignClueNumbers, groupByStart. simpl.
      unfold numbered, shiftWord. simpl. now rewrite !Z.sub_diag.
  - intros wordInputs options a b c Hnorm Hab Hac Hbc.
    assert (Hba := fun H => Hab (shareLetter_sym _ _ H)).
    assert (Hca := fun H => Hac (shareLetter_sym _ _ H)).
    assert (Hcb := fun H => Hbc (shareLetter_sym _ _ H)).
    assert (Hrun : exists firstWord others st,
              sortWords [a; b; c] = firstWord :: others /\
              placeWords options (firstWord :: others) = Some st /\
              en_placed st = [anchorPlacement firstWord]).
    { unfold sortWords, sortBy. simpl.
      repeat (match goal with
              | |- context [if ?t then _ else _] => destruct t
              end; simpl);
        match goal with
        | |- exists f o st, ?x :: ?rest = _ /\ _ =>
            destruct (placeWords_disjoint options x rest) as (st & Hst & Hp);
              [intros w [<-|[<-|[]]]; assumption
              |exists x, rest, st; auto]
        end. }
    split; [|exact Hrun].
    destruct Hrun as (firstWord & others & st & Hsort & Hplace & Hplaced).
    unfold generateCrossword, generateTraced.
    destruct wordInputs as [|w0 ws0]; [discriminate|].
    rewrite Hnorm, Hsort, Hplace, Hplaced.
    rewrite <- Hsort. unfold sortWords. rewrite sortBy_length. reflexivity.
Qed.

(** ** Scenarios *)

Example generate_AB : generateCrossword inputAB defaultOptions = Some (Some puzzleAB).
Proof. vm_compute. reflexivity. Qed.

(** Four words with many letters in common: three are placed, and the
    grid of side 5 is smaller than the working grid of side 30. *)
Example generate_AREA :
  match generateCrossword
          [mkWordInput (str "AREA") (str "a"); mkWordInput (str "RARE") (str "b");
           mkWordInput (str "REAR") (str "c"); mkWordInput (str "EARN") (str "d")]
          defaultOptions with
  | Some (Some p) => (pg_size p, map pw_word (pg_words p))
  | _ => (0, [])
  end = (5, [str "AREA"; str "RARE"; str "REAR"]).
Proof. vm_compute. reflexivity. Qed.

Example generate_disjoint :
  generateTraced inputDisjoint defaultOptions = Some (Failed TooFewWordsPlaced).
Proof. vm_compute. reflexivity. Qed.

Lemma generateCrossword_threshold_witness :
  (exists st,
     placeWords defaultOptions (sortWords (normalizeWords inputAB)) = Some st /\
     length (pg_words puzzleAB) = length (en_placed st) /\
     Z.min 3 (Z.of_nat (length (normalizeWords inputAB)))
     <= Z.of_nat (length (en_placed st))) /\
  (exists p,
     generateCrossword inputAB defaultOptions = Some (Some p) /\
     pg_words p = pg_words puzzleAB) /\
  generateCrossword inputDisjoint defaultOptions = Some None.
Proof.
  destruct generateCrossword_threshold as (Honly & Hone & Hthree).
  split; [|split].
  - apply (Honly inputAB defaultOptions puzzleAB). vm_compute. reflexivity.
  - apply (Hone inputAB defaultOptions (mkWordInput (str "AB") (str "x"))).
    reflexivity.
  - apply (Hthree inputDisjoint defaultOptions
             (mkWordInput (str "BCD") (str "a")) (mkWordInput (str "FGH") (str "b"))
             (mkWordInput (str "JKL") (str "c"))); [reflexivity | | |];
      intros (ch & Ha & Hb); simpl in Ha, Hb;
      repeat (apply elem_of_cons in Ha as [->|Ha];
              [repeat (apply elem_of_cons in Hb as [Hb|Hb]; [discriminate|]);
               now apply elem_of_nil in Hb|]);
      now apply elem_of_nil in Ha.
Defined.

Lemma generateCrossword_consistent_witness :
  generateCrossword inputAB defaultOptions = Some (Some puzzleAB) /\
  square 2 (pg_grid puzzleAB) /\
  (forall w, In w (pg_words puzzleAB) ->
     holdsWord (pg_grid puzzleAB) (pw_answer w) (pw_startRow w) (pw_startCol w)
               (pw_direction w)) /\
  (forall r c ch, getCell (pg_grid puzzleAB) r c = Some (Some ch) ->
     exists w k, In w (pg_words puzzleAB) /\ pw_answer w !! k = Some ch /\
                 spanCell (pw_startRow w) (pw_startCol w) (pw_direction w) k r c).
Proof.
  assert (H : generateCrossword inputAB defaultOptions = Some (Some puzzleAB))
    by (vm_compute; reflexivity).
  split; [exact H|].
  exact (generateCrossword_consistent inputAB defaultOptions puzzleAB H).
Defined.

(** ** The borders of the returned grid *)

(** C3, as stated, fails: the grid is a square, and the puzzle of the
    single word AB has a second row without any letter. *)
Lemma empty_border_row :
  generateCrossword inputAB defaultOptions = Some (Some puzzleAB) /\
  ~ noEmptyBorder puzzleAB.
Proof.
  split; [vm_compute; reflexivity|].
  intros (_ & Hlast & _). apply Hlast. intros c [ch Hch].
  unfold getCell in Hch. simpl in Hch.
  destruct (0 <=? c); simpl in Hch; [|discriminate].
  destruct (Z.to_nat c) as [|[|k]]; discriminate.
Qed.

Lemma generateCrossword_borders_witness :
  generateCrossword inputAB defaultOptions = Some (Some puzzleAB) /\
  (exists c, filledAt (pg_grid puzzleAB) 0 c) /\
  (exists r, filledAt (pg_grid puzzleAB) r 0) /\
  ((exists c, filledAt (pg_grid puzzleAB) (pg_size puzzleAB - 1) c) \/
   (exists r, filledAt (pg_grid puzzleAB) r (pg_size puzzleAB - 1))).
Proof.
  assert (H : generateCrossword inputAB defaultOptions = Some (Some puzzleAB))
    by (vm_compute; reflexivity).
  split; [exact H|].
  exact (generateCrossword_borders inputAB defaultOptions puzzleAB H).
Defined.

(** ** Failures *)

(** C5, as stated, fails: the three failures return the same value. *)
Lemma failures_return_the_same_value :
  generateTraced [] defaultOptions = Some (Failed NoWordsProvided) /\
  generateTraced [mkWordInput (str "A") (str "a")] defaultOptions
    = Some (Failed NoValidWords) /\
  generateTraced inputDisjoint defaultOptions = Some (Failed TooFewWordsPlaced) /\
  generateCrossword [] defaultOptions
    = generateCrossword [mkWordInput (str "A") (str "a")] defaultOptions /\
  generateCrossword [mkWordInput (str "A") (str "a")] defaultOptions
    = generateCrossword inputDisjoint defaultOptions.
Proof. vm_compute. repeat split. Qed.

(** C5 as amended.  Every failure returns the same value, [null]; which
    of the three failures occurred (no input, no valid word, too few
    words placed) shows in the logged error line only. *)
Theorem failure_returns_null
    (wordInputs : list WordInput) (options : Options) (e : ErrorLine) :
  generateTraced wordInputs options = Some (Failed e) ->
  generateCrossword wordInputs options = Some None /\
  (e = NoWordsProvided <-> wordInputs = []) /\
  (e = NoValidWords <-> wordInputs <> [] /\ normalizeWords wordInputs = []) /\
  (e = TooFewWordsPlaced <-> normalizeWords wordInputs <> []).
Proof.
  intros H. split; [unfold generateCrossword; now rewrite H|].
  pose proof (generateTraced_shape wordInputs options) as Hshape.
  rewrite H in Hshape.
  inversion Hshape as [Hempty | Hne Hnone | firstWord others st n Hsort _ _ _ _ |].
  - subst wordInputs.
    split; [tauto|]. split; split; try discriminate.
    + intros [Hne _]. contradiction.
    + intros Hn. exfalso. now apply Hn.
  - split; [split; [discriminate | contradiction]|].
    split; [tauto|]. split; [discriminate | contradiction].
  - assert (Hnorm : normalizeWords wordInputs <> []).
    { intros Hnil. rewrite Hnil in Hsort. discriminate. }
    assert (Hin : wordInputs <> []) by (intros ->; now apply Hnorm).
    split; [split; [discriminate | contradiction]|].
    split; [|tauto]. split; [discriminate | intros [_ ?]; contradiction].
Qed.

Lemma failure_returns_null_witness :
  generateCrossword inputDisjoint defaultOptions = Some None /\
  (TooFewWordsPlaced = NoWordsProvided <-> inputDisjoint = []) /\
  (TooFewWordsPlaced = NoValidWords <->
   inputDisjoint <> [] /\ normalizeWords inputDisjoint = []) /\
  (TooFewWordsPlaced = TooFewWordsPlaced <-> normalizeWords inputDisjoint <> []).
Proof.
  apply (failure_returns_null inputDisjoint defaultOptions TooFewWordsPlaced).
  vm_compute. reflexivity.
Defined.

(** ** Determinism *)

(** C9.  Generation is deterministic: every run on an input and a
    configuration returns, and any two runs on the same input and
    configuration return the same result, the same failure or the same
    size, grid and list of placed words. *)
Theorem generateCrossword_deterministic
    (wordInputs : list WordInput) (options : Options) :
  exists r,
    generateCrossword wordInputs options = Some r /\
    forall run1 run2,
      generateCrossword wordInputs options = Some run1 ->
      generateCrossword wordInputs options = Some run2 ->
      run1 = r /\ run2 = r.
Proof.
  unfold generateCrossword.
  destruct (generateTraced_total wordInputs options) as [o ->].
  exists (returned o). split; [reflexivity|].
  intros run1 run2 H1 H2. split; congruence.
Qed.

(** ** Candidates score at least 10 *)

Lemma densityBonus_ge average score : score <= densityBonus average score.
Proof.
  unfold densityBonus.
  destruct (Qltb average (inject_Z 5)), (Qltb average (inject_Z 3)); lia.
Qed.

Lemma longWordPenalty_id word score : 10 <= score -> longWordPenalty word score = score.
Proof.
  intros H. unfold longWordPenalty.
  destruct (Z.ltb_spec score 10); [lia|]. now rewrite andb_false_r.
Qed.

Lemma reachable_consistent options st :
  Reachable options st -> exists n, consistent n st.
Proof.
  induction 1 as [firstWord st Hanchor | st w st' _ [n Hst] Hstep].
  - destruct (placeAnchor_consistent firstWord) as (st0 & Hst0 & Hc & _).
    exists (Z.max 30 (wordLength firstWord * 3)). congruence.
  - destruct (tryPlaceWord_consistent n options st w Hst) as (st1 & Hst1 & Hc & _).
    exists n. congruence.
Qed.

(** Every state of a run of [placeWords] is reachable. *)
Lemma foldM_reachable options words : forall st st',
  Reachable options st ->
  foldM (tryPlaceWord options) st words = Some st' ->
  Reachable options st'.
Proof.
  induction words as [|w rest IH]; intros st st' Hst H; simpl in H.
  - now injection H as <-.
  - destruct (tryPlaceWord options st w) as [st1|] eqn:Hstep; [|discriminate].
    apply (IH st1); [|exact H]. eapply reach_step; eauto.
Qed.

Lemma placeWords_reachable options sortedWords st :
  placeWords options sortedWords = Some st -> Reachable options st.
Proof.
  unfold placeWords. destruct sortedWords as [|firstWord others]; [discriminate|].
  destruct (placeAnchor firstWord) as [st0|] eqn:Hanchor; [|discriminate].
  apply foldM_reachable. eapply reach_anchor; eauto.
Qed.

Lemma candidate_score n st currentWord candidates cand :
  consistent n st ->
  findCandidates (en_grid st) currentWord (en_placed st) = Some candidates ->
  cand ∈ candidates ->
  exists soFar,
    scoreBeforePenalty (en_grid st) (wi_word currentWord) (wp_row cand) (wp_col cand)
      (wp_direction cand) (en_placed st) = Some soFar /\
    10 <= soFar /\ wp_score cand = soFar.
Proof.
  intros (_ & Hholds & _) Hc Hcand.
  destruct (findCandidates_elem _ _ _ _ _ Hc Hcand)
    as (pw & i & j & Hpw & _ & _ & _ & Hscore & (ch & Hi & Hj) & Hrow & Hcol).
  rewrite Forall_forall in Hholds. pose proof (Hholds pw Hpw j ch Hj) as Hcell.
  rewrite <- Hrow, <- Hcol in Hcell.
  unfold scorePlacement in Hscore. unfold scoreBeforePenalty.
  destruct (scoreCells _ _ _ _ 0 _ 0) as [s|] eqn:Hs; [|discriminate].
  injection Hscore as Hscore.
  pose proof (scoreCells_hit _ _ _ _ _ 0 0 s i ch Hs Hi Hcell) as Hhit.
  pose proof (densityBonus_ge
                (calculateAverageDistance (wp_row cand) (wp_col cand) (en_placed st)) s).
  eexists. split; [reflexivity|]. split; [lia|].
  rewrite <- Hscore. apply longWordPenalty_id. lia.
Qed.

(** C10.  In every state that the placement loop reaches, every
    candidate (a position derived from a pair of equal letters that
    [canPlaceWord] accepts) has a score of at least 10 before the test of
    the long-word penalty, so that the penalty is never applied to it;
    and with [minIntersections = 1] a pool that is not empty has its
    best candidate accepted in the first iteration of the retry loop. *)
Theorem candidates_score_at_least_10
    (options : Options) (st : Engine) (currentWord : WordInput)
    (candidates : list WordPlacement) :
  Reachable options st ->
  findCandidates (en_grid st) currentWord (en_placed st) = Some candidates ->
  (forall cand, In cand candidates ->
     exists soFar,
       scoreBeforePenalty (en_grid st) (wi_word currentWord) (wp_row cand) (wp_col cand)
         (wp_direction cand) (en_placed st) = Some soFar /\
       10 <= soFar /\ wp_score cand = soFar) /\
  (candidates <> [] -> minIntersections options = 1 ->
   exists best,
     head (sortBy byScoreDesc candidates) = Some best /\
     forall attempts,
       findBestPlacement (S attempts) options (en_grid st) currentWord (en_placed st)
       = Some (Some best)).
Proof.
  intros Hreach Hc. destruct (reachable_consistent options st Hreach) as [n Hst].
  assert (Hall : forall cand, In cand candidates ->
            exists soFar,
              scoreBeforePenalty (en_grid st) (wi_word currentWord) (wp_row cand)
                (wp_col cand) (wp_direction cand) (en_placed st) = Some soFar /\
              10 <= soFar /\ wp_score cand = soFar).
  { intros cand Hcand. apply (candidate_score n st currentWord candidates); auto.
    now apply list_elem_of_In. }
  split; [exact Hall|].
  intros Hne Hmin.
  destruct (sortBy byScoreDesc candidates) as [|best others] eqn:Hsort.
  { apply sortBy_nil in Hsort. contradiction. }
  exists best. split; [reflexivity|]. intros attempts.
  rewrite (findBestPlacement_first attempts options _ _ _ candidates Hc), Hsort.
  destruct (Hall best) as (soFar & _ & Hge & Hscore).
  { apply (sortBy_In byScoreDesc). rewrite Hsort. now left. }
  destruct (Z.leb_spec (minIntersections options) (wp_score best)); [reflexivity | lia].
Qed.

Lemma candidates_score_at_least_10_witness :
  Reachable defaultOptions stateAB /\
  findCandidates (en_grid stateAB) wordLong (en_placed stateAB) = Some poolLong /\
  (forall cand, In cand poolLong ->
     exists soFar,
       scoreBeforePenalty (en_grid stateAB) (wi_word wordLong) (wp_row cand)
         (wp_col cand) (wp_direction cand) (en_placed stateAB) = Some soFar /\
       10 <= soFar /\ wp_score cand = soFar) /\
  (exists best,
     head (sortBy byScoreDesc poolLong) = Some best /\
     forall attempts,
       findBestPlacement (S attempts) defaultOptions (en_grid stateAB) wordLong
         (en_placed stateAB) = Some (Some best)).
Proof.
  assert (Hreach : Reachable defaultOptions stateAB).
  { apply (reach_anchor _ (mkWordInput (str "AB") (str "x"))).
    vm_compute. reflexivity. }
  assert (Hpool : findCandidates (en_grid stateAB) wordLong (en_placed stateAB)
                  = Some poolLong) by (vm_compute; reflexivity).
  destruct (candidates_score_at_least_10 defaultOptions stateAB wordLong poolLong
              Hreach Hpool) as [Hall Hbest].
  split; [exact Hreach|]. split; [exact Hpool|]. split; [exact Hall|].
  apply Hbest; [|reflexivity].
  intros Hnil. vm_compute in Hnil. discriminate.
Defined.

(** * Further properties of the generator *)

(** ** Normalisation is idempotent *)

Lemma trimEnd_head c rest :
  isWhiteSpace c = false -> exists kept, trimEnd (c :: rest) = c :: kept.
Proof.
  intros Hc. simpl. destruct (trimEnd rest) as [|k kept]; [rewrite Hc|]; eauto.
Qed.

Lemma trimStart_head c rest : isWhiteSpace c = false -> trimStart (c :: rest) = c :: rest.
Proof. intros Hc. simpl. now rewrite Hc. Qed.

Lemma trimStart_result s :
  trimStart s = [] \/ exists c rest, trimStart s = c :: rest /\ isWhiteSpace c = false.
Proof.
  induction s as [|c rest IH]; simpl; [now left|].
  destruct (isWhiteSpace c) eqn:Hc; [exact IH|]. right. eauto.
Qed.

Lemma trimEnd_idempotent s : trimEnd (trimEnd s) = trimEnd s.
Proof.
  induction s as [|c rest IH]; simpl; [reflexivity|].
  destruct (trimEnd rest) as [|k kept] eqn:E.
  - destruct (isWhiteSpace c) eqn:Hc; simpl; [reflexivity | now rewrite Hc].
  - change (trimEnd (c :: k :: kept))
      with (match trimEnd (k :: kept) with
            | [] => if isWhiteSpace c then [] else [c]
            | x :: l => c :: x :: l
            end).
    now rewrite IH.
Qed.

Lemma trim_idempotent s : trim (trim s) = trim s.
Proof.
  unfold trim.
  destruct (trimStart_result s) as [->|(c & rest & -> & Hc)]; [reflexivity|].
  destruct (trimEnd_head c rest Hc) as [kept Hk].
  rewrite Hk, (trimStart_head c kept Hc), <- Hk. apply trimEnd_idempotent.
Qed.

Lemma isUpperAZ_not_space c : isUpperAZ c = true -> isWhiteSpace c = false.
Proof. destruct c as [[] [] [] [] [] [] [] []]; vm_compute; congruence. Qed.

Lemma isUpperAZ_upperChar c : isUpperAZ c = true -> upperChar c = c.
Proof. destruct c as [[] [] [] [] [] [] [] []]; vm_compute; congruence. Qed.

Lemma upperChar_idempotent c : upperChar (upperChar c) = upperChar c.
Proof. destruct c as [[] [] [] [] [] [] [] []]; reflexivity. Qed.

Lemma letters_trimEnd s : forallb isUpperAZ s = true -> trimEnd s = s.
Proof.
  induction s as [|c rest IH]; simpl; [reflexivity|].
  intros H. apply andb_true_iff in H as [Hc Hrest].
  rewrite (IH Hrest). destruct rest; [|reflexivity].
  now rewrite (isUpperAZ_not_space c Hc).
Qed.

Lemma letters_trim s : forallb isUpperAZ s = true -> trim s = s.
Proof.
  intros H. unfold trim.
  destruct s as [|c rest]; [reflexivity|].
  pose proof H as H'. simpl in H'. apply andb_true_iff in H' as [Hc _].
  rewrite (trimStart_head c rest (isUpperAZ_not_space c Hc)).
  now apply letters_trimEnd.
Qed.

Lemma letters_toUpperCase s : forallb isUpperAZ s = true -> toUpperCase s = s.
Proof.
  unfold toUpperCase. induction s as [|c rest IH]; simpl; [reflexivity|].
  intros H. apply andb_true_iff in H as [Hc Hrest].
  now rewrite (isUpperAZ_upperChar c Hc), (IH Hrest).
Qed.

Lemma acceptedWord_letters w :
  acceptedWord w = true -> forallb isUpperAZ (wi_word w) = true.
Proof.
  rewrite acceptedWord_spec. unfold specAccepted. intros H.
  now apply andb_true_iff in H as [_ H].
Qed.

Lemma normalizeEntry_accepted w :
  acceptedWord (normalizeEntry w) = true ->
  normalizeEntry (normalizeEntry w) = normalizeEntry w.
Proof.
  intros H. apply acceptedWord_letters in H.
  unfold normalizeEntry in *. cbn [wi_word wi_clue] in *.
  now rewrite (letters_toUpperCase _ H), (letters_trim _ H), trim_idempotent.
Qed.

(** Every normalised entry satisfies the invariant of a normalised word
    (two or more characters, all of them in A-Z, a trimmed clue), and
    normalising a normalised list changes nothing. *)
Theorem normalizeWords_idempotent (wordInputs : list WordInput) :
  Forall (fun w => 2 <= wordLength w /\ forallb isUpperAZ (wi_word w) = true /\
                   trim (wi_clue w) = wi_clue w)
         (normalizeWords wordInputs) /\
  normalizeWords (normalizeWords wordInputs) = normalizeWords wordInputs.
Proof.
  unfold normalizeWords. split.
  - apply Forall_forall. intros w Hw. apply list_elem_of_In, filter_In in Hw as [Hin Hacc].
    split; [now apply acceptedWord_length|]. split; [now apply acceptedWord_letters|].
    apply in_map_iff in Hin as (w0 & <- & _). apply trim_idempotent.
  - induction wordInputs as [|w rest IH]; simpl; [reflexivity|].
    destruct (acceptedWord (normalizeEntry w)) eqn:Hacc; [|exact IH].
    simpl. rewrite (normalizeEntry_accepted w Hacc), Hacc. now rewrite IH.
Qed.

(** ** The sort is stable *)

Section StableSort.
Context {A : Type} (cmp : A -> A -> Z) (key : A -> Z).
Hypothesis cmp_key : forall x y, cmp x y < 0 -> key x <> key y.

Lemma insertSorted_filter k a l :
  List.filter (fun x => key x =? k) (insertSorted cmp a l)
  = List.filter (fun x => key x =? k) (a :: l).
Proof using cmp_key.
  induction l as [|x rest IH]; [reflexivity|].
  cbn [insertSorted]. destruct (Z.ltb_spec (cmp x a) 0) as [Hlt|Hge]; [|reflexivity].
  cbn [List.filter] in *. rewrite IH.
  destruct (Z.eqb_spec (key a) k) as [Ha|Ha], (Z.eqb_spec (key x) k) as [Hx|Hx];
    try reflexivity.
  exfalso. apply (cmp_key x a Hlt). congruence.
Qed.

Lemma sortBy_stable k l :
  List.filter (fun x => key x =? k) (sortBy cmp l) = List.filter (fun x => key x =? k) l.
Proof using cmp_key.
  induction l as [|a rest IH]; [reflexivity|].
  cbn [sortBy foldr]. fold (sortBy cmp rest).
  rewrite insertSorted_filter. cbn [List.filter]. now rewrite IH.
Qed.
End StableSort.

Lemma filter_head {A} (P : A -> bool) l b t :
  List.filter P l = b :: t ->
  exists l1 l2, l = l1 ++ b :: l2 /\ forall c, In c l1 -> P c = false.
Proof.
  induction l as [|x rest IH]; simpl; [discriminate|].
  destruct (P x) eqn:Hx; intros H.
  - injection H as -> _. exists [], rest. split; [reflexivity | intros c []].
  - destruct (IH H) as (l1 & l2 & -> & Hl1).
    exists (x :: l1), l2. split; [reflexivity|].
    intros c [<-|Hc]; auto.
Qed.

Lemma sortWords_sorted (words : list WordInput) :
  StronglySorted (fun a b => wordLength b <= wordLength a) (sortWords words).
Proof.
  apply sortBy_sorted.
  - intros x y z Hxy Hyz. lia.
  - unfold byLengthDesc. intros x y H. lia.
  - unfold byLengthDesc. intros x y H. lia.
Qed.

(** The words are attempted longest first; words of the same length keep
    the order of the input. *)
Theorem sortWords_stable (words : list WordInput) :
  Permutation (sortWords words) words /\
  StronglySorted (fun a b => wordLength b <= wordLength a) (sortWords words) /\
  forall len,
    List.filter (fun w => wordLength w =? len) (sortWords words)
    = List.filter (fun w => wordLength w =? len) words.
Proof.
  split; [apply sortBy_perm|]. split; [apply sortWords_sorted|].
  intros len. apply sortBy_stable. unfold byLengthDesc. intros x y H. lia.
Qed.

(** The head of the candidates sorted by score is a candidate with the
    highest score, and the first such candidate of the pool. *)
Lemma best_candidate candidates best :
  head (sortBy byScoreDesc candidates) = Some best ->
  (forall c, In c candidates -> wp_score c <= wp_score best) /\
  exists earlier later,
    candidates = earlier ++ best :: later /\
    forall c, In c earlier -> wp_score c < wp_score best.
Proof.
  intros Hhead.
  destruct (sortBy byScoreDesc candidates) as [|b others] eqn:Hsort; [discriminate|].
  injection Hhead as ->.
  assert (Hsorted : StronglySorted (fun a b => wp_score b <= wp_score a)
                      (sortBy byScoreDesc candidates)).
  { apply sortBy_sorted.
    - intros x y z Hxy Hyz. lia.
    - unfold byScoreDesc. intros x y H. lia.
    - unfold byScoreDesc. intros x y H. lia. }
  rewrite Hsort in Hsorted. apply StronglySorted_inv in Hsorted as [_ Hall].
  assert (Hmax : forall c, In c candidates -> wp_score c <= wp_score best).
  { intros c Hc. apply (sortBy_In byScoreDesc) in Hc. rewrite Hsort in Hc.
    destruct Hc as [<-|Hc]; [lia|].
    rewrite Forall_forall in Hall. apply Hall. now apply list_elem_of_In. }
  split; [exact Hmax|].
  pose proof (sortBy_stable byScoreDesc wp_score) as Hstable.
  specialize (Hstable ltac:(unfold byScoreDesc; intros x y H; lia)
                (wp_score best) candidates).
  rewrite Hsort in Hstable. cbn [List.filter] in Hstable.
  rewrite Z.eqb_refl in Hstable. symmetry in Hstable.
  destruct (filter_head _ _ _ _ Hstable) as (l1 & l2 & -> & Hl1).
  exists l1, l2. split; [reflexivity|].
  intros c Hc. specialize (Hl1 c Hc). apply Z.eqb_neq in Hl1.
  specialize (Hmax c ltac:(apply in_or_app; now left)). lia.
Qed.

(** ** canPlaceWord decides the validation rules *)

Lemma vacant_outside n g r c : square n g -> ~ inArea n r c -> vacant g r c.
Proof.
  intros Hsq Hout [ch Hch]. apply Hout. exact (getCell_bounds _ _ _ _ _ Hsq Hch).
Qed.

Lemma occupiedIf_vacant n g cond r c :
  square n g -> (cond = true <-> inArea n r c) ->
  exists b, occupiedIf cond g r c = Some b /\ (b = false <-> vacant g r c).
Proof.
  intros Hsq Hcond. unfold occupiedIf, occupied. destruct cond.
  - destruct (proj1 Hcond eq_refl) as [Hr Hc].
    destruct (getCell_inside n g r c Hsq Hr Hc) as [cell Hcell].
    rewrite Hcell. exists (filled cell). split; [reflexivity|].
    unfold vacant, filledAt. rewrite Hcell. destruct cell as [x|]; simpl.
    + split; [discriminate | intros H; exfalso; apply H; eauto].
    + split; [intros _ [ch Hch]; discriminate | reflexivity].
  - exists false. split; [reflexivity|]. split; [|reflexivity].
    intros _. apply (vacant_outside n); [exact Hsq|].
    intros Ha. apply Hcond in Ha. discriminate.
Qed.

Lemma sideBlocked_vacant n g direction r c :
  square n g -> inArea n r c ->
  exists b, sideBlocked g n direction r c = Some b /\
            (b = false <-> sidesVacant g direction r c).
Proof.
  intros Hsq [Hr Hc]. unfold sideBlocked, sidesVacant. destruct direction.
  - destruct (occupiedIf_vacant n g (0 <? r) (r - 1) c Hsq) as (b1 & -> & H1).
    { unfold inArea. destruct (Z.ltb_spec 0 r); split; intros; try lia; discriminate. }
    destruct (occupiedIf_vacant n g (r <? n - 1) (r + 1) c Hsq) as (b2 & H2e & H2).
    { unfold inArea. destruct (Z.ltb_spec r (n - 1)); split; intros; try lia; discriminate. }
    destruct b1.
    + exists true. split; [reflexivity|]. split; [discriminate|].
      intros [Hv _]. apply H1 in Hv. discriminate.
    + exists b2. split; [exact H2e|]. rewrite H2. intuition.
  - destruct (occupiedIf_vacant n g (0 <? c) r (c - 1) Hsq) as (b1 & -> & H1).
    { unfold inArea. destruct (Z.ltb_spec 0 c); split; intros; try lia; discriminate. }
    destruct (occupiedIf_vacant n g (c <? n - 1) r (c + 1) Hsq) as (b2 & H2e & H2).
    { unfold inArea. destruct (Z.ltb_spec c (n - 1)); split; intros; try lia; discriminate. }
    destruct b1.
    + exists true. split; [reflexivity|]. split; [discriminate|].
      intros [Hv _]. apply H1 in Hv. discriminate.
    + exists b2. split; [exact H2e|]. rewrite H2. intuition.
Qed.

Lemma endsBlocked_vacant n g len row col direction :
  square n g -> 0 <= len -> spanInside n len row col direction ->
  exists b, endsBlocked g n len row col direction = Some b /\
            (b = false <->
             vacant g (cellRow direction row (-1)) (cellCol direction col (-1)) /\
             vacant g (cellRow direction row len) (cellCol direction col len)).
Proof.
  intros Hsq Hlen Hin. unfold endsBlocked. destruct direction; simpl in *.
  - replace (col + -1) with (col - 1) by lia.
    destruct (occupiedIf_vacant n g (0 <? col) row (col - 1) Hsq) as (b1 & -> & H1).
    { unfold inArea. destruct (Z.ltb_spec 0 col); split; intros; try lia; discriminate. }
    destruct (occupiedIf_vacant n g (col + len <? n) row (col + len) Hsq)
      as (b2 & H2e & H2).
    { unfold inArea. destruct (Z.ltb_spec (col + len) n); split; intros; try lia;
        discriminate. }
    destruct b1.
    + exists true. split; [reflexivity|]. split; [discriminate|].
      intros [Hv _]. apply H1 in Hv. discriminate.
    + exists b2. split; [exact H2e|]. rewrite H2. intuition.
  - replace (row + -1) with (row - 1) by lia.
    destruct (occupiedIf_vacant n g (0 <? row) (row - 1) col Hsq) as (b1 & -> & H1).
    { unfold inArea. destruct (Z.ltb_spec 0 row); split; intros; try lia; discriminate. }
    destruct (occupiedIf_vacant n g (row + len <? n) (row + len) col Hsq)
      as (b2 & H2e & H2).
    { unfold inArea. destruct (Z.ltb_spec (row + len) n); split; intros; try lia;
        discriminate. }
    destruct b1.
    + exists true. split; [reflexivity|]. split; [discriminate|].
      intros [Hv _]. apply H1 in Hv. discriminate.
    + exists b2. split; [exact H2e|]. rewrite H2. intuition.
Qed.

Lemma checkCells_decides n g row col direction letters : forall i,
  square n g -> 0 <= i ->
  spanInside n (i + Z.of_nat (length letters)) row col direction ->
  exists b,
    checkCells g n row col direction i letters = Some b /\
    (b = true <->
     forall k ch, letters !! k = Some ch ->
       let r := cellRow direction row (i + Z.of_nat k) in
       let c := cellCol direction col (i + Z.of_nat k) in
       getCell g r c = Some (Some ch) \/
       (getCell g r c = Some None /\ sidesVacant g direction r c)).
Proof.
  induction letters as [|x rest IH]; intros i Hsq Hi Hin.
  - exists true. split; [reflexivity|]. split; [|reflexivity].
    intros _ k ch Hk. discriminate.
  - simpl in Hin.
    assert (Hcell : inArea n (cellRow direction row i) (cellCol direction col i))
      by (eapply spanInside_cell; [exact Hin | lia]).
    destruct (getCell_inside n g _ _ Hsq (proj1 Hcell) (proj2 Hcell)) as [cell Hget].
    destruct (IH (i + 1) Hsq ltac:(lia)) as (b & Hb & Hbspec).
    { replace (i + 1 + Z.of_nat (length rest))
        with (i + Z.pos (Pos.of_succ_nat (length rest))) by lia. exact Hin. }
    destruct (sideBlocked_vacant n g direction _ _ Hsq Hcell) as (sb & Hsb & Hsbspec).
    (* what the code decides at this cell *)
    assert (Hhere : exists ok : bool,
              checkCells g n row col direction i (x :: rest)
              = (if ok then Some b else Some false) /\
              (ok = true <->
               getCell g (cellRow direction row i) (cellCol direction col i)
                 = Some (Some x) \/
               (getCell g (cellRow direction row i) (cellCol direction col i)
                  = Some None /\
                sidesVacant g direction (cellRow direction row i)
                  (cellCol direction col i)))).
    { cbn [checkCells]. rewrite Hget. destruct cell as [y|]; cbn [filled cellIs].
      - destruct (decide (y = x)) as [->|Hne].
        + exists true. rewrite bool_decide_eq_true_2 by reflexivity. simpl.
          split; [exact Hb|]. split; [auto | reflexivity].
        + exists false. rewrite bool_decide_eq_false_2 by exact Hne. simpl.
          split; [reflexivity|]. split; [discriminate|].
          intros [H|[H _]]; congruence.
      - simpl. rewrite Hsb. destruct sb.
        + exists false. split; [reflexivity|]. split; [discriminate|].
          intros [H|[_ H]]; [discriminate|]. apply Hsbspec in H. discriminate.
        + exists true. split; [exact Hb|]. split; [|reflexivity].
          intros _. right. split; [reflexivity|]. now apply Hsbspec. }
    destruct Hhere as (ok & Hcheck & Hok). rewrite Hcheck.
    exists (if ok then b else false). split; [destruct ok; reflexivity|].
    split.
    + intros Htrue [|k] ch Hk; simpl in Hk.
      * injection Hk as <-. rewrite Z.add_0_r.
        destruct ok; [now apply Hok | discriminate].
      * replace (i + Z.of_nat (S k)) with (i + 1 + Z.of_nat k) by lia.
        destruct ok; [|discriminate]. now apply Hbspec.
    + intros Hall.
      assert (Hok' : ok = true).
      { apply Hok. specialize (Hall 0%nat x eq_refl). simpl in Hall.
        now rewrite Z.add_0_r in Hall. }
      rewrite Hok'. apply Hbspec. intros k ch Hk.
      specialize (Hall (S k) ch Hk).
      now replace (i + Z.of_nat (S k)) with (i + 1 + Z.of_nat k) in Hall by lia.
Qed.

Lemma canPlaceWord_placeable n g word row col direction :
  square n g ->
  exists b,
    canPlaceWord g word row col direction = Some b /\
    (b = true <-> placeable n g word row col direction).
Proof.
  intros Hsq. pose proof Hsq as [Hn _]. unfold canPlaceWord, placeable. rewrite Hn.
  destruct (outOfBounds n (Z.of_nat (length word)) row col direction) eqn:Hout.
  - exists false. split; [reflexivity|]. split; [discriminate|].
    intros (Hin & _). apply outOfBounds_false in Hin. congruence.
  - apply outOfBounds_false in Hout.
    destruct (checkCells_decides n g row col direction word 0 Hsq ltac:(lia) Hout)
      as (fits & -> & Hfits).
    destruct (endsBlocked_vacant n g (Z.of_nat (length word)) row col direction
                Hsq ltac:(lia) Hout) as (blocked & Hends & Hblocked).
    destruct fits.
    + rewrite Hends. exists (negb blocked). split; [reflexivity|].
      rewrite negb_true_iff, Hblocked. split.
      * intros [Hb Ha]. split; [exact Hout|]. split; [|auto].
        now apply Hfits.
      * intros (_ & _ & Hb & Ha). auto.
    + exists false. split; [reflexivity|]. split; [discriminate|].
      intros (_ & Hcells & _). apply Hfits. exact Hcells.
Qed.

(** On a square grid [canPlaceWord] always answers, and it answers
    [true] exactly when the four validation rules hold. *)
Theorem canPlaceWord_decides n g word row col direction :
  square n g ->
  exists b,
    canPlaceWord g word row col direction = Some b /\
    (b = true <-> placeable n g word row col direction).
Proof. apply canPlaceWord_placeable. Qed.

Lemma canPlaceWord_decides_witness :
  square 3 gridA /\
  canPlaceWord gridA (str "AB") 0 1 down = Some true /\
  placeable 3 gridA (str "AB") 0 1 down.
Proof.
  assert (Hsq : square 3 gridA) by (split; [reflexivity | repeat constructor]).
  split; [exact Hsq|]. split; [reflexivity|].
  destruct (canPlaceWord_decides 3 gridA (str "AB") 0 1 down Hsq) as (b & Hb & Hspec).
  apply Hspec. vm_compute in Hb. congruence.
Defined.

(** ** One step of the placement loop *)

(** Where a candidate comes from: a placed word, an index in the current
    word and an index in the placed word with the same letter; the
    candidate is perpendicular to the placed word and crosses it there. *)
Lemma findCandidates_origin g currentWord placedWords candidates cand :
  findCandidates g currentWord placedWords = Some candidates ->
  In cand candidates ->
  exists placedWord (i j : nat) ch,
    In placedWord placedWords /\
    wi_word currentWord !! i = Some ch /\ wp_word placedWord !! j = Some ch /\
    wp_direction cand = perpendicular (wp_direction placedWord) /\
    cellRow (wp_direction cand) (wp_row cand) (Z.of_nat i)
      = cellRow (wp_direction placedWord) (wp_row placedWord) (Z.of_nat j) /\
    cellCol (wp_direction cand) (wp_col cand) (Z.of_nat i)
      = cellCol (wp_direction placedWord) (wp_col placedWord) (Z.of_nat j) /\
    entryOf cand = currentWord /\
    canPlaceWord g (wi_word currentWord) (wp_row cand) (wp_col cand) (wp_direction cand)
      = Some true /\
    scorePlacement g (wi_word currentWord) (wp_row cand) (wp_col cand)
      (wp_direction cand) placedWords = Some (wp_score cand).
Proof.
  unfold findCandidates. intros H Hcand. apply list_elem_of_In in Hcand.
  destruct (collect_elem _ _ _ _ H Hcand) as (placedWord & found & Hp & Hfound & Hc).
  destruct (collect_elem _ _ _ _ Hfound Hc) as ([i j] & one & Hij & Hone & Hc1).
  apply list_elem_of_In, findIntersections_elem in Hij
    as (i' & j' & ch & -> & -> & Hi & Hj).
  exists placedWord, i', j', ch. split; [now apply list_elem_of_In|].
  unfold candidateFor in Hone. cbn [fst snd] in Hone.
  destruct (canPlaceWord _ _ _ _ _) as [[]|] eqn:Hcan; try discriminate.
  - destruct (scorePlacement _ _ _ _ _ _) as [score|] eqn:Hscore; [|discriminate].
    injection Hone as <-. apply list_elem_of_singleton in Hc1. subst cand.
    unfold entryOf. cbn [wp_word wp_clue wp_row wp_col wp_direction wp_score].
    split; [exact Hi|]. split; [exact Hj|]. split; [reflexivity|].
    split; [destruct (wp_direction placedWord); simpl; lia|].
    split; [destruct (wp_direction placedWord); simpl; lia|].
    split; [now destruct currentWord|]. split; assumption.
  - injection Hone as <-. now apply elem_of_nil in Hc1.
Qed.

Lemma findBestPlacement_dropped attempts options g currentWord placedWords :
  findBestPlacement attempts options g currentWord placedWords = Some None ->
  attempts = 0%nat \/
  exists candidates,
    findCandidates g currentWord placedWords = Some candidates /\
    forall c, In c candidates -> wp_score c < minIntersections options.
Proof.
  destruct attempts as [|remaining]; [now left|]. intros H. right.
  destruct (findCandidates g currentWord placedWords) as [candidates|] eqn:Hc;
    [|simpl in H; rewrite Hc in H; discriminate].
  exists candidates. split; [reflexivity|].
  rewrite (findBestPlacement_first remaining options _ _ _ candidates Hc) in H.
  destruct (sortBy byScoreDesc candidates) as [|best others] eqn:Hsort.
  - apply sortBy_nil in Hsort. subst candidates. intros c [].
  - destruct (Z.leb_spec (minIntersections options) (wp_score best)); [discriminate|].
    destruct (best_candidate candidates best) as [Hmax _]; [now rewrite Hsort|].
    intros c Hc'. specialize (Hmax c Hc'). lia.
Qed.

Lemma tryPlaceWord_cases n options st currentWord st' :
  consistent n st ->
  tryPlaceWord options st currentWord = Some st' ->
  (st' = st /\
   (maxAttempts options <= 0 \/
    exists candidates,
      findCandidates (en_grid st) currentWord (en_placed st) = Some candidates /\
      forall c, In c candidates -> wp_score c < minIntersections options))
  \/
  (exists best candidates placedWord (i j : nat) ch,
     en_placed st' = en_placed st ++ [best] /\
     entryOf best = currentWord /\
     findCandidates (en_grid st) currentWord (en_placed st) = Some candidates /\
     (exists earlier later,
        candidates = earlier ++ best :: later /\
        (forall c, In c earlier -> wp_score c < wp_score best) /\
        (forall c, In c later -> wp_score c <= wp_score best)) /\
     minIntersections options <= wp_score best /\
     In placedWord (en_placed st) /\
     wi_word currentWord !! i = Some ch /\ wp_word placedWord !! j = Some ch /\
     wp_direction best = perpendicular (wp_direction placedWord) /\
     cellRow (wp_direction best) (wp_row best) (Z.of_nat i)
       = cellRow (wp_direction placedWord) (wp_row placedWord) (Z.of_nat j) /\
     cellCol (wp_direction best) (wp_col best) (Z.of_nat i)
       = cellCol (wp_direction placedWord) (wp_col placedWord) (Z.of_nat j) /\
     placeable n (en_grid st) (wi_word currentWord) (wp_row best) (wp_col best)
       (wp_direction best) /\
     holdsPlacement (en_grid st') best /\
     (forall r c,
        (forall k, (k < length (wi_word currentWord))%nat ->
           ~ spanCell (wp_row best) (wp_col best) (wp_direction best) k r c) ->
        getCell (en_grid st') r c = getCell (en_grid st) r c)).
Proof.
  intros Hst Hstep. pose proof Hst as (Hsq & _ & _). unfold tryPlaceWord in Hstep.
  destruct (findBestPlacement _ _ _ _ _) as [[best|]|] eqn:Hbest; [| |discriminate].
  - right.
    apply findBestPlacement_found in Hbest as (cs & Hcs & Hin & Hhead & Hmin).
    apply list_elem_of_In in Hin.
    destruct (findCandidates_origin _ _ _ _ _ Hcs Hin)
      as (pw & i & j & ch & Hpw & Hi & Hj & Hdir & Hrow & Hcol & Hentry & Hcan & _).
    destruct (best_candidate cs best Hhead) as (Hmax & earlier & later & Heq & Hearlier).
    destruct (canPlaceWord_placeable n (en_grid st) (wi_word currentWord) (wp_row best)
                (wp_col best) (wp_direction best) Hsq) as (b & Hb & Hspec).
    assert (Hplaceable : placeable n (en_grid st) (wi_word currentWord) (wp_row best)
                           (wp_col best) (wp_direction best))
      by (apply Hspec; congruence).
    destruct (placeWord_spec n (en_grid st) currentWord (wp_row best) (wp_col best)
                (wp_direction best) Hsq (proj1 Hplaceable))
      as (g' & Hplace & _ & Hnew & Hold).
    rewrite Hplace in Hstep. injection Hstep as <-. cbn [en_grid en_placed].
    exists best, cs, pw, i, j, ch.
    split; [reflexivity|]. split; [exact Hentry|]. split; [exact Hcs|].
    split.
    { exists earlier, later. split; [exact Heq|]. split; [exact Hearlier|].
      intros c Hc. apply Hmax. rewrite Heq. apply in_or_app. right. now right. }
    split; [exact Hmin|]. split; [exact Hpw|]. split; [exact Hi|]. split; [exact Hj|].
    split; [exact Hdir|]. split; [exact Hrow|]. split; [exact Hcol|].
    split; [exact Hplaceable|]. split; [|exact Hold].
    unfold holdsPlacement.
    replace (wp_word best) with (wi_word currentWord)
      by (rewrite <- Hentry; reflexivity).
    exact Hnew.
  - left. injection Hstep as <-. split; [reflexivity|].
    apply findBestPlacement_dropped in Hbest as [Hzero|Hlow]; [left; lia | now right].
Qed.

(** An attempt either drops the word and leaves the state as it is (no
    iteration of the retry loop, or no candidate with a score of
    [minIntersections] at least), or appends one record: the word, at a
    position that satisfies the validation rules, perpendicular to a
    placed word that it crosses at a common letter, with the highest
    score of the pool (the first such candidate), written to the grid
    without changing any other cell. *)
Theorem tryPlaceWord_step n options st currentWord st' :
  consistent n st ->
  tryPlaceWord options st currentWord = Some st' ->
  (st' = st /\
   (maxAttempts options <= 0 \/
    exists candidates,
      findCandidates (en_grid st) currentWord (en_placed st) = Some candidates /\
      forall c, In c candidates -> wp_score c < minIntersections options))
  \/
  (exists best candidates placedWord (i j : nat) ch,
     en_placed st' = en_placed st ++ [best] /\
     entryOf best = currentWord /\
     findCandidates (en_grid st) currentWord (en_placed st) = Some candidates /\
     (exists earlier later,
        candidates = earlier ++ best :: later /\
        (forall c, In c earlier -> wp_score c < wp_score best) /\
        (forall c, In c later -> wp_score c <= wp_score best)) /\
     minIntersections options <= wp_score best /\
     In placedWord (en_placed st) /\
     wi_word currentWord !! i = Some ch /\ wp_word placedWord !! j = Some ch /\
     wp_direction best = perpendicular (wp_direction placedWord) /\
     cellRow (wp_direction best) (wp_row best) (Z.of_nat i)
       = cellRow (wp_direction placedWord) (wp_row placedWord) (Z.of_nat j) /\
     cellCol (wp_direction best) (wp_col best) (Z.of_nat i)
       = cellCol (wp_direction placedWord) (wp_col placedWord) (Z.of_nat j) /\
     placeable n (en_grid st) (wi_word currentWord) (wp_row best) (wp_col best)
       (wp_direction best) /\
     holdsPlacement (en_grid st') best /\
     (forall r c,
        (forall k, (k < length (wi_word currentWord))%nat ->
           ~ spanCell (wp_row best) (wp_col best) (wp_direction best) k r c) ->
        getCell (en_grid st') r c = getCell (en_grid st) r c)).
Proof. apply tryPlaceWord_cases. Qed.

Lemma tryPlaceWord_step_witness :
  exists n st',
    consistent n stateAB /\
    tryPlaceWord defaultOptions stateAB wordLong = Some st' /\
    length (en_placed st') = 2%nat.
Proof.
  destruct (placeAnchor_consistent (mkWordInput (str "AB") (str "x")))
    as (st0 & Hst0 & Hc & _).
  assert (Hst : st0 = stateAB) by (vm_compute in Hst0; vm_compute; congruence).
  subst st0.
  destruct (tryPlaceWord defaultOptions stateAB wordLong) as [st'|] eqn:Hstep;
    [|vm_compute in Hstep; discriminate].
  exists (Z.max 30 (wordLength (mkWordInput (str "AB") (str "x")) * 3)), st'.
  split; [exact Hc|]. split; [reflexivity|].
  destruct (tryPlaceWord_step _ defaultOptions stateAB wordLong st' Hc Hstep)
    as [[-> [Hmax|(cs & Hcs & Hlow)]]|(best & cs & pw & i & j & ch & -> & _)].
  - vm_compute in Hmax. exfalso. now apply Hmax.
  - exfalso. vm_compute in Hcs. injection Hcs as <-.
    specialize (Hlow _ (or_introl eq_refl)). vm_compute in Hlow. discriminate.
  - reflexivity.
Defined.

(** ** The options *)

Lemma foldM_ext {S A} (f f' : S -> A -> option S) l : forall s,
  (forall s a, f s a = f' s a) -> foldM f s l = foldM f' s l.
Proof.
  induction l as [|a rest IH]; intros s Hext; simpl; [reflexivity|].
  rewrite Hext. destruct (f' s a); [now apply IH | reflexivity].
Qed.

Lemma findBestPlacement_attempts a1 a2 o1 o2 g currentWord placedWords :
  minIntersections o1 = minIntersections o2 ->
  findBestPlacement (S a1) o1 g currentWord placedWords
  = findBestPlacement (S a2) o2 g currentWord placedWords.
Proof.
  intros Hmin.
  destruct (findCandidates g currentWord placedWords) as [candidates|] eqn:Hc.
  - rewrite !(findBestPlacement_first _ _ _ _ _ candidates Hc). now rewrite Hmin.
  - simpl. now rewrite Hc.
Qed.

Lemma tryPlaceWord_options o1 o2 st currentWord :
  1 <= maxAttempts o1 -> 1 <= maxAttempts o2 ->
  minIntersections o1 = minIntersections o2 ->
  tryPlaceWord o1 st currentWord = tryPlaceWord o2 st currentWord.
Proof.
  intros H1 H2 Hmin. unfold tryPlaceWord.
  destruct (Z.to_nat (maxAttempts o1)) as [|a1] eqn:E1; [lia|].
  destruct (Z.to_nat (maxAttempts o2)) as [|a2] eqn:E2; [lia|].
  now rewrite (findBestPlacement_attempts a1 a2 o1 o2).
Qed.

(** The result depends on the options through [minIntersections] only:
    [gridPadding] is not used, and every [maxAttempts] of at least 1
    gives the result of a single pass. *)
Theorem generateCrossword_options wordInputs o1 o2 :
  1 <= maxAttempts o1 -> 1 <= maxAttempts o2 ->
  minIntersections o1 = minIntersections o2 ->
  generateCrossword wordInputs o1 = generateCrossword wordInputs o2.
Proof.
  intros H1 H2 Hmin. unfold generateCrossword, generateTraced.
  destruct wordInputs as [|w ws]; [reflexivity|].
  destruct (normalizeWords (w :: ws)) as [|v vs]; [reflexivity|].
  assert (Hrun : placeWords o1 (sortWords (v :: vs)) = placeWords o2 (sortWords (v :: vs))).
  { unfold placeWords. destruct (sortWords (v :: vs)) as [|firstWord others];
      [reflexivity|].
    destruct (placeAnchor firstWord); [|reflexivity].
    apply foldM_ext. intros s a. now apply tryPlaceWord_options. }
  now rewrite Hrun.
Qed.

Lemma generateCrossword_options_witness :
  generateCrossword inputAB (mkOptions 1 1 0) = generateCrossword inputAB defaultOptions.
Proof.
  apply generateCrossword_options; [simpl; lia | simpl; lia | reflexivity].
Defined.

Lemma tryPlaceWord_no_attempt options st currentWord :
  maxAttempts options <= 0 -> tryPlaceWord options st currentWord = Some st.
Proof.
  intros H. unfold tryPlaceWord.
  destruct (Z.to_nat (maxAttempts options)) as [|a] eqn:E; [reflexivity | lia].
Qed.

(** With [maxAttempts] of 0 or less the retry loop is never entered: the
    anchor is the only word placed, and two or more valid words fail. *)
Theorem generateCrossword_no_attempt wordInputs options :
  maxAttempts options <= 0 ->
  (2 <= length (normalizeWords wordInputs))%nat ->
  generateCrossword wordInputs options = Some None /\
  exists firstWord others st,
    sortWords (normalizeWords wordInputs) = firstWord :: others /\
    placeWords options (firstWord :: others) = Some st /\
    en_placed st = [anchorPlacement firstWord].
Proof.
  intros Hmax Hlen.
  destruct (sortWords (normalizeWords wordInputs)) as [|firstWord others] eqn:Hsort.
  { apply sortBy_nil in Hsort. rewrite Hsort in Hlen. simpl in Hlen. lia. }
  assert (Hrun : exists st, placeWords options (firstWord :: others) = Some st /\
                            en_placed st = [anchorPlacement firstWord]).
  { unfold placeWords.
    destruct (placeAnchor_consistent firstWord) as (st & -> & _ & Hplaced).
    exists st. split; [|exact Hplaced].
    clear Hsort. induction others as [|w rest IH]; simpl; [reflexivity|].
    now rewrite tryPlaceWord_no_attempt. }
  destruct Hrun as (st & Hrun & Hplaced).
  split; [|now exists firstWord, others, st].
  unfold generateCrossword, generateTraced.
  destruct wordInputs as [|w0 ws0]; [simpl in Hlen; lia|].
  destruct (normalizeWords (w0 :: ws0)) as [|v vs] eqn:Hnorm; [simpl in Hlen; lia|].
  rewrite Hsort, Hrun, Hplaced.
  assert (Hcount : length (firstWord :: others) = length (v :: vs)).
  { rewrite <- Hsort. apply sortBy_length. }
  rewrite Hcount.
  destruct (Z.ltb_spec (Z.of_nat (length [anchorPlacement firstWord]))
              (Z.min 3 (Z.of_nat (length (v :: vs))))); [reflexivity|].
  simpl length in *. lia.
Qed.

Lemma generateCrossword_no_attempt_witness :
  generateCrossword [mkWordInput (str "CAT") []; mkWordInput (str "RAT") []]
    (mkOptions 0 1 2) = Some None.
Proof.
  apply (generateCrossword_no_attempt
           [mkWordInput (str "CAT") []; mkWordInput (str "RAT") []] (mkOptions 0 1 2));
    [simpl; lia | vm_compute; lia].
Defined.

(** ** The words of the output *)

Lemma tryPlaceWord_entry n options st currentWord st' :
  consistent n st ->
  tryPlaceWord options st currentWord = Some st' ->
  en_placed st' = en_placed st \/
  exists best, en_placed st' = en_placed st ++ [best] /\ entryOf best = currentWord.
Proof.
  intros Hst Hstep.
  destruct (tryPlaceWord_cases n options st currentWord st' Hst Hstep)
    as [[-> _]|(best & cs & pw & i & j & ch & Hplaced & Hentry & _)];
    [now left | right; eauto].
Qed.

Lemma foldM_tryPlaceWord_entries n options words : forall st st',
  consistent n st ->
  foldM (tryPlaceWord options) st words = Some st' ->
  exists more, en_placed st' = en_placed st ++ more /\ sublist (map entryOf more) words.
Proof.
  induction words as [|w rest IH]; intros st st' Hst H; simpl in H.
  - injection H as <-. exists []. split; [now rewrite app_nil_r | constructor].
  - destruct (tryPlaceWord options st w) as [st1|] eqn:Hstep; [|discriminate].
    destruct (tryPlaceWord_consistent n options st w Hst) as (st1' & Hst1' & Hc1 & _).
    assert (st1' = st1) by congruence. subst st1'.
    destruct (IH st1 st' Hc1 H) as (more & Hmore & Hsub).
    destruct (tryPlaceWord_entry n options st w st1 Hst Hstep)
      as [Hsame|(best & Hbest & Hentry)].
    + exists more. split; [now rewrite Hmore, Hsame|]. now apply sublist_cons.
    + exists (best :: more). split; [now rewrite Hmore, Hbest, <- app_assoc|].
      simpl. rewrite Hentry. now apply sublist_skip.
Qed.

(** The placed words, in the order of their placement, are entries of
    the sorted list in the order of that list, the first one included. *)
Lemma placeWords_entries options firstWord others st :
  placeWords options (firstWord :: others) = Some st ->
  exists more,
    en_placed st = anchorPlacement firstWord :: more /\
    sublist (map entryOf more) others.
Proof.
  unfold placeWords. intros H.
  destruct (placeAnchor_consistent firstWord) as (st0 & Hst0 & Hc & Hplaced).
  rewrite Hst0 in H.
  destruct (foldM_tryPlaceWord_entries _ options others st0 st Hc H)
    as (more & Hmore & Hsub).
  exists more. now rewrite Hmore, Hplaced.
Qed.

Lemma pushAt_perm key w (m : StartMap) :
  Permutation (concat (map snd (pushAt key w m))) (w :: concat (map snd m)).
Proof.
  induction m as [|[k ws] rest IH]; simpl; [reflexivity|].
  destruct (decide (k = key)); simpl.
  - rewrite <- app_assoc. simpl. symmetry. apply Permutation_middle.
  - rewrite IH. symmetry. apply Permutation_middle.
Qed.

Lemma groupByStart_perm words :
  Permutation (concat (map snd (groupByStart words))) words.
Proof.
  unfold groupByStart. induction words as [|w words IH] using rev_ind; [reflexivity|].
  rewrite fold_left_app. simpl. rewrite pushAt_perm, IH.
  apply Permutation_cons_append.
Qed.

Lemma numberFrom_entries (entries : StartMap) : forall n,
  map entryOfPlaced (numberFrom n entries) = map entryOf (concat (map snd entries)).
Proof.
  induction entries as [|[k ws] rest IH]; intros n; simpl; [reflexivity|].
  rewrite !map_app, IH. f_equal.
  induction ws as [|w ws' IHws]; simpl; [reflexivity|]. now rewrite IHws.
Qed.

Lemma assignClueNumbers_perm words :
  Permutation (map entryOfPlaced (assignClueNumbers words)) (map entryOf words).
Proof.
  unfold assignClueNumbers. rewrite numberFrom_entries.
  apply Permutation_map.
  rewrite (sortBy_perm readingOrder (groupByStart words)).
  apply groupByStart_perm.
Qed.

Lemma map_entryOf_shiftWord minR minC words :
  map entryOf (map (shiftWord minR minC) words) = map entryOf words.
Proof. induction words as [|w rest IH]; simpl; [reflexivity | now rewrite IH]. Qed.

Lemma generateCrossword_entries wordInputs options p :
  generateCrossword wordInputs options = Some (Some p) ->
  exists firstWord others kept,
    sortWords (normalizeWords wordInputs) = firstWord :: others /\
    sublist kept others /\
    Permutation (map entryOfPlaced (pg_words p)) (firstWord :: kept) /\
    (length (pg_words p) <= length (normalizeWords wordInputs))%nat /\
    Forall (fun w => pw_answer w = pw_word w) (pg_words p).
Proof.
  intros H. apply generateCrossword_success in H.
  pose proof (generateTraced_shape wordInputs options) as Hshape.
  rewrite H in Hshape.
  inversion Hshape
    as [| | |firstWord others st n b G Hsort Hrun Hst Hmore Henough Htight HsqG Hcells].
  destruct (placeWords_entries options firstWord others st Hrun) as (more & Hplaced & Hsub).
  exists firstWord, others, (map entryOf more).
  split; [exact Hsort|]. split; [exact Hsub|].
  assert (Hperm : Permutation
            (map entryOfPlaced
               (assignClueNumbers (map (shiftWord (minRow b) (minCol b)) (en_placed st))))
            (firstWord :: map entryOf more)).
  { rewrite assignClueNumbers_perm, map_entryOf_shiftWord, Hplaced. simpl.
    unfold entryOf at 1. simpl. now destruct firstWord. }
  split; [exact Hperm|]. split.
  - apply Permutation_length in Hperm. rewrite length_map in Hperm.
    cbn [pg_words]. rewrite Hperm.
    rewrite <- (sortBy_length byLengthDesc (normalizeWords wordInputs)).
    fold (sortWords (normalizeWords wordInputs)). rewrite Hsort. simpl.
    apply le_n_S. now apply sublist_length.
  - apply Forall_forall. intros w Hw. cbn [pg_words] in Hw.
    apply list_elem_of_In, assignClueNumbers_source in Hw as (w0 & m & _ & ->).
    reflexivity.
Qed.

(** The words of a returned puzzle are entries of the normalised input,
    each placed at most once: up to order they form a sublist of the
    sorted normalised words that starts with its first (longest) word;
    the answer of every word is the word itself. *)
Theorem generateCrossword_words wordInputs options p :
  generateCrossword wordInputs options = Some (Some p) ->
  exists firstWord others kept,
    sortWords (normalizeWords wordInputs) = firstWord :: others /\
    sublist kept others /\
    Permutation (map entryOfPlaced (pg_words p)) (firstWord :: kept) /\
    (length (pg_words p) <= length (normalizeWords wordInputs))%nat /\
    Forall (fun w => pw_answer w = pw_word w) (pg_words p).
Proof. apply generateCrossword_entries. Qed.

Lemma generateCrossword_words_witness :
  exists firstWord others kept,
    sortWords (normalizeWords inputAB) = firstWord :: others /\
    sublist kept others /\
    Permutation (map entryOfPlaced (pg_words puzzleAB)) (firstWord :: kept) /\
    (length (pg_words puzzleAB) <= length (normalizeWords inputAB))%nat /\
    Forall (fun w => pw_answer w = pw_word w) (pg_words puzzleAB).
Proof.
  apply (generateCrossword_words inputAB defaultOptions puzzleAB).
  vm_compute. reflexivity.
Defined.

(** ** The size of the output *)

(** The side of the returned grid is at least the length of the longest
    word and at most the side of the working grid. *)
Theorem generateCrossword_size wordInputs options p firstWord others :
  generateCrossword wordInputs options = Some (Some p) ->
  sortWords (normalizeWords wordInputs) = firstWord :: others ->
  2 <= wordLength firstWord <= pg_size p /\
  pg_size p <= Z.max 30 (wordLength firstWord * 3).
Proof.
  intros H Hsorted. apply generateCrossword_success in H.
  pose proof (generateTraced_shape wordInputs options) as Hshape.
  rewrite H in Hshape.
  inversion Hshape
    as [| | |firstWord' others' st n b G Hsort Hrun Hst Hmore _ Htight _ _].
  rewrite Hsorted in Hsort. injection Hsort as <- <-.
  assert (Hacc : acceptedWord firstWord = true)
    by (apply (sortWords_accepted wordInputs); rewrite Hsorted; now left).
  apply acceptedWord_length in Hacc.
  destruct (placeWords_consistent options firstWord others) as (st1 & Hrun1 & Hc1 & _).
  assert (st1 = st) by congruence. subst st1.
  assert (Hn : n = Z.max 30 (wordLength firstWord * 3)).
  { destruct Hst as ([Hl _] & _), Hc1 as ([Hl1 _] & _). lia. }
  pose proof (tight_bounds _ _ _ Htight) as Hb.
  destruct Hst as (Hsq & Hholds & _). destruct Hmore as [more Hplaced].
  rewrite Hplaced in Hholds. apply Forall_cons in Hholds as [Hanchor _].
  unfold holdsPlacement, holdsWord in Hanchor.
  cbn [anchorPlacement wp_word wp_row wp_col wp_direction cellRow cellCol] in Hanchor.
  unfold wordLength in *.
  destruct (lookup_lt_is_Some_2 (wi_word firstWord) 0%nat ltac:(lia)) as [x0 Hx0].
  destruct (lookup_lt_is_Some_2 (wi_word firstWord)
              (length (wi_word firstWord) - 1)%nat ltac:(lia)) as [x1 Hx1].
  pose proof (Hanchor _ _ Hx0) as Hc0. pose proof (Hanchor _ _ Hx1) as Hc1'.
  destruct Htight as (Hbox & _).
  pose proof (Hbox _ _ (getCell_bounds _ _ _ _ _ Hsq Hc0) (ex_intro _ x0 Hc0)) as B0.
  pose proof (Hbox _ _ (getCell_bounds _ _ _ _ _ Hsq Hc1') (ex_intro _ x1 Hc1')) as B1.
  cbn [pg_size]. lia.
Qed.

Lemma generateCrossword_size_witness :
  2 <= wordLength (mkWordInput (str "AB") (str "x")) <= pg_size puzzleAB /\
  pg_size puzzleAB <= Z.max 30 (wordLength (mkWordInput (str "AB") (str "x")) * 3).
Proof.
  apply (generateCrossword_size inputAB defaultOptions puzzleAB
           (mkWordInput (str "AB") (str "x")) []);
    [vm_compute; reflexivity | reflexivity].
Defined.

(** ** findIntersections lists every pair of equal letters once *)

Lemma indexed_NoDup s : NoDup (indexed s).
Proof.
  apply (NoDup_fmap_1 fst). unfold indexed. rewrite fmap_imap.
  rewrite (imap_ext _ (fun j _ => Z.of_nat j)) by reflexivity.
  rewrite imap_seq_0. apply NoDup_fmap_2; [apply _ | apply NoDup_seq].
Qed.

Lemma flat_map_NoDup {A B} (f : A -> list B) l :
  NoDup l ->
  (forall x, In x l -> NoDup (f x)) ->
  (forall x y z, In x l -> In y l -> In z (f x) -> In z (f y) -> x = y) ->
  NoDup (flat_map f l).
Proof.
  induction 1 as [|x l Hx Hnd IH]; intros Hf Hinj; simpl; [constructor|].
  apply NoDup_app. split; [apply Hf; now left|]. split.
  - intros z Hz Hz'. apply list_elem_of_In in Hz, Hz'.
    apply in_flat_map in Hz' as (y & Hy & Hzy).
    assert (x = y) by (apply (Hinj x y z); [now left | now right | exact Hz | exact Hzy]).
    subst y. apply Hx. now apply list_elem_of_In.
  - apply IH.
    + intros y Hy. apply Hf. now right.
    + intros a b z Ha Hb. apply Hinj; now right.
Qed.

(** The pairs returned are exactly the pairs of an index of the current
    word and an index of the placed word that carry the same letter, and
    every pair is returned once. *)
Theorem findIntersections_exact currentWord placedWord :
  NoDup (findIntersections currentWord placedWord) /\
  forall i j,
    In (i, j) (findIntersections currentWord placedWord) <->
    exists (i' j' : nat) ch,
      i = Z.of_nat i' /\ j = Z.of_nat j' /\
      currentWord !! i' = Some ch /\ wp_word placedWord !! j' = Some ch.
Proof.
  split; [|intros i j; apply findIntersections_elem].
  unfold findIntersections. apply flat_map_NoDup.
  - apply indexed_NoDup.
  - intros [i a] _. apply flat_map_NoDup.
    + apply indexed_NoDup.
    + intros [j b] _. simpl. case_decide; [apply NoDup_singleton | constructor].
    + intros [j b] [j' b'] z Hj Hj' Hz Hz'. simpl in Hz, Hz'.
      destruct (decide (a = b)) as [<-|]; [|destruct Hz].
      destruct (decide (a = b')) as [<-|]; [|destruct Hz'].
      destruct Hz as [<-|[]], Hz' as [Heq|[]].
      injection Heq as ->. reflexivity.
  - intros [i a] [i' a'] z Hi Hi' Hz Hz'.
    apply in_flat_map in Hz as ([j b] & _ & Hz).
    apply in_flat_map in Hz' as ([j' b'] & _ & Hz').
    simpl in Hz, Hz'.
    destruct (decide (a = b)) as [<-|]; [|destruct Hz].
    destruct (decide (a' = b')) as [<-|]; [|destruct Hz'].
    destruct Hz as [<-|[]], Hz' as [Heq|[]].
    injection Heq as -> ->.
    apply indexed_elem in Hi as (k & Hk & Hka).
    apply indexed_elem in Hi' as (k' & Hk' & Hka').
    assert (k = k') by lia. subst k'. congruence.
Qed.

(** ** placeWord writes the word and nothing else *)

(** On a square grid, for a span inside the grid, [placeWord] returns a
    square grid in which the cells of the span hold the letters of the
    word and all other cells are unchanged. *)
Theorem placeWord_writes n g w row col direction :
  square n g -> spanInside n (wordLength w) row col direction ->
  exists g',
    placeWord g w row col direction = Some g' /\
    square n g' /\
    holdsWord g' (wi_word w) row col direction /\
    (forall r c,
       (forall k, (k < length (wi_word w))%nat -> ~ spanCell row col direction k r c) ->
       getCell g' r c = getCell g r c).
Proof. apply placeWord_spec. Qed.

Lemma placeWord_writes_witness :
  exists g',
    placeWord gridA (mkWordInput (str "AB") []) 0 1 down = Some g' /\
    square 3 g' /\
    holdsWord g' (str "AB") 0 1 down /\
    (forall r c,
       (forall k, (k < 2)%nat -> ~ spanCell 0 1 down k r c) ->
       getCell g' r c = getCell gridA r c).
Proof.
  apply (placeWord_writes 3 gridA (mkWordInput (str "AB") []) 0 1 down).
  - split; [reflexivity | repeat constructor].
  - unfold spanInside, wordLength. simpl. lia.
Defined.

(** ** The range of the score *)

Lemma scoreCells_le g row col direction letters : forall i score v,
  scoreCells g row col direction i letters score = Some v ->
  v <= score + 10 * Z.of_nat (length letters).
Proof.
  induction letters as [|x rest IH]; intros i score v H; simpl in H.
  - injection H as <-. simpl. lia.
  - destruct (getCell g _ _) as [cell|]; [|discriminate].
    apply IH in H. simpl length. destruct (cellIs cell x); lia.
Qed.

(** A score lies between -5 and 10 per letter plus 10; it is negative
    only for a word of more than 6 letters that crosses nothing and is
    far from the placed words. *)
Theorem scorePlacement_range g word row col direction placedWords score :
  scorePlacement g word row col direction placedWords = Some score ->
  -5 <= score <= 10 * Z.of_nat (length word) + 10 /\
  (score < 0 ->
   6 < Z.of_nat (length word) /\ score = -5 /\
   intersectionCount g word row col direction = 0 /\
   ~ Qlt (calculateAverageDistance row col placedWords) (inject_Z 5)).
Proof.
  unfold scorePlacement. intros H.
  destruct (scoreCells g row col direction 0 word 0) as [s|] eqn:Hs; [|discriminate].
  injection H as <-.
  pose proof (scoreCells_ge _ _ _ _ _ _ _ _ Hs) as Hge.
  pose proof (scoreCells_le _ _ _ _ _ _ _ _ Hs) as Hle.
  pose proof (scoreCells_count g word row col direction word 0%nat 0 s
                ltac:(reflexivity) Hs) as Hcount.
  fold (intersectionCount g word row col direction) in Hcount.
  rewrite longWordPenalty_spec, densityBonus_spec.
  set (average := calculateAverageDistance row col placedWords).
  destruct (Qlt_le_dec average (inject_Z 5)) as [H5|H5],
           (Qlt_le_dec average (inject_Z 3)) as [H3|H3];
    case_decide; split; try lia; intros Hneg; try lia.
  repeat split; try lia. now apply Qle_not_lt.
Qed.

Lemma scorePlacement_range_witness :
  -5 <= 20 <= 10 * Z.of_nat (length (str "AB")) + 10.
Proof.
  apply (scorePlacement_range gridA (str "AB") 0 1 across
           [mkWordPlacement (str "A") [] 0 1 down 0] 20 eq_refl).
Defined.

(** ** compactGrid is a translation *)



(** On a grid of one or more rows without any letter the computed side
    is negative and [Array(newSize)] throws: nothing is returned. *)
Theorem compactGrid_letterless n g words :
  square n g -> 0 < n -> ~ hasContent n g -> compactGrid g words = None.
Proof.
  intros Hsq Hn Hno. pose proof Hsq as [Hlen _].
  destruct (scan_result n g ltac:(lia) (square_readable _ _ Hsq))
    as (b & Hscan & [[-> _]|Htight]).
  - unfold compactGrid. rewrite Hlen, Hscan. cbv zeta.
    cbn [minRow maxRow minCol maxCol].
    destruct (Z.ltb_spec
                (Z.max (Z.min (n - 1) (-1 + 0) - Z.max 0 (n - 0) + 1)
                       (Z.min (n - 1) (-1 + 0) - Z.max 0 (n - 0) + 1)) 0);
      [reflexivity | lia].
  - exfalso. apply Hno. destruct Htight as (_ & (c & Ha & Hf) & _).
    now exists (minRow b), c.
Qed.

Lemma compactGrid_letterless_witness : compactGrid (emptyGrid 2) [] = None.
Proof.
  apply (compactGrid_letterless 2).
  - apply emptyGrid_square. lia.
  - lia.
  - intros (r & c & _ & [ch Hch]). apply getCell_emptyGrid in Hch. discriminate.
Defined.

(** ** Clue numbers follow the reading order *)

Lemma sorted_lookup {A} (R : A -> A -> Prop) l :
  StronglySorted R l ->
  forall i j x y, l !! i = Some x -> l !! j = Some y -> (i < j)%nat -> R x y.
Proof.
  induction 1 as [|a rest Hs IH Hall]; intros i j x y Hi Hj Hlt; [discriminate|].
  destruct j as [|j]; [lia|]. simpl in Hj.
  destruct i as [|i]; simpl in Hi.
  - injection Hi as <-. rewrite Forall_forall in Hall. apply Hall.
    eapply list_elem_of_lookup_2; eauto.
  - apply (IH i j); auto. lia.
Qed.

Lemma readsBefore_irrefl p : ~ readsBefore p p.
Proof. unfold readsBefore. lia. Qed.

Lemma readsBefore_asym p q : readsBefore p q -> ~ readsBefore q p.
Proof. unfold readsBefore. lia. Qed.

Lemma sorted_NoDup positions : StronglySorted readsBefore positions -> NoDup positions.
Proof.
  induction 1 as [|a rest Hs IH Hall]; constructor; [|exact IH].
  intros Ha. rewrite Forall_forall in Hall.
  exact (readsBefore_irrefl a (Hall a Ha)).
Qed.

(** What the numbering gives to a record of its output. *)
Lemma assignClueNumbers_number words positions a :
  assignClueNumbers words = specNumbering words positions ->
  In a (assignClueNumbers words) ->
  exists i, positions !! i = Some (startOf a) /\ pw_number a = Z.of_nat i + 1.
Proof.
  intros -> Ha. unfold specNumbering in Ha.
  apply in_concat in Ha as (l & Hl & Ha).
  apply list_elem_of_In, elem_of_lookup_imap in Hl as (i & p & -> & Hi).
  apply in_map_iff in Ha as (w & <- & Hw).
  apply wordsAt_elem in Hw as [_ Hkey].
  exists i. split; [|reflexivity]. now rewrite <- Hkey in Hi.
Qed.

Lemma assignClueNumbers_numbers words a b :
  In a (assignClueNumbers words) -> In b (assignClueNumbers words) ->
  (pw_number a = pw_number b <-> startOf a = startOf b) /\
  (pw_number a < pw_number b <-> readsBefore (startOf a) (startOf b)) /\
  1 <= pw_number a <= Z.of_nat (length words).
Proof.
  intros Ha Hb.
  destruct (assignClueNumbers_positions words) as (positions & Hsorted & Hpos & Heq).
  destruct (assignClueNumbers_number words positions a Heq Ha) as (i & Hi & ->).
  destruct (assignClueNumbers_number words positions b Heq Hb) as (j & Hj & ->).
  pose proof (sorted_lookup readsBefore positions Hsorted) as Hlt.
  split; [|split].
  - split.
    + intros H. assert (i = j) by lia. subst j. congruence.
    + intros H. destruct (Nat.lt_trichotomy i j) as [Hij|[->|Hij]]; [|reflexivity|].
      * exfalso. specialize (Hlt i j _ _ Hi Hj Hij). rewrite H in Hlt.
        exact (readsBefore_irrefl _ Hlt).
      * exfalso. specialize (Hlt j i _ _ Hj Hi Hij). rewrite H in Hlt.
        exact (readsBefore_irrefl _ Hlt).
  - split.
    + intros H. apply (Hlt i j); auto. lia.
    + intros H. destruct (Nat.lt_trichotomy i j) as [Hij|[->|Hij]]; [lia| |].
      * exfalso. assert (startOf a = startOf b) by congruence.
        rewrite H0 in H. exact (readsBefore_irrefl _ H).
      * exfalso. exact (readsBefore_asym _ _ H (Hlt j i _ _ Hj Hi Hij)).
  - apply lookup_lt_Some in Hi.
    assert (Hlen : (length positions <= length (map startKey words))%nat).
    { apply NoDup_incl_length; [now apply NoDup_ListNoDup, sorted_NoDup|].
      intros p Hp. apply Hpos in Hp as (w & Hw & <-). now apply in_map. }
    rewrite length_map in Hlen. lia.
Qed.

(** Two numbered records have the same number exactly when they start on
    the same cell, and the smaller number exactly when the start cell
    comes first in reading order; the numbers run from 1 to at most the
    number of records. *)
Theorem assignClueNumbers_order words a b :
  In a (assignClueNumbers words) -> In b (assignClueNumbers words) ->
  (pw_number a = pw_number b <-> startOf a = startOf b) /\
  (pw_number a < pw_number b <-> readsBefore (startOf a) (startOf b)) /\
  1 <= pw_number a <= Z.of_nat (length words).
Proof. apply assignClueNumbers_numbers. Qed.

Lemma assignClueNumbers_order_witness :
  (pw_number (numbered 1 (mkWordPlacement (str "AB") [] 0 0 across 0))
   = pw_number (numbered 1 (mkWordPlacement (str "AC") [] 0 0 down 0)) <->
   startOf (numbered 1 (mkWordPlacement (str "AB") [] 0 0 across 0))
   = startOf (numbered 1 (mkWordPlacement (str "AC") [] 0 0 down 0))).
Proof.
  apply (assignClueNumbers_order
           [mkWordPlacement (str "AB") [] 0 0 across 0;
            mkWordPlacement (str "AC") [] 0 0 down 0]);
    [left; reflexivity | right; left; reflexivity].
Defined.

(** ** Placed words are never extended *)

Lemma span_filled g word row col direction :
  holdsWord g word row col direction ->
  forall z, 0 <= z < Z.of_nat (length word) ->
    filledAt g (cellRow direction row z) (cellCol direction col z).
Proof.
  intros Hholds z Hz.
  destruct (lookup_lt_is_Some_2 word (Z.to_nat z) ltac:(lia)) as [ch Hch].
  exists ch. specialize (Hholds _ _ Hch). now rewrite Z2Nat.id in Hholds by lia.
Qed.

(** A cap of a placed word is not a cell of a later word that is no
    longer and satisfies the validation rules. *)
Lemma cap_not_in_span n g p word row col direction z k :
  holdsPlacement g p ->
  1 <= Z.of_nat (length (wp_word p)) ->
  Z.of_nat (length word) <= Z.of_nat (length (wp_word p)) ->
  placeable n g word row col direction ->
  z = -1 \/ z = Z.of_nat (length (wp_word p)) ->
  vacant g (cellRow (wp_direction p) (wp_row p) z) (cellCol (wp_direction p) (wp_col p) z) ->
  (k < length word)%nat ->
  spanCell row col direction k
    (cellRow (wp_direction p) (wp_row p) z) (cellCol (wp_direction p) (wp_col p) z) ->
  False.
Proof.
  intros Hholds Hlen Hle (Hin & Hcells & Hbefore & Hafter) Hz Hvac Hk [Hr Hc].
  pose proof (span_filled _ _ _ _ _ Hholds) as Hfilled.
  destruct (lookup_lt_is_Some_2 word k Hk) as [ch Hch].
  destruct (Hcells k ch Hch) as [Hletter|[_ Hsides]]; cbv zeta in *.
  { apply Hvac. exists ch. now rewrite Hr, Hc. }
  rewrite <- Hr, <- Hc in Hsides. clear Hcells Hch.
  unfold vacant in *.
  destruct p as [pword pclue prow pcol pdir pscore].
  cbn [wp_word wp_row wp_col wp_direction] in *.
  set (lp := Z.of_nat (length pword)) in *.
  set (lb := Z.of_nat (length word)) in *.
  destruct pdir, direction; simpl in *.
  - (* both across *)
    destruct Hz as [-> | ->].
    + (* the cell before p *)
      destruct (Z_lt_le_dec (col + lb) (pcol + lp)) as [Hlt|Hge].
      * apply Hafter. replace (col + lb) with (pcol + (col + lb - pcol)) by lia.
        rewrite <- Hr. apply Hfilled. lia.
      * lia.
    + destruct (Z_lt_le_dec pcol col) as [Hlt|Hge].
      * apply Hbefore. replace (col + -1) with (pcol + (col - 1 - pcol)) by lia.
        rewrite <- Hr. apply Hfilled. lia.
      * lia.
  - (* p across, the new word down *)
    destruct Hsides as [Hleft Hright].
    destruct Hz as [-> | ->].
    + apply Hright. replace (pcol + -1 + 1) with (pcol + 0) by lia. apply Hfilled. lia.
    + apply Hleft. replace (pcol + lp - 1) with (pcol + (lp - 1)) by lia.
      apply Hfilled. lia.
  - (* p down, the new word across *)
    destruct Hsides as [Habove Hbelow].
    destruct Hz as [-> | ->].
    + apply Hbelow. replace (prow + -1 + 1) with (prow + 0) by lia. apply Hfilled. lia.
    + apply Habove. replace (prow + lp - 1) with (prow + (lp - 1)) by lia.
      apply Hfilled. lia.
  - (* both down *)
    destruct Hz as [-> | ->].
    + destruct (Z_lt_le_dec (row + lb) (prow + lp)) as [Hlt|Hge].
      * apply Hafter. replace (row + lb) with (prow + (row + lb - prow)) by lia.
        rewrite <- Hc. apply Hfilled. lia.
      * lia.
    + destruct (Z_lt_le_dec prow row) as [Hlt|Hge].
      * apply Hbefore. replace (row + -1) with (prow + (row - 1 - prow)) by lia.
        rewrite <- Hc. apply Hfilled. lia.
      * lia.
Qed.

Lemma capped_step n bound options st currentWord st' :
  cappedState n bound st ->
  1 <= wordLength currentWord <= bound ->
  tryPlaceWord options st currentWord = Some st' ->
  cappedState n (wordLength currentWord) st'.
Proof.
  intros (Hst & Hcapped & Hlong) Hlen Hstep.
  destruct (tryPlaceWord_consistent n options st currentWord Hst) as (st1 & Hst1 & Hc1 & _).
  assert (st1 = st') by congruence. subst st1.
  split; [exact Hc1|].
  destruct (tryPlaceWord_cases n options st currentWord st' Hst Hstep)
    as [[-> _]|(best & cs & pw & i & j & ch & Hplaced & Hentry & _ & _ & _ & _ & _ & _
                & _ & _ & _ & Hplaceable & Hholds' & Hold)].
  - split; [exact Hcapped|].
    eapply Forall_impl; [exact Hlong|]. simpl. intros p Hp. lia.
  - assert (Hword : wp_word best = wi_word currentWord)
      by (rewrite <- Hentry; reflexivity).
    rewrite Hplaced. split.
    + apply Forall_app. split.
      * rewrite Forall_forall in Hcapped, Hlong. apply Forall_forall. intros p Hp.
        destruct Hst as (_ & Hholds & _). rewrite Forall_forall in Hholds.
        assert (Hkeep : forall z,
                  z = -1 \/ z = Z.of_nat (length (wp_word p)) ->
                  vacant (en_grid st) (cellRow (wp_direction p) (wp_row p) z)
                                      (cellCol (wp_direction p) (wp_col p) z) ->
                  vacant (en_grid st') (cellRow (wp_direction p) (wp_row p) z)
                                       (cellCol (wp_direction p) (wp_col p) z)).
        { intros z Hz Hvac [x Hx]. apply Hvac. exists x. rewrite <- Hx. symmetry.
          apply Hold. intros k Hk Hspan.
          apply (cap_not_in_span n (en_grid st) p (wi_word currentWord) (wp_row best)
                   (wp_col best) (wp_direction best) z k); auto.
          - specialize (Hlong p Hp). simpl in Hlong. unfold wordLength in Hlen. lia.
          - specialize (Hlong p Hp). simpl in Hlong. unfold wordLength in Hlen. lia. }
        destruct (Hcapped p Hp) as [Hb Ha]. split; apply Hkeep; auto.
      * apply Forall_singleton. destruct Hplaceable as (_ & _ & Hb & Ha).
        unfold capped. rewrite Hword. split.
        -- intros [x Hx]. apply Hb. exists x. rewrite <- Hx. symmetry. apply Hold.
           intros k Hk Hspan. destruct Hspan as [Hr Hc].
           pose proof (cell_inj _ _ _ _ _ Hr Hc). lia.
        -- intros [x Hx]. apply Ha. exists x. rewrite <- Hx. symmetry. apply Hold.
           intros k Hk Hspan. destruct Hspan as [Hr Hc].
           pose proof (cell_inj _ _ _ _ _ Hr Hc). lia.
    + apply Forall_app. split.
      * eapply Forall_impl; [exact Hlong|]. simpl. intros p Hp. lia.
      * apply Forall_singleton. rewrite Hword. unfold wordLength. lia.
Qed.

Lemma capped_fold n options words : forall bound st st',
  cappedState n bound st ->
  StronglySorted (fun a b => wordLength b <= wordLength a) words ->
  Forall (fun w => 1 <= wordLength w <= bound) words ->
  foldM (tryPlaceWord options) st words = Some st' ->
  exists bound', cappedState n bound' st'.
Proof.
  induction words as [|w rest IH]; intros bound st st' Hst Hsorted Hall H; simpl in H.
  - injection H as <-. eauto.
  - destruct (tryPlaceWord options st w) as [st1|] eqn:Hstep; [|discriminate].
    apply Forall_cons in Hall as [Hw Hrest].
    apply StronglySorted_inv in Hsorted as [Hsorted Hle].
    apply (IH (wordLength w) st1 st'); auto.
    + eapply capped_step; eauto.
    + rewrite Forall_forall in Hle, Hrest. apply Forall_forall. intros v Hv.
      specialize (Hle v Hv). specialize (Hrest v Hv). simpl in Hle. lia.
Qed.

Lemma capped_anchor firstWord st :
  placeAnchor firstWord = Some st ->
  cappedState (Z.max 30 (wordLength firstWord * 3)) (wordLength firstWord) st.
Proof.
  intros H. destruct (placeAnchor_consistent firstWord) as (st0 & Hst0 & Hc & Hplaced).
  assert (st0 = st) by congruence. subst st0.
  split; [exact Hc|]. rewrite Hplaced. split.
  - apply Forall_singleton.
    destruct Hc as (Hsq & _ & Hcov). rewrite Hplaced in Hcov.
    assert (Hout : forall z,
              z = -1 \/ z = Z.of_nat (length (wi_word firstWord)) ->
              vacant (en_grid st)
                (cellRow across (wp_row (anchorPlacement firstWord)) z)
                (cellCol across (wp_col (anchorPlacement firstWord)) z)).
    { intros z Hz [x Hx]. destruct (Hcov _ _ _ Hx) as (p & k & Hp & Hk & [_ Hcol]).
      apply list_elem_of_singleton in Hp. subst p.
      apply lookup_lt_Some in Hk. simpl in Hk, Hcol. lia. }
    split; apply Hout; auto.
  - apply Forall_singleton. unfold wordLength. simpl. lia.
Qed.

(** At the end of a run over the sorted valid words every placed word is
    capped. *)
Lemma placeWords_capped wordInputs options firstWord others st :
  sortWords (normalizeWords wordInputs) = firstWord :: others ->
  placeWords options (firstWord :: others) = Some st ->
  Forall (capped (en_grid st)) (en_placed st).
Proof.
  intros Hsort Hrun. unfold placeWords in Hrun.
  destruct (placeAnchor firstWord) as [st0|] eqn:Hanchor; [|discriminate].
  pose proof (sortWords_sorted (normalizeWords wordInputs)) as Hsorted.
  rewrite Hsort in Hsorted. apply StronglySorted_inv in Hsorted as [Hsorted Hle].
  destruct (capped_fold _ options others (wordLength firstWord) st0 st
              (capped_anchor firstWord st0 Hanchor) Hsorted) as (bound & _ & Hcapped & _);
    [|exact Hrun|exact Hcapped].
  rewrite Forall_forall in Hle. apply Forall_forall. intros w Hw.
  specialize (Hle w Hw). simpl in Hle. split; [|exact Hle].
  assert (Hacc : acceptedWord w = true).
  { apply (sortWords_accepted wordInputs). rewrite Hsort. right.
    now apply list_elem_of_In. }
  apply acceptedWord_length in Hacc. lia.
Qed.

Lemma generateCrossword_capped_words wordInputs options p :
  generateCrossword wordInputs options = Some (Some p) ->
  Forall (cappedWord (pg_grid p)) (pg_words p).
Proof.
  intros H. apply generateCrossword_success in H.
  pose proof (generateTraced_shape wordInputs options) as Hshape.
  rewrite H in Hshape.
  inversion Hshape
    as [| | |firstWord others st n b G Hsort Hrun Hst Hmore Henough Htight HsqG Hcells].
  pose proof (placeWords_capped wordInputs options firstWord others st Hsort Hrun)
    as Hcapped.
  cbn [pg_grid pg_words]. apply Forall_forall. intros w Hw.
  apply list_elem_of_In, assignClueNumbers_source in Hw as (wp' & m & Hwp' & ->).
  apply in_map_iff in Hwp' as (wp & <- & Hwp).
  rewrite Forall_forall in Hcapped.
  destruct (Hcapped wp (proj2 (list_elem_of_In _ _) Hwp)) as [Hb Ha].
  assert (Hmove : forall r c, vacant (en_grid st) r c ->
                              vacant G (r - minRow b) (c - minCol b)).
  { intros r c Hvac [x Hx].
    pose proof (getCell_bounds _ _ _ _ _ HsqG Hx) as Harea.
    rewrite (Hcells _ _ Harea) in Hx. case_decide; [|discriminate].
    apply Hvac. exists x. rewrite <- Hx. f_equal; lia. }
  unfold cappedWord.
  cbn [numbered shiftWord pw_answer pw_startRow pw_startCol pw_direction
       wp_word wp_row wp_col wp_direction].
  rewrite !cellRow_shift, !cellCol_shift. split; apply Hmove; assumption.
Qed.

(** In the returned grid no placed word can be read on: the cell before
    its first letter and the cell after its last letter are empty or
    outside the grid. *)
Theorem generateCrossword_capped wordInputs options p :
  generateCrossword wordInputs options = Some (Some p) ->
  Forall (cappedWord (pg_grid p)) (pg_words p).
Proof. apply generateCrossword_capped_words. Qed.

Lemma generateCrossword_capped_witness :
  Forall (cappedWord (pg_grid puzzleAB)) (pg_words puzzleAB).
Proof.
  apply (generateCrossword_capped inputAB defaultOptions puzzleAB).
  vm_compute. reflexivity.
Defined.

(** ** Words of one direction do not overlap *)

Lemma generateCrossword_holds wordInputs options p :
  generateCrossword wordInputs options = Some (Some p) ->
  square (pg_size p) (pg_grid p) /\
  Forall (fun w => holdsWord (pg_grid p) (pw_answer w) (pw_startRow w) (pw_startCol w)
                             (pw_direction w)) (pg_words p).
Proof.
  intros H. apply generateCrossword_success in H.
  pose proof (generateTraced_shape wordInputs options) as Hshape.
  rewrite H in Hshape.
  inversion Hshape
    as [| | |firstWord others st n b G Hsort Hrun Hst Hmore Henough Htight HsqG Hcells].
  cbn [pg_size pg_words pg_grid].
  destruct Hst as (Hsq & Hholds & Hcov). pose proof Hsq as [Hlen _].
  rewrite <- Hlen in Htight.
  split; [exact HsqG|]. apply Forall_forall. intros w Hw.
  apply list_elem_of_In, assignClueNumbers_source in Hw as (wp' & m & Hwp' & ->).
  apply in_map_iff in Hwp' as (wp & <- & Hwp).
  cbn [numbered shiftWord pw_answer pw_startRow pw_startCol pw_direction
       wp_word wp_row wp_col wp_direction].
  intros k ch Hk.
  rewrite Forall_forall in Hholds.
  pose proof (Hholds wp (proj2 (list_elem_of_In _ _) Hwp) k ch Hk) as Hcell.
  rewrite cellRow_shift, cellCol_shift, <- Hcell.
  apply (compacted_cell (en_grid st) G b); [exact Htight | exact Hcells | |].
  - rewrite Hlen. exact (getCell_bounds _ _ _ _ _ Hsq Hcell).
  - now exists ch.
Qed.

(** Two words that are written in the grid in the same direction, none
    of which can be read on, and that share a cell, are the same word on
    the same cells. *)
Lemma overlap_same g direction wa ra ca wb rb cb i j :
  holdsWord g wa ra ca direction -> holdsWord g wb rb cb direction ->
  vacant g (cellRow direction ra (-1)) (cellCol direction ca (-1)) ->
  vacant g (cellRow direction ra (Z.of_nat (length wa)))
           (cellCol direction ca (Z.of_nat (length wa))) ->
  vacant g (cellRow direction rb (-1)) (cellCol direction cb (-1)) ->
  vacant g (cellRow direction rb (Z.of_nat (length wb)))
           (cellCol direction cb (Z.of_nat (length wb))) ->
  0 <= i < Z.of_nat (length wa) -> 0 <= j < Z.of_nat (length wb) ->
  cellRow direction ra i = cellRow direction rb j ->
  cellCol direction ca i = cellCol direction cb j ->
  ra = rb /\ ca = cb /\ wa = wb.
Proof.
  intros Ha Hb Hba Haa Hbb Hab Hi Hj Hr Hc.
  pose proof (span_filled _ _ _ _ _ Ha) as Fa.
  pose proof (span_filled _ _ _ _ _ Hb) as Fb.
  assert (Hstart : ra = rb /\ ca = cb).
  { destruct direction; simpl in *.
    - split; [exact Hr|].
      destruct (Z.lt_trichotomy ca cb) as [Hlt|[Heq|Hgt]]; [|exact Heq|]; exfalso.
      + apply Hbb. replace (cb + -1) with (ca + (cb - 1 - ca)) by lia.
        rewrite <- Hr. apply (Fa (cb - 1 - ca)). lia.
      + apply Hba. replace (ca + -1) with (cb + (ca - 1 - cb)) by lia.
        rewrite Hr. apply (Fb (ca - 1 - cb)). lia.
    - split; [|exact Hc].
      destruct (Z.lt_trichotomy ra rb) as [Hlt|[Heq|Hgt]]; [|exact Heq|]; exfalso.
      + apply Hbb. replace (rb + -1) with (ra + (rb - 1 - ra)) by lia.
        rewrite <- Hc. apply (Fa (rb - 1 - ra)). lia.
      + apply Hba. replace (ra + -1) with (rb + (ra - 1 - rb)) by lia.
        rewrite Hc. apply (Fb (ra - 1 - rb)). lia. }
  destruct Hstart as [<- <-]. split; [reflexivity|]. split; [reflexivity|].
  assert (Hlen : length wa = length wb).
  { destruct (Nat.lt_trichotomy (length wa) (length wb)) as [Hlt|[Heq|Hgt]];
      [|exact Heq|]; exfalso.
    - apply Haa. apply Fb. lia.
    - apply Hab. apply Fa. lia. }
  apply list_eq. intros k.
  destruct (wa !! k) as [x|] eqn:Hx.
  - destruct (lookup_lt_is_Some_2 wb k) as [y Hy].
    { apply lookup_lt_Some in Hx. lia. }
    specialize (Ha _ _ Hx). specialize (Hb _ _ Hy). congruence.
  - symmetry. apply lookup_ge_None. apply lookup_ge_None in Hx. lia.
Qed.

Lemma NoDup_map_eq {A B} (f : A -> B) (l : list A) a b :
  List.NoDup (map f l) -> In a l -> In b l -> f a = f b -> a = b.
Proof.
  induction l as [|x l IH]; intros Hnd Ha Hb Heq; [contradiction|].
  simpl in Hnd. apply List.NoDup_cons_iff in Hnd as [Hnot Hnd].
  destruct Ha as [->|Ha], Hb as [->|Hb]; auto.
  - exfalso. apply Hnot. rewrite Heq. now apply in_map.
  - exfalso. apply Hnot. rewrite <- Heq. now apply in_map.
Qed.

(** When the normalised input words are pairwise distinct, so are the
    answers of the returned puzzle. *)
Lemma generateCrossword_distinct wordInputs options p :
  List.NoDup (map wi_word (normalizeWords wordInputs)) ->
  generateCrossword wordInputs options = Some (Some p) ->
  List.NoDup (map pw_answer (pg_words p)).
Proof.
  intros Hnd H.
  destruct (generateCrossword_entries wordInputs options p H)
    as (firstWord & others & kept & Hsort & Hsub & Hperm & _ & Hanswer).
  assert (Hmap : map pw_answer (pg_words p) = map wi_word (map entryOfPlaced (pg_words p))).
  { rewrite map_map. apply map_ext_in. intros w Hw.
    rewrite Forall_forall in Hanswer. simpl. apply Hanswer. now apply list_elem_of_In. }
  rewrite Hmap.
  apply (Permutation_NoDup (l := map wi_word (firstWord :: kept)));
    [apply Permutation_map; symmetry; exact Hperm|].
  apply NoDup_ListNoDup.
  apply (sublist_NoDup (map wi_word (firstWord :: kept)) (map wi_word (firstWord :: others))).
  - apply NoDup_ListNoDup. rewrite <- Hsort.
    apply (Permutation_NoDup (l := map wi_word (normalizeWords wordInputs))); [|exact Hnd].
    apply Permutation_map. symmetry. apply sortBy_perm.
  - apply (fmap_sublist wi_word). now apply sublist_skip.
Qed.

Lemma generateCrossword_overlap wordInputs options p a b i j :
  generateCrossword wordInputs options = Some (Some p) ->
  In a (pg_words p) -> In b (pg_words p) ->
  pw_direction a = pw_direction b ->
  (i < length (pw_answer a))%nat -> (j < length (pw_answer b))%nat ->
  cellRow (pw_direction a) (pw_startRow a) (Z.of_nat i)
  = cellRow (pw_direction b) (pw_startRow b) (Z.of_nat j) ->
  cellCol (pw_direction a) (pw_startCol a) (Z.of_nat i)
  = cellCol (pw_direction b) (pw_startCol b) (Z.of_nat j) ->
  startOf a = startOf b /\ pw_answer a = pw_answer b /\
  (List.NoDup (map wi_word (normalizeWords wordInputs)) -> a = b).
Proof.
  intros H Ha Hb Hdir Hi Hj Hr Hc.
  destruct (generateCrossword_holds wordInputs options p H) as [_ Hholds].
  pose proof (generateCrossword_capped_words wordInputs options p H) as Hcapped.
  rewrite Forall_forall in Hholds, Hcapped.
  pose proof (Hholds a (proj2 (list_elem_of_In _ _) Ha)) as Hha.
  pose proof (Hholds b (proj2 (list_elem_of_In _ _) Hb)) as Hhb.
  destruct (Hcapped a (proj2 (list_elem_of_In _ _) Ha)) as [Hba Haa].
  destruct (Hcapped b (proj2 (list_elem_of_In _ _) Hb)) as [Hbb Hab].
  rewrite <- Hdir in Hhb, Hbb, Hab, Hr, Hc.
  destruct (overlap_same _ _ _ _ _ _ _ _ (Z.of_nat i) (Z.of_nat j)
              Hha Hhb Hba Haa Hbb Hab ltac:(lia) ltac:(lia) Hr Hc) as (Hrow & Hcol & Hword).
  split; [unfold startOf; congruence|]. split; [exact Hword|].
  intros Hnd.
  exact (NoDup_map_eq pw_answer (pg_words p) a b
           (generateCrossword_distinct wordInputs options p Hnd H) Ha Hb Hword).
Qed.

(** In a returned puzzle two words of the same direction that share a
    cell start on the same cell and have the same answer; when the
    normalised input words are pairwise distinct they are the same
    record, so that no two words of one direction overlap. *)
Theorem generateCrossword_no_overlap wordInputs options p a b i j :
  generateCrossword wordInputs options = Some (Some p) ->
  In a (pg_words p) -> In b (pg_words p) ->
  pw_direction a = pw_direction b ->
  (i < length (pw_answer a))%nat -> (j < length (pw_answer b))%nat ->
  cellRow (pw_direction a) (pw_startRow a) (Z.of_nat i)
  = cellRow (pw_direction b) (pw_startRow b) (Z.of_nat j) ->
  cellCol (pw_direction a) (pw_startCol a) (Z.of_nat i)
  = cellCol (pw_direction b) (pw_startCol b) (Z.of_nat j) ->
  startOf a = startOf b /\ pw_answer a = pw_answer b /\
  (List.NoDup (map wi_word (normalizeWords wordInputs)) -> a = b).
Proof. apply generateCrossword_overlap. Qed.

Lemma generateCrossword_no_overlap_witness :
  startOf rareY = startOf rareZ /\ pw_answer rareY = pw_answer rareZ /\
  (List.NoDup (map wi_word (normalizeWords inputTwice)) -> rareY = rareZ).
Proof.
  apply (generateCrossword_no_overlap inputTwice defaultOptions puzzleTwice
           rareY rareZ 1 1).
  - vm_compute. reflexivity.
  - right. left. reflexivity.
  - right. right. left. reflexivity.
  - reflexivity.
  - simpl. lia.
  - simpl. lia.
  - reflexivity.
  - reflexivity.
Defined.

(** ** validatePuzzle *)

Lemma readLoose_getCell g r c value ch :
  readLoose g r c = Some value ->
  (looseIs value ch = true <-> getCell g r c = Some (Some ch)).
Proof.
  unfold readLoose, getCell. intros H.
  destruct (0 <=? r); [|discriminate]. cbn [andb].
  destruct (g !! Z.to_nat r) as [cells|]; [|discriminate].
  injection H as <-.
  destruct (0 <=? c); [|simpl; split; discriminate].
  destruct (cells !! Z.to_nat c) as [[x|]|]; simpl; try (split; discriminate).
  rewrite bool_decide_eq_true. split; [now intros -> | congruence].
Qed.

Lemma getCell_readLoose g r c cell :
  getCell g r c = Some cell -> readLoose g r c = Some (Held cell).
Proof.
  unfold readLoose, getCell. intros H.
  destruct (0 <=? r); [|discriminate]. cbn [andb] in H.
  destruct (0 <=? c); [|discriminate].
  destruct (g !! Z.to_nat r) as [cells|]; [|discriminate].
  now rewrite H.
Qed.

(** The loop over the letters of a word appends no message exactly when
    every letter fits. *)
Lemma checkLetters_spec size g w letters : forall i errors out,
  checkLetters size g w i letters errors = Some out ->
  exists extra,
    out = errors ++ extra /\
    (extra = [] <->
     forall k ch, letters !! k = Some ch -> letterFits size g w (i + Z.of_nat k) ch).
Proof.
  induction letters as [|ch rest IH]; intros i errors out H; simpl in H.
  - injection H as <-. exists []. split; [now rewrite app_nil_r|].
    split; [intros _ k c Hk; discriminate | reflexivity].
  - assert (Hshift : forall k, i + Z.of_nat (S k) = i + 1 + Z.of_nat k) by (intros; lia).
    destruct ((size <=? cellRow (pw_direction w) (pw_startRow w) i)
              || (size <=? cellCol (pw_direction w) (pw_startCol w) i)) eqn:Hout.
    + apply IH in H as (extra & -> & _).
      exists (BeyondBounds (pw_number w) :: extra).
      split; [now rewrite <- app_assoc|]. split; [discriminate|].
      intros Hall. exfalso. destruct (Hall 0%nat ch eq_refl) as (Hr & Hc & _).
      rewrite Z.add_0_r in Hr, Hc. apply orb_true_iff in Hout. lia.
    + apply orb_false_iff in Hout as [Hr Hc].
      destruct (readLoose g (cellRow (pw_direction w) (pw_startRow w) i)
                            (cellCol (pw_direction w) (pw_startCol w) i))
        as [value|] eqn:Hread; [|discriminate].
      pose proof (readLoose_getCell _ _ _ _ ch Hread) as Hcell.
      destruct (looseIs value ch) eqn:His.
      * apply IH in H as (extra & -> & Hiff). exists extra. split; [reflexivity|].
        rewrite Hiff. split.
        -- intros Hall [|k] c Hk; simpl in Hk.
           ++ injection Hk as <-. rewrite Z.add_0_r.
              split; [lia|]. split; [lia|]. now apply Hcell.
           ++ rewrite Hshift. now apply Hall.
        -- intros Hall k c Hk. rewrite <- Hshift. now apply (Hall (S k)).
      * apply IH in H as (extra & -> & _).
        exists (IncorrectLetter (pw_number w) i :: extra).
        split; [now rewrite <- app_assoc|]. split; [discriminate|].
        intros Hall. exfalso. destruct (Hall 0%nat ch eq_refl) as (_ & _ & Hget).
        rewrite Z.add_0_r in Hget. apply Hcell in Hget. discriminate.
Qed.

Lemma checkLetters_fits size g w letters : forall i errors,
  (forall k ch, letters !! k = Some ch -> letterFits size g w (i + Z.of_nat k) ch) ->
  checkLetters size g w i letters errors = Some errors.
Proof.
  induction letters as [|ch rest IH]; intros i errors Hall; simpl; [reflexivity|].
  destruct (Hall 0%nat ch eq_refl) as (Hr & Hc & Hget). rewrite Z.add_0_r in Hr, Hc, Hget.
  destruct (Z.leb_spec size (cellRow (pw_direction w) (pw_startRow w) i)); [lia|].
  destruct (Z.leb_spec size (cellCol (pw_direction w) (pw_startCol w) i)); [lia|].
  cbn [orb]. rewrite (getCell_readLoose _ _ _ _ Hget).
  assert (His : looseIs (Held (Some ch)) ch = true)
    by (simpl; now apply bool_decide_eq_true).
  rewrite His. apply IH. intros k c Hk.
  replace (i + 1 + Z.of_nat k) with (i + Z.of_nat (S k)) by lia. now apply (Hall (S k)).
Qed.

Lemma checkWords_spec size g words : forall errors out,
  foldM (checkWordCells size g) errors words = Some out ->
  exists extra,
    out = errors ++ extra /\ (extra = [] <-> Forall (wordFits size g) words).
Proof.
  induction words as [|w rest IH]; intros errors out H; simpl in H.
  - injection H as <-. exists []. split; [now rewrite app_nil_r|].
    split; [constructor | reflexivity].
  - destruct (checkWordCells size g errors w) as [errors1|] eqn:Hw; [|discriminate].
    apply checkLetters_spec in Hw as (e1 & -> & H1).
    apply IH in H as (e2 & -> & H2).
    exists (e1 ++ e2). split; [now rewrite app_assoc|].
    rewrite Forall_cons, <- H2. unfold wordFits. cbn [Z.add] in H1. rewrite <- H1.
    split; [now intros [-> ->]%app_eq_nil | now intros [-> ->]].
Qed.

Lemma checkWords_fit size g words errors :
  Forall (wordFits size g) words ->
  foldM (checkWordCells size g) errors words = Some errors.
Proof.
  induction 1 as [|w rest Hw _ IH]; simpl; [reflexivity|].
  unfold checkWordCells at 1. rewrite checkLetters_fits; [exact IH|].
  intros k ch Hk. now apply Hw.
Qed.

(** *** The map from clue numbers to words *)

Lemma wordsNumbered_app n words w :
  wordsNumbered n (words ++ [w])
  = wordsNumbered n words ++ (if decide (pw_number w = n) then [w] else []).
Proof.
  unfold wordsNumbered. rewrite List.filter_app. simpl.
  case_bool_decide; case_decide; try contradiction; reflexivity.
Qed.

Lemma wordsNumbered_elem n words w :
  In w (wordsNumbered n words) <-> In w words /\ pw_number w = n.
Proof.
  unfold wordsNumbered. rewrite filter_In. now rewrite bool_decide_eq_true.
Qed.

Lemma wordsNumbered_nil n words :
  (forall w, In w words -> pw_number w <> n) -> wordsNumbered n words = [].
Proof.
  intros H. destruct (wordsNumbered n words) as [|w rest] eqn:E; [reflexivity|].
  exfalso. assert (Hw : In w (wordsNumbered n words)) by (rewrite E; now left).
  apply wordsNumbered_elem in Hw as [Hw Hn]. exact (H w Hw Hn).
Qed.

Lemma pushNumber_keys key w (m : NumberMap) :
  map fst (pushNumber key w m)
  = if decide (key ∈ map fst m) then map fst m else map fst m ++ [key].
Proof.
  induction m as [|[k ws] rest IH]; [reflexivity|].
  cbn [pushNumber]. destruct (decide (k = key)) as [->|Hne]; cbn [map fst].
  - destruct (decide (key ∈ key :: map fst rest)) as [_|H];
      [reflexivity | exfalso; apply H; left].
  - rewrite IH.
    destruct (decide (key ∈ map fst rest)) as [H1|H1],
             (decide (key ∈ k :: map fst rest)) as [H2|H2]; try reflexivity.
    + exfalso. apply H2. now right.
    + exfalso. apply elem_of_cons in H2 as [?|?]; [congruence | contradiction].
Qed.

Lemma pushNumber_entries key w (m : NumberMap) : NoDup (map fst m) ->
  forall k ws', In (k, ws') (pushNumber key w m) ->
    (k <> key /\ In (k, ws') m) \/
    (k = key /\ ((exists ws, In (k, ws) m /\ ws' = ws ++ [w]) \/
                 (~ In key (map fst m) /\ ws' = [w]))).
Proof.
  induction m as [|[k0 ws0] rest IH]; intros Hnd k ws' Hin; simpl in *.
  - destruct Hin as [Heq|[]]. injection Heq as <- <-. right. split; [reflexivity|].
    right. split; [intros [] | reflexivity].
  - apply NoDup_cons in Hnd as [Hk0 Hnd].
    destruct (decide (k0 = key)) as [->|Hne].
    + destruct Hin as [Heq|Hin].
      * injection Heq as <- <-. right. split; [reflexivity|]. left.
        exists ws0. split; [now left | reflexivity].
      * left. split; [|now right]. intros ->. apply Hk0.
        apply list_elem_of_In, in_map_iff. now exists (key, ws').
    + destruct Hin as [Heq|Hin].
      * injection Heq as <- <-. left. split; [exact Hne | now left].
      * destruct (IH Hnd k ws' Hin) as [[H1 H2]|[-> [(ws & H1 & H2)|[H1 H2]]]].
        -- left. split; [exact H1 | now right].
        -- right. split; [reflexivity|]. left. exists ws. split; [now right | exact H2].
        -- right. split; [reflexivity|]. right. split; [|exact H2].
           intros [?|?]; contradiction.
Qed.

(** The [Map] of check 2: one entry per clue number, with the words that
    carry the number. *)
Lemma groupByNumber_spec words :
  NoDup (map fst (groupByNumber words)) /\
  (forall k ws, In (k, ws) (groupByNumber words) -> ws = wordsNumbered k words) /\
  (forall k, In k (map fst (groupByNumber words)) <->
             exists w, In w words /\ pw_number w = k).
Proof.
  unfold groupByNumber. induction words as [|w words IH] using rev_ind.
  - simpl. split; [constructor|]. split; [intros k ws []|].
    intros k. split; [intros [] | intros (w & [] & _)].
  - rewrite fold_left_app. simpl.
    set (m := fold_left (fun m w => pushNumber (pw_number w) w m) words []) in *.
    destruct IH as (Hnd & Hentries & Hkeys).
    assert (Hkeys' : forall k, In k (map fst (pushNumber (pw_number w) w m)) <->
                               In k (map fst m) \/ k = pw_number w).
    { intros k. rewrite pushNumber_keys. case_decide as Hin.
      - apply list_elem_of_In in Hin. split; [auto | intros [?| ->]; assumption].
      - rewrite in_app_iff. simpl. intuition. }
    split; [|split].
    + rewrite pushNumber_keys. case_decide as Hin; [exact Hnd|].
      apply NoDup_app. split; [exact Hnd|]. split; [|apply NoDup_singleton].
      intros k Hk Hk'. apply list_elem_of_singleton in Hk'. subst k.
      now apply Hin.
    + intros k ws' Hin. rewrite wordsNumbered_app.
      destruct (pushNumber_entries _ _ _ Hnd k ws' Hin)
        as [[Hne Hold]|[-> [(ws & Hold & ->)|[Hnew ->]]]].
      * rewrite (Hentries _ _ Hold). case_decide; [congruence|]. now rewrite app_nil_r.
      * rewrite (Hentries _ _ Hold). case_decide; [reflexivity | contradiction].
      * rewrite wordsNumbered_nil.
        -- case_decide; [reflexivity | contradiction].
        -- intros w' Hw' Heq. apply Hnew, Hkeys. eauto.
    + intros k. rewrite Hkeys', Hkeys. split.
      * intros [(w' & Hw' & Hk)| ->].
        -- exists w'. split; [apply in_or_app; now left | exact Hk].
        -- exists w. split; [apply in_or_app; right; now left | reflexivity].
      * intros (w' & Hw' & Hk). apply in_app_or in Hw' as [Hw'|[<-|[]]]; eauto.
Qed.

Lemma checkNumber_spec errors (entry : Z * list PlacedWord) :
  exists extra,
    checkNumber errors entry = errors ++ extra /\
    (extra = [] <->
     (length entry.2 <= 2)%nat /\
     forall a b, entry.2 = [a; b] -> startOf a = startOf b) /\
    ((forall a b, entry.2 = [a; b] -> startOf a = startOf b) ->
     Forall isNumberUsedBy extra).
Proof.
  destruct entry as [n ws]. unfold checkNumber. cbn [fst snd].
  destruct ws as [|a [|b [|c rest]]].
  - exists []. simpl. split; [now rewrite app_nil_r|].
    split; [|constructor]. split; [|reflexivity].
    intros _. split; [lia | discriminate].
  - exists []. simpl. split; [now rewrite app_nil_r|].
    split; [|constructor]. split; [|reflexivity].
    intros _. split; [lia | discriminate].
  - cbn [length Nat.ltb Nat.leb].
    destruct (negb (pw_startRow a =? pw_startRow b)
              || negb (pw_startCol a =? pw_startCol b)) eqn:Hdiff.
    + exists [DifferentPositions n]. split; [reflexivity|]. split.
      * split; [discriminate|]. intros [_ Hsame]. exfalso.
        specialize (Hsame a b eq_refl). unfold startOf in Hsame.
        injection Hsame as Hr Hc. rewrite Hr, Hc, !Z.eqb_refl in Hdiff. discriminate.
      * intros Hsame. exfalso.
        specialize (Hsame a b eq_refl). unfold startOf in Hsame.
        injection Hsame as Hr Hc. rewrite Hr, Hc, !Z.eqb_refl in Hdiff. discriminate.
    + exists []. split; [now rewrite app_nil_r|]. split; [|constructor].
      split; [|reflexivity]. intros _. split; [simpl; lia|].
      intros a' b' Heq. injection Heq as <- <-.
      apply orb_false_iff in Hdiff as [Hr Hc].
      apply negb_false_iff, Z.eqb_eq in Hr. apply negb_false_iff, Z.eqb_eq in Hc.
      unfold startOf. congruence.
  - exists [NumberUsedBy n (length (a :: b :: c :: rest))]. split; [reflexivity|].
    split; [split; [discriminate | simpl; intros [? _]; lia]|].
    intros _. repeat constructor.
Qed.

Lemma checkNumbers_spec (m : NumberMap) : forall errors,
  exists extra,
    fold_left checkNumber m errors = errors ++ extra /\
    (extra = [] <->
     forall entry, In entry m ->
       (length entry.2 <= 2)%nat /\
       forall a b, entry.2 = [a; b] -> startOf a = startOf b) /\
    ((forall entry, In entry m ->
        forall a b, entry.2 = [a; b] -> startOf a = startOf b) ->
     Forall isNumberUsedBy extra).
Proof.
  induction m as [|entry rest IH]; intros errors; simpl.
  - exists []. split; [now rewrite app_nil_r|]. split; [|constructor].
    split; [intros _ e [] | reflexivity].
  - destruct (checkNumber_spec errors entry) as (e1 & -> & H1 & K1).
    destruct (IH (errors ++ e1)) as (e2 & -> & H2 & K2).
    exists (e1 ++ e2). split; [now rewrite app_assoc|]. split.
    + split.
      * intros [-> ->]%app_eq_nil e [<-|He]; [now apply H1 | now apply H2].
      * intros Hall.
        assert (E1 : e1 = []) by (apply H1, Hall; now left).
        assert (E2 : e2 = []) by (apply H2; intros e He; apply Hall; now right).
        now rewrite E1, E2.
    + intros Hall. apply Forall_app. split.
      * apply K1. apply Hall. now left.
      * apply K2. intros e He. apply Hall. now right.
Qed.

(** The entries of the map in terms of the words. *)
Lemma groupByNumber_ok words :
  (forall entry, In entry (groupByNumber words) ->
     (length entry.2 <= 2)%nat /\
     forall a b, entry.2 = [a; b] -> startOf a = startOf b)
  <->
  (forall n, (length (wordsNumbered n words) <= 2)%nat) /\
  (forall a b, In a words -> In b words ->
     pw_number a = pw_number b -> startOf a = startOf b).
Proof.
  destruct (groupByNumber_spec words) as (_ & Hentries & Hkeys).
  split.
  - intros Hall.
    assert (Hgroup : forall n w, In w words -> pw_number w = n ->
              (length (wordsNumbered n words) <= 2)%nat /\
              forall a b, wordsNumbered n words = [a; b] -> startOf a = startOf b).
    { intros n w Hw Hn.
      assert (Hk : In n (map fst (groupByNumber words))) by (apply Hkeys; eauto).
      apply in_map_iff in Hk as ([k ws] & Hfst & Hin). simpl in Hfst. subst k.
      destruct (Hall _ Hin) as [Hlen Hpair]. cbn [snd] in Hlen, Hpair.
      rewrite (Hentries _ _ Hin) in Hlen, Hpair. auto. }
    split.
    + intros n. destruct (wordsNumbered n words) as [|w rest] eqn:E; [simpl; lia|].
      assert (Hw : In w (wordsNumbered n words)) by (rewrite E; now left).
      apply wordsNumbered_elem in Hw as [Hw Hn].
      rewrite <- E. now apply (Hgroup n w).
    + intros a b Ha Hb Hnum.
      destruct (Hgroup (pw_number a) a Ha eq_refl) as [Hlen Hpair].
      assert (Ha' : In a (wordsNumbered (pw_number a) words))
        by (now apply wordsNumbered_elem).
      assert (Hb' : In b (wordsNumbered (pw_number a) words))
        by (now apply wordsNumbered_elem).
      destruct (wordsNumbered (pw_number a) words) as [|x [|y [|z rest]]];
        simpl in Hlen; try lia.
      * destruct Ha'.
      * destruct Ha' as [<-|[]], Hb' as [<-|[]]. reflexivity.
      * specialize (Hpair x y eq_refl).
        destruct Ha' as [<-|[<-|[]]], Hb' as [<-|[<-|[]]]; congruence.
  - intros [Hlen Hsame] [k ws] Hin. cbn [snd].
    rewrite (Hentries _ _ Hin). split; [apply Hlen|].
    intros a b Heq.
    assert (Ha : In a (wordsNumbered k words)) by (rewrite Heq; now left).
    assert (Hb : In b (wordsNumbered k words)) by (rewrite Heq; right; now left).
    apply wordsNumbered_elem in Ha as [Ha Hna]. apply wordsNumbered_elem in Hb as [Hb Hnb].
    apply Hsame; congruence.
Qed.

Lemma dimensionsDiffer_spec size g differ :
  dimensionsDiffer size g = Some differ ->
  (differ = false <->
   Z.of_nat (length g) = size /\
   forall cells, head g = Some cells -> Z.of_nat (length cells) = size).
Proof.
  unfold dimensionsDiffer.
  destruct (Z.eqb_spec (Z.of_nat (length g)) size) as [Hlen|Hlen]; cbn [negb].
  - destruct g as [|cells rest]; [discriminate|]. intros H. injection H as <-.
    destruct (Z.eqb_spec (Z.of_nat (length cells)) size) as [Hc|Hc]; cbn [negb].
    + split; [|reflexivity]. intros _. split; [exact Hlen|].
      simpl. intros c Heq. now injection Heq as <-.
    + split; [discriminate|]. intros [_ H]. exfalso. apply Hc. now apply H.
  - intros H. injection H as <-. split; [discriminate|]. now intros [? _].
Qed.

Lemma validatePuzzle_valid puzzle result :
  validatePuzzle puzzle = Some result ->
  (va_valid result = true <-> accepted puzzle) /\
  (va_valid result = true <-> va_errors result = []).
Proof.
  unfold validatePuzzle. intros H.
  destruct (foldM (checkWordCells (pg_size puzzle) (pg_grid puzzle)) [] (pg_words puzzle))
    as [errors1|] eqn:H1; [|discriminate].
  destruct (dimensionsDiffer (pg_size puzzle) (pg_grid puzzle)) as [differ|] eqn:H3;
    [|discriminate].
  injection H as <-. cbn [va_valid va_errors].
  apply checkWords_spec in H1 as (e1 & -> & K1). simpl.
  destruct (checkNumbers_spec (groupByNumber (pg_words puzzle)) e1) as (e2 & -> & K2 & _).
  rewrite groupByNumber_ok in K2.
  apply dimensionsDiffer_spec in H3.
  assert (Hnil : forall l : list ValidationError, (length l =? 0)%nat = true <-> l = []).
  { intros l. rewrite Nat.eqb_eq. destruct l; simpl; split; (discriminate || reflexivity || lia). }
  split; [|apply Hnil].
  rewrite Hnil. unfold accepted.
  destruct differ.
  - split.
    + intros E. apply app_eq_nil in E as [_ E]. discriminate.
    + intros (_ & _ & _ & Hd). exfalso. assert (true = false) by (now apply H3).
      discriminate.
  - split.
    + intros [E1 E2]%app_eq_nil.
      destruct (proj1 K2 E2) as [Hlen Hsame].
      destruct (proj1 H3 eq_refl) as [Hrows Hfirst].
      split; [now apply K1|]. split; [exact Hlen|]. split; [exact Hsame|].
      split; [exact Hrows | exact Hfirst].
    + intros (Hfits & Hlen & Hsame & _).
      rewrite (proj2 K1 Hfits), (proj2 K2 (conj Hlen Hsame)). reflexivity.
Qed.

(** Whenever [validatePuzzle] returns, it reports a valid puzzle (an
    empty error list) exactly when every letter of every word lies below
    [size] in both coordinates and is the letter held by the grid, no
    clue number is carried by more than two words, two words with the
    same number start on the same cell, and the grid has [size] rows of
    which the first has [size] cells. *)
Theorem validatePuzzle_accepts puzzle result :
  validatePuzzle puzzle = Some result ->
  (va_valid result = true <-> accepted puzzle) /\
  (va_valid result = true <-> va_errors result = []).
Proof. apply validatePuzzle_valid. Qed.

Lemma validatePuzzle_accepts_witness :
  (va_valid (mkValidation true []) = true <-> accepted puzzleAB) /\
  (va_valid (mkValidation true []) = true <-> va_errors (mkValidation true []) = []).
Proof.
  apply (validatePuzzle_accepts puzzleAB (mkValidation true [])).
  vm_compute. reflexivity.
Defined.

(** ** Generated puzzles under validatePuzzle *)

Lemma generateCrossword_numbering wordInputs options p :
  generateCrossword wordInputs options = Some (Some p) ->
  1 <= pg_size p /\
  forall a b, In a (pg_words p) -> In b (pg_words p) ->
    (pw_number a = pw_number b <-> startOf a = startOf b).
Proof.
  intros H. apply generateCrossword_success in H.
  pose proof (generateTraced_shape wordInputs options) as Hshape.
  rewrite H in Hshape.
  inversion Hshape
    as [| | |firstWord others st n b G Hsort Hrun Hst Hmore Henough Htight HsqG Hcells].
  cbn [pg_size pg_words]. split.
  - pose proof (tight_bounds _ _ _ Htight). lia.
  - intros x y Hx Hy. now apply (assignClueNumbers_numbers _ x y Hx Hy).
Qed.

Lemma generateCrossword_answers wordInputs options p w :
  generateCrossword wordInputs options = Some (Some p) ->
  In w (pg_words p) -> (2 <= length (pw_answer w))%nat.
Proof.
  intros H Hw.
  destruct (generateCrossword_entries wordInputs options p H)
    as (firstWord & others & kept & Hsort & Hsub & Hperm & _ & Hanswer).
  rewrite Forall_forall in Hanswer.
  rewrite (Hanswer w (proj2 (list_elem_of_In _ _) Hw)).
  assert (Hin : In (entryOfPlaced w) (firstWord :: kept)).
  { apply list_elem_of_In. rewrite <- Hperm. apply list_elem_of_In. now apply in_map. }
  assert (Hin' : In (entryOfPlaced w) (sortWords (normalizeWords wordInputs))).
  { rewrite Hsort. destruct Hin as [<-|Hin]; [now left | right].
    apply list_elem_of_In. eapply elem_of_sublist; [|exact Hsub]. now apply list_elem_of_In. }
  apply sortWords_accepted, acceptedWord_length in Hin'.
  unfold wordLength in Hin'. simpl in Hin'. lia.
Qed.

(** With pairwise distinct input words at most one word of each direction
    starts on a cell, hence at most two words carry a clue number. *)
Lemma generateCrossword_pairs wordInputs options p n :
  generateCrossword wordInputs options = Some (Some p) ->
  List.NoDup (map wi_word (normalizeWords wordInputs)) ->
  (length (wordsNumbered n (pg_words p)) <= 2)%nat.
Proof.
  intros H Hnd.
  destruct (generateCrossword_numbering wordInputs options p H) as [_ Hnum].
  pose proof (generateCrossword_distinct wordInputs options p Hnd H) as Hdistinct.
  assert (Hwords : List.NoDup (wordsNumbered n (pg_words p))).
  { apply List.NoDup_filter. exact (List.NoDup_map_inv _ _ Hdistinct). }
  assert (Hsame : forall a b,
            In a (wordsNumbered n (pg_words p)) -> In b (wordsNumbered n (pg_words p)) ->
            pw_direction a = pw_direction b -> a = b).
  { intros a b Ha Hb Hdir.
    apply wordsNumbered_elem in Ha as [Ha Hna]. apply wordsNumbered_elem in Hb as [Hb Hnb].
    assert (Hstart : startOf a = startOf b) by (apply Hnum; congruence).
    unfold startOf in Hstart. injection Hstart as Hr Hc.
    pose proof (generateCrossword_answers _ _ _ a H Ha).
    pose proof (generateCrossword_answers _ _ _ b H Hb).
    destruct (generateCrossword_overlap wordInputs options p a b 0 0 H Ha Hb Hdir)
      as (_ & _ & Heq); try lia; [| |now apply Heq].
    - now rewrite Hdir, Hr.
    - now rewrite Hdir, Hc. }
  destruct (wordsNumbered n (pg_words p)) as [|x [|y [|z rest]]]; simpl; try lia.
  exfalso.
  apply List.NoDup_cons_iff in Hwords as [Hx Hwords].
  apply List.NoDup_cons_iff in Hwords as [Hy _].
  assert (Hdir : pw_direction x = pw_direction y \/ pw_direction x = pw_direction z \/
                 pw_direction y = pw_direction z)
    by (destruct (pw_direction x), (pw_direction y), (pw_direction z); auto).
  destruct Hdir as [Hd|[Hd|Hd]].
  - apply Hx. left. symmetry. apply Hsame; simpl; auto.
  - apply Hx. right. left. symmetry. apply Hsame; simpl; auto.
  - apply Hy. left. symmetry. apply Hsame; simpl; auto.
Qed.

Lemma generateCrossword_checked wordInputs options p :
  generateCrossword wordInputs options = Some (Some p) ->
  exists result,
    validatePuzzle p = Some result /\
    Forall isNumberUsedBy (va_errors result) /\
    (List.NoDup (map wi_word (normalizeWords wordInputs)) ->
     result = {| va_valid := true; va_errors := [] |}).
Proof.
  intros H.
  destruct (generateCrossword_holds wordInputs options p H) as [Hsq Hholds].
  destruct (generateCrossword_numbering wordInputs options p H) as [Hsize Hnum].
  assert (Hfits : Forall (wordFits (pg_size p) (pg_grid p)) (pg_words p)).
  { eapply Forall_impl; [exact Hholds|]. simpl. intros w Hw k ch Hk.
    specialize (Hw k ch Hk).
    pose proof (getCell_bounds _ _ _ _ _ Hsq Hw) as [Hr Hc].
    split; [lia|]. split; [lia | exact Hw]. }
  unfold validatePuzzle. rewrite (checkWords_fit _ _ _ [] Hfits).
  assert (Hdim : dimensionsDiffer (pg_size p) (pg_grid p) = Some false).
  { destruct Hsq as [Hlen Hrows]. unfold dimensionsDiffer.
    rewrite Hlen, Z.eqb_refl. cbn [negb].
    destruct (pg_grid p) as [|cells rest]; [simpl in Hlen; lia|].
    apply Forall_cons in Hrows as [Hcells _]. now rewrite Hcells, Z.eqb_refl. }
  rewrite Hdim.
  destruct (checkNumbers_spec (groupByNumber (pg_words p)) []) as (extra & -> & Hnil & Hkind).
  cbn [app]. eexists. split; [reflexivity|]. cbn [va_errors].
  assert (Hpairs : forall a b, In a (pg_words p) -> In b (pg_words p) ->
                     pw_number a = pw_number b -> startOf a = startOf b)
    by (intros a b Ha Hb; now apply Hnum).
  destruct (groupByNumber_spec (pg_words p)) as (_ & Hentries & _).
  split.
  - apply Hkind. intros [k ws] Hin a b Heq. cbn [snd] in Heq.
    pose proof (Hentries _ _ Hin) as Hws. rewrite Heq in Hws.
    assert (Ha : In a (wordsNumbered k (pg_words p))) by (rewrite <- Hws; now left).
    assert (Hb : In b (wordsNumbered k (pg_words p))) by (rewrite <- Hws; right; now left).
    apply wordsNumbered_elem in Ha as [Ha Hna]. apply wordsNumbered_elem in Hb as [Hb Hnb].
    apply Hpairs; congruence.
  - intros Hnd.
    assert (E : extra = []).
    { apply Hnil. apply groupByNumber_ok. split; [|exact Hpairs].
      intros n. now apply (generateCrossword_pairs wordInputs options). }
    rewrite E. reflexivity.
Qed.

(** [validatePuzzle] returns on every generated puzzle, and the only
    message it can report is that a clue number is used by three or more
    words; when the normalised input words are pairwise distinct it
    reports a valid puzzle without any message. *)
Theorem generateCrossword_validates wordInputs options p :
  generateCrossword wordInputs options = Some (Some p) ->
  exists result,
    validatePuzzle p = Some result /\
    Forall isNumberUsedBy (va_errors result) /\
    (List.NoDup (map wi_word (normalizeWords wordInputs)) ->
     result = {| va_valid := true; va_errors := [] |}).
Proof. apply generateCrossword_checked. Qed.

Lemma generateCrossword_validates_witness :
  exists result,
    validatePuzzle puzzleAB = Some result /\
    Forall isNumberUsedBy (va_errors result) /\
    (List.NoDup (map wi_word (normalizeWords inputAB)) ->
     result = {| va_valid := true; va_errors := [] |}).
Proof.
  apply (generateCrossword_validates inputAB defaultOptions puzzleAB).
  vm_compute. reflexivity.
Defined.

(** ** The solving board *)

Lemma updateCell_cells board r c f board' :
  updateCell board r c f = Some board' ->
  forall r' c',
    boardCell board' r' c'
    = if decide (r' = r /\ c' = c) then f <$> boardCell board r' c'
      else boardCell board r' c'.
Proof.
  unfold updateCell. intros H r' c'.
  destruct (Z.leb_spec 0 r) as [Hr|Hr]; [|discriminate].
  destruct (Z.leb_spec 0 c) as [Hc|Hc]; [|discriminate]. cbn [andb] in H.
  destruct (board !! Z.to_nat r) as [cells|] eqn:Hrow; [|discriminate].
  destruct (cells !! Z.to_nat c) as [cell|] eqn:Hcell; [|discriminate].
  injection H as <-. unfold boardCell.
  destruct (Z.leb_spec 0 r') as [Hr'|Hr']; cbn [andb]; [|case_decide; [lia | reflexivity]].
  destruct (Z.leb_spec 0 c') as [Hc'|Hc']; [|case_decide; [lia | reflexivity]].
  destruct (decide (r' = r)) as [->|Hne].
  - rewrite list_lookup_insert_eq by (now apply lookup_lt_Some in Hrow).
    rewrite Hrow. destruct (decide (c' = c)) as [->|Hne].
    + rewrite list_lookup_insert_eq by (now apply lookup_lt_Some in Hcell).
      rewrite Hcell. case_decide; [reflexivity | tauto].
    + rewrite list_lookup_insert_ne by lia. case_decide; [tauto | reflexivity].
  - rewrite list_lookup_insert_ne by lia. case_decide; [tauto | reflexivity].
Qed.

Lemma updateCell_is_Some board r c f :
  is_Some (boardCell board r c) -> is_Some (updateCell board r c f).
Proof.
  unfold boardCell, updateCell. intros [cell H].
  destruct ((0 <=? r) && (0 <=? c)); [|discriminate].
  destruct (board !! Z.to_nat r) as [cells|]; [|discriminate].
  rewrite H. eauto.
Qed.

Lemma boardCell_blank size r c :
  0 <= size ->
  boardCell (blankBoard size) r c
  = if decide (inArea size r c) then Some blankCell else None.
Proof.
  intros Hsize. unfold boardCell, blankBoard, inArea.
  destruct (Z.leb_spec 0 r) as [Hr|Hr]; cbn [andb]; [|case_decide; [lia | reflexivity]].
  destruct (Z.leb_spec 0 c) as [Hc|Hc]; [|case_decide; [lia | reflexivity]].
  destruct (decide (r < size)) as [Hr'|Hr'].
  - rewrite lookup_replicate_2 by lia.
    destruct (decide (c < size)) as [Hc'|Hc'].
    + rewrite lookup_replicate_2 by lia. case_decide; [reflexivity | lia].
    + rewrite (proj1 (lookup_replicate_None _ _ _)) by lia. case_decide; [lia | reflexivity].
  - rewrite (proj1 (lookup_replicate_None _ _ _)) by lia. case_decide; [lia | reflexivity].
Qed.

Lemma placeAnswer_spec size w letters : forall i board,
  (forall k, (k < length letters)%nat ->
     cellRow (pw_direction w) (pw_startRow w) (i + Z.of_nat k) < size /\
     cellCol (pw_direction w) (pw_startCol w) (i + Z.of_nat k) < size /\
     is_Some (boardCell board
                (cellRow (pw_direction w) (pw_startRow w) (i + Z.of_nat k))
                (cellCol (pw_direction w) (pw_startCol w) (i + Z.of_nat k)))) ->
  exists board',
    placeAnswer size w i letters board = Some board' /\
    (forall k ch, letters !! k = Some ch ->
       boardCell board'
         (cellRow (pw_direction w) (pw_startRow w) (i + Z.of_nat k))
         (cellCol (pw_direction w) (pw_startCol w) (i + Z.of_nat k))
       = writeAnswer w (i + Z.of_nat k) ch
         <$> boardCell board
               (cellRow (pw_direction w) (pw_startRow w) (i + Z.of_nat k))
               (cellCol (pw_direction w) (pw_startCol w) (i + Z.of_nat k))) /\
    (forall r c,
       (forall k, (k < length letters)%nat ->
          ~ (r = cellRow (pw_direction w) (pw_startRow w) (i + Z.of_nat k) /\
             c = cellCol (pw_direction w) (pw_startCol w) (i + Z.of_nat k))) ->
       boardCell board' r c = boardCell board r c).
Proof.
  induction letters as [|ch rest IH]; intros i board Hin.
  - exists board. simpl. split; [reflexivity|]. split; [|reflexivity].
    intros k c Hk. discriminate.
  - assert (Hshift : forall k, i + Z.of_nat (S k) = i + 1 + Z.of_nat k) by (intros; lia).
    destruct (Hin 0%nat ltac:(simpl; lia)) as (Hr & Hc & Hsome).
    rewrite Z.add_0_r in Hr, Hc, Hsome.
    cbn [placeAnswer].
    destruct (Z.ltb_spec (cellRow (pw_direction w) (pw_startRow w) i) size); [|lia].
    destruct (Z.ltb_spec (cellCol (pw_direction w) (pw_startCol w) i) size); [|lia].
    cbn [andb].
    destruct (updateCell_is_Some board _ _ (writeAnswer w i ch) Hsome) as [board1 Hset].
    rewrite Hset.
    pose proof (updateCell_cells _ _ _ _ _ Hset) as Hcells.
    destruct (IH (i + 1) board1) as (board' & Hplace & Hnew & Hold).
    { intros k Hk. rewrite <- Hshift.
      destruct (Hin (S k) ltac:(simpl; lia)) as (Hr' & Hc' & Hsome').
      split; [exact Hr'|]. split; [exact Hc'|].
      rewrite Hcells. case_decide; [|exact Hsome'].
      destruct Hsome' as [x ->]. now eexists. }
    exists board'. split; [exact Hplace|]. split.
    + intros [|k] c Hk; simpl in Hk.
      * injection Hk as <-. rewrite Z.add_0_r.
        rewrite Hold.
        -- rewrite Hcells. case_decide; [reflexivity | tauto].
        -- intros k _ [Hr' Hc'].
           pose proof (cell_inj _ _ _ _ _ Hr' Hc'). lia.
      * rewrite Hshift. rewrite (Hnew k c Hk). rewrite Hcells.
        case_decide as Heq; [|reflexivity].
        destruct Heq as [Hr' Hc']. pose proof (cell_inj _ _ _ _ _ Hr' Hc'). lia.
    + intros r c Hout. rewrite Hold.
      * rewrite Hcells. case_decide as Heq; [|reflexivity].
        exfalso. apply (Hout 0%nat); [simpl; lia|]. now rewrite Z.add_0_r.
      * intros k Hk Hrc. apply (Hout (S k)); [simpl; lia|]. now rewrite Hshift.
Qed.

Lemma covered_app ws w r c :
  covered (ws ++ [w]) r c <->
  covered ws r c \/
  exists k, (k < length (pw_answer w))%nat /\
            spanCell (pw_startRow w) (pw_startCol w) (pw_direction w) k r c.
Proof.
  unfold covered. split.
  - intros (x & k & Hx & Hk & Hs). apply in_app_or in Hx as [Hx|[<-|[]]]; [left|right]; eauto.
  - intros [(x & k & Hx & Hk & Hs)|(k & Hk & Hs)].
    + exists x, k. split; [apply in_or_app; now left|]. auto.
    + exists w, k. split; [apply in_or_app; right; now left|]. auto.
Qed.

Lemma boardFor_blank size g : 0 <= size -> boardFor size g [] (blankBoard size).
Proof.
  intros Hsize. split.
  - intros r c. rewrite boardCell_blank by exact Hsize.
    case_decide as Ha; split; intros Hx.
    + exact Ha.
    + eauto.
    + destruct Hx; discriminate.
    + contradiction.
  - intros r c cell. rewrite boardCell_blank by exact Hsize.
    case_decide; [|discriminate]. intros [= <-].
    split; [reflexivity|]. split; [|split].
    + intros (w & k & [] & _).
    + intros _. split; reflexivity.
    + intros n. simpl. split; [discriminate | intros (w & [] & _)].
Qed.

(** One word more on the board. *)
Lemma boardFor_step size g ws w board :
  square size g ->
  boardFor size g ws board ->
  holdsWord g (pw_answer w) (pw_startRow w) (pw_startCol w) (pw_direction w) ->
  (1 <= length (pw_answer w))%nat ->
  (forall a, In a ws -> startOf a = startOf w -> pw_number a = pw_number w) ->
  exists board',
    placeAnswer size w 0 (pw_answer w) board = Some board' /\
    boardFor size g (ws ++ [w]) board'.
Proof.
  intros Hsq [Hshape Hcells] Hholds Hlen Hnum.
  assert (Hspan : forall k, (k < length (pw_answer w))%nat ->
            exists ch, pw_answer w !! k = Some ch /\
              inArea size (cellRow (pw_direction w) (pw_startRow w) (Z.of_nat k))
                          (cellCol (pw_direction w) (pw_startCol w) (Z.of_nat k))).
  { intros k Hk. destruct (lookup_lt_is_Some_2 _ _ Hk) as [ch Hch]. exists ch.
    split; [exact Hch|].
    exact (getCell_bounds _ _ _ _ _ Hsq (Hholds _ _ Hch)). }
  destruct (placeAnswer_spec size w (pw_answer w) 0 board) as (board' & Hplace & Hnew & Hold).
  { intros k Hk. rewrite Z.add_0_l. destruct (Hspan k Hk) as (ch & _ & Ha).
    pose proof Ha as [? ?]. split; [lia|]. split; [lia|]. now apply Hshape. }
  exists board'. split; [exact Hplace|].
  assert (Hcase : forall r c,
            (exists k ch, pw_answer w !! k = Some ch /\
               spanCell (pw_startRow w) (pw_startCol w) (pw_direction w) k r c /\
               boardCell board' r c
               = writeAnswer w (Z.of_nat k) ch <$> boardCell board r c) \/
            ((forall k, (k < length (pw_answer w))%nat ->
                ~ spanCell (pw_startRow w) (pw_startCol w) (pw_direction w) k r c) /\
             boardCell board' r c = boardCell board r c)).
  { intros r c.
    destruct (spanCell_dec (pw_startRow w) (pw_startCol w) (pw_direction w)
                (length (pw_answer w)) r c) as [(k & Hk & Hs)|Hno].
    - left. destruct (Hspan k Hk) as (ch & Hch & _). exists k, ch.
      split; [exact Hch|]. split; [exact Hs|]. destruct Hs as [-> ->].
      specialize (Hnew k ch Hch). now rewrite Z.add_0_l in Hnew.
    - right. split; [exact Hno|]. apply Hold. intros k Hk. rewrite Z.add_0_l.
      apply (Hno k Hk). }
  assert (Hfirst : spanCell (pw_startRow w) (pw_startCol w) (pw_direction w) 0
                     (pw_startRow w) (pw_startCol w)).
  { unfold spanCell. destruct (pw_direction w); simpl; lia. }
  split.
  - intros r c. rewrite <- Hshape.
    destruct (Hcase r c) as [(k & ch & _ & _ & ->)|[_ ->]]; [|reflexivity].
    now rewrite fmap_is_Some.
  - intros r c cell' Hcell'.
    destruct (Hcase r c) as [(k & ch & Hch & Hs & Heq)|[Hno Heq]]; rewrite Heq in Hcell'.
    + destruct (boardCell board r c) as [cell|] eqn:Hcell; [|discriminate].
      simpl in Hcell'. injection Hcell' as <-.
      destruct (Hcells r c cell Hcell) as (Hletter & Hcov & Hnot & Hnumber).
      assert (Hget : getCell g r c = Some (Some ch)).
      { destruct Hs as [-> ->]. now apply Hholds. }
      split; [exact Hletter|]. split; [|split].
      * intros _. split; [reflexivity|]. exists ch. simpl. auto.
      * intros Hn. exfalso. apply Hn. apply covered_app. right. exists k.
        split; [now apply lookup_lt_Some in Hch | exact Hs].
      * intros n. cbn [writeAnswer sc_number].
        destruct (Z.eqb_spec (Z.of_nat k) 0) as [Hk0|Hk0].
        -- assert (k = 0%nat) by lia. subst k.
           assert (Hstart : startOf w = (r, c)).
           { destruct Hs as [-> ->]. unfold startOf.
             destruct (pw_direction w); simpl; f_equal; lia. }
           split.
           ++ intros [= <-]. exists w. split; [apply in_or_app; right; now left|]. auto.
           ++ intros (x & Hx & Hsx & Hnx).
              apply in_app_or in Hx as [Hx|[<-|[]]]; [|now rewrite Hnx].
              f_equal. rewrite <- Hnx. symmetry. apply Hnum; [exact Hx | congruence].
        -- rewrite Hnumber. split.
           ++ intros (x & Hx & Hsx & Hnx). exists x.
              split; [apply in_or_app; now left|]. auto.
           ++ intros (x & Hx & Hsx & Hnx).
              apply in_app_or in Hx as [Hx|[<-|[]]]; [eauto|].
              exfalso. apply Hk0. unfold startOf in Hsx. injection Hsx as Hr Hc.
              destruct Hs as [Hr' Hc']. destruct (pw_direction w); simpl in *; lia.
    + destruct (Hcells r c cell' Hcell') as (Hletter & Hcov & Hnot & Hnumber).
      split; [exact Hletter|]. split; [|split].
      * intros Hc. apply covered_app in Hc as [Hc|(k & Hk & Hs)]; [now apply Hcov|].
        exfalso. exact (Hno k Hk Hs).
      * intros Hn. apply Hnot. intros Hc. apply Hn, covered_app. now left.
      * intros n. rewrite Hnumber. split.
        -- intros (x & Hx & Hsx & Hnx). exists x.
           split; [apply in_or_app; now left|]. auto.
        -- intros (x & Hx & Hsx & Hnx).
           apply in_app_or in Hx as [Hx|[<-|[]]]; [eauto|].
           exfalso. apply (Hno 0%nat Hlen). unfold startOf in Hsx.
           injection Hsx as <- <-. exact Hfirst.
Qed.

Lemma boardFor_fold size g words : forall done board,
  square size g ->
  boardFor size g done board ->
  Forall (fun w => holdsWord g (pw_answer w) (pw_startRow w) (pw_startCol w)
                             (pw_direction w) /\
                   (1 <= length (pw_answer w))%nat) words ->
  (forall a b, In a (done ++ words) -> In b (done ++ words) ->
     startOf a = startOf b -> pw_number a = pw_number b) ->
  exists board',
    foldM (fun board word => placeAnswer size word 0 (pw_answer word) board) board words
    = Some board' /\
    boardFor size g (done ++ words) board'.
Proof.
  induction words as [|w rest IH]; intros done board Hsq Hboard Hall Hnum.
  - exists board. split; [reflexivity|]. now rewrite app_nil_r.
  - apply Forall_cons in Hall as [[Hholds Hlen] Hrest].
    destruct (boardFor_step size g done w board Hsq Hboard Hholds Hlen)
      as (board1 & Hplace & Hboard1).
    { intros a Ha Hstart. apply Hnum; [| |exact Hstart].
      - apply in_or_app. now left.
      - apply in_or_app. right. now left. }
    cbn [foldM]. rewrite Hplace.
    destruct (IH (done ++ [w]) board1 Hsq Hboard1 Hrest) as (board' & Hfold & Hboard').
    { rewrite <- app_assoc. exact Hnum. }
    exists board'. split; [exact Hfold|]. rewrite <- app_assoc in Hboard'. exact Hboard'.
Qed.

Lemma generateCrossword_covered wordInputs options p r c ch :
  generateCrossword wordInputs options = Some (Some p) ->
  getCell (pg_grid p) r c = Some (Some ch) -> covered (pg_words p) r c.
Proof.
  intros H. apply generateCrossword_success in H.
  pose proof (generateTraced_shape wordInputs options) as Hshape.
  rewrite H in Hshape.
  inversion Hshape
    as [| | |firstWord others st n b G Hsort Hrun Hst Hmore Henough Htight HsqG Hcells].
  cbn [pg_size pg_words pg_grid]. intros Hcell.
  destruct Hst as (Hsq & Hholds & Hcov).
  pose proof (getCell_bounds _ _ _ _ _ HsqG Hcell) as [Hr Hc].
  rewrite (Hcells r c (conj Hr Hc)) in Hcell.
  case_decide; [|discriminate].
  destruct (Hcov _ _ _ Hcell) as (wp & k & Hwp & Hk & Hspan).
  destruct (assignClueNumbers_keeps
              (map (shiftWord (minRow b) (minCol b)) (en_placed st))
              (shiftWord (minRow b) (minCol b) wp)) as [m Hm].
  { apply in_map. now apply list_elem_of_In. }
  exists (numbered m (shiftWord (minRow b) (minCol b) wp)), k.
  split; [exact Hm|].
  cbn [numbered shiftWord pw_answer pw_startRow pw_startCol pw_direction
       wp_word wp_row wp_col wp_direction].
  split; [now apply lookup_lt_Some in Hk|].
  destruct Hspan as [Hsr Hsc]. unfold spanCell.
  rewrite cellRow_shift, cellCol_shift. lia.
Qed.

Lemma initializeGrid_board wordInputs options p :
  generateCrossword wordInputs options = Some (Some p) ->
  exists board,
    initializeGrid (pg_size p) (pg_words p) = Some board /\
    boardFor (pg_size p) (pg_grid p) (pg_words p) board.
Proof.
  intros H.
  destruct (generateCrossword_holds wordInputs options p H) as [Hsq Hholds].
  destruct (generateCrossword_numbering wordInputs options p H) as [Hsize Hnum].
  unfold initializeGrid. destruct (Z.ltb_spec (pg_size p) 0); [lia|].
  apply (boardFor_fold (pg_size p) (pg_grid p) (pg_words p) [] (blankBoard (pg_size p)) Hsq).
  - apply boardFor_blank. lia.
  - rewrite Forall_forall in Hholds. apply Forall_forall. intros w Hw.
    split; [now apply Hholds|].
    apply list_elem_of_In in Hw.
    pose proof (generateCrossword_answers _ _ _ w H Hw). lia.
  - simpl. intros a b Ha Hb Hstart. now apply Hnum.
Qed.

(** The board that the component builds from the size and the words of a
    generated puzzle has the cells of the returned grid: no letter is
    entered; the answer of a cell is the content of the grid cell; a cell
    is blocked exactly when the grid cell is empty; the number of a cell
    is the clue number of the words that start on it. *)
Theorem initializeGrid_generated wordInputs options p :
  generateCrossword wordInputs options = Some (Some p) ->
  exists board,
    initializeGrid (pg_size p) (pg_words p) = Some board /\
    (forall r c, is_Some (boardCell board r c) <-> inArea (pg_size p) r c) /\
    forall r c cell, boardCell board r c = Some cell ->
      sc_letter cell = None /\
      getCell (pg_grid p) r c = Some (sc_answer cell) /\
      sc_isBlack cell = negb (filled (sc_answer cell)) /\
      forall n, sc_number cell = Some n <->
                exists w, In w (pg_words p) /\ startOf w = (r, c) /\ pw_number w = n.
Proof.
  intros H.
  destruct (initializeGrid_board wordInputs options p H) as (board & Hinit & Hshape & Hcells).
  destruct (generateCrossword_holds wordInputs options p H) as [Hsq _].
  exists board. split; [exact Hinit|]. split; [exact Hshape|].
  intros r c cell Hcell.
  destruct (Hcells r c cell Hcell) as (Hletter & Hcov & Hnot & Hnumber).
  assert (Harea : inArea (pg_size p) r c) by (apply Hshape; eauto).
  destruct (getCell_inside _ _ _ _ Hsq (proj1 Harea) (proj2 Harea)) as [v Hv].
  split; [exact Hletter|].
  destruct v as [ch|].
  - destruct (Hcov (generateCrossword_covered _ _ _ _ _ _ H Hv)) as (Hblack & ch' & Hans & Hget).
    rewrite Hans, Hblack. auto.
  - destruct Hnot as [Hblack Hans].
    { intros Hc. destruct (Hcov Hc) as (_ & ch' & _ & Hget). congruence. }
    rewrite Hans, Hblack, Hv. auto.
Qed.

Lemma initializeGrid_generated_witness :
  exists board,
    initializeGrid (pg_size puzzleAB) (pg_words puzzleAB) = Some board /\
    (forall r c, is_Some (boardCell board r c) <-> inArea (pg_size puzzleAB) r c) /\
    forall r c cell, boardCell board r c = Some cell ->
      sc_letter cell = None /\
      getCell (pg_grid puzzleAB) r c = Some (sc_answer cell) /\
      sc_isBlack cell = negb (filled (sc_answer cell)) /\
      forall n, sc_number cell = Some n <->
                exists w, In w (pg_words puzzleAB) /\ startOf w = (r, c) /\ pw_number w = n.
Proof.
  apply (initializeGrid_generated inputAB defaultOptions puzzleAB).
  vm_compute. reflexivity.
Defined.

(** ** The handlers of the solving component *)

Lemma sameLayout_refl b : sameLayout b b.
Proof. intros r c. reflexivity. Qed.

Lemma sameLayout_trans b1 b2 b3 : sameLayout b1 b2 -> sameLayout b2 b3 -> sameLayout b1 b3.
Proof. intros H1 H2 r c. now rewrite H1. Qed.

Lemma updateCell_layout board r c letter board' :
  updateCell board r c (withLetter letter) = Some board' -> sameLayout board board'.
Proof.
  intros H r' c'. rewrite (updateCell_cells _ _ _ _ _ H).
  case_decide; [|reflexivity]. now destruct (boardCell board r' c').
Qed.

Lemma layout_cell b1 b2 r c cell1 :
  sameLayout b1 b2 -> boardCell b1 r c = Some cell1 ->
  exists cell2, boardCell b2 r c = Some cell2 /\
                sc_isBlack cell2 = sc_isBlack cell1 /\
                sc_answer cell2 = sc_answer cell1 /\
                sc_number cell2 = sc_number cell1.
Proof.
  intros H H1. specialize (H r c). rewrite H1 in H.
  destruct (boardCell b2 r c) as [cell2|]; [|discriminate].
  simpl in H. unfold withLetter in H. injection H as Hans Hnum Hblack. eauto.
Qed.

Lemma openBoard_layout size words b1 b2 :
  sameLayout b1 b2 -> openBoard size words b1 -> openBoard size words b2.
Proof.
  intros Hl [Hshape Hopen]. split.
  - intros r c. rewrite <- Hshape. pose proof (Hl r c) as E.
    destruct (boardCell b1 r c), (boardCell b2 r c); try discriminate;
      split; intros [x Hx]; try discriminate; eauto.
  - intros r c Hc. destruct (Hopen r c Hc) as (cell1 & H1 & Hblack).
    destruct (layout_cell _ _ _ _ _ Hl H1) as (cell2 & H2 & Hb & _).
    exists cell2. split; [exact H2 | congruence].
Qed.

Lemma selectedOpen_layout st board :
  sameLayout (sv_grid st) board -> selectedOpen st ->
  selectedOpen {| sv_grid := board; sv_selectedCell := sv_selectedCell st;
                  sv_direction := sv_direction st |}.
Proof.
  intros Hl Hsel row col Hs. simpl in *.
  destruct (Hsel row col Hs) as (cell1 & H1 & Hblack).
  destruct (layout_cell _ _ _ _ _ Hl H1) as (cell2 & H2 & Hb & _).
  exists cell2. split; [exact H2 | congruence].
Qed.

Lemma coversCell_true direction row col w :
  coversCell direction row col w = true <->
  pw_direction w = direction /\
  exists k, (k < length (pw_answer w))%nat /\
            spanCell (pw_startRow w) (pw_startCol w) (pw_direction w) k row col.
Proof.
  unfold coversCell, spanCell. case_bool_decide as Hdir; cbn [negb].
  - rewrite Hdir. destruct direction; cbn [cellRow cellCol];
      rewrite !andb_true_iff, Z.eqb_eq, Z.leb_le, Z.ltb_lt.
    + split.
      * intros [[Hr Hc1] Hc2]. split; [reflexivity|].
        exists (Z.to_nat (col - pw_startCol w)). lia.
      * intros [_ (k & Hk & -> & ->)]. lia.
    + split.
      * intros [[Hc Hr1] Hr2]. split; [reflexivity|].
        exists (Z.to_nat (row - pw_startRow w)). lia.
      * intros [_ (k & Hk & -> & ->)]. lia.
  - split; [discriminate | intros [? _]; contradiction].
Qed.

Lemma currentWord_covers words st w :
  getCurrentWord words st = Some w ->
  exists row col,
    sv_selectedCell st = Some (row, col) /\ In w words /\
    pw_direction w = sv_direction st /\
    exists k, (k < length (pw_answer w))%nat /\
              spanCell (pw_startRow w) (pw_startCol w) (pw_direction w) k row col.
Proof.
  unfold getCurrentWord. destruct (sv_selectedCell st) as [[row col]|]; [|discriminate].
  intros H. apply find_some in H as [Hw Hc]. apply coversCell_true in Hc as [Hdir Hk].
  exists row, col. auto.
Qed.

Lemma currentWord_cell size words st w k :
  openBoard size words (sv_grid st) ->
  getCurrentWord words st = Some w ->
  (k < length (pw_answer w))%nat ->
  exists cell,
    boardCell (sv_grid st)
      (cellRow (sv_direction st) (pw_startRow w) (Z.of_nat k))
      (cellCol (sv_direction st) (pw_startCol w) (Z.of_nat k)) = Some cell /\
    sc_isBlack cell = false.
Proof.
  intros [_ Hopen] Hcur Hk.
  apply currentWord_covers in Hcur as (_ & _ & _ & Hw & Hdir & _).
  rewrite <- Hdir. apply Hopen. exists w, k. split; [exact Hw|]. split; [exact Hk|].
  split; reflexivity.
Qed.

Lemma moveToNextCell_safe size words st :
  openBoard size words (sv_grid st) -> selectedOpen st ->
  exists st',
    moveToNextCell size words st = Some st' /\
    sv_grid st' = sv_grid st /\ sv_direction st' = sv_direction st /\
    selectedOpen st'.
Proof.
  intros [Hshape Hopen] Hsel. unfold moveToNextCell.
  destruct (sv_selectedCell st) as [[row col]|] eqn:Hs; [|now exists st].
  destruct (getCurrentWord words st) as [w|] eqn:Hcur; [|now exists st].
  apply currentWord_covers in Hcur as (row' & col' & Hs' & Hw & Hdir & k & Hk & Hr & Hc).
  rewrite Hs in Hs'. injection Hs' as <- <-. rewrite Hdir in Hr, Hc.
  destruct (sv_direction st) eqn:Hd; cbn [cellRow cellCol] in Hr, Hc.
  - destruct (Z.leb_spec (pw_startCol w + Z.of_nat (length (pw_answer w))) (col + 1));
      [now exists st|].
    destruct ((row <? size) && (col + 1 <? size)); [|now exists st].
    destruct (Hopen row (col + 1)) as (cell & Hcell & Hblack).
    { exists w, (S k). split; [exact Hw|]. split; [lia|].
      unfold spanCell. rewrite Hdir. cbn [cellRow cellCol]. lia. }
    rewrite Hcell, Hblack. cbn [negb]. eexists. split; [reflexivity|].
    cbn [sv_grid sv_direction]. split; [reflexivity|]. split; [reflexivity|].
    intros r c [= <- <-]. eauto.
  - destruct (Z.leb_spec (pw_startRow w + Z.of_nat (length (pw_answer w))) (row + 1));
      [now exists st|].
    destruct ((row + 1 <? size) && (col <? size)); [|now exists st].
    destruct (Hopen (row + 1) col) as (cell & Hcell & Hblack).
    { exists w, (S k). split; [exact Hw|]. split; [lia|].
      unfold spanCell. rewrite Hdir. cbn [cellRow cellCol]. lia. }
    rewrite Hcell, Hblack. cbn [negb]. eexists. split; [reflexivity|].
    cbn [sv_grid sv_direction]. split; [reflexivity|]. split; [reflexivity|].
    intros r c [= <- <-]. eauto.
Qed.

Lemma moveToPreviousCell_safe size words st :
  openBoard size words (sv_grid st) -> selectedOpen st ->
  exists st',
    moveToPreviousCell words st = Some st' /\
    sv_grid st' = sv_grid st /\ sv_direction st' = sv_direction st /\
    selectedOpen st'.
Proof.
  intros [Hshape Hopen] Hsel. unfold moveToPreviousCell.
  destruct (sv_selectedCell st) as [[row col]|] eqn:Hs; [|now exists st].
  destruct (getCurrentWord words st) as [w|] eqn:Hcur; [|now exists st].
  apply currentWord_covers in Hcur as (row' & col' & Hs' & Hw & Hdir & k & Hk & Hr & Hc).
  rewrite Hs in Hs'. injection Hs' as <- <-. rewrite Hdir in Hr, Hc.
  destruct (sv_direction st) eqn:Hd; cbn [cellRow cellCol] in Hr, Hc.
  - destruct (Z.ltb_spec (col - 1) (pw_startCol w)); [now exists st|].
    destruct ((0 <=? row) && (0 <=? col - 1)); [|now exists st].
    destruct (Hopen row (col - 1)) as (cell & Hcell & Hblack).
    { exists w, (k - 1)%nat. split; [exact Hw|]. split; [lia|].
      unfold spanCell. rewrite Hdir. cbn [cellRow cellCol]. lia. }
    rewrite Hcell, Hblack. cbn [negb]. eexists. split; [reflexivity|].
    cbn [sv_grid sv_direction]. split; [reflexivity|]. split; [reflexivity|].
    intros r c [= <- <-]. eauto.
  - destruct (Z.ltb_spec (row - 1) (pw_startRow w)); [now exists st|].
    destruct ((0 <=? row - 1) && (0 <=? col)); [|now exists st].
    destruct (Hopen (row - 1) col) as (cell & Hcell & Hblack).
    { exists w, (k - 1)%nat. split; [exact Hw|]. split; [lia|].
      unfold spanCell. rewrite Hdir. cbn [cellRow cellCol]. lia. }
    rewrite Hcell, Hblack. cbn [negb]. eexists. split; [reflexivity|].
    cbn [sv_grid sv_direction]. split; [reflexivity|]. split; [reflexivity|].
    intros r c [= <- <-]. eauto.
Qed.

Lemma handleCellPress_safe size words st row col :
  openBoard size words (sv_grid st) -> selectedOpen st -> inArea size row col ->
  exists st',
    handleCellPress row col st = Some st' /\ sv_grid st' = sv_grid st /\ selectedOpen st'.
Proof.
  intros [Hshape _] Hsel Harea. unfold handleCellPress.
  destruct (proj2 (Hshape row col) Harea) as [cell Hcell]. rewrite Hcell.
  destruct (sc_isBlack cell) eqn:Hblack; [now exists st|].
  case_bool_decide as Hs.
  - eexists. split; [reflexivity|]. split; [reflexivity|]. exact Hsel.
  - eexists. split; [reflexivity|]. split; [reflexivity|].
    intros r c [= <- <-]. eauto.
Qed.

(** Writing a letter on the selected cell and moving on. *)
Lemma enterLetter_safe size words st row col letter :
  openBoard size words (sv_grid st) -> selectedOpen st ->
  sv_selectedCell st = Some (row, col) ->
  exists board st',
    updateCell (sv_grid st) row col (withLetter letter) = Some board /\
    moveToNextCell size words
      {| sv_grid := board; sv_selectedCell := sv_selectedCell st;
         sv_direction := sv_direction st |} = Some st' /\
    sv_grid st' = board /\ sv_direction st' = sv_direction st /\
    sameLayout (sv_grid st) board /\ selectedOpen st'.
Proof.
  intros Hboard Hsel Hs.
  destruct (Hsel row col Hs) as (cell & Hcell & _).
  destruct (updateCell_is_Some (sv_grid st) row col (withLetter letter))
    as [board Hset]; [eauto|].
  pose proof (updateCell_layout _ _ _ _ _ Hset) as Hl.
  destruct (moveToNextCell_safe size words
              {| sv_grid := board; sv_selectedCell := sv_selectedCell st;
                 sv_direction := sv_direction st |})
    as (st' & Hmove & Hgrid & Hdir & Hsel').
  { exact (openBoard_layout _ _ _ _ Hl Hboard). }
  { now apply selectedOpen_layout. }
  cbn [sv_grid sv_direction] in Hgrid, Hdir.
  exists board, st'.
  split; [exact Hset|]. split; [exact Hmove|]. split; [exact Hgrid|].
  split; [exact Hdir|]. split; [exact Hl | exact Hsel'].
Qed.

Lemma handleLetterInput_safe size words st letter :
  openBoard size words (sv_grid st) -> selectedOpen st ->
  exists st',
    handleLetterInput size words letter st = Some st' /\
    sameLayout (sv_grid st) (sv_grid st') /\ selectedOpen st'.
Proof.
  intros Hboard Hsel. unfold handleLetterInput.
  assert (Hsame : exists st', Some st = Some st' /\
                    sameLayout (sv_grid st) (sv_grid st') /\ selectedOpen st').
  { exists st. split; [reflexivity|]. split; [apply sameLayout_refl | exact Hsel]. }
  destruct (sv_selectedCell st) as [[row col]|] eqn:Hs; [|exact Hsame].
  destruct (toUpperCase letter) as [|upperLetter [|]]; try exact Hsame.
  destruct (isUpperAZ upperLetter); [|exact Hsame].
  destruct (enterLetter_safe size words st row col (Some upperLetter) Hboard Hsel Hs)
    as (board & st' & Hset & Hmove & Hgrid & _ & Hl & Hsel').
  rewrite Hset. rewrite Hs in Hmove. exists st'. split; [exact Hmove|].
  rewrite Hgrid. auto.
Qed.

Lemma giveHint_safe size words st :
  openBoard size words (sv_grid st) -> selectedOpen st ->
  exists st',
    giveHint size words st = Some st' /\
    sameLayout (sv_grid st) (sv_grid st') /\ selectedOpen st'.
Proof.
  intros Hboard Hsel. unfold giveHint.
  assert (Hsame : exists st', Some st = Some st' /\
                    sameLayout (sv_grid st) (sv_grid st') /\ selectedOpen st').
  { exists st. split; [reflexivity|]. split; [apply sameLayout_refl | exact Hsel]. }
  destruct (sv_selectedCell st) as [[row col]|] eqn:Hs; [|exact Hsame].
  destruct (Hsel row col Hs) as (cell & Hcell & _). rewrite Hcell.
  destruct (sc_answer cell) as [correctLetter|]; [|exact Hsame].
  destruct (enterLetter_safe size words st row col (Some correctLetter) Hboard Hsel Hs)
    as (board & st' & Hset & Hmove & Hgrid & _ & Hl & Hsel').
  rewrite Hset. rewrite Hs in Hmove. exists st'. split; [exact Hmove|].
  rewrite Hgrid. auto.
Qed.

Lemma handleBackspace_safe size words st :
  openBoard size words (sv_grid st) -> selectedOpen st ->
  exists st',
    handleBackspace words st = Some st' /\
    sameLayout (sv_grid st) (sv_grid st') /\ selectedOpen st'.
Proof.
  intros Hboard Hsel. unfold handleBackspace.
  destruct (sv_selectedCell st) as [[row col]|] eqn:Hs.
  - destruct (Hsel row col Hs) as (cell & Hcell & _). rewrite Hcell.
    destruct (sc_letter cell).
    + destruct (updateCell_is_Some (sv_grid st) row col (withLetter None))
        as [board Hset]; [eauto|].
      rewrite Hset. pose proof (updateCell_layout _ _ _ _ _ Hset) as Hl.
      eexists. split; [reflexivity|]. split; [exact Hl|].
      rewrite <- Hs. now apply selectedOpen_layout.
    + destruct (moveToPreviousCell_safe size words st Hboard Hsel)
        as (st' & Hmove & Hgrid & _ & Hsel').
      exists st'. split; [exact Hmove|]. rewrite Hgrid.
      split; [apply sameLayout_refl | exact Hsel'].
  - exists st. split; [reflexivity|]. split; [apply sameLayout_refl | exact Hsel].
Qed.

(** *** Reveal and Check Word *)

Lemma revealLetters_spec direction row col letters : forall i board,
  (forall k, (k < length letters)%nat ->
     is_Some (boardCell board (cellRow direction row (i + Z.of_nat k))
                              (cellCol direction col (i + Z.of_nat k)))) ->
  exists board',
    revealLetters board direction row col i letters = Some board' /\
    (forall k ch, letters !! k = Some ch ->
       boardCell board' (cellRow direction row (i + Z.of_nat k))
                        (cellCol direction col (i + Z.of_nat k))
       = withLetter (Some ch)
         <$> boardCell board (cellRow direction row (i + Z.of_nat k))
                             (cellCol direction col (i + Z.of_nat k))) /\
    (forall r c,
       (forall k, (k < length letters)%nat ->
          ~ (r = cellRow direction row (i + Z.of_nat k) /\
             c = cellCol direction col (i + Z.of_nat k))) ->
       boardCell board' r c = boardCell board r c) /\
    sameLayout board board'.
Proof.
  induction letters as [|ch rest IH]; intros i board Hin.
  - exists board. simpl. split; [reflexivity|]. split; [intros k c Hk; discriminate|].
    split; [reflexivity | apply sameLayout_refl].
  - assert (Hshift : forall k, i + Z.of_nat (S k) = i + 1 + Z.of_nat k) by (intros; lia).
    pose proof (Hin 0%nat ltac:(simpl; lia)) as Hsome. rewrite Z.add_0_r in Hsome.
    cbn [revealLetters].
    destruct (updateCell_is_Some board _ _ (withLetter (Some ch)) Hsome) as [board1 Hset].
    rewrite Hset.
    pose proof (updateCell_cells _ _ _ _ _ Hset) as Hcells.
    destruct (IH (i + 1) board1) as (board' & Hreveal & Hnew & Hold & Hl).
    { intros k Hk. rewrite <- Hshift.
      pose proof (Hin (S k) ltac:(simpl; lia)) as Hsome'.
      rewrite Hcells. case_decide; [|exact Hsome'].
      destruct Hsome' as [x ->]. now eexists. }
    exists board'. split; [exact Hreveal|]. split; [|split].
    + intros [|k] c Hk; simpl in Hk.
      * injection Hk as <-. rewrite Z.add_0_r.
        rewrite Hold.
        -- rewrite Hcells. case_decide; [reflexivity | tauto].
        -- intros k _ [Hr' Hc'].
           pose proof (cell_inj _ _ _ _ _ Hr' Hc'). lia.
      * rewrite Hshift. rewrite (Hnew k c Hk). rewrite Hcells.
        case_decide as Heq; [|reflexivity].
        destruct Heq as [Hr' Hc']. pose proof (cell_inj _ _ _ _ _ Hr' Hc'). lia.
    + intros r c Hout. rewrite Hold.
      * rewrite Hcells. case_decide as Heq; [|reflexivity].
        exfalso. apply (Hout 0%nat); [simpl; lia|]. now rewrite Z.add_0_r.
      * intros k Hk Hrc. apply (Hout (S k)); [simpl; lia|]. now rewrite Hshift.
    + eapply sameLayout_trans; [|exact Hl]. exact (updateCell_layout _ _ _ _ _ Hset).
Qed.

Lemma lettersCorrect_is_Some board direction row col letters : forall i,
  (forall k, (k < length letters)%nat ->
     is_Some (boardCell board (cellRow direction row (i + Z.of_nat k))
                              (cellCol direction col (i + Z.of_nat k)))) ->
  is_Some (lettersCorrect board direction row col i letters).
Proof.
  induction letters as [|ch rest IH]; intros i Hin; simpl; [eauto|].
  destruct (Hin 0%nat ltac:(simpl; lia)) as [cell Hcell]. rewrite Z.add_0_r in Hcell.
  rewrite Hcell. case_bool_decide; [|eauto].
  apply IH. intros k Hk.
  replace (i + 1 + Z.of_nat k) with (i + Z.of_nat (S k)) by lia.
  apply Hin. simpl. lia.
Qed.

(** The loop of [checkWord] answers [true] exactly when every cell of
    the word holds the letter of the answer. *)
Lemma lettersCorrect_true board direction row col letters : forall i,
  lettersCorrect board direction row col i letters = Some true <->
  forall k ch, letters !! k = Some ch ->
    exists cell,
      boardCell board (cellRow direction row (i + Z.of_nat k))
                      (cellCol direction col (i + Z.of_nat k)) = Some cell /\
      sc_letter cell = Some ch.
Proof.
  induction letters as [|ch rest IH]; intros i; simpl.
  - split; [intros _ k c Hk; discriminate | reflexivity].
  - assert (Hshift : forall k, i + Z.of_nat (S k) = i + 1 + Z.of_nat k) by (intros; lia).
    split.
    + intros H.
      destruct (boardCell board (cellRow direction row i) (cellCol direction col i))
        as [cell|] eqn:Hcell; [|discriminate].
      case_bool_decide as Hletter; [|discriminate].
      intros [|k] c Hk; simpl in Hk.
      * injection Hk as <-. rewrite Z.add_0_r. eauto.
      * rewrite Hshift. now apply (proj1 (IH (i + 1)) H).
    + intros Hall.
      destruct (Hall 0%nat ch eq_refl) as (cell & Hcell & Hletter).
      rewrite Z.add_0_r in Hcell. rewrite Hcell.
      case_bool_decide; [|contradiction].
      apply IH. intros k c Hk. rewrite <- Hshift. now apply (Hall (S k)).
Qed.

Lemma checkWord_safe size words st :
  openBoard size words (sv_grid st) -> is_Some (checkWord words st).
Proof.
  intros Hboard. unfold checkWord.
  destruct (sv_selectedCell st) as [[row col]|] eqn:Hs; [|eauto].
  destruct (getCurrentWord words st) as [w|] eqn:Hcur; [|eauto].
  destruct (lettersCorrect_is_Some (sv_grid st) (sv_direction st)
              (pw_startRow w) (pw_startCol w) (pw_answer w) 0) as [b Hb].
  { intros k Hk. rewrite Z.add_0_l.
    destruct (currentWord_cell size words st w k Hboard Hcur Hk) as (cell & Hcell & _).
    eauto. }
  rewrite Hb. eauto.
Qed.

Lemma revealWord_fills size words st w :
  openBoard size words (sv_grid st) ->
  getCurrentWord words st = Some w ->
  exists st',
    revealWord words st = Some st' /\
    sv_selectedCell st' = sv_selectedCell st /\
    sv_direction st' = sv_direction st /\
    sameLayout (sv_grid st) (sv_grid st') /\
    (forall k ch, pw_answer w !! k = Some ch ->
       exists cell,
         boardCell (sv_grid st')
           (cellRow (sv_direction st) (pw_startRow w) (Z.of_nat k))
           (cellCol (sv_direction st) (pw_startCol w) (Z.of_nat k)) = Some cell /\
         sc_letter cell = Some ch) /\
    (forall r c,
       (forall k, (k < length (pw_answer w))%nat ->
          ~ spanCell (pw_startRow w) (pw_startCol w) (sv_direction st) k r c) ->
       boardCell (sv_grid st') r c = boardCell (sv_grid st) r c) /\
    checkWord words st' = Some AlertCorrect.
Proof.
  intros Hboard Hcur. unfold revealWord.
  pose proof Hcur as Hcur'.
  apply currentWord_covers in Hcur' as (row & col & Hs & _).
  rewrite Hs, Hcur.
  destruct (revealLetters_spec (sv_direction st) (pw_startRow w) (pw_startCol w)
              (pw_answer w) 0 (sv_grid st)) as (board & Hreveal & Hnew & Hold & Hl).
  { intros k Hk. rewrite Z.add_0_l.
    destruct (currentWord_cell size words st w k Hboard Hcur Hk) as (cell & Hcell & _).
    eauto. }
  rewrite Hreveal. eexists. split; [reflexivity|].
  cbn [sv_grid sv_selectedCell sv_direction].
  split; [reflexivity|]. split; [reflexivity|]. split; [exact Hl|].
  assert (Hfilled : forall k ch, pw_answer w !! k = Some ch ->
            exists cell,
              boardCell board
                (cellRow (sv_direction st) (pw_startRow w) (0 + Z.of_nat k))
                (cellCol (sv_direction st) (pw_startCol w) (0 + Z.of_nat k)) = Some cell /\
              sc_letter cell = Some ch).
  { intros k ch Hk. rewrite (Hnew k ch Hk). rewrite Z.add_0_l.
    destruct (currentWord_cell size words st w k Hboard Hcur) as (cell & Hcell & _).
    { now apply lookup_lt_Some in Hk. }
    rewrite Hcell. now eexists. }
  split; [|split].
  - intros k ch Hk. specialize (Hfilled k ch Hk). now rewrite Z.add_0_l in Hfilled.
  - intros r c Hout. apply Hold. intros k Hk. rewrite Z.add_0_l. apply (Hout k Hk).
  - unfold checkWord, getCurrentWord. cbn [sv_grid sv_selectedCell sv_direction].
    unfold getCurrentWord in Hcur. rewrite Hs in Hcur. rewrite Hcur.
    now rewrite (proj2 (lettersCorrect_true _ _ _ _ _ 0) Hfilled).
Qed.

Lemma revealWord_safe size words st :
  openBoard size words (sv_grid st) -> selectedOpen st ->
  exists st',
    revealWord words st = Some st' /\
    sameLayout (sv_grid st) (sv_grid st') /\ selectedOpen st'.
Proof.
  intros Hboard Hsel.
  destruct (getCurrentWord words st) as [w|] eqn:Hcur.
  - destruct (revealWord_fills size words st w Hboard Hcur)
      as (st' & Hreveal & Hs & Hd & Hl & _).
    exists st'. split; [exact Hreveal|]. split; [exact Hl|].
    intros row col Hrc. rewrite Hs in Hrc.
    destruct (Hsel row col Hrc) as (cell1 & H1 & Hblack).
    destruct (layout_cell _ _ _ _ _ Hl H1) as (cell2 & H2 & Hb & _).
    exists cell2. split; [exact H2 | congruence].
  - exists st. unfold revealWord. rewrite Hcur.
    split; [now destruct (sv_selectedCell st)|].
    split; [apply sameLayout_refl | exact Hsel].
Qed.

(** *** Every event *)

Lemma handleEvent_safe size words st e :
  openBoard size words (sv_grid st) -> selectedOpen st -> onBoard size e ->
  exists st',
    handleEvent size words st e = Some st' /\
    sameLayout (sv_grid st) (sv_grid st') /\ selectedOpen st'.
Proof.
  intros Hboard Hsel He. destruct e as [row col|letter| | | |]; cbn [handleEvent].
  - destruct (handleCellPress_safe size words st row col Hboard Hsel He)
      as (st' & Hpress & Hgrid & Hsel').
    exists st'. split; [exact Hpress|]. rewrite Hgrid.
    split; [apply sameLayout_refl | exact Hsel'].
  - now apply handleLetterInput_safe.
  - now apply (handleBackspace_safe size).
  - destruct (checkWord_safe size words st Hboard) as [outcome ->].
    exists st. split; [reflexivity|]. split; [apply sameLayout_refl | exact Hsel].
  - now apply giveHint_safe.
  - now apply (revealWord_safe size).
Qed.

Lemma handleEvents_safe size words events : forall st,
  openBoard size words (sv_grid st) -> selectedOpen st ->
  Forall (onBoard size) events ->
  exists st',
    foldM (handleEvent size words) st events = Some st' /\
    sameLayout (sv_grid st) (sv_grid st') /\
    openBoard size words (sv_grid st') /\ selectedOpen st'.
Proof.
  induction events as [|e rest IH]; intros st Hboard Hsel Hall.
  - exists st. split; [reflexivity|]. split; [apply sameLayout_refl|]. auto.
  - apply Forall_cons in Hall as [He Hrest].
    destruct (handleEvent_safe size words st e Hboard Hsel He) as (st1 & Hstep & Hl & Hsel1).
    destruct (IH st1 (openBoard_layout _ _ _ _ Hl Hboard) Hsel1 Hrest)
      as (st' & Hrun & Hl' & Hboard' & Hsel').
    exists st'. cbn [foldM]. rewrite Hstep. split; [exact Hrun|].
    split; [exact (sameLayout_trans _ _ _ Hl Hl')|]. auto.
Qed.

Lemma boardFor_open size g words board :
  boardFor size g words board ->
  (forall r c, covered words r c -> inArea size r c) ->
  openBoard size words board.
Proof.
  intros [Hshape Hcells] Harea. split; [exact Hshape|].
  intros r c Hc.
  destruct (proj2 (Hshape r c) (Harea r c Hc)) as [cell Hcell].
  exists cell. split; [exact Hcell|].
  destruct (Hcells r c cell Hcell) as (_ & Hcov & _). now apply Hcov.
Qed.

(** ** The component on a generated puzzle *)

Lemma generateCrossword_upper wordInputs options p w :
  generateCrossword wordInputs options = Some (Some p) ->
  In w (pg_words p) -> forallb isUpperAZ (pw_answer w) = true.
Proof.
  intros H Hw.
  destruct (generateCrossword_entries wordInputs options p H)
    as (firstWord & others & kept & Hsort & Hsub & Hperm & _ & Hanswer).
  rewrite Forall_forall in Hanswer.
  rewrite (Hanswer w (proj2 (list_elem_of_In _ _) Hw)).
  assert (Hin : In (entryOfPlaced w) (firstWord :: kept)).
  { apply list_elem_of_In. rewrite <- Hperm. apply list_elem_of_In. now apply in_map. }
  assert (Hin' : In (entryOfPlaced w) (sortWords (normalizeWords wordInputs))).
  { rewrite Hsort. destruct Hin as [<-|Hin]; [now left | right].
    apply list_elem_of_In. eapply elem_of_sublist; [|exact Hsub]. now apply list_elem_of_In. }
  now apply sortWords_accepted, acceptedWord_letters in Hin'.
Qed.

(** The board of the initial state is open on the words. *)
Lemma initialSolver_open wordInputs options p st0 :
  generateCrossword wordInputs options = Some (Some p) ->
  initialSolver (pg_size p) (pg_words p) = Some st0 ->
  boardFor (pg_size p) (pg_grid p) (pg_words p) (sv_grid st0) /\
  openBoard (pg_size p) (pg_words p) (sv_grid st0) /\
  sv_selectedCell st0 = None /\ sv_direction st0 = across.
Proof.
  intros H Hinit. unfold initialSolver in Hinit.
  destruct (initializeGrid_board wordInputs options p H) as (board & Hboard & Hfor).
  rewrite Hboard in Hinit. injection Hinit as <-. cbn [sv_grid sv_selectedCell sv_direction].
  split; [exact Hfor|]. split; [|auto].
  apply (boardFor_open _ (pg_grid p)); [exact Hfor|].
  intros r c (w & k & Hw & Hk & Hr & Hc).
  destruct (generateCrossword_holds wordInputs options p H) as [Hsq Hholds].
  rewrite Forall_forall in Hholds.
  destruct (lookup_lt_is_Some_2 _ _ Hk) as [ch Hch].
  pose proof (Hholds w (proj2 (list_elem_of_In _ _) Hw) k ch Hch) as Hget.
  rewrite Hr, Hc. exact (getCell_bounds _ _ _ _ _ Hsq Hget).
Qed.

(** The states that the component reaches on a generated puzzle. *)
Lemma reached_open wordInputs options p st0 events st :
  generateCrossword wordInputs options = Some (Some p) ->
  initialSolver (pg_size p) (pg_words p) = Some st0 ->
  Forall (onBoard (pg_size p)) events ->
  foldM (handleEvent (pg_size p) (pg_words p)) st0 events = Some st ->
  sameLayout (sv_grid st0) (sv_grid st) /\
  openBoard (pg_size p) (pg_words p) (sv_grid st) /\ selectedOpen st.
Proof.
  intros H Hinit Hevents Hrun.
  destruct (initialSolver_open wordInputs options p st0 H Hinit) as (_ & Hopen & Hs & _).
  destruct (handleEvents_safe (pg_size p) (pg_words p) events st0 Hopen)
    as (st' & Hrun' & Hl & Hopen' & Hsel'); [|exact Hevents|].
  - intros row col Hrc. rewrite Hs in Hrc. discriminate.
  - assert (st' = st) by congruence. subst st'. auto.
Qed.

Lemma events_never_throw wordInputs options p events :
  generateCrossword wordInputs options = Some (Some p) ->
  Forall (onBoard (pg_size p)) events ->
  exists st0 st,
    initialSolver (pg_size p) (pg_words p) = Some st0 /\
    foldM (handleEvent (pg_size p) (pg_words p)) st0 events = Some st /\
    sameLayout (sv_grid st0) (sv_grid st) /\
    selectedOpen st.
Proof.
  intros H Hevents.
  destruct (initializeGrid_board wordInputs options p H) as (board & Hboard & Hfor).
  assert (Hinit : initialSolver (pg_size p) (pg_words p)
                  = Some {| sv_grid := board; sv_selectedCell := None;
                            sv_direction := across |})
    by (unfold initialSolver; now rewrite Hboard).
  destruct (initialSolver_open wordInputs options p _ H Hinit) as (_ & Hopen & Hs & _).
  destruct (handleEvents_safe (pg_size p) (pg_words p) events _ Hopen)
    as (st & Hrun & Hl & _ & Hsel); [|exact Hevents|].
  - intros row col Hrc. discriminate.
  - eauto 6.
Qed.

(** On a generated puzzle the component starts, and no sequence of
    presses on cells of the board, typed letters, Backspace keys and
    button presses makes a handler fail; the handlers change entered
    letters only (the answers, the numbers and the blocked cells stay as
    initialised), and the selected cell is always an open cell of the
    board. *)
Theorem handleEvent_safe_on_generated wordInputs options p events :
  generateCrossword wordInputs options = Some (Some p) ->
  Forall (onBoard (pg_size p)) events ->
  exists st0 st,
    initialSolver (pg_size p) (pg_words p) = Some st0 /\
    foldM (handleEvent (pg_size p) (pg_words p)) st0 events = Some st /\
    sameLayout (sv_grid st0) (sv_grid st) /\
    selectedOpen st.
Proof. apply events_never_throw. Qed.

Lemma handleEvent_safe_on_generated_witness :
  exists st0 st,
    initialSolver (pg_size puzzleAB) (pg_words puzzleAB) = Some st0 /\
    foldM (handleEvent (pg_size puzzleAB) (pg_words puzzleAB)) st0
      [Press 0 0; TypeLetter (str "a"); Backspace; Reveal; CheckWord; Hint; Press 1 1]
    = Some st /\
    sameLayout (sv_grid st0) (sv_grid st) /\
    selectedOpen st.
Proof.
  apply (handleEvent_safe_on_generated inputAB defaultOptions puzzleAB).
  - vm_compute. reflexivity.
  - repeat constructor; unfold inArea; simpl; lia.
Defined.

(** *** Reveal *)

(** In every state reached on a generated puzzle, Reveal writes the
    answer of the current word on the cells of the word, changes no
    other cell and keeps the selection; Check Word then reports that the
    word is correct. *)
Theorem revealWord_correct wordInputs options p st0 events st w :
  generateCrossword wordInputs options = Some (Some p) ->
  initialSolver (pg_size p) (pg_words p) = Some st0 ->
  Forall (onBoard (pg_size p)) events ->
  foldM (handleEvent (pg_size p) (pg_words p)) st0 events = Some st ->
  getCurrentWord (pg_words p) st = Some w ->
  exists st',
    revealWord (pg_words p) st = Some st' /\
    sv_selectedCell st' = sv_selectedCell st /\
    sv_direction st' = sv_direction st /\
    sameLayout (sv_grid st) (sv_grid st') /\
    (forall k ch, pw_answer w !! k = Some ch ->
       exists cell,
         boardCell (sv_grid st')
           (cellRow (sv_direction st) (pw_startRow w) (Z.of_nat k))
           (cellCol (sv_direction st) (pw_startCol w) (Z.of_nat k)) = Some cell /\
         sc_letter cell = Some ch) /\
    (forall r c,
       (forall k, (k < length (pw_answer w))%nat ->
          ~ spanCell (pw_startRow w) (pw_startCol w) (sv_direction st) k r c) ->
       boardCell (sv_grid st') r c = boardCell (sv_grid st) r c) /\
    checkWord (pg_words p) st' = Some AlertCorrect.
Proof.
  intros H Hinit Hevents Hrun Hcur.
  destruct (reached_open wordInputs options p st0 events st H Hinit Hevents Hrun)
    as (_ & Hopen & _).
  exact (revealWord_fills (pg_size p) (pg_words p) st w Hopen Hcur).
Qed.

Lemma revealWord_correct_witness :
  exists st',
    revealWord (pg_words puzzleAB) selectedAB = Some st' /\
    sv_selectedCell st' = sv_selectedCell selectedAB /\
    sv_direction st' = sv_direction selectedAB /\
    sameLayout (sv_grid selectedAB) (sv_grid st') /\
    (forall k ch, pw_answer wordAB !! k = Some ch ->
       exists cell,
         boardCell (sv_grid st')
           (cellRow (sv_direction selectedAB) (pw_startRow wordAB) (Z.of_nat k))
           (cellCol (sv_direction selectedAB) (pw_startCol wordAB) (Z.of_nat k)) = Some cell /\
         sc_letter cell = Some ch) /\
    (forall r c,
       (forall k, (k < length (pw_answer wordAB))%nat ->
          ~ spanCell (pw_startRow wordAB) (pw_startCol wordAB) (sv_direction selectedAB) k r c) ->
       boardCell (sv_grid st') r c = boardCell (sv_grid selectedAB) r c) /\
    checkWord (pg_words puzzleAB) st' = Some AlertCorrect.
Proof.
  apply (revealWord_correct inputAB defaultOptions puzzleAB solverAB [Press 0 0]
           selectedAB wordAB).
  - vm_compute. reflexivity.
  - vm_compute. reflexivity.
  - repeat constructor; unfold inArea; simpl; lia.
  - vm_compute. reflexivity.
  - vm_compute. reflexivity.
Defined.

(** *** Typing an answer *)

Lemma currentWord_same wordInputs options p st w k :
  generateCrossword wordInputs options = Some (Some p) ->
  In w (pg_words p) -> (k < length (pw_answer w))%nat ->
  sv_selectedCell st
  = Some (cellRow (pw_direction w) (pw_startRow w) (Z.of_nat k),
          cellCol (pw_direction w) (pw_startCol w) (Z.of_nat k)) ->
  sv_direction st = pw_direction w ->
  exists w',
    getCurrentWord (pg_words p) st = Some w' /\
    pw_startRow w' = pw_startRow w /\ pw_startCol w' = pw_startCol w /\
    pw_answer w' = pw_answer w.
Proof.
  intros H Hw Hk Hs Hd. unfold getCurrentWord. rewrite Hs, Hd.
  destruct (List.find _ (pg_words p)) as [w'|] eqn:Hfind.
  - exists w'. split; [reflexivity|].
    apply find_some in Hfind as [Hw' Hc].
    apply coversCell_true in Hc as [Hdir (k' & Hk' & Hr & Hc)].
    destruct (generateCrossword_overlap wordInputs options p w' w k' k H Hw' Hw Hdir Hk' Hk)
      as (Hstart & Hanswer & _); [now rewrite <- Hr | now rewrite <- Hc|].
    unfold startOf in Hstart. injection Hstart as Hrow Hcol. auto.
  - exfalso. pose proof (find_none _ _ Hfind w Hw) as Hnot.
    assert (Hyes : coversCell (pw_direction w)
                     (cellRow (pw_direction w) (pw_startRow w) (Z.of_nat k))
                     (cellCol (pw_direction w) (pw_startCol w) (Z.of_nat k)) w = true).
    { apply coversCell_true. split; [reflexivity|]. exists k. split; [exact Hk|].
      split; reflexivity. }
    congruence.
Qed.

(** One key press on letter [k] of a word whose direction is selected. *)
Lemma type_step wordInputs options p st w k ch :
  generateCrossword wordInputs options = Some (Some p) ->
  In w (pg_words p) ->
  openBoard (pg_size p) (pg_words p) (sv_grid st) ->
  sv_selectedCell st
  = Some (cellRow (pw_direction w) (pw_startRow w) (Z.of_nat k),
          cellCol (pw_direction w) (pw_startCol w) (Z.of_nat k)) ->
  sv_direction st = pw_direction w ->
  pw_answer w !! k = Some (upperChar ch) ->
  exists st',
    handleLetterInput (pg_size p) (pg_words p) [ch] st = Some st' /\
    sv_direction st' = pw_direction w /\
    sv_selectedCell st'
    = Some (cellRow (pw_direction w) (pw_startRow w)
              (Z.of_nat (if decide (S k < length (pw_answer w))%nat then S k else k)),
            cellCol (pw_direction w) (pw_startCol w)
              (Z.of_nat (if decide (S k < length (pw_answer w))%nat then S k else k))) /\
    sameLayout (sv_grid st) (sv_grid st') /\
    forall r c,
      boardCell (sv_grid st') r c
      = if decide (r = cellRow (pw_direction w) (pw_startRow w) (Z.of_nat k) /\
                   c = cellCol (pw_direction w) (pw_startCol w) (Z.of_nat k))
        then withLetter (Some (upperChar ch)) <$> boardCell (sv_grid st) r c
        else boardCell (sv_grid st) r c.
Proof.
  intros H Hw Hopen Hs Hd Hk.
  pose proof (generateCrossword_upper _ _ _ w H Hw) as Hupper.
  rewrite forallb_forall in Hupper.
  assert (Hletter : isUpperAZ (upperChar ch) = true).
  { apply Hupper. apply list_elem_of_In. eapply list_elem_of_lookup_2. exact Hk. }
  pose proof (lookup_lt_Some _ _ _ Hk) as Hlt.
  unfold handleLetterInput. rewrite Hs. cbn [toUpperCase map]. rewrite Hletter.
  destruct Hopen as [Hshape Hcov].
  assert (Hcell : forall j, (j < length (pw_answer w))%nat ->
            covered (pg_words p)
              (cellRow (pw_direction w) (pw_startRow w) (Z.of_nat j))
              (cellCol (pw_direction w) (pw_startCol w) (Z.of_nat j))).
  { intros j Hj. exists w, j. split; [exact Hw|]. split; [exact Hj|]. split; reflexivity. }
  destruct (Hcov _ _ (Hcell k Hlt)) as (cell & Hget & _).
  destruct (updateCell_is_Some (sv_grid st) _ _ (withLetter (Some (upperChar ch)))
              (ex_intro _ cell Hget)) as [board Hset].
  rewrite Hset.
  pose proof (updateCell_layout _ _ _ _ _ Hset) as Hl.
  pose proof (updateCell_cells _ _ _ _ _ Hset) as Hcells.
  destruct (openBoard_layout _ _ _ _ Hl (conj Hshape Hcov)) as [Hshape' Hcov'].
  destruct (currentWord_same wordInputs options p
              {| sv_grid := board;
                 sv_selectedCell :=
                   Some (cellRow (pw_direction w) (pw_startRow w) (Z.of_nat k),
                         cellCol (pw_direction w) (pw_startCol w) (Z.of_nat k));
                 sv_direction := sv_direction st |} w k H Hw Hlt eq_refl Hd)
    as (w' & Hcur & Hrow & Hcol & Hanswer).
  unfold moveToNextCell. cbn [sv_selectedCell]. rewrite Hcur.
  cbn [sv_direction sv_grid]. rewrite Hd, Hrow, Hcol, Hanswer.
  case_decide as Hnext.
  - destruct (Hcov' _ _ (Hcell (S k) Hnext)) as (cell' & Hget' & Hblack').
    assert (Harea : inArea (pg_size p)
                      (cellRow (pw_direction w) (pw_startRow w) (Z.of_nat (S k)))
                      (cellCol (pw_direction w) (pw_startCol w) (Z.of_nat (S k))))
      by (apply Hshape'; eauto).
    destruct Harea as [Hr Hc].
    destruct (pw_direction w); cbn [cellRow cellCol] in *.
    + destruct (Z.leb_spec (pw_startCol w + Z.of_nat (length (pw_answer w)))
                  (pw_startCol w + Z.of_nat k + 1)); [lia|].
      destruct (Z.ltb_spec (pw_startRow w) (pg_size p)); [|lia].
      destruct (Z.ltb_spec (pw_startCol w + Z.of_nat k + 1) (pg_size p)); [|lia].
      cbn [andb].
      replace (pw_startCol w + Z.of_nat k + 1) with (pw_startCol w + Z.of_nat (S k)) by lia.
      rewrite Hget', Hblack'. cbn [negb]. eexists. split; [reflexivity|].
      cbn [sv_grid sv_selectedCell sv_direction]. auto.
    + destruct (Z.leb_spec (pw_startRow w + Z.of_nat (length (pw_answer w)))
                  (pw_startRow w + Z.of_nat k + 1)); [lia|].
      destruct (Z.ltb_spec (pw_startRow w + Z.of_nat k + 1) (pg_size p)); [|lia].
      destruct (Z.ltb_spec (pw_startCol w) (pg_size p)); [|lia].
      cbn [andb].
      replace (pw_startRow w + Z.of_nat k + 1) with (pw_startRow w + Z.of_nat (S k)) by lia.
      rewrite Hget', Hblack'. cbn [negb]. eexists. split; [reflexivity|].
      cbn [sv_grid sv_selectedCell sv_direction]. auto.
  - destruct (pw_direction w); cbn [cellRow cellCol] in *.
    + destruct (Z.leb_spec (pw_startCol w + Z.of_nat (length (pw_answer w)))
                  (pw_startCol w + Z.of_nat k + 1)); [|lia].
      eexists. split; [reflexivity|].
      cbn [sv_grid sv_selectedCell sv_direction]. auto.
    + destruct (Z.leb_spec (pw_startRow w + Z.of_nat (length (pw_answer w)))
                  (pw_startRow w + Z.of_nat k + 1)); [|lia].
      eexists. split; [reflexivity|].
      cbn [sv_grid sv_selectedCell sv_direction]. auto.
Qed.

Lemma drop_head {A} (l : list A) k x xs :
  drop k l = x :: xs -> l !! k = Some x /\ drop (S k) l = xs.
Proof.
  intros H.
  assert (Hx : l !! k = Some x).
  { replace k with (k + 0)%nat by lia. rewrite <- lookup_drop, H. reflexivity. }
  split; [exact Hx|]. rewrite (drop_S _ _ _ Hx) in H. now injection H.
Qed.

(** Typing the rest of an answer from letter [k] on. *)
Lemma type_run wordInputs options p w typed : forall k st,
  generateCrossword wordInputs options = Some (Some p) ->
  In w (pg_words p) ->
  openBoard (pg_size p) (pg_words p) (sv_grid st) ->
  sv_selectedCell st
  = Some (cellRow (pw_direction w) (pw_startRow w) (Z.of_nat k),
          cellCol (pw_direction w) (pw_startCol w) (Z.of_nat k)) ->
  sv_direction st = pw_direction w ->
  typed <> [] ->
  map upperChar typed = drop k (pw_answer w) ->
  exists st',
    typeLetters (pg_size p) (pg_words p) st typed = Some st' /\
    sv_direction st' = pw_direction w /\
    sv_selectedCell st'
    = Some (cellRow (pw_direction w) (pw_startRow w)
              (Z.of_nat (length (pw_answer w) - 1)),
            cellCol (pw_direction w) (pw_startCol w)
              (Z.of_nat (length (pw_answer w) - 1))) /\
    sameLayout (sv_grid st) (sv_grid st') /\
    (forall j ch, (k <= j)%nat -> pw_answer w !! j = Some ch ->
       exists cell,
         boardCell (sv_grid st')
           (cellRow (pw_direction w) (pw_startRow w) (Z.of_nat j))
           (cellCol (pw_direction w) (pw_startCol w) (Z.of_nat j)) = Some cell /\
         sc_letter cell = Some ch) /\
    (forall r c,
       (forall j, (k <= j < length (pw_answer w))%nat ->
          ~ spanCell (pw_startRow w) (pw_startCol w) (pw_direction w) j r c) ->
       boardCell (sv_grid st') r c = boardCell (sv_grid st) r c).
Proof.
  induction typed as [|ch rest IH]; intros k st H Hw Hopen Hs Hd Hne Hmap;
    [contradiction|].
  cbn [map] in Hmap. symmetry in Hmap.
  pose proof (f_equal length Hmap) as Hlen.
  rewrite length_drop in Hlen. cbn [length] in Hlen. rewrite length_map in Hlen.
  apply drop_head in Hmap as [Hk Hrest].
  destruct (type_step wordInputs options p st w k ch H Hw Hopen Hs Hd Hk)
    as (st1 & Hstep & Hd1 & Hs1 & Hl1 & Hcells1).
  assert (Hcellk : exists cell,
            boardCell (sv_grid st1)
              (cellRow (pw_direction w) (pw_startRow w) (Z.of_nat k))
              (cellCol (pw_direction w) (pw_startCol w) (Z.of_nat k)) = Some cell /\
            sc_letter cell = Some (upperChar ch)).
  { rewrite Hcells1. rewrite decide_True by (split; reflexivity).
    destruct Hopen as [_ Hcov].
    destruct (Hcov (cellRow (pw_direction w) (pw_startRow w) (Z.of_nat k))
                   (cellCol (pw_direction w) (pw_startCol w) (Z.of_nat k)))
      as (cell & Hcell & _).
    { exists w, k. split; [exact Hw|]. split; [lia|]. split; reflexivity. }
    rewrite Hcell. now eexists. }
  unfold typeLetters. cbn [foldM]. rewrite Hstep.
  destruct rest as [|ch2 rest'].
  - cbn [length] in Hlen. case_decide as Hnext; [lia|].
    assert (Hlast : (length (pw_answer w) - 1)%nat = k) by lia.
    exists st1. cbn [foldM]. split; [reflexivity|]. split; [exact Hd1|].
    split; [now rewrite Hlast|]. split; [exact Hl1|]. split.
    + intros j c Hj Hc. pose proof (lookup_lt_Some _ _ _ Hc).
      assert (j = k) by lia. subst j. assert (c = upperChar ch) by congruence. subst c.
      exact Hcellk.
    + intros r c Hout. rewrite Hcells1. case_decide as Heq; [|reflexivity].
      exfalso. apply (Hout k); [lia|]. exact Heq.
  - cbn [length] in Hlen. case_decide as Hnext; [|lia].
    destruct (IH (S k) st1 H Hw (openBoard_layout _ _ _ _ Hl1 Hopen) Hs1 Hd1)
      as (st' & Hrun & Hd' & Hs' & Hl' & Hnew & Hold); [discriminate | now symmetry|].
    exists st'. split; [exact Hrun|]. split; [exact Hd'|]. split; [exact Hs'|].
    split; [exact (sameLayout_trans _ _ _ Hl1 Hl')|]. split.
    + intros j c Hj Hc.
      destruct (decide (j = k)) as [->|Hjk].
      * assert (c = upperChar ch) by congruence. subst c.
        rewrite Hold; [exact Hcellk|].
        intros j [Hj1 Hj2] [Hr' Hc'].
        pose proof (cell_inj _ _ _ _ _ Hr' Hc'). lia.
      * apply Hnew; [lia | exact Hc].
    + intros r c Hout. rewrite Hold.
      * rewrite Hcells1. case_decide as Heq; [|reflexivity].
        exfalso. apply (Hout k); [lia|]. exact Heq.
      * intros j Hj. apply Hout. lia.
Qed.

Lemma typeLetters_fills wordInputs options p st0 events st w typed :
  generateCrossword wordInputs options = Some (Some p) ->
  initialSolver (pg_size p) (pg_words p) = Some st0 ->
  Forall (onBoard (pg_size p)) events ->
  foldM (handleEvent (pg_size p) (pg_words p)) st0 events = Some st ->
  In w (pg_words p) ->
  sv_selectedCell st = Some (startOf w) ->
  sv_direction st = pw_direction w ->
  map upperChar typed = pw_answer w ->
  exists st',
    typeLetters (pg_size p) (pg_words p) st typed = Some st' /\
    sv_direction st' = pw_direction w /\
    sv_selectedCell st'
    = Some (cellRow (pw_direction w) (pw_startRow w)
              (Z.of_nat (length (pw_answer w) - 1)),
            cellCol (pw_direction w) (pw_startCol w)
              (Z.of_nat (length (pw_answer w) - 1))) /\
    sameLayout (sv_grid st) (sv_grid st') /\
    (forall k ch, pw_answer w !! k = Some ch ->
       exists cell,
         boardCell (sv_grid st')
           (cellRow (pw_direction w) (pw_startRow w) (Z.of_nat k))
           (cellCol (pw_direction w) (pw_startCol w) (Z.of_nat k)) = Some cell /\
         sc_letter cell = Some ch) /\
    (forall r c,
       (forall k, (k < length (pw_answer w))%nat ->
          ~ spanCell (pw_startRow w) (pw_startCol w) (pw_direction w) k r c) ->
       boardCell (sv_grid st') r c = boardCell (sv_grid st) r c) /\
    checkWord (pg_words p) st' = Some AlertCorrect.
Proof.
  intros H Hinit Hevents Hrun Hw Hs Hd Hmap.
  destruct (reached_open wordInputs options p st0 events st H Hinit Hevents Hrun)
    as (_ & Hopen & _).
  pose proof (generateCrossword_answers _ _ _ w H Hw) as Hlong.
  assert (Hstart : startOf w
                   = (cellRow (pw_direction w) (pw_startRow w) (Z.of_nat 0),
                      cellCol (pw_direction w) (pw_startCol w) (Z.of_nat 0))).
  { unfold startOf. destruct (pw_direction w); simpl; f_equal; lia. }
  rewrite Hstart in Hs.
  destruct (type_run wordInputs options p w typed 0%nat st H Hw Hopen Hs Hd)
    as (st' & Htype & Hd' & Hs' & Hl & Hnew & Hold).
  { intros ->. simpl in Hmap. rewrite <- Hmap in Hlong. simpl in Hlong. lia. }
  { exact Hmap. }
  exists st'. split; [exact Htype|]. split; [exact Hd'|]. split; [exact Hs'|].
  split; [exact Hl|].
  assert (Hcells : forall k ch, pw_answer w !! k = Some ch ->
            exists cell,
              boardCell (sv_grid st')
                (cellRow (pw_direction w) (pw_startRow w) (Z.of_nat k))
                (cellCol (pw_direction w) (pw_startCol w) (Z.of_nat k)) = Some cell /\
              sc_letter cell = Some ch)
    by (intros k ch Hk; apply Hnew; [lia | exact Hk]).
  split; [exact Hcells|]. split.
  - intros r c Hout. apply Hold. intros j Hj. apply Hout. lia.
  - destruct (currentWord_same wordInputs options p st' w (length (pw_answer w) - 1)
                H Hw ltac:(lia) Hs' Hd') as (w' & Hcur & Hrow & Hcol & Hanswer).
    unfold checkWord. rewrite Hs', Hcur, Hd', Hrow, Hcol, Hanswer.
    rewrite (proj2 (lettersCorrect_true _ _ _ _ _ 0)); [reflexivity|].
    intros k ch Hk. rewrite Z.add_0_l. now apply Hcells.
Qed.

(** In a state reached on a generated puzzle in which the first cell of
    a word is selected in the direction of the word, typing the letters
    of the answer, in upper or lower case, writes the answer on the cells
    of the word and changes no other cell; the selection ends on the last
    cell of the word, and Check Word reports that the word is correct. *)
Theorem typeLetters_correct wordInputs options p st0 events st w typed :
  generateCrossword wordInputs options = Some (Some p) ->
  initialSolver (pg_size p) (pg_words p) = Some st0 ->
  Forall (onBoard (pg_size p)) events ->
  foldM (handleEvent (pg_size p) (pg_words p)) st0 events = Some st ->
  In w (pg_words p) ->
  sv_selectedCell st = Some (startOf w) ->
  sv_direction st = pw_direction w ->
  map upperChar typed = pw_answer w ->
  exists st',
    typeLetters (pg_size p) (pg_words p) st typed = Some st' /\
    sv_direction st' = pw_direction w /\
    sv_selectedCell st'
    = Some (cellRow (pw_direction w) (pw_startRow w)
              (Z.of_nat (length (pw_answer w) - 1)),
            cellCol (pw_direction w) (pw_startCol w)
              (Z.of_nat (length (pw_answer w) - 1))) /\
    sameLayout (sv_grid st) (sv_grid st') /\
    (forall k ch, pw_answer w !! k = Some ch ->
       exists cell,
         boardCell (sv_grid st')
           (cellRow (pw_direction w) (pw_startRow w) (Z.of_nat k))
           (cellCol (pw_direction w) (pw_startCol w) (Z.of_nat k)) = Some cell /\
         sc_letter cell = Some ch) /\
    (forall r c,
       (forall k, (k < length (pw_answer w))%nat ->
          ~ spanCell (pw_startRow w) (pw_startCol w) (pw_direction w) k r c) ->
       boardCell (sv_grid st') r c = boardCell (sv_grid st) r c) /\
    checkWord (pg_words p) st' = Some AlertCorrect.
Proof. apply typeLetters_fills. Qed.

Lemma typeLetters_correct_witness :
  exists st',
    typeLetters (pg_size puzzleAB) (pg_words puzzleAB) selectedAB (str "ab") = Some st' /\
    sv_direction st' = pw_direction wordAB /\
    sv_selectedCell st'
    = Some (cellRow (pw_direction wordAB) (pw_startRow wordAB)
              (Z.of_nat (length (pw_answer wordAB) - 1)),
            cellCol (pw_direction wordAB) (pw_startCol wordAB)
              (Z.of_nat (length (pw_answer wordAB) - 1))) /\
    sameLayout (sv_grid selectedAB) (sv_grid st') /\
    (forall k ch, pw_answer wordAB !! k = Some ch ->
       exists cell,
         boardCell (sv_grid st')
           (cellRow (pw_direction wordAB) (pw_startRow wordAB) (Z.of_nat k))
           (cellCol (pw_direction wordAB) (pw_startCol wordAB) (Z.of_nat k)) = Some cell /\
         sc_letter cell = Some ch) /\
    (forall r c,
       (forall k, (k < length (pw_answer wordAB))%nat ->
          ~ spanCell (pw_startRow wordAB) (pw_startCol wordAB) (pw_direction wordAB) k r c) ->
       boardCell (sv_grid st') r c = boardCell (sv_grid selectedAB) r c) /\
    checkWord (pg_words puzzleAB) st' = Some AlertCorrect.
Proof.
  apply (typeLetters_correct inputAB defaultOptions puzzleAB solverAB [Press 0 0]
           selectedAB wordAB (str "ab")).
  - vm_compute. reflexivity.
  - vm_compute. reflexivity.
  - repeat constructor; unfold inArea; simpl; lia.
  - vm_compute. reflexivity.
  - left. reflexivity.
  - reflexivity.
  - reflexivity.
  - vm_compute. reflexivity.
Defined.

(** ** Completion *)

Lemma sameLayout_sym b1 b2 : sameLayout b1 b2 -> sameLayout b2 b1.
Proof. intros H r c. symmetry. apply H. Qed.

Lemma isComplete_cells board :
  isComplete board = true <->
  forall r c cell, boardCell board r c = Some cell -> cellDone cell = true.
Proof.
  unfold isComplete. rewrite forallb_forall. split.
  - intros Hall r c cell Hcell. unfold boardCell in Hcell.
    destruct ((0 <=? r) && (0 <=? c)); [|discriminate].
    destruct (board !! Z.to_nat r) as [cells|] eqn:Hrow; [|discriminate].
    assert (Hin : In cells board)
      by (apply list_elem_of_In; eapply list_elem_of_lookup_2; eauto).
    specialize (Hall cells Hin). rewrite forallb_forall in Hall. apply Hall.
    apply list_elem_of_In. eapply list_elem_of_lookup_2; eauto.
  - intros Hall cells Hin. apply forallb_forall. intros cell Hc.
    apply list_elem_of_In, list_elem_of_lookup in Hin as [i Hi].
    apply list_elem_of_In, list_elem_of_lookup in Hc as [j Hj].
    apply (Hall (Z.of_nat i) (Z.of_nat j)). unfold boardCell.
    destruct (Z.leb_spec 0 (Z.of_nat i)); [|lia].
    destruct (Z.leb_spec 0 (Z.of_nat j)); [|lia].
    cbn [andb]. now rewrite !Nat2Z.id, Hi.
Qed.

Lemma cellDone_true cell ch :
  sc_isBlack cell = false -> sc_answer cell = Some ch ->
  (cellDone cell = true <-> sc_letter cell = Some ch).
Proof.
  intros Hblack Hans. unfold cellDone. rewrite Hblack, Hans. cbn [orb].
  destruct (sc_letter cell) as [l|]; [|split; discriminate].
  now rewrite bool_decide_eq_true.
Qed.

Lemma isComplete_words wordInputs options p st0 events st :
  generateCrossword wordInputs options = Some (Some p) ->
  initialSolver (pg_size p) (pg_words p) = Some st0 ->
  Forall (onBoard (pg_size p)) events ->
  foldM (handleEvent (pg_size p) (pg_words p)) st0 events = Some st ->
  (isComplete (sv_grid st) = true <->
   forall w, In w (pg_words p) ->
     lettersCorrect (sv_grid st) (pw_direction w) (pw_startRow w) (pw_startCol w) 0
       (pw_answer w) = Some true).
Proof.
  intros H Hinit Hevents Hrun.
  destruct (reached_open wordInputs options p st0 events st H Hinit Hevents Hrun)
    as (Hl & _ & _).
  destruct (initialSolver_open wordInputs options p st0 H Hinit)
    as ([Hshape Hcells] & [_ Hopen] & _).
  destruct (generateCrossword_holds wordInputs options p H) as [_ Hholds].
  rewrite Forall_forall in Hholds.
  (* a cell of a word, in the reached state *)
  assert (Hword : forall w k ch, In w (pg_words p) -> pw_answer w !! k = Some ch ->
            exists cell,
              boardCell (sv_grid st)
                (cellRow (pw_direction w) (pw_startRow w) (Z.of_nat k))
                (cellCol (pw_direction w) (pw_startCol w) (Z.of_nat k)) = Some cell /\
              sc_isBlack cell = false /\ sc_answer cell = Some ch).
  { intros w k ch Hw Hk.
    assert (Hcov : covered (pg_words p)
                     (cellRow (pw_direction w) (pw_startRow w) (Z.of_nat k))
                     (cellCol (pw_direction w) (pw_startCol w) (Z.of_nat k))).
    { exists w, k. split; [exact Hw|]. split; [now apply lookup_lt_Some in Hk|].
      split; reflexivity. }
    destruct (Hopen _ _ Hcov) as (cell0 & Hcell0 & Hblack0).
    destruct (Hcells _ _ _ Hcell0) as (_ & Hc & _).
    destruct (Hc Hcov) as (_ & ch' & Hans & Hget).
    pose proof (Hholds w (proj2 (list_elem_of_In _ _) Hw) k ch Hk) as Hget'.
    assert (ch' = ch) by congruence. subst ch'.
    destruct (layout_cell _ _ _ _ _ Hl Hcell0) as (cell & Hcell & Hb & Ha & _).
    exists cell. split; [exact Hcell|]. split; congruence. }
  rewrite isComplete_cells. split.
  - intros Hdone w Hw. apply lettersCorrect_true. intros k ch Hk. rewrite Z.add_0_l.
    destruct (Hword w k ch Hw Hk) as (cell & Hcell & Hblack & Hans).
    exists cell. split; [exact Hcell|].
    apply (cellDone_true cell ch Hblack Hans). now apply (Hdone _ _ _ Hcell).
  - intros Hall r c cell Hcell.
    destruct (cellDone cell) eqn:Hdone; [reflexivity|]. exfalso.
    destruct (layout_cell _ _ _ _ _ (sameLayout_sym _ _ Hl) Hcell)
      as (cell0 & Hcell0 & Hb & _).
    destruct (Hcells _ _ _ Hcell0) as (_ & _ & Hnot & _).
    assert (Hblack : sc_isBlack cell = false).
    { unfold cellDone in Hdone. now apply orb_false_iff in Hdone as [Hdone _]. }
    assert (Hnn : ~ ~ covered (pg_words p) r c).
    { intros Hn. destruct (Hnot Hn) as [Hb0 _]. congruence. }
    apply Hnn. intros (w & k & Hw & Hk & Hr & Hc).
    destruct (lookup_lt_is_Some_2 _ _ Hk) as [ch Hch].
    destruct (Hword w k ch Hw Hch) as (cell' & Hcell' & Hblack' & Hans').
    rewrite <- Hr, <- Hc in Hcell'. assert (cell' = cell) by congruence. subst cell'.
    pose proof (proj1 (lettersCorrect_true _ _ _ _ _ 0) (Hall w Hw) k ch Hch)
      as (cell2 & Hcell2 & Hletter).
    rewrite Z.add_0_l, <- Hr, <- Hc in Hcell2.
    assert (cell2 = cell) by congruence. subst cell2.
    apply (cellDone_true cell ch Hblack Hans') in Hletter. congruence.
Qed.

(** In every state reached on a generated puzzle the completion test
    succeeds exactly when the loop of Check Word succeeds on every word
    of the puzzle: the puzzle is complete when, and only when, every
    word is filled with its answer. *)
Theorem isComplete_iff_words wordInputs options p st0 events st :
  generateCrossword wordInputs options = Some (Some p) ->
  initialSolver (pg_size p) (pg_words p) = Some st0 ->
  Forall (onBoard (pg_size p)) events ->
  foldM (handleEvent (pg_size p) (pg_words p)) st0 events = Some st ->
  (isComplete (sv_grid st) = true <->
   forall w, In w (pg_words p) ->
     lettersCorrect (sv_grid st) (pw_direction w) (pw_startRow w) (pw_startCol w) 0
       (pw_answer w) = Some true).
Proof. apply isComplete_words. Qed.

Lemma isComplete_iff_words_witness :
  isComplete (sv_grid selectedAB) = true <->
  forall w, In w (pg_words puzzleAB) ->
    lettersCorrect (sv_grid selectedAB) (pw_direction w) (pw_startRow w) (pw_startCol w) 0
      (pw_answer w) = Some true.
Proof.
  apply (isComplete_iff_words inputAB defaultOptions puzzleAB solverAB [Press 0 0]).
  - vm_compute. reflexivity.
  - vm_compute. reflexivity.
  - repeat constructor; unfold inArea; simpl; lia.
  - vm_compute. reflexivity.
Defined.

(** ** generatePuzzleForApp *)

Lemma trimStart_length s : (length (trimStart s) <= length s)%nat.
Proof.
  induction s as [|c rest IH]; simpl; [lia|].
  destruct (isWhiteSpace c); simpl; lia.
Qed.

Lemma trimEnd_length s : (length (trimEnd s) <= length s)%nat.
Proof.
  induction s as [|c rest IH]; simpl; [lia|].
  destruct (trimEnd rest) as [|k kept]; [destruct (isWhiteSpace c)|]; simpl in *; lia.
Qed.

Lemma normalizeEntry_length u : wordLength (normalizeEntry u) <= wordLength u.
Proof.
  unfold wordLength, normalizeEntry, trim, toUpperCase. cbn [wi_word].
  pose proof (trimEnd_length (trimStart (map upperChar (wi_word u)))).
  pose proof (trimStart_length (map upperChar (wi_word u))).
  rewrite length_map in *. lia.
Qed.

(** Every word of a returned puzzle is the normal form of an input
    entry. *)
Lemma generateCrossword_sources wordInputs options p w :
  generateCrossword wordInputs options = Some (Some p) ->
  In w (pg_words p) ->
  exists u, In u wordInputs /\ entryOfPlaced w = normalizeEntry u /\
            pw_answer w = wi_word (normalizeEntry u).
Proof.
  intros H Hw.
  destruct (generateCrossword_entries wordInputs options p H)
    as (firstWord & others & kept & Hsort & Hsub & Hperm & _ & Hanswer).
  rewrite Forall_forall in Hanswer.
  pose proof (Hanswer w (proj2 (list_elem_of_In _ _) Hw)) as Ha.
  assert (Hin : In (entryOfPlaced w) (firstWord :: kept)).
  { apply list_elem_of_In. rewrite <- Hperm. apply list_elem_of_In. now apply in_map. }
  assert (Hin' : In (entryOfPlaced w) (sortWords (normalizeWords wordInputs))).
  { rewrite Hsort. destruct Hin as [<-|Hin]; [now left | right].
    apply list_elem_of_In. eapply elem_of_sublist; [|exact Hsub]. now apply list_elem_of_In. }
  apply sortBy_In in Hin'. unfold normalizeWords in Hin'.
  apply filter_In in Hin' as [Hin' _]. apply in_map_iff in Hin' as (u & Hu & Huin).
  exists u. split; [exact Huin|]. split; [now symmetry|].
  rewrite Ha, Hu. reflexivity.
Qed.

Lemma sliceTo_sublist {A} n (l : list A) : sublist (sliceTo n l) l.
Proof. unfold sliceTo. destruct (0 <=? n); apply sublist_take. Qed.

Lemma sliceTo_length {A} n (l : list A) :
  0 <= n -> Z.of_nat (length (sliceTo n l)) <= n.
Proof.
  intros Hn. unfold sliceTo. destruct (Z.leb_spec 0 n); [|lia].
  rewrite length_take. lia.
Qed.

Lemma selectWords_elem difficulty userWords u :
  In u (selectWords difficulty userWords) ->
  In u userWords /\ inWindow difficulty (wordLength u).
Proof.
  destruct difficulty; simpl.
  - intros Hu. apply filter_In in Hu as [Hu Hw]. split; [exact Hu|]. lia.
  - intros Hu. apply filter_In in Hu as [Hu Hw]. split; [exact Hu|]. lia.
  - auto.
Qed.

Lemma normalizeWords_length l : (length (normalizeWords l) <= length l)%nat.
Proof.
  unfold normalizeWords. induction l as [|w rest IH]; simpl; [lia|].
  destruct (acceptedWord (normalizeEntry w)); simpl; lia.
Qed.

Lemma generatePuzzleForApp_words shuffle userWords difficulty maxWords p :
  (forall l, Permutation (shuffle l) l) ->
  0 <= maxWords ->
  generatePuzzleForApp shuffle userWords difficulty maxWords = Some (Some p) ->
  Z.of_nat (length (pg_words p)) <= maxWords /\
  forall w, In w (pg_words p) ->
    exists u, In u userWords /\ inWindow difficulty (wordLength u) /\
              entryOfPlaced w = normalizeEntry u /\
              2 <= Z.of_nat (length (pw_answer w)) <= wordLength u.
Proof.
  intros Hperm Hmax H. unfold generatePuzzleForApp in H. cbv zeta in H.
  set (selected := selectWords difficulty userWords) in *.
  set (words := sliceTo (Z.min maxWords (Z.of_nat (length selected))) (shuffle selected)) in *.
  split.
  - destruct (generateCrossword_entries _ _ p H) as (_ & _ & _ & _ & _ & _ & Hlen & _).
    pose proof (normalizeWords_length words).
    pose proof (sliceTo_length (Z.min maxWords (Z.of_nat (length selected)))
                  (shuffle selected) ltac:(lia)).
    fold words in H1. lia.
  - intros w Hw.
    destruct (generateCrossword_sources _ _ p w H Hw) as (u & Hu & Hentry & Hanswer).
    assert (Hsel : In u selected).
    { apply list_elem_of_In. rewrite <- (Hperm selected).
      eapply elem_of_sublist; [|apply sliceTo_sublist]. apply list_elem_of_In. exact Hu. }
    apply selectWords_elem in Hsel as [Huser Hwindow].
    exists u. split; [exact Huser|]. split; [exact Hwindow|]. split; [exact Hentry|].
    pose proof (generateCrossword_answers _ _ p w H Hw).
    pose proof (normalizeEntry_length u) as Hle. unfold wordLength in Hle at 1.
    rewrite <- Hanswer in Hle. lia.
Qed.

(** Whatever order the random sort leaves, a puzzle returned for the
    app from ASCII user words has at most [maxWords] words, and every
    word of it is the normal form of a user word whose length lies in
    the window of the difficulty; its answer has at least 2 letters and
    is not longer than the user word, hence at most 5 letters in an easy
    puzzle and at most 8 in a medium one. *)
Theorem generatePuzzleForApp_bounds shuffle userWords difficulty maxWords p :
  (forall l, Permutation (shuffle l) l) ->
  forallb asciiEntry userWords = true ->
  0 <= maxWords ->
  generatePuzzleForApp shuffle userWords difficulty maxWords = Some (Some p) ->
  Z.of_nat (length (pg_words p)) <= maxWords /\
  forall w, In w (pg_words p) ->
    exists u, In u userWords /\ inWindow difficulty (wordLength u) /\
              entryOfPlaced w = normalizeEntry u /\
              2 <= Z.of_nat (length (pw_answer w)) <= wordLength u.
Proof. intros Hperm _. now apply generatePuzzleForApp_words. Qed.

Lemma generatePuzzleForApp_bounds_witness :
  Z.of_nat (length (pg_words puzzleCat)) <= 6 /\
  forall w, In w (pg_words puzzleCat) ->
    exists u, In u userWordsCat /\ inWindow Easy (wordLength u) /\
              entryOfPlaced w = normalizeEntry u /\
              2 <= Z.of_nat (length (pw_answer w)) <= wordLength u.
Proof.
  apply (generatePuzzleForApp_bounds (fun l => l) userWordsCat Easy 6 puzzleCat).
  - intros l. reflexivity.
  - reflexivity.
  - lia.
  - vm_compute. reflexivity.
Defined.

(** ** The words of the puzzle screen *)

Lemma sanitizeWord_letters word : forallb isUpperAZ (sanitizeWord word) = true.
Proof.
  apply forallb_forall. intros c Hc. unfold sanitizeWord in Hc.
  now apply filter_In in Hc as [_ Hc].
Qed.

Lemma vocabularyWords_elem entries w :
  In w (vocabularyWords entries) ->
  3 <= wordLength w <= 15 /\ forallb isUpperAZ (wi_word w) = true /\
  exists e, In e entries /\ wi_word w = sanitizeWord (wi_word e) /\ wi_clue w = wi_clue e.
Proof.
  unfold vocabularyWords. intros H. apply filter_In in H as [H Hlen].
  apply in_map_iff in H as (e & <- & He). cbn [wi_word wi_clue].
  split; [unfold wordLength in *; cbn [wi_word] in *; lia|].
  split; [apply sanitizeWord_letters|]. eauto.
Qed.

Lemma normalizeWords_kept l :
  Forall (fun w => 2 <= wordLength w /\ forallb isUpperAZ (wi_word w) = true) l ->
  normalizeWords l
  = map (fun w => {| wi_word := wi_word w; wi_clue := trim (wi_clue w) |}) l.
Proof.
  unfold normalizeWords. induction 1 as [|w rest [Hlen Hletters] _ IH]; simpl; [reflexivity|].
  assert (Hword : wi_word (normalizeEntry w) = wi_word w).
  { unfold normalizeEntry. cbn [wi_word].
    now rewrite (letters_toUpperCase _ Hletters), (letters_trim _ Hletters). }
  assert (Hacc : acceptedWord (normalizeEntry w) = true).
  { rewrite acceptedWord_spec. unfold specAccepted, wordLength. rewrite Hword, Hletters.
    unfold wordLength in Hlen. apply andb_true_iff. split; [lia | reflexivity]. }
  rewrite Hacc, IH. f_equal. unfold normalizeEntry in *. cbn [wi_word] in Hword.
  now rewrite Hword.
Qed.

(** Every word that the puzzle screen hands to the generator has 3 to 15
    letters, all in A-Z, and is accepted by the normalisation of the
    generator as it is: no entry is dropped and no word is changed (the
    clue is trimmed). *)
Theorem vocabularyWords_accepted entries :
  Forall (fun w => 3 <= wordLength w <= 15 /\ forallb isUpperAZ (wi_word w) = true)
         (vocabularyWords entries) /\
  normalizeWords (vocabularyWords entries)
  = map (fun w => {| wi_word := wi_word w; wi_clue := trim (wi_clue w) |})
        (vocabularyWords entries).
Proof.
  assert (H : Forall (fun w => 3 <= wordLength w <= 15 /\
                               forallb isUpperAZ (wi_word w) = true)
                     (vocabularyWords entries)).
  { apply Forall_forall. intros w Hw. apply list_elem_of_In, vocabularyWords_elem in Hw.
    tauto. }
  split; [exact H|]. apply normalizeWords_kept.
  eapply Forall_impl; [exact H|]. simpl. intros w [Hlen Hl]. split; [lia | exact Hl].
Qed.



(** *** loadPuzzleData *)







(** ** The numbering of the specification *)

(** C7.  Clue numbering groups the records by their exact start
    position; the distinct start positions, ordered by row and then by
    column, receive the consecutive integers 1, 2, 3, ...; every record
    that starts at a position receives the number of that position, and
    keeps its word, clue, start and direction. *)
Theorem assignClueNumbers_spec (words : list WordPlacement) :
  exists positions : list Position,
    StronglySorted readsBefore positions /\
    (forall p, In p positions <-> exists w, In w words /\ startKey w = p) /\
    assignClueNumbers words = specClueNumbers words positions /\
    (forall i p w,
       positions !! i = Some p -> In w (assignClueNumbers words) ->
       startOf w = p -> pw_number w = Z.of_nat i + 1).
Proof.
  destruct (assignClueNumbers_positions words) as (positions & Hsorted & Hpos & Heq).
  exists positions. split; [exact Hsorted|]. split; [exact Hpos|]. split; [exact Heq|].
  intros i p w Hi Hw Hstart.
  destruct (assignClueNumbers_number words positions w Heq Hw) as (j & Hj & ->).
  rewrite Hstart in Hj.
  now rewrite (NoDup_lookup positions i j p (sorted_NoDup positions Hsorted) Hi Hj).
Qed.

Lemma assignClueNumbers_spec_witness :
  exists positions : list Position,
    StronglySorted readsBefore positions /\
    (forall p, In p positions <-> exists w, In w recordsFour /\ startKey w = p) /\
    assignClueNumbers recordsFour = specClueNumbers recordsFour positions /\
    (forall i p w,
       positions !! i = Some p -> In w (assignClueNumbers recordsFour) ->
       startOf w = p -> pw_number w = Z.of_nat i + 1).
Proof. apply (assignClueNumbers_spec recordsFour). Defined.
